(** * Minesweeper solver: a shallow embedding of [solver.py]

    The development follows the Python sources function by function.

    - Python integers are [Z]; a coordinate [(row, col)] is a pair of [Z].
    - A [set] or [frozenset] of coordinates is a [gset coord]; a [dict] keyed
      by coordinates is a [gmap], or an association list where the insertion
      order is observable.
    - A [while] loop is a function with a fuel argument returning [option];
      [None] means the fuel ran out.  Termination is proved separately by
      exhibiting enough fuel.
    - Floating-point probabilities are modelled by exact rationals [Qc]:
      Python's [int / int] is the double nearest to the rational computed
      here.
    - The board is an object shared with the caller.  The engine's
      assignments to the fields of a cell are updates of the board; the
      solver is given a second time as a program that is handed the board
      and hands it back (module [OnBoard]), to show that it only reads. *)

From Stdlib Require Import ZArith QArith Qcanon Lia.
From stdpp Require Import gmap list sorting.

Local Open Scope Z_scope.
#[local] Set Warnings "-clear-no-such-hyp".

(** ** The board ([minesweeper_engine.py]) *)

(** A coordinate [(row, col)]. *)
Abbreviation coord := (Z * Z)%type.

Record Cell : Type := mkCell {
  is_mine : bool;
  is_revealed : bool;
  is_flagged : bool;
  adjacent_mines : Z
}.

(** [Cell()] with the dataclass defaults. *)
Definition default_cell : Cell := mkCell false false false 0.

Definition Board : Type := list (list Cell).

Definition DIRECTIONS : list (Z * Z) :=
  [(-1, -1); (-1, 0); (-1, 1); (0, -1); (0, 1); (1, -1); (1, 0); (1, 1)].

(** [len(board)] and [len(board[0]) if rows > 0 else 0]. *)
Definition board_rows (board : Board) : Z := Z.of_nat (length board).

Definition board_cols (board : Board) : Z :=
  if 0 <? board_rows board then Z.of_nat (length (nth 0%nat board [])) else 0.

(** [board[row][col]].  Every subscript in the solver is guarded by
    [0 <= row < rows] and [0 <= col < cols], so no negative index is ever
    used; on a board with a row shorter than [cols] Python raises
    [IndexError], which is why the theorems below assume [no_short_row]. *)
Definition cell_at (board : Board) (row col : Z) : Cell :=
  nth (Z.to_nat col) (nth (Z.to_nat row) board []) default_cell.

Definition no_short_row (board : Board) : Prop :=
  Forall (λ r, board_cols board <= Z.of_nat (length r)) board.

(** [0 <= n_row < rows and 0 <= n_col < cols] *)
Definition in_bounds (rows cols : Z) (n : coord) : bool :=
  (0 <=? n.1) && (n.1 <? rows) && (0 <=? n.2) && (n.2 <? cols).

(** Truthiness of a Python set. *)
Definition nonempty_set (s : gset coord) : bool := negb (bool_decide (s = ∅)).

(** A constraint: [(frozenset of cells, required mine count)]. *)
Definition constraint : Type := gset coord * Z.

(** ** [Solver._generate_constraints] *)

(** One turn of [for d_row, d_col in DIRECTIONS], acting on
    [(unknown_neighbors, known_mine_count)]. *)
Definition gen_direction (board : Board) (rows cols : Z)
    (known_safe known_mines : gset coord) (row col : Z)
    (st : gset coord * Z) (d : Z * Z) : gset coord * Z :=
  let '(unknown_neighbors, known_mine_count) := st in
  let n_row := row + d.1 in
  let n_col := col + d.2 in
  if in_bounds rows cols (n_row, n_col) then
    let n_cell := cell_at board n_row n_col in
    if bool_decide ((n_row, n_col) ∈ known_mines) || is_flagged n_cell then
      (unknown_neighbors, known_mine_count + 1)
    else if negb (is_revealed n_cell)
            && negb (bool_decide ((n_row, n_col) ∈ known_safe)) then
      (unknown_neighbors ∪ {[ (n_row, n_col) ]}, known_mine_count)
    else st
  else st.

(** The body of the two nested [for] loops, acting on [constraints]. *)
Definition gen_cell (board : Board) (rows cols : Z)
    (known_safe known_mines : gset coord)
    (constraints : list constraint) (row col : Z) : list constraint :=
  let cell := cell_at board row col in
  if negb (is_revealed cell) || is_mine cell || (adjacent_mines cell =? 0)
  then constraints
  else
    let '(unknown_neighbors, known_mine_count) :=
      fold_left (gen_direction board rows cols known_safe known_mines row col)
                DIRECTIONS (∅, 0) in
    if nonempty_set unknown_neighbors then
      let remaining_mines := adjacent_mines cell - known_mine_count in
      constraints ++ [(unknown_neighbors, remaining_mines)]
    else constraints.

Definition _generate_constraints (board : Board) (rows cols : Z)
    (known_safe known_mines : gset coord) : list constraint :=
  fold_left
    (λ constraints row,
       fold_left
         (λ constraints col,
            gen_cell board rows cols known_safe known_mines constraints row col)
         (seqZ 0 cols) constraints)
    (seqZ 0 rows) [].

(** ** [Solver._apply_basic_rules] *)

(** One turn of [for d_row, d_col in DIRECTIONS], acting on
    [(unrevealed_n_cells, flagged_cell_count)]. *)
Definition basic_direction (board : Board) (rows cols : Z)
    (known_safe known_mines : gset coord) (row col : Z)
    (st : list coord * Z) (d : Z * Z) : list coord * Z :=
  let '(unrevealed_n_cells, flagged_cell_count) := st in
  let n_row := row + d.1 in
  let n_col := col + d.2 in
  if in_bounds rows cols (n_row, n_col) then
    let n_cell := cell_at board n_row n_col in
    if negb (is_revealed n_cell) then
      if is_flagged n_cell || bool_decide ((n_row, n_col) ∈ known_mines) then
        (unrevealed_n_cells, flagged_cell_count + 1)
      else if negb (bool_decide ((n_row, n_col) ∈ known_safe))
              && negb (bool_decide ((n_row, n_col) ∈ known_mines)) then
        (unrevealed_n_cells ++ [(n_row, n_col)], flagged_cell_count)
      else st
    else st
  else st.

(** [for coordinates in cells: if coordinates not in known: acc.add(coordinates)] *)
Definition add_unless_known (known : gset coord) (cells : list coord)
    (acc : gset coord) : gset coord :=
  fold_left
    (λ acc coordinates,
       if bool_decide (coordinates ∈ known) then acc else acc ∪ {[ coordinates ]})
    cells acc.

(** The body of the two nested [for] loops, acting on
    [(safe_cells, mine_cells)]. *)
Definition basic_cell (board : Board) (rows cols : Z)
    (known_safe known_mines : gset coord)
    (st : gset coord * gset coord) (row col : Z) : gset coord * gset coord :=
  let '(safe_cells, mine_cells) := st in
  let cell := cell_at board row col in
  if negb (is_revealed cell) || is_mine cell then st
  else
    let '(unrevealed_n_cells, flagged_cell_count) :=
      fold_left (basic_direction board rows cols known_safe known_mines row col)
                DIRECTIONS ([], 0) in
    if negb (bool_decide (unrevealed_n_cells = []))
       && (adjacent_mines cell
             =? flagged_cell_count + Z.of_nat (length unrevealed_n_cells)) then
      (safe_cells, add_unless_known known_mines unrevealed_n_cells mine_cells)
    else if negb (bool_decide (unrevealed_n_cells = []))
            && (adjacent_mines cell =? flagged_cell_count) then
      (add_unless_known known_safe unrevealed_n_cells safe_cells, mine_cells)
    else st.

Definition _apply_basic_rules (board : Board) (rows cols : Z)
    (known_safe known_mines : gset coord) : gset coord * gset coord :=
  fold_left
    (λ st row,
       fold_left
         (λ st col, basic_cell board rows cols known_safe known_mines st row col)
         (seqZ 0 cols) st)
    (seqZ 0 rows) (∅, ∅).

(** ** [Solver._apply_csp_solver] *)

(** The variables one pass of the [while] loop works on. *)
Record pass_state : Type := mkPass {
  ps_safe : gset coord;            (* safe_cells *)
  ps_mine : gset coord;            (* mine_cells *)
  ps_flag : bool;                  (* flag *)
  ps_new : list constraint;        (* new_constraints *)
  ps_processed : gset nat          (* processed *)
}.

(** The "boundary cases" of a derived constraint, then [processed.add(j)].
    The boolean is the local [added]. *)
Definition resolve_derived (new_limits : gset coord) (new_count : Z) (j : nat)
    (st : pass_state) (added : bool) : pass_state * bool :=
  let '(st1, added1) :=
    if new_count =? 0 then
      (mkPass (ps_safe st ∪ new_limits) (ps_mine st) true
              (ps_new st) (ps_processed st), added)
    else if new_count =? Z.of_nat (size new_limits) then
      (mkPass (ps_safe st) (ps_mine st ∪ new_limits) true
              (ps_new st) (ps_processed st), added)
    else if nonempty_set new_limits then
      (mkPass (ps_safe st) (ps_mine st) (ps_flag st)
              (ps_new st ++ [(new_limits, new_count)]) (ps_processed st), true)
    else (st, added) in
  (mkPass (ps_safe st1) (ps_mine st1) (ps_flag st1) (ps_new st1)
          (ps_processed st1 ∪ {[ j ]}), added1).

(** [limits1.issubset(limits2) and limits1 != limits2] *)
Definition proper_subset (limits1 limits2 : gset coord) : bool :=
  bool_decide (limits1 ⊆ limits2) && negb (bool_decide (limits1 = limits2)).

(** One turn of [for j, (limits2, count2) in enumerate(constraints)]. *)
Definition csp_inner (i : nat) (limits1 : gset coord) (count1 : Z)
    (acc : pass_state * bool) (jc : nat * constraint) : pass_state * bool :=
  let '(st, added) := acc in
  let '(j, (limits2, count2)) := jc in
  if bool_decide (i = j) || bool_decide (j ∈ ps_processed st) then acc
  else if proper_subset limits1 limits2 then
    resolve_derived (limits2 ∖ limits1) (count2 - count1) j st added
  else if proper_subset limits2 limits1 then
    resolve_derived (limits1 ∖ limits2) (count1 - count2) j st added
  else acc.

(** [enumerate(constraints)] *)
Definition enumerate {A : Type} (l : list A) : list (nat * A) :=
  zip (seq 0 (length l)) l.

(** One turn of [for i, (limits1, count1) in enumerate(constraints)]. *)
Definition csp_outer (constraints : list constraint)
    (st : pass_state) (ic : nat * constraint) : pass_state :=
  let '(i, (limits1, count1)) := ic in
  if bool_decide (i ∈ ps_processed st) then st
  else
    let '(st1, added) :=
      fold_left (csp_inner i limits1 count1) (enumerate constraints) (st, false) in
    if negb added && negb (bool_decide (i ∈ ps_processed st1)) then
      if count1 =? 0 then
        mkPass (ps_safe st1 ∪ limits1) (ps_mine st1) true
               (ps_new st1) (ps_processed st1)
      else if count1 =? Z.of_nat (size limits1) then
        mkPass (ps_safe st1) (ps_mine st1 ∪ limits1) true
               (ps_new st1) (ps_processed st1)
      else
        mkPass (ps_safe st1) (ps_mine st1) (ps_flag st1)
               (ps_new st1 ++ [(limits1, count1)]) (ps_processed st1)
    else st1.

(** The body of [while flag:] up to [constraints = new_constraints]. *)
Definition csp_pass (constraints : list constraint)
    (safe_cells mine_cells : gset coord) : pass_state :=
  fold_left (csp_outer constraints) (enumerate constraints)
            (mkPass safe_cells mine_cells false [] ∅).

(** The [while flag:] loop. *)
Fixpoint csp_loop (fuel : nat) (board : Board) (rows cols : Z)
    (known_safe known_mines : gset coord) (constraints : list constraint)
    (safe_cells mine_cells : gset coord) : option (gset coord * gset coord) :=
  match fuel with
  | O => None
  | S fuel' =>
      let st := csp_pass constraints safe_cells mine_cells in
      let constraints1 :=
        if ps_flag st && (nonempty_set (ps_safe st) || nonempty_set (ps_mine st))
        then _generate_constraints board rows cols
               (known_safe ∪ ps_safe st) (known_mines ∪ ps_mine st)
        else ps_new st in
      if ps_flag st then
        csp_loop fuel' board rows cols known_safe known_mines constraints1
                 (ps_safe st) (ps_mine st)
      else Some (ps_safe st, ps_mine st)
  end.

Definition _apply_csp_solver (fuel : nat) (board : Board) (rows cols : Z)
    (known_safe known_mines : gset coord) : option (gset coord * gset coord) :=
  let constraints :=
    _generate_constraints board rows cols known_safe known_mines in
  if bool_decide (constraints = []) then Some (∅, ∅)
  else csp_loop fuel board rows cols known_safe known_mines constraints ∅ ∅.

(** ** [Solver.solve_step] *)

(** The first [while flag:] loop of [solve_step]. *)
Fixpoint basic_loop (fuel : nat) (board : Board) (rows cols : Z)
    (safe_cells mine_cells : gset coord) : option (gset coord * gset coord) :=
  match fuel with
  | O => None
  | S fuel' =>
      let '(new_safe, new_mines) :=
        _apply_basic_rules board rows cols safe_cells mine_cells in
      if nonempty_set new_safe || nonempty_set new_mines then
        basic_loop fuel' board rows cols
                   (safe_cells ∪ new_safe) (mine_cells ∪ new_mines)
      else Some (safe_cells, mine_cells)
  end.

Definition solve_step (fuel : nat) (board : Board)
    : option (gset coord * gset coord) :=
  let rows := board_rows board in
  let cols := board_cols board in
  match basic_loop fuel board rows cols ∅ ∅ with
  | None => None
  | Some (safe_cells, mine_cells) =>
      match _apply_csp_solver fuel board rows cols safe_cells mine_cells with
      | None => None
      | Some (csp_safe, csp_mines) =>
          Some (safe_cells ∪ csp_safe, mine_cells ∪ csp_mines)
      end
  end.

(** ** Iteration order of sets and random draws

    Python leaves the order in which a [set] or [frozenset] is iterated
    unspecified.  The model takes it as an interface: any enumeration of the
    elements, each exactly once.  Nothing proved below depends on which
    enumeration it is. *)
Class SetOrder : Type := {
  set_iter : gset coord → list coord;
  set_iter_perm : ∀ s, set_iter s ≡ₚ elements s
}.

(** [random.choice(seq)]: [seq[k]] for a drawn [k < len(seq)]; [IndexError]
    on an empty sequence.  The argument [rnd] is the draw. *)
Definition random_choice {A : Type} (rnd : nat) (l : list A) : option A :=
  l !! (rnd mod length l)%nat.

(** ** [class UnionFind] *)

(** [parent] and [rank] are the two dictionaries; [uf_keys] is the insertion
    order of [parent], which Python dictionaries remember. *)
Record UnionFind : Type := mkUF {
  parent : gmap coord coord;
  rank : gmap coord Z;
  uf_keys : list coord
}.

(** [UnionFind()] *)
Definition uf_new : UnionFind := mkUF ∅ ∅ [].

(** [UnionFind.add] (and [__add__]) *)
Definition uf_add (uf : UnionFind) (item : coord) : UnionFind :=
  if bool_decide (item ∈ dom (parent uf)) then uf
  else mkUF (<[item := item]> (parent uf)) (<[item := 0]> (rank uf))
            (uf_keys uf ++ [item]).

(** [UnionFind.find]: the fuel bounds the depth of the recursion. *)
Fixpoint uf_find (fuel : nat) (uf : UnionFind) (item : coord)
    : option (UnionFind * coord) :=
  match fuel with
  | O => None
  | S fuel' =>
      let uf1 := if bool_decide (item ∈ dom (parent uf)) then uf
                 else uf_add uf item in
      p ← parent uf1 !! item;
      if negb (bool_decide (p = item)) then
        '(uf2, root) ← uf_find fuel' uf1 p;
        let uf3 := mkUF (<[item := root]> (parent uf2)) (rank uf2) (uf_keys uf2) in
        r ← parent uf3 !! item;
        Some (uf3, r)
      else Some (uf1, p)
  end.

(** [UnionFind.union] *)
Definition uf_union (fuel : nat) (uf : UnionFind) (item1 item2 : coord)
    : option UnionFind :=
  '(uf1, root1) ← uf_find fuel uf item1;
  '(uf2, root2) ← uf_find fuel uf1 item2;
  if bool_decide (root1 = root2) then Some uf2
  else
    rank1 ← rank uf2 !! root1;
    rank2 ← rank uf2 !! root2;
    if rank1 <? rank2 then
      Some (mkUF (<[root1 := root2]> (parent uf2)) (rank uf2) (uf_keys uf2))
    else if rank2 <? rank1 then
      Some (mkUF (<[root2 := root1]> (parent uf2)) (rank uf2) (uf_keys uf2))
    else
      Some (mkUF (<[root2 := root1]> (parent uf2))
                 (<[root1 := rank1 + 1]> (rank uf2)) (uf_keys uf2)).

(** [UnionFind.get_groups]: the loop runs over the keys of [parent]; every
    [find] may rewrite entries of [parent] but adds no key. *)
Definition uf_get_groups (fuel : nat) (uf : UnionFind)
    : option (UnionFind * gmap coord (gset coord)) :=
  foldl
    (λ acc item,
       '(uf1, groups) ← acc;
       '(uf2, root) ← uf_find fuel uf1 item;
       let groups1 := if bool_decide (root ∈ dom groups) then groups
                      else <[root := ∅]> groups in
       Some (uf2, <[root := default ∅ (groups1 !! root) ∪ {[ item ]}]> groups1))
    (Some (uf, ∅)) (uf_keys uf).

(** ** [Solver._find_independent_regions] *)

(** [d[key].append(x)] after [if key not in d: d[key] = []], on a dictionary
    kept as an association list in insertion order. *)
Fixpoint dict_append {V : Type} (d : list (coord * list V)) (key : coord) (x : V)
    : list (coord * list V) :=
  match d with
  | [] => [(key, [x])]
  | (k, vs) :: d' =>
      if bool_decide (k = key) then (k, vs ++ [x]) :: d'
      else (k, vs) :: dict_append d' key x
  end.

Section Regions.
Context `{SetOrder}.

(** First loop: [for cell in cells: uf.add(cell)] for every constraint. *)
Definition regions_add_all (constraints : list constraint) (uf : UnionFind)
    : UnionFind :=
  foldl (λ uf (c : constraint), foldl uf_add uf (set_iter c.1)) uf constraints.

(** [for j in range(len(cells_list) - 1):
       uf.union(cells_list[j], cells_list[j + 1])] *)
Fixpoint union_chain (fuel : nat) (uf : UnionFind) (cells_list : list coord)
    : option UnionFind :=
  match cells_list with
  | a :: (b :: _) as rest =>
      uf1 ← uf_union fuel uf a b; union_chain fuel uf1 rest
  | _ => Some uf
  end.

(** Second loop, over [constraint_to_cells.items()]. *)
Definition regions_union_all (fuel : nat) (constraints : list constraint)
    (uf : UnionFind) : option UnionFind :=
  foldl (λ acc (c : constraint),
           uf ← acc; union_chain fuel uf (set_iter c.1))
        (Some uf) constraints.

(** Third loop: [representative = uf.find(next(iter(cells)))], then the
    constraint is appended to its representative's list. *)
Definition regions_group (fuel : nat) (constraints : list constraint)
    (uf : UnionFind)
    : option (UnionFind * list (coord * list constraint)) :=
  foldl (λ acc (c : constraint),
           '(uf, region_to_constraints) ← acc;
           first ← head (set_iter c.1);
           '(uf1, representative) ← uf_find fuel uf first;
           Some (uf1, dict_append region_to_constraints representative c))
        (Some (uf, [])) constraints.

Definition _find_independent_regions (fuel : nat)
    (constraints : list constraint) : option (list (list constraint)) :=
  if bool_decide (constraints = []) then Some []
  else
    let uf := regions_add_all constraints uf_new in
    uf1 ← regions_union_all fuel constraints uf;
    '(uf2, groups) ← uf_get_groups fuel uf1;
    '(uf3, region_to_constraints) ← regions_group fuel constraints uf2;
    Some (region_to_constraints.*2).

(** ** [Solver._check_constraints] and [Solver._is_promising] *)

(** [{cells_list[i]: assignment[i] for i in range(len(assignment))}] *)
Definition cell_to_value (cells_list : list coord) (assignment : list Z)
    : gmap coord Z :=
  foldl (λ m (kv : coord * Z), <[kv.1 := kv.2]> m) ∅ (zip cells_list assignment).

Definition sumZ (l : list Z) : Z := foldl Z.add 0 l.

Definition _check_constraints (assignment : list Z) (cells_list : list coord)
    (constraints : list constraint) : bool :=
  let c2v := cell_to_value cells_list assignment in
  forallb
    (λ c : constraint,
       let mine_sum := sumZ ((λ cell, default 0 (c2v !! cell)) <$> set_iter c.1) in
       bool_decide (mine_sum = c.2))
    constraints.

(** One turn of [for cell in constraint_cells], acting on
    [(assigned_count, mine_count, unassigned_count)]. *)
Definition promising_cell (c2v : gmap coord Z) (st : Z * Z * Z) (cell : coord)
    : Z * Z * Z :=
  let '(assigned_count, mine_count, unassigned_count) := st in
  match c2v !! cell with
  | Some v =>
      (assigned_count + 1,
       (if v =? 1 then mine_count + 1 else mine_count),
       unassigned_count)
  | None => (assigned_count, mine_count, unassigned_count + 1)
  end.

Definition _is_promising (partial_assignment : list Z) (cells_list : list coord)
    (constraints : list constraint) : bool :=
  let c2v := cell_to_value cells_list partial_assignment in
  forallb
    (λ c : constraint,
       let '(_, mine_count, unassigned_count) :=
         foldl (promising_cell c2v) (0, 0, 0) (set_iter c.1) in
       negb (c.2 <? mine_count) && negb (mine_count + unassigned_count <? c.2))
    constraints.

(** ** [Solver._calculate_probabilities] *)

(** Lexicographic order on coordinates, the order of Python tuples. *)
Definition coord_le (a b : coord) : Prop :=
  a.1 < b.1 ∨ (a.1 = b.1 ∧ a.2 <= b.2).

#[global] Instance coord_le_dec a b : Decision (coord_le a b).
Proof. unfold coord_le. apply _. Defined.

(** [sorted(list(cells))] *)
Definition sorted_cells (cells : gset coord) : list coord :=
  merge_sort coord_le (set_iter cells).

(** [for i, cell in enumerate(cells_list):
       if assignment[i] == 1: mine_counts[cell] += 1] *)
Definition tally_mines (cells_list : list coord) (assignment : list Z)
    (mine_counts : gmap coord Z) : gmap coord Z :=
  foldl (λ m (kv : coord * Z),
           if kv.2 =? 1 then <[kv.1 := default 0 (m !! kv.1) + 1]> m else m)
        mine_counts (zip cells_list assignment).

(** The nested function [backtrack], with [remaining = n - index] as the
    argument the recursion descends on; the state is
    [(total_solutions, mine_counts)].  [assignment.append(value)] followed
    by [assignment.pop()] is the list [assignment ++ [value]] passed down. *)
Fixpoint backtrack (cells_list : list coord) (constraints : list constraint)
    (remaining : nat) (assignment : list Z) (st : Z * gmap coord Z)
    : Z * gmap coord Z :=
  match remaining with
  | O =>
      if _check_constraints assignment cells_list constraints then
        (st.1 + 1, tally_mines cells_list assignment st.2)
      else st
  | S remaining' =>
      foldl
        (λ st value,
           let assignment1 := assignment ++ [value] in
           if _is_promising assignment1 cells_list constraints then
             backtrack cells_list constraints remaining' assignment1 st
           else st)
        st [0; 1]
  end.

(** The result dictionary, in insertion order. *)
Definition _calculate_probabilities (constraints : list constraint)
    (cells : gset coord) : list (coord * Qc) :=
  let cells_list := sorted_cells cells in
  let n := length cells_list in
  if bool_decide (n = 0%nat) then []
  else
    let mine_counts : gmap coord Z :=
      foldl (λ m cell, <[cell := 0]> m) ∅ (set_iter cells) in
    let '(total_solutions, mine_counts1) :=
      backtrack cells_list constraints n [] (0, mine_counts) in
    if total_solutions =? 0 then
      (λ cell, (cell, Q2Qc (1 # 2))) <$> set_iter cells
    else
      (λ cell,
         (cell, (Q2Qc (inject_Z (default 0%Z (mine_counts1 !! cell)))
                 / Q2Qc (inject_Z total_solutions))%Qc))
        <$> set_iter cells.

(** ** [Solver.make_probabilistic_move] *)

(** [d[key] = v] on a dictionary kept in insertion order. *)
Fixpoint dict_set {V : Type} (d : list (coord * V)) (key : coord) (v : V)
    : list (coord * V) :=
  match d with
  | [] => [(key, v)]
  | (k, w) :: d' =>
      if bool_decide (k = key) then (k, v) :: d'
      else (k, w) :: dict_set d' key v
  end.

(** [d.get(key, dflt)] *)
Fixpoint dict_get {V : Type} (d : list (coord * V)) (key : coord) (dflt : V) : V :=
  match d with
  | [] => dflt
  | (k, w) :: d' => if bool_decide (k = key) then w else dict_get d' key dflt
  end.

(** [d.update(other)] *)
Definition dict_update {V : Type} (d other : list (coord * V)) : list (coord * V) :=
  foldl (λ d (kv : coord * V), dict_set d kv.1 kv.2) d other.

(** The set built by the first pair of loops. *)
Definition unrevealed_cells (board : Board) (rows cols : Z) : gset coord :=
  foldl
    (λ acc row,
       foldl
         (λ acc col,
            let cell := cell_at board row col in
            if negb (is_revealed cell) && negb (is_flagged cell)
            then acc ∪ {[ (row, col) ]} else acc)
         acc (seqZ 0 cols))
    ∅ (seqZ 0 rows).

(** [for limits_set, _ in constraints: cells.update(limits_set)] *)
Definition union_limits (constraints : list constraint) : gset coord :=
  foldl (λ acc (c : constraint), acc ∪ c.1) ∅ constraints.

(** The loop over [independent_regions], acting on [cell_probabilities]. *)
Definition region_probabilities (independent_regions : list (list constraint))
    : list (coord * Qc) :=
  foldl
    (λ cell_probabilities region_constraints,
       let region_cells := union_limits region_constraints in
       if negb (nonempty_set region_cells) then cell_probabilities
       else dict_update cell_probabilities
              (_calculate_probabilities region_constraints region_cells))
    [] independent_regions.

(** The count of flagged cells made inside [if interior_cells:]. *)
Definition flagged_count (board : Board) (rows cols : Z) : Z :=
  foldl
    (λ acc row,
       foldl
         (λ acc col,
            if is_flagged (cell_at board row col) then acc + 1 else acc)
         acc (seqZ 0 cols))
    0 (seqZ 0 rows).

Definition sumQc (l : list Qc) : Qc := foldl Qcplus (Q2Qc 0) l.

(** [max(0.0, x)]: the first argument unless the second is greater. *)
Definition max0 (x : Qc) : Qc := if Qclt_le_dec (Q2Qc 0) x then x else Q2Qc 0.

(** [interior_probability], from the values of the enclosing variables.  The
    source writes [max(0.0, ...) if interior_cells else 1.0] inside
    [if interior_cells:], so the [else] value is never taken. *)
Definition interior_probability (total_mines : Z) (board : Board) (rows cols : Z)
    (border_cells interior_cells : gset coord)
    (cell_probabilities : list (coord * Qc)) : Qc :=
  let flagged_mines := flagged_count board rows cols in
  let border_mine_count :=
    sumQc ((λ cell, dict_get cell_probabilities cell (Q2Qc (1 # 2)))
             <$> set_iter border_cells) in
  let remaining_mines :=
    (Q2Qc (inject_Z total_mines) - Q2Qc (inject_Z flagged_mines)
     - border_mine_count)%Qc in
  max0 (remaining_mines / Q2Qc (inject_Z (Z.of_nat (size interior_cells))))%Qc.

(** The dictionary [cell_probabilities] as it stands when the minimum is
    taken, for a board on which [constraints] is not empty. *)
Definition cell_probability_map (total_mines : Z) (fuel : nat) (board : Board)
    : option (list (coord * Qc)) :=
  let rows := board_rows board in
  let cols := board_cols board in
  let unrevealed := unrevealed_cells board rows cols in
  let constraints := _generate_constraints board rows cols ∅ ∅ in
  let border_cells := union_limits constraints in
  let interior_cells := unrevealed ∖ border_cells in
  independent_regions ← _find_independent_regions fuel constraints;
  let cell_probabilities := region_probabilities independent_regions in
  if nonempty_set interior_cells then
    let p := interior_probability total_mines board rows cols
               border_cells interior_cells cell_probabilities in
    Some (foldl (λ d cell, dict_set d cell p) cell_probabilities
                (set_iter interior_cells))
  else Some cell_probabilities.

(** [min(d.keys(), key=lambda c: d[c])]: the first key whose value is
    least; [ValueError] on an empty dictionary. *)
Definition dict_argmin (d : list (coord * Qc)) : option coord :=
  match d with
  | [] => None
  | kv :: d' =>
      Some (foldl (λ best (kv : coord * Qc),
                     if Qclt_le_dec kv.2 best.2 then kv else best) kv d').1
  end.

Definition make_probabilistic_move (total_mines : Z) (fuel rnd : nat)
    (board : Board) : option coord :=
  let rows := board_rows board in
  let cols := board_cols board in
  let unrevealed := unrevealed_cells board rows cols in
  if negb (nonempty_set unrevealed) then Some (0, 0)
  else
    let constraints := _generate_constraints board rows cols ∅ ∅ in
    if bool_decide (constraints = []) then
      random_choice rnd (set_iter unrevealed)
    else
      cell_probabilities ← cell_probability_map total_mines fuel board;
      if negb (bool_decide (cell_probabilities = [])) then
        dict_argmin cell_probabilities
      else random_choice rnd (set_iter unrevealed).

End Regions.

(** The enumeration of stdpp's [elements] is one admissible iteration order;
    it is the one the examples are evaluated with. *)
#[global] Instance elements_order : SetOrder :=
  {| set_iter := elements; set_iter_perm := λ s, reflexivity _ |}.

(** Shorthands used to write boards down in examples. *)
Definition hidden : Cell := mkCell false false false 0.
Definition hidden_mine : Cell := mkCell true false false 0.
Definition flagged_mine : Cell := mkCell true false true 0.
Definition flagged_clear (k : Z) : Cell := mkCell false false true k.
Definition hidden_clear (k : Z) : Cell := mkCell false false false k.
Definition shown (k : Z) : Cell := mkCell false true false k.

(** * Properties *)

(** ** Loops over the grid *)

(** The cells of the grid in the order the nested [for] loops visit them. *)
Definition row_major (rows cols : Z) : list coord :=
  r ← seqZ 0 rows; pair r <$> seqZ 0 cols.

Lemma fold_left_nested {S : Type} (F : S → Z → Z → S) (rs cs : list Z) (s : S) :
  fold_left (λ st row, fold_left (λ st col, F st row col) cs st) rs s
  = fold_left (λ st rc, F st rc.1 rc.2) (r ← rs; pair r <$> cs) s.
Proof.
  revert s. induction rs as [|r rs IH]; intros s; [done|].
  cbn [fold_left mbind list_bind]. change (mbind ?f rs) with (rs ≫= f).
  rewrite fold_left_app, <- IH. f_equal.
  clear. revert s. induction cs as [|c cs IH]; intros s; [done|].
  cbn. apply IH.
Qed.

Lemma elem_of_row_major rows cols (n : coord) :
  n ∈ row_major rows cols ↔ in_bounds rows cols n = true.
Proof.
  unfold row_major, in_bounds. destruct n as [r c]. cbn [fst snd].
  rewrite list_elem_of_bind. split.
  - intros (r' & Hc & Hr). apply list_elem_of_fmap in Hc as (c' & Heq & Hc).
    inversion Heq; subst. apply elem_of_seqZ in Hr, Hc.
    repeat (apply andb_true_intro; split); lia.
  - intros Hb. repeat (apply andb_prop in Hb as [Hb ?]).
    exists r. split.
    + apply list_elem_of_fmap. exists c. split; [done|]. apply elem_of_seqZ. lia.
    + apply elem_of_seqZ. lia.
Qed.

Lemma NoDup_row_major rows cols : NoDup (row_major rows cols).
Proof.
  unfold row_major. generalize (NoDup_seqZ 0 rows).
  induction (seqZ 0 rows) as [|r rs IH]; intros Hnd; cbn; [constructor|].
  apply NoDup_cons in Hnd as [Hr Hnd].
  apply NoDup_app. split_and!.
  - apply NoDup_fmap_2; [intros ?? [=]; done | apply NoDup_seqZ].
  - intros [r1 c1] H1 H2. apply list_elem_of_fmap in H1 as (c' & [= -> ->] & _).
    change (mbind ?f rs) with (rs ≫= f) in H2.
    apply list_elem_of_bind in H2 as (r' & Hc & Hr').
    apply list_elem_of_fmap in Hc as (c'' & [= <- _] & _). done.
  - by apply IH.
Qed.

(** ** Neighbours *)

(** The in-bounds neighbours of a cell, in the order of [DIRECTIONS]. *)
Definition shifted (row col : Z) (ds : list (Z * Z)) : list coord :=
  (λ d, (row + d.1, col + d.2)) <$> ds.

Definition neighbors (rows cols row col : Z) : list coord :=
  filter (λ n, in_bounds rows cols n) (shifted row col DIRECTIONS).

(** Two distinct cells that touch by a side or a corner. *)
Definition adjacent (a b : coord) : Prop :=
  a ≠ b ∧ Z.abs (a.1 - b.1) <= 1 ∧ Z.abs (a.2 - b.2) <= 1.

Lemma elem_of_neighbors rows cols row col (n : coord) :
  n ∈ neighbors rows cols row col
  ↔ adjacent (row, col) n ∧ in_bounds rows cols n = true.
Proof.
  unfold neighbors, adjacent. rewrite list_elem_of_filter, Is_true_true.
  destruct n as [r c]. cbn [fst snd].
  split.
  - intros [Hb Hin]. split; [|done].
    unfold shifted, DIRECTIONS in Hin.
    rewrite !fmap_cons in Hin. cbn [fst snd] in Hin.
    repeat (apply elem_of_cons in Hin as [Hin|Hin];
            [inversion Hin; subst; split; [intros [=]; lia | lia] |]).
    by apply elem_of_nil in Hin.
  - intros [(Hne & Hr & Hc) Hb]. split; [done|].
    assert (Hd : (r - row, c - col) ∈ DIRECTIONS).
    { assert (r - row = -1 ∨ r - row = 0 ∨ r - row = 1) as Hr' by lia.
      assert (c - col = -1 ∨ c - col = 0 ∨ c - col = 1) as Hc' by lia.
      unfold DIRECTIONS.
      destruct Hr' as [->|[Hr0| ->]], Hc' as [->|[Hc0| ->]];
        try rewrite Hr0; try rewrite Hc0; try set_solver.
      exfalso. apply Hne. f_equal; lia. }
    unfold shifted. apply list_elem_of_fmap. exists (r - row, c - col).
    split; [|done]. cbn. f_equal; lia.
Qed.

Lemma NoDup_neighbors rows cols row col : NoDup (neighbors rows cols row col).
Proof.
  unfold neighbors. apply NoDup_filter.
  unfold shifted. apply NoDup_fmap_2.
  - intros [a b] [c d] [=]. f_equal; lia.
  - by apply (bool_decide_unpack _); vm_compute.
Qed.

(** ** The constraint generator, read off the board *)

(** A neighbour the generator leaves in the constraint: hidden, unflagged,
    and in neither of the known sets. *)
Definition is_unknown (board : Board) (known_safe known_mines : gset coord)
    (n : coord) : bool :=
  negb (is_revealed (cell_at board n.1 n.2))
  && negb (is_flagged (cell_at board n.1 n.2))
  && negb (bool_decide (n ∈ known_safe))
  && negb (bool_decide (n ∈ known_mines)).

(** A neighbour the generator counts as a known mine. *)
Definition counts_as_mine (board : Board) (known_mines : gset coord)
    (n : coord) : bool :=
  is_flagged (cell_at board n.1 n.2) || bool_decide (n ∈ known_mines).

Definition unknown_of (board : Board) (rows cols : Z)
    (known_safe known_mines : gset coord) (rc : coord) : gset coord :=
  list_to_set (filter (λ n, is_unknown board known_safe known_mines n)
                      (neighbors rows cols rc.1 rc.2)).

Definition remaining_of (board : Board) (rows cols : Z)
    (known_mines : gset coord) (rc : coord) : Z :=
  adjacent_mines (cell_at board rc.1 rc.2)
  - Z.of_nat (length (filter (λ n, counts_as_mine board known_mines n)
                             (neighbors rows cols rc.1 rc.2))).

(** A cell that gets a constraint: revealed, not a mine, a positive count,
    and at least one unknown neighbour. *)
Definition constrained (board : Board) (rows cols : Z)
    (known_safe known_mines : gset coord) (rc : coord) : bool :=
  is_revealed (cell_at board rc.1 rc.2)
  && negb (is_mine (cell_at board rc.1 rc.2))
  && (0 <? adjacent_mines (cell_at board rc.1 rc.2))
  && nonempty_set (unknown_of board rows cols known_safe known_mines rc).

(** The adjacent counts of a board are not negative. *)
Definition counts_valid (board : Board) : Prop :=
  Forall (Forall (λ c, 0 <= adjacent_mines c)) board.

Lemma cell_at_valid board row col :
  counts_valid board → 0 <= adjacent_mines (cell_at board row col).
Proof.
  intros Hv. unfold cell_at.
  destruct (nth_in_or_default (Z.to_nat row) board []) as [Hin | ->].
  - set (r := nth (Z.to_nat row) board []) in *.
    assert (Hr : Forall (λ c, 0 <= adjacent_mines c) r).
    { eapply Forall_forall in Hv; [exact Hv|]. by apply list_elem_of_In. }
    destruct (nth_in_or_default (Z.to_nat col) r default_cell) as [Hin' | ->].
    + eapply Forall_forall in Hr; [exact Hr|]. by apply list_elem_of_In.
    + done.
  - by destruct (Z.to_nat col).
Qed.

Lemma filter_cons_bool {A : Type} (f : A → bool) (x : A) (l : list A) :
  filter (λ n, f n) (x :: l)
  = if f x then x :: filter (λ n, f n) l else filter (λ n, f n) l.
Proof.
  rewrite filter_cons. destruct (decide (f x)) as [Hx|Hx]; destruct (f x); done.
Qed.

Lemma gen_direction_fold board rows cols ks km row col ds U k :
  fold_left (gen_direction board rows cols ks km row col) ds (U, k)
  = (U ∪ list_to_set
           (filter (λ n, is_unknown board ks km n)
                   (filter (λ n, in_bounds rows cols n) (shifted row col ds))),
     k + Z.of_nat
           (length (filter (λ n, counts_as_mine board km n)
                           (filter (λ n, in_bounds rows cols n)
                                   (shifted row col ds))))).
Proof.
  revert U k. induction ds as [|d ds IH]; intros U k.
  - cbn. by rewrite (right_id_L ∅ (∪)), Z.add_0_r.
  - cbn [fold_left]. unfold shifted. rewrite fmap_cons.
    change (fmap ?f ds) with (shifted row col ds).
    unfold gen_direction at 2.
    rewrite (filter_cons_bool (in_bounds rows cols)).
    destruct (in_bounds rows cols (row + d.1, col + d.2)) eqn:Hb; [|apply IH].
    rewrite (filter_cons_bool (is_unknown board ks km)),
            (filter_cons_bool (counts_as_mine board km)).
    unfold is_unknown at 1, counts_as_mine at 1. cbn [fst snd].
    destruct (bool_decide ((row + d.1, col + d.2) ∈ km)) eqn:Hkm;
      destruct (is_flagged (cell_at board (row + d.1) (col + d.2))) eqn:Hfl;
      destruct (is_revealed (cell_at board (row + d.1) (col + d.2))) eqn:Hrev;
      destruct (bool_decide ((row + d.1, col + d.2) ∈ ks)) eqn:Hks;
      cbn [negb andb orb]; rewrite IH; cbn [length]; f_equal;
      rewrite ?list_to_set_cons, ?Nat2Z.inj_succ;
      rewrite ?(assoc_L (∪)); first [ done | lia ].
Qed.

(** The test the generator itself makes: the count is compared with zero. *)
Definition gen_fires (board : Board) (rows cols : Z)
    (known_safe known_mines : gset coord) (rc : coord) : bool :=
  is_revealed (cell_at board rc.1 rc.2)
  && negb (is_mine (cell_at board rc.1 rc.2))
  && negb (adjacent_mines (cell_at board rc.1 rc.2) =? 0)
  && nonempty_set (unknown_of board rows cols known_safe known_mines rc).

Lemma gen_cell_spec board rows cols ks km cs row col :
  gen_cell board rows cols ks km cs row col
  = cs ++ (if gen_fires board rows cols ks km (row, col)
           then [(unknown_of board rows cols ks km (row, col),
                  remaining_of board rows cols km (row, col))]
           else []).
Proof.
  unfold gen_cell, gen_fires. cbn [fst snd].
  rewrite gen_direction_fold.
  fold (neighbors rows cols row col).
  rewrite (left_id_L ∅ (∪)), Z.add_0_l.
  change (list_to_set (filter _ (neighbors rows cols row col)))
    with (unknown_of board rows cols ks km (row, col)).
  destruct (is_revealed (cell_at board row col)); cbn [negb orb andb];
    [|by rewrite app_nil_r].
  destruct (is_mine (cell_at board row col)); cbn [negb orb andb];
    [by rewrite app_nil_r|].
  destruct (adjacent_mines (cell_at board row col) =? 0); cbn [negb orb andb];
    [by rewrite app_nil_r|].
  destruct (nonempty_set _); [done | by rewrite app_nil_r].
Qed.

Lemma generate_constraints_fires board rows cols ks km :
  _generate_constraints board rows cols ks km
  = (λ rc, (unknown_of board rows cols ks km rc,
            remaining_of board rows cols km rc))
      <$> filter (λ rc, gen_fires board rows cols ks km rc)
                 (row_major rows cols).
Proof.
  unfold _generate_constraints.
  rewrite (fold_left_nested
             (λ cs row col, gen_cell board rows cols ks km cs row col)).
  fold (row_major rows cols).
  enough (Hgen : ∀ l cs,
            fold_left (λ st (rc : coord),
                         gen_cell board rows cols ks km st rc.1 rc.2) l cs
            = cs ++ ((λ rc, (unknown_of board rows cols ks km rc,
                             remaining_of board rows cols km rc))
                       <$> filter (λ rc, gen_fires board rows cols ks km rc) l))
    by apply Hgen.
  induction l as [|[r c] l IH]; intros cs.
  - cbn. by rewrite app_nil_r.
  - cbn [fold_left fst snd]. rewrite IH, gen_cell_spec.
    rewrite (filter_cons_bool (gen_fires board rows cols ks km)).
    destruct (gen_fires board rows cols ks km (r, c)) eqn:Hc.
    + rewrite fmap_cons, <- app_assoc. done.
    + by rewrite app_nil_r.
Qed.

Lemma gen_fires_constrained board rows cols ks km rc :
  counts_valid board →
  gen_fires board rows cols ks km rc = constrained board rows cols ks km rc.
Proof.
  intros Hv. unfold gen_fires, constrained.
  pose proof (cell_at_valid board rc.1 rc.2 Hv) as Hnn.
  do 2 f_equal.
  destruct (Z.eqb_spec (adjacent_mines (cell_at board rc.1 rc.2)) 0) as [E|E];
    cbn [negb]; symmetry; [apply Z.ltb_ge | apply Z.ltb_lt]; lia.
Qed.

Lemma generate_constraints_spec board rows cols ks km :
  counts_valid board →
  _generate_constraints board rows cols ks km
  = (λ rc, (unknown_of board rows cols ks km rc,
            remaining_of board rows cols km rc))
      <$> filter (λ rc, constrained board rows cols ks km rc)
                 (row_major rows cols).
Proof.
  intros Hv. rewrite generate_constraints_fires. f_equal.
  apply list_filter_iff. intros rc. by rewrite gen_fires_constrained.
Qed.

Lemma elem_of_unknown_of board rows cols ks km rc (n : coord) :
  n ∈ unknown_of board rows cols ks km rc
  ↔ adjacent rc n ∧ in_bounds rows cols n = true
    ∧ is_revealed (cell_at board n.1 n.2) = false
    ∧ is_flagged (cell_at board n.1 n.2) = false
    ∧ (n ∉ ks) ∧ (n ∉ km).
Proof.
  unfold unknown_of. rewrite elem_of_list_to_set, list_elem_of_filter.
  destruct rc as [row col]. cbn [fst snd].
  rewrite elem_of_neighbors. unfold is_unknown.
  rewrite !andb_True, !negb_True, !bool_decide_spec, !Is_true_false.
  tauto.
Qed.

Lemma generate_constraints_nonempty board rows cols ks km (c : constraint) :
  c ∈ _generate_constraints board rows cols ks km → c.1 ≠ ∅.
Proof.
  rewrite generate_constraints_fires.
  intros Hc. apply list_elem_of_fmap in Hc as (rc & -> & Hrc).
  apply list_elem_of_filter in Hrc as [Hrc _].
  unfold gen_fires in Hrc. rewrite !andb_True in Hrc.
  destruct Hrc as (_ & Hne). unfold nonempty_set in Hne.
  rewrite negb_True, bool_decide_spec in Hne. exact Hne.
Qed.

(** A small position used to instantiate the statements: the top row is
    revealed and reads 1 2 1, the bottom row is hidden. *)
Definition board_121 : Board :=
  [[shown 1; shown 2; shown 1]; [hidden_mine; hidden; hidden_mine]].

Lemma board_121_counts_valid : counts_valid board_121.
Proof. by apply (bool_decide_unpack _); vm_compute. Defined.

Lemma board_121_no_short_row : no_short_row board_121.
Proof. by apply (bool_decide_unpack _); vm_compute. Defined.

(** C8.  On a board whose rows are at least as long as the first and whose
    counts are not negative, [_generate_constraints] yields, in grid order,
    exactly one constraint for each revealed non-mine cell with a positive
    count and at least one unknown neighbour, and none for any other cell.
    The cell set of that constraint consists of the in-bounds neighbours that
    are hidden, unflagged and in neither known set; its count is the cell's
    adjacent count minus the number of neighbours that are flagged or in the
    known-mine set; and no constraint has an empty cell set. *)
Theorem generate_constraints_exact (board : Board) (ks km : gset coord) :
  no_short_row board →
  counts_valid board →
  let rows := board_rows board in
  let cols := board_cols board in
  _generate_constraints board rows cols ks km
  = (λ rc, (unknown_of board rows cols ks km rc,
            remaining_of board rows cols km rc))
      <$> filter (λ rc, constrained board rows cols ks km rc)
                 (row_major rows cols)
  ∧ NoDup (row_major rows cols)
  ∧ (∀ rc n : coord,
       n ∈ unknown_of board rows cols ks km rc
       ↔ adjacent rc n ∧ in_bounds rows cols n = true
         ∧ is_revealed (cell_at board n.1 n.2) = false
         ∧ is_flagged (cell_at board n.1 n.2) = false
         ∧ (n ∉ ks) ∧ (n ∉ km))
  ∧ (∀ rc : coord,
       remaining_of board rows cols km rc
       = adjacent_mines (cell_at board rc.1 rc.2)
         - Z.of_nat (size (filter
                             (λ n, is_flagged (cell_at board n.1 n.2) = true
                                   ∨ n ∈ km)
                             (list_to_set (neighbors rows cols rc.1 rc.2)
                                : gset coord))))
  ∧ (∀ c : constraint,
       c ∈ _generate_constraints board rows cols ks km → c.1 ≠ ∅).
Proof.
  intros _ Hv rows cols. split_and!.
  - by apply generate_constraints_spec.
  - apply NoDup_row_major.
  - intros rc n. apply elem_of_unknown_of.
  - intros rc. unfold remaining_of. do 2 f_equal.
    rewrite <- (size_list_to_set (C := gset coord))
      by (apply NoDup_filter, NoDup_neighbors).
    f_equal. apply set_eq. intros n.
    rewrite elem_of_filter, !elem_of_list_to_set, list_elem_of_filter.
    unfold counts_as_mine. rewrite orb_True, bool_decide_spec, Is_true_true.
    tauto.
  - intros c. by apply generate_constraints_nonempty.
Qed.

Lemma generate_constraints_exact_witness :
  _generate_constraints board_121 2 3 ∅ ∅
  = (λ rc, (unknown_of board_121 2 3 ∅ ∅ rc, remaining_of board_121 2 3 ∅ rc))
      <$> filter (λ rc, constrained board_121 2 3 ∅ ∅ rc) (row_major 2 3).
Proof.
  exact (proj1 (generate_constraints_exact board_121 ∅ ∅
                  board_121_no_short_row board_121_counts_valid)).
Defined.

(** ** The basic rules, read off the board *)

Lemma fold_left_invariant {S A : Type} (P : S → Prop) (f : S → A → S)
    (l : list A) (s : S) :
  P s → (∀ s a, a ∈ l → P s → P (f s a)) → P (fold_left f l s).
Proof.
  revert s. induction l as [|a l IH]; intros s Hs Hf; [done|].
  cbn. apply IH.
  - apply Hf; [left | done].
  - intros s' a' Ha'. apply Hf. by right.
Qed.

(** A hidden neighbour the basic rules count as a mine. *)
Definition basic_counted (board : Board) (known_mines : gset coord)
    (n : coord) : bool :=
  negb (is_revealed (cell_at board n.1 n.2))
  && (is_flagged (cell_at board n.1 n.2) || bool_decide (n ∈ known_mines)).

Lemma basic_direction_fold board rows cols ks km row col ds L k :
  fold_left (basic_direction board rows cols ks km row col) ds (L, k)
  = (L ++ filter (λ n, is_unknown board ks km n)
                 (filter (λ n, in_bounds rows cols n) (shifted row col ds)),
     k + Z.of_nat
           (length (filter (λ n, basic_counted board km n)
                           (filter (λ n, in_bounds rows cols n)
                                   (shifted row col ds))))).
Proof.
  revert L k. induction ds as [|d ds IH]; intros L k.
  - cbn. by rewrite app_nil_r, Z.add_0_r.
  - cbn [fold_left]. unfold shifted. rewrite fmap_cons.
    change (fmap ?f ds) with (shifted row col ds).
    unfold basic_direction at 2.
    rewrite (filter_cons_bool (in_bounds rows cols)).
    destruct (in_bounds rows cols (row + d.1, col + d.2)) eqn:Hb; [|apply IH].
    rewrite (filter_cons_bool (is_unknown board ks km)),
            (filter_cons_bool (basic_counted board km)).
    unfold is_unknown at 1, basic_counted at 1. cbn [fst snd].
    destruct (bool_decide ((row + d.1, col + d.2) ∈ km)) eqn:Hkm;
      destruct (is_flagged (cell_at board (row + d.1) (col + d.2))) eqn:Hfl;
      destruct (is_revealed (cell_at board (row + d.1) (col + d.2))) eqn:Hrev;
      destruct (bool_decide ((row + d.1, col + d.2) ∈ ks)) eqn:Hks;
      cbn [negb andb orb]; rewrite IH; cbn [length]; f_equal;
      rewrite ?Nat2Z.inj_succ, <- ?app_assoc; first [ done | lia ].
Qed.

Lemma add_unless_known_spec known cells acc :
  add_unless_known known cells acc = acc ∪ (list_to_set cells ∖ known).
Proof.
  unfold add_unless_known. revert acc.
  induction cells as [|c cells IH]; intros acc; cbn [fold_left].
  - apply set_eq. intros x. rewrite elem_of_union, elem_of_difference,
      elem_of_list_to_set, elem_of_nil. tauto.
  - rewrite IH. apply set_eq. intros x. case_bool_decide as Hc;
      rewrite !elem_of_union, !elem_of_difference, list_to_set_cons,
        ?elem_of_union, ?elem_of_singleton;
      [ split; [tauto | intros [?|[[->|?] ?]]; tauto]
      | destruct (decide (x = c)) as [->|]; tauto ].
Qed.

(** What one grid cell contributes under the two rules. *)
Definition rule_all_mines (board : Board) (rows cols : Z)
    (ks km : gset coord) (rc : coord) : bool :=
  is_revealed (cell_at board rc.1 rc.2)
  && negb (is_mine (cell_at board rc.1 rc.2))
  && nonempty_set (unknown_of board rows cols ks km rc)
  && (adjacent_mines (cell_at board rc.1 rc.2)
        =? Z.of_nat (length (filter (λ n, basic_counted board km n)
                                    (neighbors rows cols rc.1 rc.2)))
           + Z.of_nat (size (unknown_of board rows cols ks km rc))).

Definition rule_all_safe (board : Board) (rows cols : Z)
    (ks km : gset coord) (rc : coord) : bool :=
  is_revealed (cell_at board rc.1 rc.2)
  && negb (is_mine (cell_at board rc.1 rc.2))
  && nonempty_set (unknown_of board rows cols ks km rc)
  && (adjacent_mines (cell_at board rc.1 rc.2)
        =? Z.of_nat (length (filter (λ n, basic_counted board km n)
                                    (neighbors rows cols rc.1 rc.2)))).

Lemma unknown_list_props board rows cols ks km rc :
  let l := filter (λ n, is_unknown board ks km n) (neighbors rows cols rc.1 rc.2) in
  NoDup l
  ∧ Z.of_nat (length l) = Z.of_nat (size (unknown_of board rows cols ks km rc))
  ∧ list_to_set l ∖ ks = unknown_of board rows cols ks km rc
  ∧ list_to_set l ∖ km = unknown_of board rows cols ks km rc
  ∧ (l = [] ↔ unknown_of board rows cols ks km rc = ∅).
Proof.
  intros l. assert (Hnd : NoDup l) by apply NoDup_filter, NoDup_neighbors.
  assert (Hin : ∀ n, n ∈ l → (n ∉ ks) ∧ (n ∉ km)).
  { intros n Hn. apply list_elem_of_filter in Hn as [Hn _].
    unfold is_unknown in Hn. rewrite !andb_True, !negb_True in Hn.
    rewrite !bool_decide_spec in Hn. tauto. }
  split_and!.
  - done.
  - unfold unknown_of. by rewrite size_list_to_set.
  - apply set_eq. intros n. unfold unknown_of. fold l.
    rewrite elem_of_difference, elem_of_list_to_set. naive_solver.
  - apply set_eq. intros n. unfold unknown_of. fold l.
    rewrite elem_of_difference, elem_of_list_to_set. naive_solver.
  - unfold unknown_of. fold l. split; [by intros -> |].
    intros He. destruct l as [|x l']; [done|].
    exfalso. assert (x ∈ (∅ : gset coord)) as Hx
      by (rewrite <- He, elem_of_list_to_set; left).
    by apply not_elem_of_empty in Hx.
Qed.

Lemma basic_cell_spec board rows cols ks km safe mine row col :
  basic_cell board rows cols ks km (safe, mine) row col
  = if rule_all_mines board rows cols ks km (row, col)
    then (safe, mine ∪ unknown_of board rows cols ks km (row, col))
    else if rule_all_safe board rows cols ks km (row, col)
    then (safe ∪ unknown_of board rows cols ks km (row, col), mine)
    else (safe, mine).
Proof.
  unfold basic_cell, rule_all_mines, rule_all_safe. cbn [fst snd].
  rewrite basic_direction_fold. fold (neighbors rows cols row col).
  rewrite app_nil_l, Z.add_0_l, !add_unless_known_spec.
  destruct (unknown_list_props board rows cols ks km (row, col))
    as (Hnd & Hlen & Hks & Hkm & Hnil).
  cbn [fst snd] in *. cbn zeta in *.
  rewrite Hlen, Hks, Hkm.
  assert (Hne : negb (bool_decide
             (filter (λ n, is_unknown board ks km n)
                     (neighbors rows cols row col) = []))
          = nonempty_set (unknown_of board rows cols ks km (row, col))).
  { unfold nonempty_set. f_equal. apply bool_decide_ext. exact Hnil. }
  rewrite Hne.
  destruct (is_revealed (cell_at board row col)); cbn [negb orb andb]; [|done].
  destruct (is_mine (cell_at board row col)); cbn [negb orb andb]; [done|].
  done.
Qed.

(** The result of a scan of the grid under the basic rules: every cell added
    comes from the unknown neighbours of a cell one of the rules fired on. *)
Lemma apply_basic_rules_elem board rows cols ks km (n : coord) :
  (n ∈ (_apply_basic_rules board rows cols ks km).1 →
     ∃ rc, in_bounds rows cols rc = true
           ∧ rule_all_mines board rows cols ks km rc = false
           ∧ rule_all_safe board rows cols ks km rc = true
           ∧ n ∈ unknown_of board rows cols ks km rc)
  ∧ (n ∈ (_apply_basic_rules board rows cols ks km).2 →
     ∃ rc, in_bounds rows cols rc = true
           ∧ rule_all_mines board rows cols ks km rc = true
           ∧ n ∈ unknown_of board rows cols ks km rc).
Proof.
  unfold _apply_basic_rules.
  rewrite (fold_left_nested
             (λ st row col, basic_cell board rows cols ks km st row col)).
  fold (row_major rows cols).
  apply (fold_left_invariant
           (λ st : gset coord * gset coord,
              (n ∈ st.1 → ∃ rc, in_bounds rows cols rc = true
                 ∧ rule_all_mines board rows cols ks km rc = false
                 ∧ rule_all_safe board rows cols ks km rc = true
                 ∧ n ∈ unknown_of board rows cols ks km rc)
              ∧ (n ∈ st.2 → ∃ rc, in_bounds rows cols rc = true
                 ∧ rule_all_mines board rows cols ks km rc = true
                 ∧ n ∈ unknown_of board rows cols ks km rc))).
  - cbn. split; intros Hn; by apply not_elem_of_empty in Hn.
  - intros [safe mine] [row col] Hrc [IHs IHm]. cbn [fst snd] in *.
    apply elem_of_row_major in Hrc.
    rewrite basic_cell_spec.
    destruct (rule_all_mines board rows cols ks km (row, col)) eqn:R1;
      [|destruct (rule_all_safe board rows cols ks km (row, col)) eqn:R2];
      cbn [fst snd]; (split; [clear IHm | clear IHs]); try done;
      rewrite elem_of_union; intros [Hn|Hn]; eauto 10.
Qed.

(** ** Mine arrangements *)

(** A full-board arrangement says of every cell whether it holds a mine. *)
Definition arrangement : Type := coord → bool.

Definition count_true (m : arrangement) (l : list coord) : Z :=
  Z.of_nat (length (filter (λ n, m n) l)).

(** The number of mines of [m] inside a set of cells. *)
Definition mines_in (m : arrangement) (s : gset coord) : Z :=
  count_true m (elements s).

(** The count [_calculate_adjacent_mines] writes into a cell: the in-bounds
    neighbours that hold a mine. *)
Definition mines_around (m : arrangement) (rows cols row col : Z) : Z :=
  count_true m (neighbors rows cols row col).

(** [m] agrees with what the board shows: no revealed cell holds a mine, and
    every revealed cell that shows a number has that many mines around it. *)
Definition consistent (board : Board) (m : arrangement) : Prop :=
  ∀ row col,
    in_bounds (board_rows board) (board_cols board) (row, col) = true →
    is_revealed (cell_at board row col) = true →
    m (row, col) = false
    ∧ (is_mine (cell_at board row col) = false →
       mines_around m (board_rows board) (board_cols board) row col
       = adjacent_mines (cell_at board row col)).

(** [m] puts a mine under every flag. *)
Definition flags_are_mines (board : Board) (m : arrangement) : Prop :=
  ∀ row col,
    in_bounds (board_rows board) (board_cols board) (row, col) = true →
    is_flagged (cell_at board row col) = true → m (row, col) = true.

Lemma count_true_nil m : count_true m [] = 0.
Proof. done. Qed.

Lemma count_true_cons m n l :
  count_true m (n :: l) = (if m n then 1 else 0) + count_true m l.
Proof.
  unfold count_true. rewrite (filter_cons_bool m).
  destruct (m n); cbn [length]; lia.
Qed.

Lemma count_true_app m l1 l2 :
  count_true m (l1 ++ l2) = count_true m l1 + count_true m l2.
Proof.
  induction l1 as [|n l1 IH]; [done|].
  cbn [app]. rewrite !count_true_cons, IH. lia.
Qed.

Lemma count_true_perm m l1 l2 : l1 ≡ₚ l2 → count_true m l1 = count_true m l2.
Proof.
  induction 1 as [|x l l' _ IH|x y l|l l' l'' _ IH1 _ IH2];
    rewrite ?count_true_cons; lia.
Qed.

Lemma count_true_bounds m l : 0 <= count_true m l <= Z.of_nat (length l).
Proof.
  induction l as [|n l IH]; [done|].
  rewrite count_true_cons. cbn [length]. destruct (m n); lia.
Qed.

Lemma count_true_none m l (n : coord) :
  count_true m l = 0 → n ∈ l → m n = false.
Proof.
  induction l as [|x l IH]; intros Hc Hn; [by apply elem_of_nil in Hn|].
  rewrite count_true_cons in Hc. pose proof (count_true_bounds m l).
  apply elem_of_cons in Hn as [->|Hn].
  - destruct (m x); [lia | done].
  - apply IH; [|done]. destruct (m x); lia.
Qed.

Lemma count_true_all m l (n : coord) :
  count_true m l = Z.of_nat (length l) → n ∈ l → m n = true.
Proof.
  induction l as [|x l IH]; intros Hc Hn; [by apply elem_of_nil in Hn|].
  rewrite count_true_cons in Hc. cbn [length] in Hc.
  pose proof (count_true_bounds m l).
  apply elem_of_cons in Hn as [->|Hn].
  - destruct (m x); [done | lia].
  - apply IH; [|done]. destruct (m x); lia.
Qed.

(** Splitting a count over cells known to be mines ([A]), cells still
    unknown ([U]) and the rest, known to be clear. *)
Lemma count_true_split (m : arrangement) (A U : coord → bool) l :
  (∀ n, n ∈ l → A n = true → m n = true ∧ U n = false) →
  (∀ n, n ∈ l → A n = false → U n = false → m n = false) →
  count_true m l
  = Z.of_nat (length (filter (λ n, A n) l)) + count_true m (filter (λ n, U n) l).
Proof.
  induction l as [|x l IH]; intros HA HU; [done|].
  rewrite count_true_cons, (filter_cons_bool A), (filter_cons_bool U).
  rewrite IH; cycle 1.
  { intros n Hn. apply HA. by right. }
  { intros n Hn. apply HU. by right. }
  destruct (A x) eqn:EA.
  - destruct (HA x) as [-> ->]; [left | done |]. cbn [length]. lia.
  - destruct (U x) eqn:EU.
    + rewrite count_true_cons. lia.
    + rewrite (HU x); [lia | left | done | done].
Qed.

Lemma mines_in_list_to_set (m : arrangement) (l : list coord) :
  NoDup l → mines_in m (list_to_set l) = count_true m l.
Proof.
  intros Hnd. unfold mines_in. apply count_true_perm.
  by apply elements_list_to_set.
Qed.

Lemma mines_in_difference (m : arrangement) (s1 s2 : gset coord) :
  s1 ⊆ s2 → mines_in m (s2 ∖ s1) = mines_in m s2 - mines_in m s1.
Proof.
  intros Hsub. unfold mines_in.
  rewrite (union_difference_L s1 s2 Hsub) at 2.
  rewrite (count_true_perm m _ _
             (elements_disj_union s1 (s2 ∖ s1) ltac:(set_solver))).
  rewrite count_true_app. lia.
Qed.

Lemma mines_in_none (m : arrangement) (s : gset coord) (n : coord) :
  mines_in m s = 0 → n ∈ s → m n = false.
Proof.
  intros Hc Hn. eapply count_true_none; [exact Hc|]. by apply elem_of_elements.
Qed.

Lemma mines_in_all (m : arrangement) (s : gset coord) (n : coord) :
  mines_in m s = Z.of_nat (size s) → n ∈ s → m n = true.
Proof.
  intros Hc Hn. eapply count_true_all; [exact Hc|]. by apply elem_of_elements.
Qed.

(** ** Soundness of the generator and of the basic rules *)

(** The cells of [safe] are clear and those of [mine] are mined in [m]. *)
Definition sets_sound (m : arrangement) (safe mine : gset coord) : Prop :=
  (∀ n, n ∈ safe → m n = false) ∧ (∀ n, n ∈ mine → m n = true).

(** The constraint holds in [m]. *)
Definition constraint_sound (m : arrangement) (c : constraint) : Prop :=
  mines_in m c.1 = c.2.

Lemma sets_sound_union m s1 m1 s2 m2 :
  sets_sound m s1 m1 → sets_sound m s2 m2 → sets_sound m (s1 ∪ s2) (m1 ∪ m2).
Proof.
  intros [Hs1 Hm1] [Hs2 Hm2]. split; intros n Hn;
    apply elem_of_union in Hn as [Hn|Hn]; auto.
Qed.

Section Soundness.
Context (board : Board) (m : arrangement).
Hypothesis Hcons : consistent board m.
Hypothesis Hflags : flags_are_mines board m.

Lemma gen_count_split ks km (rc : coord) :
  sets_sound m ks km →
  in_bounds (board_rows board) (board_cols board) rc = true →
  is_revealed (cell_at board rc.1 rc.2) = true →
  is_mine (cell_at board rc.1 rc.2) = false →
  mines_in m (unknown_of board (board_rows board) (board_cols board) ks km rc)
  = remaining_of board (board_rows board) (board_cols board) km rc.
Proof.
  intros [Hks Hkm] Hb Hrev Hmine. destruct rc as [row col]. cbn [fst snd] in *.
  destruct (Hcons row col Hb Hrev) as [_ Hadj]. specialize (Hadj Hmine).
  unfold remaining_of, unknown_of. cbn [fst snd].
  rewrite mines_in_list_to_set by apply NoDup_filter, NoDup_neighbors.
  rewrite <- Hadj. unfold mines_around.
  rewrite (count_true_split m (counts_as_mine board km)
             (is_unknown board ks km)
             (neighbors (board_rows board) (board_cols board) row col)).
  - lia.
  - intros [r c] Hn. apply elem_of_neighbors in Hn as [_ Hnb].
    unfold counts_as_mine, is_unknown. cbn [fst snd].
    intros HA. apply orb_prop in HA as [HA|HA].
    + split; [by apply Hflags|]. rewrite HA. cbn. by rewrite andb_false_r.
    + rewrite HA. apply bool_decide_eq_true in HA.
      split; [by apply Hkm|]. cbn. by rewrite andb_false_r.
  - intros [r c] Hn. apply elem_of_neighbors in Hn as [_ Hnb].
    unfold counts_as_mine, is_unknown. cbn [fst snd].
    intros HA. apply orb_false_elim in HA as [Hfl Hm]. rewrite Hfl, Hm.
    cbn [negb andb]. rewrite !andb_true_r. intros HU.
    apply andb_false_iff in HU as [HU|HU].
    * apply negb_false_iff in HU. by apply (Hcons r c Hnb HU).
    * apply negb_false_iff, bool_decide_eq_true in HU. by apply Hks.
Qed.

Lemma basic_count_split ks km (rc : coord) :
  sets_sound m ks km →
  in_bounds (board_rows board) (board_cols board) rc = true →
  is_revealed (cell_at board rc.1 rc.2) = true →
  is_mine (cell_at board rc.1 rc.2) = false →
  adjacent_mines (cell_at board rc.1 rc.2)
  = Z.of_nat (length (filter (λ n, basic_counted board km n)
                        (neighbors (board_rows board) (board_cols board)
                                   rc.1 rc.2)))
    + mines_in m (unknown_of board (board_rows board) (board_cols board)
                             ks km rc).
Proof.
  intros [Hks Hkm] Hb Hrev Hmine. destruct rc as [row col]. cbn [fst snd] in *.
  destruct (Hcons row col Hb Hrev) as [_ Hadj]. specialize (Hadj Hmine).
  unfold unknown_of. cbn [fst snd].
  rewrite mines_in_list_to_set by apply NoDup_filter, NoDup_neighbors.
  rewrite <- Hadj. unfold mines_around.
  apply (count_true_split m (basic_counted board km) (is_unknown board ks km)).
  - intros [r c] Hn. apply elem_of_neighbors in Hn as [_ Hnb].
    unfold basic_counted, is_unknown. cbn [fst snd].
    intros HA. apply andb_prop in HA as [_ HA]. apply orb_prop in HA as [HA|HA].
    + split; [by apply Hflags|]. rewrite HA. cbn. by rewrite andb_false_r.
    + rewrite HA. apply bool_decide_eq_true in HA.
      split; [by apply Hkm|]. cbn. by rewrite andb_false_r.
  - intros [r c] Hn. apply elem_of_neighbors in Hn as [_ Hnb].
    unfold basic_counted, is_unknown. cbn [fst snd].
    destruct (is_revealed (cell_at board r c)) eqn:Hr.
    { intros _ _. by apply (Hcons r c Hnb Hr). }
    cbn [negb andb]. intros HA. apply orb_false_elim in HA as [Hfl Hm].
    rewrite Hfl, Hm. cbn [negb andb]. rewrite andb_true_r. intros HU.
    apply negb_false_iff, bool_decide_eq_true in HU. by apply Hks.
Qed.

Lemma generate_constraints_sound ks km (c : constraint) :
  sets_sound m ks km →
  c ∈ _generate_constraints board (board_rows board) (board_cols board) ks km →
  constraint_sound m c.
Proof.
  intros Hs. rewrite generate_constraints_fires.
  intros Hc. apply list_elem_of_fmap in Hc as (rc & -> & Hrc).
  apply list_elem_of_filter in Hrc as [Hrc Hin].
  apply elem_of_row_major in Hin.
  unfold gen_fires in Hrc. rewrite !andb_True, !negb_True in Hrc.
  destruct Hrc as (((Hrev & Hmine) & _) & _).
  unfold constraint_sound. cbn [fst snd].
  apply gen_count_split; try done.
  - by apply Is_true_true.
  - by apply Is_true_false.
Qed.

Lemma apply_basic_rules_sound ks km :
  sets_sound m ks km →
  sets_sound m
    (_apply_basic_rules board (board_rows board) (board_cols board) ks km).1
    (_apply_basic_rules board (board_rows board) (board_cols board) ks km).2.
Proof.
  intros Hs. split; intros n Hn.
  - apply apply_basic_rules_elem in Hn as (rc & Hb & _ & R2 & Hn).
    unfold rule_all_safe in R2. rewrite !andb_true_iff in R2.
    destruct R2 as (((Hrev & Hmine) & _) & Hadj).
    apply negb_true_iff in Hmine. apply Z.eqb_eq in Hadj.
    pose proof (basic_count_split ks km rc Hs Hb Hrev Hmine) as Hsplit.
    eapply mines_in_none; [|exact Hn]. lia.
  - apply apply_basic_rules_elem in Hn as (rc & Hb & R1 & Hn).
    unfold rule_all_mines in R1. rewrite !andb_true_iff in R1.
    destruct R1 as (((Hrev & Hmine) & _) & Hadj).
    apply negb_true_iff in Hmine. apply Z.eqb_eq in Hadj.
    pose proof (basic_count_split ks km rc Hs Hb Hrev Hmine) as Hsplit.
    eapply mines_in_all; [|exact Hn]. lia.
Qed.

End Soundness.

(** ** One pass of subset elimination *)

(** What a pass may resolve: a constraint of the list, or the difference of
    two of them, one a proper subset of the other. *)
Definition entailed (constraints : list constraint) (L : gset coord) (k : Z)
    : Prop :=
  (L, k) ∈ constraints
  ∨ ∃ c1 c2 : constraint,
      c1 ∈ constraints ∧ c2 ∈ constraints
      ∧ c1.1 ⊆ c2.1 ∧ c1.1 ≠ c2.1 ∧ L = c2.1 ∖ c1.1 ∧ k = c2.2 - c1.2.

Lemma elem_of_enumerate {A : Type} (l : list A) (i : nat) (x : A) :
  (i, x) ∈ enumerate l → x ∈ l.
Proof. unfold enumerate. intros Hin. by apply elem_of_zip_r in Hin. Qed.

Lemma proper_subset_spec (l1 l2 : gset coord) :
  proper_subset l1 l2 = true ↔ l1 ⊆ l2 ∧ l1 ≠ l2.
Proof.
  unfold proper_subset.
  rewrite andb_true_iff, negb_true_iff, bool_decide_eq_true, bool_decide_eq_false.
  done.
Qed.

Section PassInvariant.
Context (P : gset coord → gset coord → bool → Prop).
Context (constraints : list constraint).
Hypothesis P_safe : ∀ s mn f L k,
  entailed constraints L k → k = 0 → P s mn f → P (s ∪ L) mn true.
Hypothesis P_mine : ∀ s mn f L k,
  entailed constraints L k → k = Z.of_nat (size L) → P s mn f →
  P s (mn ∪ L) true.

Let Q (st : pass_state) : Prop := P (ps_safe st) (ps_mine st) (ps_flag st).

Lemma resolve_derived_invariant L k j st added :
  entailed constraints L k → Q st → Q (resolve_derived L k j st added).1.
Proof.
  intros He HQ. unfold resolve_derived, Q in *.
  destruct (Z.eqb_spec k 0) as [E0|E0]; cbn [fst ps_safe ps_mine ps_flag].
  - eapply P_safe; eauto.
  - destruct (Z.eqb_spec k (Z.of_nat (size L))) as [E1|E1];
      cbn [fst ps_safe ps_mine ps_flag].
    + eapply P_mine; eauto.
    + destruct (nonempty_set L); cbn [fst ps_safe ps_mine ps_flag]; done.
Qed.

Lemma csp_inner_invariant i l1 k1 acc j c2 :
  (l1, k1) ∈ constraints → c2 ∈ constraints →
  Q acc.1 → Q (csp_inner i l1 k1 acc (j, c2)).1.
Proof.
  intros H1 H2 HQ. destruct acc as [st added], c2 as [l2 k2].
  unfold csp_inner. cbn [fst] in HQ.
  destruct (bool_decide (i = j) || bool_decide (j ∈ ps_processed st)); [done|].
  destruct (proper_subset l1 l2) eqn:S12.
  { apply proper_subset_spec in S12 as [Hsub Hne].
    apply resolve_derived_invariant; [|done].
    right. exists (l1, k1), (l2, k2). by split_and!. }
  destruct (proper_subset l2 l1) eqn:S21; [|done].
  apply proper_subset_spec in S21 as [Hsub Hne].
  apply resolve_derived_invariant; [|done].
  right. exists (l2, k2), (l1, k1). by split_and!.
Qed.

Lemma csp_outer_invariant st i c :
  c ∈ constraints → Q st → Q (csp_outer constraints st (i, c)).
Proof.
  intros Hc HQ. destruct c as [l1 k1]. unfold csp_outer.
  destruct (bool_decide (i ∈ ps_processed st)); [done|].
  pose proof (fold_left_invariant (λ acc : pass_state * bool, Q acc.1)
                (csp_inner i l1 k1) (enumerate constraints) (st, false) HQ)
    as Hinner.
  destruct (fold_left (csp_inner i l1 k1) (enumerate constraints) (st, false))
    as [st1 added] eqn:Hfold.
  cbn [fst] in Hinner.
  assert (HQ1 : Q st1).
  { apply Hinner. intros acc [j c2] Hin Hacc.
    apply csp_inner_invariant; [done | | done].
    by apply elem_of_enumerate in Hin. }
  destruct (negb added && negb (bool_decide (i ∈ ps_processed st1)));
    [|done].
  unfold Q in *.
  destruct (Z.eqb_spec k1 0) as [E0|E0]; cbn [ps_safe ps_mine ps_flag].
  - eapply P_safe; eauto. by left.
  - destruct (Z.eqb_spec k1 (Z.of_nat (size l1))) as [E1|E1];
      cbn [ps_safe ps_mine ps_flag]; [|done].
    eapply P_mine; eauto. by left.
Qed.

Lemma csp_pass_invariant safe mine :
  P safe mine false →
  P (ps_safe (csp_pass constraints safe mine))
    (ps_mine (csp_pass constraints safe mine))
    (ps_flag (csp_pass constraints safe mine)).
Proof.
  intros H0. unfold csp_pass.
  apply (fold_left_invariant Q); [done|].
  intros st [i c] Hin HQ. apply csp_outer_invariant; [|done].
  by apply elem_of_enumerate in Hin.
Qed.

End PassInvariant.

(** ** The frontier: what is still open to proof *)

(** The in-bounds cells that are hidden, unflagged and in neither set. *)
Definition frontier (board : Board) (rows cols : Z) (ks km : gset coord)
    : gset coord :=
  list_to_set (filter (λ n, is_unknown board ks km n) (row_major rows cols)).

Lemma elem_of_frontier board rows cols ks km (n : coord) :
  n ∈ frontier board rows cols ks km
  ↔ in_bounds rows cols n = true ∧ is_unknown board ks km n = true.
Proof.
  unfold frontier.
  rewrite elem_of_list_to_set, list_elem_of_filter, elem_of_row_major,
    Is_true_true. tauto.
Qed.

Lemma is_unknown_spec board ks km (n : coord) :
  is_unknown board ks km n = true
  ↔ is_revealed (cell_at board n.1 n.2) = false
    ∧ is_flagged (cell_at board n.1 n.2) = false
    ∧ (n ∉ ks) ∧ (n ∉ km).
Proof.
  unfold is_unknown.
  rewrite !andb_true_iff, !negb_true_iff, !bool_decide_eq_false. tauto.
Qed.

Lemma unknown_of_frontier board rows cols ks km rc :
  unknown_of board rows cols ks km rc ⊆ frontier board rows cols ks km.
Proof.
  intros n Hn. apply elem_of_unknown_of in Hn as (_ & Hb & Hr & Hf & Hs & Hm).
  apply elem_of_frontier. split; [done|]. by apply is_unknown_spec.
Qed.

Lemma frontier_size board rows cols ks km :
  (size (frontier board rows cols ks km) ≤ Z.to_nat rows * Z.to_nat cols)%nat.
Proof.
  unfold frontier.
  rewrite size_list_to_set by apply NoDup_filter, NoDup_row_major.
  etrans; [apply length_filter|].
  unfold row_major. clear.
  assert (Hlen : ∀ rs : list Z,
            length (rs ≫= λ r, pair r <$> seqZ 0 cols)
            = (length rs * Z.to_nat cols)%nat).
  { induction rs as [|r rs IH]; [done|].
    cbn. change (mbind ?f rs) with (rs ≫= f).
    by rewrite length_app, length_fmap, length_seqZ, IH. }
  rewrite Hlen, length_seqZ. done.
Qed.

(** Enlarging the known sets by a cell of the frontier shrinks it. *)
Lemma frontier_shrinks board rows cols ks km ks' km' (n : coord) :
  ks ⊆ ks' → km ⊆ km' →
  n ∈ frontier board rows cols ks km → n ∈ ks' ∪ km' →
  (size (frontier board rows cols ks' km')
   < size (frontier board rows cols ks km))%nat.
Proof.
  intros Hks Hkm Hn Hn'. apply subset_size. split.
  - intros x Hx. apply elem_of_frontier in Hx as [Hb Hu].
    apply elem_of_frontier. split; [done|].
    apply is_unknown_spec in Hu as (? & ? & ? & ?).
    apply is_unknown_spec. set_solver.
  - intros Hsub. specialize (Hsub n Hn).
    apply elem_of_frontier in Hsub as [_ Hu].
    apply is_unknown_spec in Hu as (_ & _ & ? & ?). set_solver.
Qed.

Lemma generate_constraints_frontier board rows cols ks km (c : constraint) :
  c ∈ _generate_constraints board rows cols ks km →
  c.1 ≠ ∅ ∧ c.1 ⊆ frontier board rows cols ks km.
Proof.
  intros Hc. split; [by eapply generate_constraints_nonempty|].
  rewrite generate_constraints_fires in Hc.
  apply list_elem_of_fmap in Hc as (rc & -> & _). cbn [fst].
  apply unknown_of_frontier.
Qed.

(** ** Progress of a pass *)

Lemma entailed_cells (constraints : list constraint) (A : gset coord) L k :
  (∀ c : constraint, c ∈ constraints → c.1 ≠ ∅ ∧ c.1 ⊆ A) →
  entailed constraints L k → L ≠ ∅ ∧ L ⊆ A.
Proof.
  intros Hcs [Hin | (c1 & c2 & H1 & H2 & Hsub & Hne & -> & _)].
  - by apply (Hcs (L, k)).
  - destruct (Hcs c2 H2) as [_ H2A]. split; [|set_solver].
    intros He. apply Hne. apply set_eq. intros x. split; [by apply Hsub|].
    intros Hx. destruct (decide (x ∈ c1.1)) as [|Hn]; [done|].
    assert (x ∈ c2.1 ∖ c1.1) as Hd by set_solver.
    rewrite He in Hd. by apply not_elem_of_empty in Hd.
Qed.

(** A pass either leaves both sets as they were and clears [flag], or sets
    [flag] and adds a cell of [A] that was in neither set. *)
Lemma csp_pass_progress (constraints : list constraint) (A safe mine : gset coord) :
  (∀ c : constraint, c ∈ constraints → c.1 ≠ ∅ ∧ c.1 ⊆ A) →
  let st := csp_pass constraints safe mine in
  safe ⊆ ps_safe st ∧ mine ⊆ ps_mine st
  ∧ ps_safe st ∪ ps_mine st ⊆ safe ∪ mine ∪ A
  ∧ (ps_flag st = true → ∃ n, n ∈ A ∧ n ∈ ps_safe st ∪ ps_mine st)
  ∧ (ps_flag st = false → ps_safe st = safe ∧ ps_mine st = mine).
Proof.
  intros Hcs.
  apply (csp_pass_invariant
           (λ s mn f,
              safe ⊆ s ∧ mine ⊆ mn ∧ s ∪ mn ⊆ safe ∪ mine ∪ A
              ∧ (f = true → ∃ n, n ∈ A ∧ n ∈ s ∪ mn)
              ∧ (f = false → s = safe ∧ mn = mine))
           constraints).
  - intros s mn f L k He _ (Hs & Hm & Hsub & _ & _).
    destruct (entailed_cells constraints A L k Hcs He) as [Hne HLA].
    split_and!; [set_solver | done | set_solver | | done].
    intros _. apply set_choose_L in Hne as [n Hn]. exists n. set_solver.
  - intros s mn f L k He _ (Hs & Hm & Hsub & _ & _).
    destruct (entailed_cells constraints A L k Hcs He) as [Hne HLA].
    split_and!; [done | set_solver | set_solver | | done].
    intros _. apply set_choose_L in Hne as [n Hn]. exists n. set_solver.
  - split_and!; [done | done | set_solver | done | done].
Qed.

(** ** The propagation loop *)

(** A pass on the constraints regenerated from the sets proved so far. *)
Definition csp_step (board : Board) (rows cols : Z) (ks km safe mine : gset coord)
    : pass_state :=
  csp_pass (_generate_constraints board rows cols (ks ∪ safe) (km ∪ mine))
           safe mine.

Lemma csp_step_progress board rows cols ks km safe mine :
  let st := csp_step board rows cols ks km safe mine in
  let A := frontier board rows cols (ks ∪ safe) (km ∪ mine) in
  safe ⊆ ps_safe st ∧ mine ⊆ ps_mine st
  ∧ ps_safe st ∪ ps_mine st ⊆ safe ∪ mine ∪ A
  ∧ (ps_flag st = true → ∃ n, n ∈ A ∧ n ∈ ps_safe st ∪ ps_mine st)
  ∧ (ps_flag st = false → ps_safe st = safe ∧ ps_mine st = mine).
Proof.
  apply csp_pass_progress. intros c Hc.
  by apply generate_constraints_frontier.
Qed.

Lemma csp_loop_unfold fuel board rows cols ks km safe mine :
  csp_loop (S fuel) board rows cols ks km
           (_generate_constraints board rows cols (ks ∪ safe) (km ∪ mine))
           safe mine
  = let st := csp_step board rows cols ks km safe mine in
    if ps_flag st then
      csp_loop fuel board rows cols ks km
               (_generate_constraints board rows cols
                  (ks ∪ ps_safe st) (km ∪ ps_mine st))
               (ps_safe st) (ps_mine st)
    else Some (ps_safe st, ps_mine st).
Proof.
  cbn [csp_loop]. fold (csp_step board rows cols ks km safe mine).
  cbn zeta.
  destruct (csp_step_progress board rows cols ks km safe mine)
    as (_ & _ & _ & Hflag & _).
  destruct (ps_flag (csp_step board rows cols ks km safe mine)) eqn:Ef; [|done].
  destruct (Hflag eq_refl) as (n & _ & Hn).
  replace (nonempty_set _ || nonempty_set _) with true; [done|].
  symmetry. unfold nonempty_set.
  apply elem_of_union in Hn as [Hn|Hn].
  - rewrite (bool_decide_eq_false_2 (ps_safe _ = ∅)); [done|]. set_solver.
  - rewrite (bool_decide_eq_false_2 (ps_mine _ = ∅)); [|set_solver].
    by rewrite orb_true_r.
Qed.

Lemma csp_loop_terminates board rows cols ks km (k : nat) :
  ∀ safe mine,
    (size (frontier board rows cols (ks ∪ safe) (km ∪ mine)) < k)%nat →
    ∃ r, ∀ fuel, (k ≤ fuel)%nat →
      csp_loop fuel board rows cols ks km
               (_generate_constraints board rows cols (ks ∪ safe) (km ∪ mine))
               safe mine = Some r.
Proof.
  induction k as [|k IH]; intros safe mine Hsz; [lia|].
  destruct (csp_step_progress board rows cols ks km safe mine)
    as (Hs & Hm & _ & Hflag & _).
  destruct (ps_flag (csp_step board rows cols ks km safe mine)) eqn:Ef.
  - destruct (Hflag eq_refl) as (n & HnA & Hn).
    destruct (IH (ps_safe (csp_step board rows cols ks km safe mine))
                 (ps_mine (csp_step board rows cols ks km safe mine)))
      as [r Hr].
    { pose proof (frontier_shrinks board rows cols (ks ∪ safe) (km ∪ mine)
                    (ks ∪ ps_safe (csp_step board rows cols ks km safe mine))
                    (km ∪ ps_mine (csp_step board rows cols ks km safe mine))
                    n ltac:(set_solver) ltac:(set_solver) HnA
                    ltac:(set_solver)).
      lia. }
    exists r. intros [|fuel] Hf; [lia|].
    rewrite csp_loop_unfold. cbn zeta. rewrite Ef. apply Hr. lia.
  - eexists. intros [|fuel] Hf; [lia|].
    rewrite csp_loop_unfold. cbn zeta. rewrite Ef. reflexivity.
Qed.

(** An invariant of the sets kept by every pass holds of the loop's result. *)
Lemma csp_loop_invariant (I : gset coord → gset coord → Prop)
    board rows cols ks km :
  (∀ safe mine, I safe mine →
     I (ps_safe (csp_step board rows cols ks km safe mine))
       (ps_mine (csp_step board rows cols ks km safe mine))) →
  ∀ fuel safe mine r,
    I safe mine →
    csp_loop fuel board rows cols ks km
             (_generate_constraints board rows cols (ks ∪ safe) (km ∪ mine))
             safe mine = Some r →
    I r.1 r.2.
Proof.
  intros Hstep. induction fuel as [|fuel IH]; intros safe mine r HI; [done|].
  rewrite csp_loop_unfold. cbn zeta.
  specialize (Hstep safe mine HI).
  destruct (ps_flag (csp_step board rows cols ks km safe mine)).
  - by apply IH.
  - by intros [= <-].
Qed.

Lemma apply_csp_solver_unfold fuel board rows cols ks km :
  _apply_csp_solver fuel board rows cols ks km
  = if bool_decide (_generate_constraints board rows cols ks km = [])
    then Some (∅, ∅)
    else csp_loop fuel board rows cols ks km
           (_generate_constraints board rows cols (ks ∪ ∅) (km ∪ ∅)) ∅ ∅.
Proof. by rewrite !(right_id_L ∅ (∪)). Qed.

Lemma apply_csp_solver_terminates board rows cols ks km :
  ∃ r, ∀ fuel, (Z.to_nat rows * Z.to_nat cols < fuel)%nat →
    _apply_csp_solver fuel board rows cols ks km = Some r.
Proof.
  destruct (csp_loop_terminates board rows cols ks km
              (S (Z.to_nat rows * Z.to_nat cols)) ∅ ∅) as [r Hr].
  { pose proof (frontier_size board rows cols (ks ∪ ∅) (km ∪ ∅)). lia. }
  destruct (bool_decide (_generate_constraints board rows cols ks km = []))
    eqn:E.
  - exists (∅, ∅). intros fuel _. by rewrite apply_csp_solver_unfold, E.
  - exists r. intros fuel Hf. rewrite apply_csp_solver_unfold, E.
    apply Hr. lia.
Qed.

Lemma apply_csp_solver_invariant (I : gset coord → gset coord → Prop)
    board rows cols ks km fuel r :
  I ∅ ∅ →
  (∀ safe mine, I safe mine →
     I (ps_safe (csp_step board rows cols ks km safe mine))
       (ps_mine (csp_step board rows cols ks km safe mine))) →
  _apply_csp_solver fuel board rows cols ks km = Some r → I r.1 r.2.
Proof.
  intros H0 Hstep. rewrite apply_csp_solver_unfold.
  destruct (bool_decide _).
  - by intros [= <-].
  - by apply csp_loop_invariant.
Qed.

Lemma frontier_mono board rows cols ks km ks' km' :
  ks ⊆ ks' → km ⊆ km' →
  frontier board rows cols ks' km' ⊆ frontier board rows cols ks km.
Proof.
  intros Hks Hkm x Hx. apply elem_of_frontier in Hx as [Hb Hu].
  apply elem_of_frontier. split; [done|].
  apply is_unknown_spec in Hu as (? & ? & ? & ?).
  apply is_unknown_spec. set_solver.
Qed.

Lemma csp_step_frontier board rows cols ks km safe mine :
  safe ∪ mine ⊆ frontier board rows cols ks km →
  ps_safe (csp_step board rows cols ks km safe mine)
  ∪ ps_mine (csp_step board rows cols ks km safe mine)
  ⊆ frontier board rows cols ks km.
Proof.
  intros HI.
  destruct (csp_step_progress board rows cols ks km safe mine)
    as (_ & _ & Hsub & _ & _).
  pose proof (frontier_mono board rows cols ks km (ks ∪ safe) (km ∪ mine)
                ltac:(set_solver) ltac:(set_solver)).
  set_solver.
Qed.

(** ** The loop over the basic rules *)

Lemma apply_basic_rules_frontier board rows cols safe mine :
  (_apply_basic_rules board rows cols safe mine).1
  ∪ (_apply_basic_rules board rows cols safe mine).2
  ⊆ frontier board rows cols safe mine.
Proof.
  intros n Hn. apply elem_of_union in Hn as [Hn|Hn].
  - apply apply_basic_rules_elem in Hn as (rc & _ & _ & _ & Hn).
    by eapply unknown_of_frontier.
  - apply apply_basic_rules_elem in Hn as (rc & _ & _ & Hn).
    by eapply unknown_of_frontier.
Qed.

Lemma nonempty_set_false (s : gset coord) : nonempty_set s = false ↔ s = ∅.
Proof. unfold nonempty_set. by rewrite negb_false_iff, bool_decide_eq_true. Qed.

Lemma nonempty_set_true (s : gset coord) : nonempty_set s = true ↔ ∃ n, n ∈ s.
Proof.
  unfold nonempty_set. rewrite negb_true_iff, bool_decide_eq_false. split.
  - apply set_choose_L.
  - intros [n Hn] ->. by apply not_elem_of_empty in Hn.
Qed.

Lemma basic_loop_terminates board rows cols (k : nat) :
  ∀ safe mine,
    (size (frontier board rows cols safe mine) < k)%nat →
    ∃ r, ∀ fuel, (k ≤ fuel)%nat →
      basic_loop fuel board rows cols safe mine = Some r.
Proof.
  induction k as [|k IH]; intros safe mine Hsz; [lia|].
  pose proof (apply_basic_rules_frontier board rows cols safe mine) as Hfr.
  destruct (_apply_basic_rules board rows cols safe mine)
    as [new_safe new_mines] eqn:Hrules.
  cbn [fst snd] in Hfr.
  destruct (nonempty_set new_safe || nonempty_set new_mines) eqn:Hne.
  - assert (∃ n, n ∈ new_safe ∪ new_mines) as [n Hn].
    { apply orb_prop in Hne as [Hne|Hne];
        apply nonempty_set_true in Hne as [n Hn]; exists n; set_solver. }
    destruct (IH (safe ∪ new_safe) (mine ∪ new_mines)) as [r Hr].
    { pose proof (frontier_shrinks board rows cols safe mine
                    (safe ∪ new_safe) (mine ∪ new_mines) n
                    ltac:(set_solver) ltac:(set_solver)
                    ltac:(set_solver) ltac:(set_solver)).
      lia. }
    exists r. intros [|fuel] Hf; [lia|].
    cbn [basic_loop]. rewrite Hrules, Hne. apply Hr. lia.
  - exists (safe, mine). intros [|fuel] Hf; [lia|].
    cbn [basic_loop]. by rewrite Hrules, Hne.
Qed.

Lemma basic_loop_invariant (I : gset coord → gset coord → Prop)
    board rows cols :
  (∀ safe mine, I safe mine →
     I (safe ∪ (_apply_basic_rules board rows cols safe mine).1)
       (mine ∪ (_apply_basic_rules board rows cols safe mine).2)) →
  ∀ fuel safe mine r,
    I safe mine →
    basic_loop fuel board rows cols safe mine = Some r → I r.1 r.2.
Proof.
  intros Hstep. induction fuel as [|fuel IH]; intros safe mine r HI; [done|].
  cbn [basic_loop]. specialize (Hstep safe mine HI).
  destruct (_apply_basic_rules board rows cols safe mine)
    as [new_safe new_mines].
  destruct (nonempty_set new_safe || nonempty_set new_mines).
  - by apply IH.
  - by intros [= <-].
Qed.

Lemma basic_loop_frontier board rows cols fuel r :
  basic_loop fuel board rows cols ∅ ∅ = Some r →
  r.1 ∪ r.2 ⊆ frontier board rows cols ∅ ∅.
Proof.
  apply (basic_loop_invariant
           (λ safe mine, safe ∪ mine ⊆ frontier board rows cols ∅ ∅)).
  - intros safe mine HI.
    pose proof (apply_basic_rules_frontier board rows cols safe mine).
    pose proof (frontier_mono board rows cols ∅ ∅ safe mine
                  ltac:(set_solver) ltac:(set_solver)).
    set_solver.
  - set_solver.
Qed.

(** ** [solve_step] as a whole *)

Lemma solve_step_terminates board :
  ∃ r, ∀ fuel,
    (Z.to_nat (board_rows board) * Z.to_nat (board_cols board) < fuel)%nat →
    solve_step fuel board = Some r.
Proof.
  destruct (basic_loop_terminates board (board_rows board) (board_cols board)
              (S (Z.to_nat (board_rows board) * Z.to_nat (board_cols board)))
              ∅ ∅) as [[safe mine] Hb].
  { pose proof (frontier_size board (board_rows board) (board_cols board) ∅ ∅).
    lia. }
  destruct (apply_csp_solver_terminates board (board_rows board)
              (board_cols board) safe mine) as [[cs cm] Hc].
  exists (safe ∪ cs, mine ∪ cm). intros fuel Hf.
  unfold solve_step. rewrite Hb by lia. by rewrite Hc.
Qed.

Lemma solve_step_inv fuel board r :
  solve_step fuel board = Some r →
  ∃ safe mine cs cm,
    basic_loop fuel board (board_rows board) (board_cols board) ∅ ∅
    = Some (safe, mine)
    ∧ _apply_csp_solver fuel board (board_rows board) (board_cols board)
        safe mine = Some (cs, cm)
    ∧ r = (safe ∪ cs, mine ∪ cm).
Proof.
  unfold solve_step. intros Hr.
  destruct (basic_loop fuel board (board_rows board) (board_cols board) ∅ ∅)
    as [[safe mine]|] eqn:Hb; [|done].
  destruct (_apply_csp_solver fuel board (board_rows board) (board_cols board)
              safe mine) as [[cs cm]|] eqn:Hc; [|done].
  injection Hr as <-. by exists safe, mine, cs, cm.
Qed.

Lemma solve_step_frontier fuel board r :
  solve_step fuel board = Some r →
  r.1 ∪ r.2 ⊆ frontier board (board_rows board) (board_cols board) ∅ ∅.
Proof.
  intros Hr.
  apply solve_step_inv in Hr as (safe & mine & cs & cm & Hb & Hc & ->).
  apply basic_loop_frontier in Hb. cbn [fst snd] in *.
  pose proof (apply_csp_solver_invariant
                (λ s mn, s ∪ mn ⊆ frontier board (board_rows board)
                                   (board_cols board) safe mine)
                board (board_rows board) (board_cols board) safe mine fuel
                (cs, cm) ltac:(set_solver)
                (csp_step_frontier board (board_rows board) (board_cols board)
                   safe mine) Hc) as Hcsp.
  cbn [fst snd] in Hcsp.
  pose proof (frontier_mono board (board_rows board) (board_cols board)
                ∅ ∅ safe mine ltac:(set_solver) ltac:(set_solver)).
  set_solver.
Qed.

(** ** Soundness of the propagation *)

Lemma entailed_sound (m : arrangement) (constraints : list constraint) L k :
  (∀ c, c ∈ constraints → constraint_sound m c) →
  entailed constraints L k → mines_in m L = k.
Proof.
  intros Hcs [Hin | (c1 & c2 & H1 & H2 & Hsub & _ & -> & ->)].
  - by apply (Hcs (L, k)).
  - rewrite mines_in_difference by done.
    by rewrite (Hcs c1 H1), (Hcs c2 H2).
Qed.

Lemma csp_pass_sound (m : arrangement) (constraints : list constraint) safe mine :
  (∀ c, c ∈ constraints → constraint_sound m c) →
  sets_sound m safe mine →
  sets_sound m (ps_safe (csp_pass constraints safe mine))
               (ps_mine (csp_pass constraints safe mine)).
Proof.
  intros Hcs H0.
  apply (csp_pass_invariant (λ s mn _, sets_sound m s mn) constraints);
    [| |done].
  - intros s mn _ L k He -> [Hs Hm]. split; [|done].
    intros n Hn. apply elem_of_union in Hn as [Hn|Hn]; [by apply Hs|].
    eapply mines_in_none; [|exact Hn]. by eapply entailed_sound.
  - intros s mn _ L k He -> [Hs Hm]. split; [done|].
    intros n Hn. apply elem_of_union in Hn as [Hn|Hn]; [by apply Hm|].
    eapply mines_in_all; [|exact Hn]. by eapply entailed_sound.
Qed.

Lemma csp_step_sound board (m : arrangement) ks km safe mine :
  consistent board m → flags_are_mines board m →
  sets_sound m ks km → sets_sound m safe mine →
  sets_sound m
    (ps_safe (csp_step board (board_rows board) (board_cols board)
                       ks km safe mine))
    (ps_mine (csp_step board (board_rows board) (board_cols board)
                       ks km safe mine)).
Proof.
  intros Hc Hf Hk Hs. apply csp_pass_sound; [|done].
  intros c. apply generate_constraints_sound; try done.
  by apply sets_sound_union.
Qed.

Lemma sets_sound_empty (m : arrangement) : sets_sound m ∅ ∅.
Proof. split; intros n Hn; by apply not_elem_of_empty in Hn. Qed.

Lemma solve_step_sets_sound fuel board (m : arrangement) r :
  consistent board m → flags_are_mines board m →
  solve_step fuel board = Some r → sets_sound m r.1 r.2.
Proof.
  intros Hc Hf Hr.
  apply solve_step_inv in Hr as (safe & mine & cs & cm & Hb & Hcsp & ->).
  assert (Hbs : sets_sound m safe mine).
  { apply (basic_loop_invariant (sets_sound m) board (board_rows board)
             (board_cols board)) in Hb; [done| |apply sets_sound_empty].
    intros s mn Hs. apply sets_sound_union; [done|].
    by apply apply_basic_rules_sound. }
  cbn [fst snd]. apply sets_sound_union; [done|].
  apply (apply_csp_solver_invariant (sets_sound m)) in Hcsp;
    [done | apply sets_sound_empty |].
  intros s mn Hs. by apply csp_step_sound.
Qed.

(** ** Checking an arrangement against a board by evaluation *)

Definition consistentb (board : Board) (m : arrangement) : bool :=
  forallb
    (λ rc : coord,
       negb (is_revealed (cell_at board rc.1 rc.2))
       || (negb (m rc)
           && (is_mine (cell_at board rc.1 rc.2)
               || (mines_around m (board_rows board) (board_cols board)
                                rc.1 rc.2
                   =? adjacent_mines (cell_at board rc.1 rc.2)))))
    (row_major (board_rows board) (board_cols board)).

Definition flags_are_minesb (board : Board) (m : arrangement) : bool :=
  forallb
    (λ rc : coord, negb (is_flagged (cell_at board rc.1 rc.2)) || m rc)
    (row_major (board_rows board) (board_cols board)).

Lemma consistentb_correct board m :
  consistentb board m = true → consistent board m.
Proof.
  unfold consistentb. rewrite forallb_forall. intros Hall row col Hb Hrev.
  specialize (Hall (row, col)). cbn [fst snd] in Hall.
  rewrite Hrev in Hall. cbn [negb orb] in Hall.
  assert (Hin : In (row, col) (row_major (board_rows board) (board_cols board)))
    by (apply list_elem_of_In; by apply elem_of_row_major).
  apply Hall, andb_prop in Hin as [Hm Hadj].
  split; [by apply negb_true_iff|].
  intros Hmine. rewrite Hmine in Hadj. by apply Z.eqb_eq.
Qed.

Lemma flags_are_minesb_correct board m :
  flags_are_minesb board m = true → flags_are_mines board m.
Proof.
  unfold flags_are_minesb. rewrite forallb_forall. intros Hall row col Hb Hfl.
  specialize (Hall (row, col)). cbn [fst snd] in Hall.
  rewrite Hfl in Hall. apply Hall.
  apply list_elem_of_In. by apply elem_of_row_major.
Qed.

(** The arrangement a board carries in its own [is_mine] fields. *)
Definition mines_of (board : Board) : arrangement :=
  λ n, is_mine (cell_at board n.1 n.2).

(** ** The claims about [solve_step] *)

(** Fuel that is always enough for either loop: one more than the number of
    cells of the grid. *)
Definition enough_fuel (board : Board) (fuel : nat) : Prop :=
  (Z.to_nat (board_rows board) * Z.to_nat (board_cols board) < fuel)%nat.

(** A position with a misplaced flag: the flag sits on a clear cell, the
    mine is under the other hidden cell. *)
Definition board_wrong_flag : Board :=
  [[flagged_clear 0; shown 1; hidden_mine]].

(** C1, as stated, does not hold.  On [board_wrong_flag] the board's own
    mines are an arrangement that agrees with every revealed count, yet
    [solve_step] returns the mined cell [(0, 2)] as safe: the solver takes
    the flag on [(0, 0)] for a mine. *)
Lemma solve_step_trusts_flags :
  no_short_row board_wrong_flag
  ∧ consistent board_wrong_flag (mines_of board_wrong_flag)
  ∧ solve_step 4 board_wrong_flag = Some ({[ (0, 2) ]}, ∅)
  ∧ (0, 2) ∈ ({[ (0, 2) ]} : gset coord)
  ∧ mines_of board_wrong_flag (0, 2) = true.
Proof.
  split_and!.
  - by apply (bool_decide_unpack _); vm_compute.
  - apply consistentb_correct. by vm_compute.
  - by vm_compute.
  - by apply elem_of_singleton.
  - done.
Qed.

(** C1, amended.  On a board without short rows [solve_step] returns, and
    for every arrangement that agrees with the revealed cells and puts a
    mine under every flag, every returned mine is mined and every returned
    safe cell is clear. *)
Theorem solve_step_sound (board : Board) :
  no_short_row board →
  ∃ safe mines,
    (∀ fuel, enough_fuel board fuel → solve_step fuel board = Some (safe, mines))
    ∧ ∀ m : arrangement,
        consistent board m → flags_are_mines board m →
        (∀ n, n ∈ mines → m n = true) ∧ (∀ n, n ∈ safe → m n = false).
Proof.
  intros _. destruct (solve_step_terminates board) as [[safe mines] Hr].
  exists safe, mines. split; [exact Hr|].
  intros m Hc Hf.
  pose proof (solve_step_sets_sound _ board m (safe, mines) Hc Hf
                (Hr _ (Nat.lt_succ_diag_r _))) as [Hs Hm].
  by split.
Qed.

Lemma solve_step_sound_witness :
  ∃ safe mines,
    (∀ fuel, enough_fuel board_121 fuel →
       solve_step fuel board_121 = Some (safe, mines))
    ∧ ∀ m : arrangement,
        consistent board_121 m → flags_are_mines board_121 m →
        (∀ n, n ∈ mines → m n = true) ∧ (∀ n, n ∈ safe → m n = false).
Proof. exact (solve_step_sound board_121 board_121_no_short_row). Defined.

(** The hypotheses on the arrangement can be met: the mines of [board_121]
    agree with its counts, and it has no flag. *)
Lemma board_121_arrangement :
  consistent board_121 (mines_of board_121)
  ∧ flags_are_mines board_121 (mines_of board_121)
  ∧ solve_step 7 board_121 = Some ({[ (1, 1) ]}, {[ (1, 0); (1, 2) ]}).
Proof.
  split_and!.
  - apply consistentb_correct. by vm_compute.
  - apply flags_are_minesb_correct. by vm_compute.
  - by vm_compute.
Qed.

(** C10.  Every coordinate [solve_step] returns, in either set, lies within
    the bounds of the board and names a cell that is neither revealed nor
    flagged. *)
Theorem solve_step_cells_hidden (board : Board) :
  no_short_row board →
  ∃ safe mines,
    (∀ fuel, enough_fuel board fuel → solve_step fuel board = Some (safe, mines))
    ∧ ∀ n : coord, n ∈ safe ∪ mines →
        in_bounds (board_rows board) (board_cols board) n = true
        ∧ is_revealed (cell_at board n.1 n.2) = false
        ∧ is_flagged (cell_at board n.1 n.2) = false.
Proof.
  intros _. destruct (solve_step_terminates board) as [[safe mines] Hr].
  exists safe, mines. split; [exact Hr|].
  intros n Hn.
  pose proof (solve_step_frontier _ board (safe, mines)
                (Hr _ (Nat.lt_succ_diag_r _)) n Hn) as Hfr.
  apply elem_of_frontier in Hfr as [Hb Hu].
  apply is_unknown_spec in Hu as (? & ? & _). done.
Qed.

Lemma solve_step_cells_hidden_witness :
  ∃ safe mines,
    (∀ fuel, enough_fuel board_121 fuel →
       solve_step fuel board_121 = Some (safe, mines))
    ∧ ∀ n : coord, n ∈ safe ∪ mines →
        in_bounds (board_rows board_121) (board_cols board_121) n = true
        ∧ is_revealed (cell_at board_121 n.1 n.2) = false
        ∧ is_flagged (cell_at board_121 n.1 n.2) = false.
Proof. exact (solve_step_cells_hidden board_121 board_121_no_short_row). Defined.

(** C5.  The propagation loop of [_apply_csp_solver] ends for every board
    and every pair of known sets: fuel beyond the number of grid cells always
    yields a result.  Every pass starts from constraints regenerated from
    the sets proved so far; it either sets [flag] and has proved an in-bounds
    cell that was in neither set before the pass, or it leaves both sets
    unchanged, clears [flag], and the loop returns. *)
Theorem csp_loop_halts (board : Board) (ks km : gset coord) :
  no_short_row board →
  let rows := board_rows board in
  let cols := board_cols board in
  (∃ r, ∀ fuel, enough_fuel board fuel →
          _apply_csp_solver fuel board rows cols ks km = Some r)
  ∧ (∀ fuel safe mine,
       let st := csp_step board rows cols ks km safe mine in
       csp_loop (S fuel) board rows cols ks km
                (_generate_constraints board rows cols (ks ∪ safe) (km ∪ mine))
                safe mine
       = if ps_flag st then
           csp_loop fuel board rows cols ks km
                    (_generate_constraints board rows cols
                       (ks ∪ ps_safe st) (km ∪ ps_mine st))
                    (ps_safe st) (ps_mine st)
         else Some (ps_safe st, ps_mine st))
  ∧ (∀ safe mine,
       let st := csp_step board rows cols ks km safe mine in
       (ps_flag st = true
        ∧ ∃ n, in_bounds rows cols n = true
               ∧ (n ∉ safe ∪ mine) ∧ n ∈ ps_safe st ∪ ps_mine st)
       ∨ (ps_flag st = false ∧ ps_safe st = safe ∧ ps_mine st = mine))
  ∧ (∀ safe mine,
       (size (frontier board rows cols (ks ∪ safe) (km ∪ mine))
        ≤ Z.to_nat rows * Z.to_nat cols)%nat).
Proof.
  intros _ rows cols. split_and!.
  - apply apply_csp_solver_terminates.
  - intros fuel safe mine. apply csp_loop_unfold.
  - intros safe mine st.
    destruct (csp_step_progress board rows cols ks km safe mine)
      as (_ & _ & _ & Ht & Hf).
    fold st in Ht, Hf. destruct (ps_flag st); [left | right].
    + split; [done|]. destruct (Ht eq_refl) as (n & HnA & Hn).
      exists n. apply elem_of_frontier in HnA as [Hb Hu].
      apply is_unknown_spec in Hu as (_ & _ & ? & ?).
      split_and!; [done | set_solver | done].
    + by destruct (Hf eq_refl).
  - intros safe mine. apply frontier_size.
Qed.

Lemma csp_loop_halts_witness :
  ∃ r, ∀ fuel, enough_fuel board_121 fuel →
    _apply_csp_solver fuel board_121 (board_rows board_121)
                      (board_cols board_121) ∅ ∅ = Some r.
Proof.
  exact (proj1 (csp_loop_halts board_121 ∅ ∅ board_121_no_short_row)).
Defined.

(** * The probability calculator *)

(** ** Dictionaries built from an assignment *)

Lemma foldl_insert_lookup (l : list (coord * Z)) (m : gmap coord Z) c v :
  NoDup l.*1 →
  foldl (λ m (kv : coord * Z), <[kv.1 := kv.2]> m) m l !! c = Some v
  ↔ (c, v) ∈ l ∨ ((c ∉ l.*1) ∧ m !! c = Some v).
Proof.
  revert m. induction l as [|[k w] l IH]; intros m Hnd.
  - cbn. split; [intros Hm; right; split; [apply not_elem_of_nil | done]|].
    intros [Hin | [_ Hm]]; [by apply elem_of_nil in Hin | done].
  - cbn [foldl fmap list_fmap fst snd] in *.
    apply NoDup_cons in Hnd as [Hk Hnd]. rewrite (IH _ Hnd).
    rewrite elem_of_cons, not_elem_of_cons. split.
    + intros [Hin | [Hni Hm]]; [by left; right|].
      destruct (decide (k = c)) as [->|Hne].
      * rewrite lookup_insert_eq in Hm. injection Hm as ->. by left; left.
      * rewrite lookup_insert_ne in Hm by done. by right.
    + intros [[[= -> ->] | Hin] | [[Hne Hni] Hm]].
      * right. split; [done|]. by rewrite lookup_insert_eq.
      * by left.
      * right. split; [done|]. by rewrite lookup_insert_ne.
Qed.

Lemma NoDup_zip_fst (cells : list coord) (asg : list Z) :
  NoDup cells → NoDup (zip cells asg).*1.
Proof.
  revert asg. induction cells as [|c cells IH]; intros asg Hnd; [constructor|].
  destruct asg as [|v asg]; [constructor|].
  apply NoDup_cons in Hnd as [Hc Hnd]. cbn. apply NoDup_cons. split; [|by apply IH].
  intros Hin. apply Hc. apply list_elem_of_fmap in Hin as ([c' v'] & -> & Hin).
  by apply elem_of_zip_l in Hin.
Qed.

Lemma cell_to_value_lookup (cells : list coord) (asg : list Z) c v :
  NoDup cells →
  cell_to_value cells asg !! c = Some v
  ↔ ∃ i, cells !! i = Some c ∧ asg !! i = Some v.
Proof.
  intros Hnd. unfold cell_to_value.
  rewrite foldl_insert_lookup by by apply NoDup_zip_fst.
  rewrite lookup_empty. split.
  - intros [Hin | [_ [=]]].
    apply elem_of_lookup_zip_with_1 in Hin
      as (i & c' & v' & [= -> ->] & Hc & Hv).
    by exists i.
  - intros (i & Hc & Hv). left.
    by apply (elem_of_lookup_zip_with_2 pair cells asg c v (c, v) i).
Qed.

Lemma cell_to_value_prefix (cells : list coord) (p s : list Z) c v :
  NoDup cells →
  cell_to_value cells p !! c = Some v →
  cell_to_value cells (p ++ s) !! c = Some v.
Proof.
  intros Hnd. rewrite !cell_to_value_lookup by done.
  intros (i & Hc & Hv). exists i. split; [done|]. by apply lookup_app_l_Some.
Qed.

Lemma cell_to_value_elem (cells : list coord) (asg : list Z) c v :
  NoDup cells → cell_to_value cells asg !! c = Some v → v ∈ asg.
Proof.
  intros Hnd. rewrite cell_to_value_lookup by done.
  intros (i & _ & Hv). by eapply list_elem_of_lookup_2.
Qed.

(** ** Sums *)

Lemma sumZ_from (l : list Z) (a : Z) : foldl Z.add a l = a + sumZ l.
Proof.
  unfold sumZ. revert a. induction l as [|x l IH]; intros a; cbn; [lia|].
  rewrite (IH (a + x)), (IH (0 + x)). lia.
Qed.

Lemma sumZ_cons (x : Z) (l : list Z) : sumZ (x :: l) = x + sumZ l.
Proof. unfold sumZ at 1. cbn. rewrite sumZ_from. lia. Qed.

Lemma sumZ_app (l1 l2 : list Z) : sumZ (l1 ++ l2) = sumZ l1 + sumZ l2.
Proof.
  induction l1 as [|x l1 IH]; [done|].
  cbn [app]. rewrite !sumZ_cons, IH. lia.
Qed.

Lemma sumZ_perm (l1 l2 : list Z) : l1 ≡ₚ l2 → sumZ l1 = sumZ l2.
Proof.
  induction 1 as [|x l l' _ IH|x y l|l l' l'' _ IH1 _ IH2];
    rewrite ?sumZ_cons; lia.
Qed.

(** A value of an assignment is 0 or 1. *)
Definition binary (asg : list Z) : Prop := Forall (λ v, v = 0 ∨ v = 1) asg.

(** All lists of [n] values 0 or 1, in the order the search tries them. *)
Fixpoint all_assignments (n : nat) : list (list Z) :=
  match n with
  | O => [[]]
  | S n' => (cons 0 <$> all_assignments n') ++ (cons 1 <$> all_assignments n')
  end.

Lemma all_assignments_binary n a :
  a ∈ all_assignments n → binary a ∧ length a = n.
Proof.
  revert a. induction n as [|n IH]; intros a Ha; cbn in Ha.
  - apply list_elem_of_singleton in Ha as ->. split; [constructor | done].
  - apply elem_of_app in Ha as [Ha|Ha];
      apply list_elem_of_fmap in Ha as (a' & -> & Ha');
      destruct (IH a' Ha') as [Hb Hl];
      (split; [constructor; [lia | done] | cbn; by rewrite Hl]).
Qed.

Lemma sumZ_le_pointwise {A : Type} (f g : A → Z) (l : list A) :
  (∀ x, x ∈ l → f x <= g x) → sumZ (f <$> l) <= sumZ (g <$> l).
Proof.
  induction l as [|x l IH]; intros Hfg; [done|].
  rewrite !fmap_cons, !sumZ_cons.
  pose proof (Hfg x ltac:(left)).
  assert (sumZ (f <$> l) <= sumZ (g <$> l)); [|lia].
  apply IH. intros y Hy. apply Hfg. by right.
Qed.

Lemma sumZ_plus_pointwise {A : Type} (f g : A → Z) (l : list A) :
  sumZ ((λ x, f x + g x) <$> l) = sumZ (f <$> l) + sumZ (g <$> l).
Proof.
  induction l as [|x l IH]; [done|].
  rewrite !fmap_cons, !sumZ_cons, IH. lia.
Qed.

(** ** Pruning and the exact check *)

(** The three counters of [_is_promising], cell by cell. *)
Definition assigned_of (c2v : gmap coord Z) (cell : coord) : Z :=
  match c2v !! cell with Some _ => 1 | None => 0 end.

Definition mine_of (c2v : gmap coord Z) (cell : coord) : Z :=
  match c2v !! cell with Some v => if v =? 1 then 1 else 0 | None => 0 end.

Definition unassigned_of (c2v : gmap coord Z) (cell : coord) : Z :=
  match c2v !! cell with Some _ => 0 | None => 1 end.

Lemma promising_fold (c2v : gmap coord Z) (l : list coord) (x mc uc : Z) :
  foldl (promising_cell c2v) (x, mc, uc) l
  = (x + sumZ (assigned_of c2v <$> l),
     mc + sumZ (mine_of c2v <$> l),
     uc + sumZ (unassigned_of c2v <$> l)).
Proof.
  revert x mc uc. induction l as [|c l IH]; intros x mc uc.
  - cbn. (apply (f_equal2 pair); [apply (f_equal2 pair)|]);
      unfold sumZ; cbn; lia.
  - cbn [foldl]. rewrite !fmap_cons, !sumZ_cons.
    unfold promising_cell at 2, assigned_of at 1, mine_of at 1,
      unassigned_of at 1.
    destruct (c2v !! c) as [v|]; rewrite IH;
      (apply (f_equal2 pair); [apply (f_equal2 pair)|]); try lia.
    destruct (v =? 1); lia.
Qed.

Section Search.
Context `{SetOrder}.

(** A complete assignment that passes the exact check has no prefix that the
    early check rejects. *)
Lemma check_implies_promising (cells : list coord) (cs : list constraint)
    (p s : list Z) :
  NoDup cells → binary (p ++ s) →
  _check_constraints (p ++ s) cells cs = true →
  _is_promising p cells cs = true.
Proof.
  intros Hnd Hbin. unfold _check_constraints, _is_promising.
  rewrite !forallb_forall. intros Hall c Hc. specialize (Hall c Hc).
  apply bool_decide_eq_true in Hall.
  rewrite promising_fold. rewrite !Z.add_0_l.
  set (full := cell_to_value cells (p ++ s)) in *.
  set (part := cell_to_value cells p) in *.
  assert (Hpt : ∀ cell,
            mine_of part cell <= default 0 (full !! cell)
            ∧ default 0 (full !! cell)
              <= mine_of part cell + unassigned_of part cell).
  { intros cell. unfold mine_of, unassigned_of.
    destruct (part !! cell) as [v|] eqn:Hp.
    - pose proof (cell_to_value_prefix cells p s cell v Hnd Hp) as Hf.
      fold full in Hf. rewrite Hf. cbn.
      apply cell_to_value_elem in Hf; [|done].
      apply (proj1 (Forall_forall _ _) Hbin) in Hf as [-> | ->]; cbn; lia.
    - destruct (full !! cell) as [w|] eqn:Hf; cbn; [|lia].
      apply cell_to_value_elem in Hf; [|done].
      apply (proj1 (Forall_forall _ _) Hbin) in Hf as [-> | ->]; lia. }
  pose proof (sumZ_le_pointwise (mine_of part)
                (λ cell, default 0 (full !! cell)) (set_iter c.1)
                (λ x _, proj1 (Hpt x))) as Hlo.
  pose proof (sumZ_le_pointwise (λ cell, default 0 (full !! cell))
                (λ cell, mine_of part cell + unassigned_of part cell)
                (set_iter c.1) (λ x _, proj2 (Hpt x))) as Hhi.
  rewrite sumZ_plus_pointwise in Hhi.
  apply andb_true_intro. split; apply negb_true_iff, Z.ltb_ge; lia.
Qed.

(** What the search does on reaching a solution. *)
Definition count_solution (cells : list coord) (st : Z * gmap coord Z)
    (a : list Z) : Z * gmap coord Z :=
  (st.1 + 1, tally_mines cells a st.2).

(** The naive search of the specification: every one of the [2^n]
    assignments is built, and the exact check alone decides which are
    counted. *)
Definition naive_search (cells : list coord) (cs : list constraint) (n : nat)
    (st : Z * gmap coord Z) : Z * gmap coord Z :=
  foldl (count_solution cells) st
        (filter (λ a, _check_constraints a cells cs) (all_assignments n)).

(** The same, below a prefix already chosen. *)
Definition naive_below (cells : list coord) (cs : list constraint)
    (prefix : list Z) (remaining : nat) (st : Z * gmap coord Z)
    : Z * gmap coord Z :=
  foldl (λ st suffix,
           if _check_constraints (prefix ++ suffix) cells cs
           then count_solution cells st (prefix ++ suffix) else st)
        st (all_assignments remaining).

Lemma naive_below_snoc cells cs prefix v remaining st :
  foldl (λ st suffix,
           if _check_constraints (prefix ++ suffix) cells cs
           then count_solution cells st (prefix ++ suffix) else st)
        st (cons v <$> all_assignments remaining)
  = naive_below cells cs (prefix ++ [v]) remaining st.
Proof.
  unfold naive_below. revert st.
  induction (all_assignments remaining) as [|a l IH]; intros st; [done|].
  cbn [fmap list_fmap foldl]. rewrite <- !app_assoc. cbn [app]. apply IH.
Qed.

Lemma naive_below_none cells cs prefix remaining st :
  (∀ suffix, suffix ∈ all_assignments remaining →
     _check_constraints (prefix ++ suffix) cells cs = false) →
  naive_below cells cs prefix remaining st = st.
Proof.
  unfold naive_below.
  induction (all_assignments remaining) as [|a l IH]; intros Hno; [done|].
  cbn [foldl]. rewrite (Hno a) by left. apply IH.
  intros suffix Hs. apply Hno. by right.
Qed.

Lemma backtrack_naive_below (cells : list coord) (cs : list constraint) :
  NoDup cells →
  ∀ remaining prefix st,
    binary prefix →
    backtrack cells cs remaining prefix st
    = naive_below cells cs prefix remaining st.
Proof.
  intros Hnd. induction remaining as [|k IH]; intros prefix st Hbin.
  - unfold naive_below. cbn. rewrite app_nil_r.
    by destruct (_check_constraints prefix cells cs).
  - assert (Hbranch : ∀ v st, v = 0 ∨ v = 1 →
              (if _is_promising (prefix ++ [v]) cells cs
               then backtrack cells cs k (prefix ++ [v]) st else st)
              = naive_below cells cs (prefix ++ [v]) k st).
    { intros v st' Hv.
      assert (binary (prefix ++ [v])) as Hbv
          by (apply Forall_app; split; [done | by constructor]).
      destruct (_is_promising (prefix ++ [v]) cells cs) eqn:Hp;
        [by apply IH|].
      symmetry. apply naive_below_none. intros suffix Hs.
      destruct (_check_constraints ((prefix ++ [v]) ++ suffix) cells cs)
        eqn:Hck; [|done].
      apply check_implies_promising in Hck; [congruence | done |].
      apply Forall_app. split; [done|].
      by apply all_assignments_binary in Hs as [? _]. }
    cbn [backtrack foldl]. rewrite !Hbranch by auto.
    unfold naive_below at 3. cbn [all_assignments].
    rewrite foldl_app, !naive_below_snoc. done.
Qed.

Lemma naive_below_nil cells cs n st :
  naive_below cells cs [] n st = naive_search cells cs n st.
Proof.
  unfold naive_below, naive_search. revert st.
  induction (all_assignments n) as [|a l IH]; intros st; [done|].
  cbn [foldl app].
  rewrite (filter_cons_bool (λ a, _check_constraints a cells cs)).
  destruct (_check_constraints a cells cs); cbn [foldl]; apply IH.
Qed.

Lemma sorted_cells_perm (cells : gset coord) :
  sorted_cells cells ≡ₚ elements cells.
Proof.
  unfold sorted_cells. rewrite merge_sort_Permutation. apply set_iter_perm.
Qed.

Lemma NoDup_sorted_cells (cells : gset coord) : NoDup (sorted_cells cells).
Proof. rewrite sorted_cells_perm. apply NoDup_elements. Qed.

Lemma NoDup_set_iter (s : gset coord) : NoDup (set_iter s).
Proof. rewrite set_iter_perm. apply NoDup_elements. Qed.

Lemma elem_of_set_iter (s : gset coord) (c : coord) : c ∈ set_iter s ↔ c ∈ s.
Proof. rewrite set_iter_perm. apply elem_of_elements. Qed.

End Search.

Lemma all_assignments_length n : length (all_assignments n) = (2 ^ n)%nat.
Proof.
  induction n as [|n IH]; [done|].
  cbn [all_assignments]. rewrite length_app, !length_fmap, IH. cbn. lia.
Qed.

Lemma elem_of_all_assignments n a :
  a ∈ all_assignments n ↔ binary a ∧ length a = n.
Proof.
  split; [apply all_assignments_binary|].
  revert a. induction n as [|n IH]; intros a [Hb Hl].
  - destruct a; [left | done].
  - destruct a as [|v a]; [done|]. injection Hl as Hl.
    apply Forall_cons in Hb as [Hv Hb]. cbn [all_assignments].
    apply elem_of_app.
    destruct Hv as [-> | ->]; [left | right];
      apply list_elem_of_fmap; exists a; split; auto.
Qed.

(** C3.  On the sorted cell list of any region, the pruned search leaves the
    counters exactly as the naive search does, which counts, in the same
    order, the assignments among all [2^n] that pass the exact check; and no
    prefix of an assignment that passes the exact check is rejected by the
    early check. *)
Theorem backtrack_refines_naive `{SetOrder}
    (constraints : list constraint) (cells : gset coord) :
  let cells_list := sorted_cells cells in
  let n := length cells_list in
  (∀ st, backtrack cells_list constraints n [] st
         = naive_search cells_list constraints n st)
  ∧ (∀ a, a ∈ all_assignments n →
       _check_constraints a cells_list constraints = true →
       ∀ k, _is_promising (take k a) cells_list constraints = true)
  ∧ length (all_assignments n) = (2 ^ n)%nat
  ∧ (∀ a, a ∈ all_assignments n ↔ binary a ∧ length a = n).
Proof.
  intros cells_list n. split_and!.
  - intros st. rewrite backtrack_naive_below.
    + apply naive_below_nil.
    + apply NoDup_sorted_cells.
    + constructor.
  - intros a Ha Hck k. apply all_assignments_binary in Ha as [Hb _].
    apply (check_implies_promising cells_list constraints (take k a) (drop k a)).
    + apply NoDup_sorted_cells.
    + by rewrite take_drop.
    + by rewrite take_drop.
  - apply all_assignments_length.
  - apply elem_of_all_assignments.
Qed.

(** ** Tallies *)

(** The arrangement an assignment stands for: the cells it gives a 1. *)
Definition arrangement_of (cells : list coord) (a : list Z) : arrangement :=
  λ c, bool_decide ((c, 1) ∈ zip cells a).

Lemma cell_to_value_zip (cells : list coord) (a : list Z) c v :
  NoDup cells → cell_to_value cells a !! c = Some v ↔ (c, v) ∈ zip cells a.
Proof.
  intros Hnd. unfold cell_to_value.
  rewrite foldl_insert_lookup by by apply NoDup_zip_fst.
  rewrite lookup_empty. naive_solver.
Qed.

Lemma zip_functional (cells : list coord) (a : list Z) c v w :
  NoDup cells → (c, v) ∈ zip cells a → (c, w) ∈ zip cells a → v = w.
Proof.
  intros Hnd Hv Hw. apply cell_to_value_zip in Hv, Hw; [|done..]. congruence.
Qed.

Lemma tally_fold_lookup (l : list (coord * Z)) (m : gmap coord Z) c :
  NoDup l.*1 →
  foldl (λ m (kv : coord * Z),
           if kv.2 =? 1 then <[kv.1 := default 0 (m !! kv.1) + 1]> m else m)
        m l !! c
  = if bool_decide ((c, 1) ∈ l) then Some (default 0 (m !! c) + 1) else m !! c.
Proof.
  revert m. induction l as [|[k w] l IH]; intros m Hnd; [done|].
  cbn [foldl fmap list_fmap fst snd] in *.
  apply NoDup_cons in Hnd as [Hk Hnd]. rewrite (IH _ Hnd).
  destruct (decide (c = k)) as [->|Hne].
  - assert (Hni : (k, 1) ∉ l).
    { intros Hin. apply Hk. apply list_elem_of_fmap. by exists (k, 1). }
    rewrite (bool_decide_eq_false_2 _ Hni).
    destruct (Z.eqb_spec w 1) as [->|Hw].
    + rewrite lookup_insert_eq. by rewrite bool_decide_eq_true_2 by left.
    + rewrite bool_decide_eq_false_2; [done|].
      intros [[= ?]|?]%elem_of_cons; done.
  - assert (Heq : bool_decide ((c, 1) ∈ (k, w) :: l) = bool_decide ((c, 1) ∈ l)).
    { apply bool_decide_ext. rewrite elem_of_cons. naive_solver. }
    rewrite Heq.
    destruct (w =? 1); [|done]. by rewrite lookup_insert_ne.
Qed.

Lemma tally_mines_lookup (cells : list coord) (a : list Z) (m : gmap coord Z) c :
  NoDup cells →
  tally_mines cells a m !! c
  = if arrangement_of cells a c then Some (default 0 (m !! c) + 1) else m !! c.
Proof.
  intros Hnd. unfold tally_mines, arrangement_of.
  apply tally_fold_lookup. by apply NoDup_zip_fst.
Qed.

Lemma count_solutions_total (cells : list coord) (sols : list (list Z)) st :
  (foldl (count_solution cells) st sols).1 = st.1 + Z.of_nat (length sols).
Proof.
  revert st. induction sols as [|a sols IH]; intros st; [cbn; lia|].
  cbn [foldl length]. rewrite IH. unfold count_solution. cbn [fst]. lia.
Qed.

Lemma count_solutions_tally (cells : list coord) (sols : list (list Z)) st c v :
  NoDup cells → st.2 !! c = Some v →
  (foldl (count_solution cells) st sols).2 !! c
  = Some (v + Z.of_nat (length (filter (λ a, arrangement_of cells a c) sols))).
Proof.
  intros Hnd. revert st v. induction sols as [|a sols IH]; intros st v Hv.
  - cbn. rewrite Hv. f_equal. lia.
  - cbn [foldl]. rewrite (filter_cons_bool (λ a, arrangement_of cells a c)).
    destruct (arrangement_of cells a c) eqn:Ha.
    + rewrite (IH _ (v + 1)).
      * f_equal. cbn [length]. lia.
      * unfold count_solution. cbn [snd].
        by rewrite tally_mines_lookup, Ha, Hv.
    + apply IH. unfold count_solution. cbn [snd].
      by rewrite tally_mines_lookup, Ha.
Qed.

Lemma zero_counts_lookup (l : list coord) (m : gmap coord Z) c :
  c ∈ l → foldl (λ m cell, <[cell := 0]> m) m l !! c = Some 0.
Proof.
  revert m. induction l as [|x l IH]; intros m Hc; [by apply elem_of_nil in Hc|].
  cbn [foldl]. destruct (decide (c ∈ l)) as [Hin|Hni]; [by apply IH|].
  apply elem_of_cons in Hc as [->|]; [|done].
  clear IH. revert m. induction l as [|y l IH]; intros m.
  - cbn. by rewrite lookup_insert_eq.
  - cbn [foldl]. apply not_elem_of_cons in Hni as [Hne Hni].
    rewrite insert_insert_ne by done. by apply IH.
Qed.

(** ** Satisfying assignments *)

Lemma sumZ_indicator (m : arrangement) (l : list coord) :
  sumZ ((λ c, if m c then 1 else 0) <$> l) = count_true m l.
Proof.
  induction l as [|c l IH]; [done|].
  by rewrite fmap_cons, sumZ_cons, count_true_cons, IH.
Qed.

Section Probabilities.
Context `{SetOrder}.

(** The exact check says that every constraint holds in the arrangement the
    assignment stands for. *)
Lemma check_constraints_spec (cells : list coord) (cs : list constraint)
    (a : list Z) :
  NoDup cells → binary a →
  _check_constraints a cells cs = true
  ↔ ∀ c, c ∈ cs → constraint_sound (arrangement_of cells a) c.
Proof.
  intros Hnd Hbin. unfold _check_constraints. rewrite forallb_forall.
  assert (Hval : ∀ cell,
            default 0 (cell_to_value cells a !! cell)
            = if arrangement_of cells a cell then 1 else 0).
  { intros cell. unfold arrangement_of.
    destruct (cell_to_value cells a !! cell) as [v|] eqn:Hv; cbn.
    - pose proof (cell_to_value_elem _ _ _ _ Hnd Hv) as Hin.
      apply cell_to_value_zip in Hv; [|done].
      apply (proj1 (Forall_forall _ _) Hbin) in Hin as [-> | ->].
      + rewrite bool_decide_eq_false_2; [done|].
        intros H1. by pose proof (zip_functional _ _ _ _ _ Hnd Hv H1).
      + by rewrite bool_decide_eq_true_2.
    - rewrite bool_decide_eq_false_2; [done|].
      intros H1. apply cell_to_value_zip in H1; [congruence | done]. }
  assert (Hsum : ∀ c : constraint,
            sumZ ((λ cell, default 0 (cell_to_value cells a !! cell))
                    <$> set_iter c.1)
            = mines_in (arrangement_of cells a) c.1).
  { intros c. rewrite (list_fmap_ext _ _ _ (λ _ x _, Hval x)).
    rewrite sumZ_indicator. unfold mines_in.
    apply count_true_perm, set_iter_perm. }
  split.
  - intros Hall c Hc. apply list_elem_of_In, Hall, bool_decide_eq_true in Hc.
    unfold constraint_sound. by rewrite <- Hsum.
  - intros Hall c Hc. apply bool_decide_eq_true. rewrite Hsum.
    apply Hall. by apply list_elem_of_In.
Qed.

(** The complete assignments over the cell list that pass the exact check,
    and those among them that put a mine on a given cell. *)
Definition solutions (cells_list : list coord) (cs : list constraint)
    : list (list Z) :=
  filter (λ a, _check_constraints a cells_list cs)
         (all_assignments (length cells_list)).

Definition mine_solutions (cells_list : list coord) (cs : list constraint)
    (c : coord) : list (list Z) :=
  filter (λ a, arrangement_of cells_list a c) (solutions cells_list cs).

(** The quotient [tally / total] of the specification, with its fallback. *)
Definition marginal (cells_list : list coord) (cs : list constraint)
    (c : coord) : Qc :=
  if Z.of_nat (length (solutions cells_list cs)) =? 0 then Q2Qc (1 # 2)
  else (Q2Qc (inject_Z (Z.of_nat (length (mine_solutions cells_list cs c))))
        / Q2Qc (inject_Z (Z.of_nat (length (solutions cells_list cs)))))%Qc.

Lemma calculate_probabilities_spec (cs : list constraint) (cells : gset coord) :
  _calculate_probabilities cs cells
  = (λ c, (c, marginal (sorted_cells cells) cs c)) <$> set_iter cells.
Proof.
  unfold _calculate_probabilities.
  case_bool_decide as Hn.
  { apply nil_length_inv in Hn.
    pose proof (sorted_cells_perm cells) as Hp. rewrite Hn in Hp.
    apply Permutation_nil_l in Hp.
    pose proof (set_iter_perm cells) as Hs. rewrite <- Hp in Hs.
    apply Permutation_nil_r in Hs. by rewrite Hs. }
  rewrite backtrack_naive_below by (apply NoDup_sorted_cells || constructor).
  rewrite naive_below_nil. unfold naive_search.
  fold (solutions (sorted_cells cells) cs).
  set (mc0 := foldl (λ m cell, <[cell := 0]> m) ∅ (set_iter cells)).
  pose proof (count_solutions_total (sorted_cells cells)
                (solutions (sorted_cells cells) cs) (0, mc0)) as Htot.
  pose proof (λ c v, count_solutions_tally (sorted_cells cells)
                (solutions (sorted_cells cells) cs) (0, mc0) c v
                (NoDup_sorted_cells cells)) as Htal.
  destruct (foldl (count_solution (sorted_cells cells)) (0, mc0)
                  (solutions (sorted_cells cells) cs))
    as [total mc1].
  cbn [fst snd] in Htot, Htal. rewrite Z.add_0_l in Htot. subst total.
  unfold marginal.
  destruct (Z.of_nat (length (solutions (sorted_cells cells) cs)) =? 0);
    [done|].
  apply list_fmap_ext. intros i c Hc. f_equal.
  rewrite (Htal c 0).
  - cbn. rewrite Z.add_0_l. done.
  - apply zero_counts_lookup. by eapply list_elem_of_lookup_2.
Qed.

End Probabilities.

(** ** One constraint over the whole region *)

Lemma filter_ext_in_bool {A : Type} (f g : A → bool) (l : list A) :
  (∀ x, x ∈ l → f x = g x) →
  filter (λ x, f x) l = filter (λ x, g x) l.
Proof.
  induction l as [|x l IH]; intros Hfg; [done|].
  rewrite !filter_cons_bool, (Hfg x) by left.
  rewrite IH; [done|]. intros y Hy. apply Hfg. by right.
Qed.

Lemma count_true_ext (m m' : arrangement) (l : list coord) :
  (∀ x, x ∈ l → m x = m' x) → count_true m l = count_true m' l.
Proof.
  intros Hmm. unfold count_true. f_equal. f_equal.
  by apply filter_ext_in_bool.
Qed.

Lemma arrangement_of_lookup (cells : list coord) (a : list Z) i c v :
  NoDup cells → cells !! i = Some c → a !! i = Some v →
  arrangement_of cells a c = bool_decide (v = 1).
Proof.
  intros Hnd Hc Hv. unfold arrangement_of. apply bool_decide_ext.
  assert (Hin : (c, v) ∈ zip cells a)
    by apply (elem_of_lookup_zip_with_2 pair cells a c v (c, v) i Hc Hv).
  split.
  - intros H1. by apply (zip_functional cells a c v 1).
  - by intros <-.
Qed.

Lemma count_true_arrangement (cells : list coord) (a : list Z) :
  NoDup cells → length a = length cells → binary a →
  count_true (arrangement_of cells a) cells = sumZ a.
Proof.
  revert a. induction cells as [|c cells IH]; intros a Hnd Hlen Hbin.
  - by destruct a.
  - destruct a as [|v a]; [done|]. injection Hlen as Hlen.
    apply Forall_cons in Hbin as [Hv Hbin].
    pose proof Hnd as Hnd'. apply NoDup_cons in Hnd' as [Hc Hnd'].
    rewrite count_true_cons, sumZ_cons.
    rewrite (arrangement_of_lookup (c :: cells) (v :: a) 0 c v)
      by done.
    rewrite (count_true_ext _ (arrangement_of cells a)).
    + rewrite IH by done. destruct Hv as [-> | ->]; done.
    + intros x Hx. unfold arrangement_of. apply bool_decide_ext.
      cbn. rewrite elem_of_cons. split; [|by right].
      intros [[= -> _]|?]; done.
Qed.

Lemma one_third : (Q2Qc (inject_Z 1) / Q2Qc (inject_Z 3))%Qc = Q2Qc (1 # 3).
Proof. by apply Qc_is_canon. Qed.

Section OneOfThree.
Context `{SetOrder}.

Lemma single_constraint_check (cells : gset coord) (k : Z) (a : list Z) :
  a ∈ all_assignments (length (sorted_cells cells)) →
  _check_constraints a (sorted_cells cells) [(cells, k)]
  = bool_decide (sumZ a = k).
Proof.
  intros Ha. apply all_assignments_binary in Ha as [Hbin Hlen].
  pose proof (NoDup_sorted_cells cells) as Hnd.
  apply eq_true_iff_eq.
  rewrite (check_constraints_spec _ _ _ Hnd Hbin), bool_decide_eq_true.
  unfold constraint_sound, mines_in.
  assert (Hcount : count_true (arrangement_of (sorted_cells cells) a)
                              (elements cells) = sumZ a).
  { rewrite <- (count_true_perm _ _ _ (sorted_cells_perm cells)).
    by apply count_true_arrangement. }
  split.
  - intros Hall. rewrite <- Hcount. apply (Hall (cells, k)). by left.
  - intros Hs c Hc. apply list_elem_of_singleton in Hc as ->. cbn [fst snd].
    by rewrite Hcount.
Qed.

Lemma one_of_three_marginal (cells : gset coord) (c : coord) :
  size cells = 3%nat → c ∈ cells →
  marginal (sorted_cells cells) [(cells, 1)] c = Q2Qc (1 # 3).
Proof.
  intros Hsz Hc.
  pose proof (NoDup_sorted_cells cells) as Hnd.
  assert (Hlen : length (sorted_cells cells) = 3%nat).
  { rewrite (Permutation_length (sorted_cells_perm cells)). exact Hsz. }
  assert (Hsol : solutions (sorted_cells cells) [(cells, 1)]
                 = [[0; 0; 1]; [0; 1; 0]; [1; 0; 0]]).
  { unfold solutions.
    rewrite (filter_ext_in_bool _ (λ a, bool_decide (sumZ a = 1)))
      by apply single_constraint_check.
    rewrite Hlen. by vm_compute. }
  assert (Hin : c ∈ sorted_cells cells).
  { rewrite (sorted_cells_perm cells). by apply elem_of_elements. }
  apply list_elem_of_lookup_1 in Hin as [i Hi].
  assert (Hmine : length (mine_solutions (sorted_cells cells) [(cells, 1)] c)
                  = 1%nat).
  { unfold mine_solutions. rewrite Hsol.
    pose proof (lookup_lt_Some _ _ _ Hi) as Hlt. rewrite Hlen in Hlt.
    rewrite (filter_ext_in_bool _ (λ a, bool_decide (a !! i = Some 1))).
    - destruct i as [|[|[|i]]]; [by vm_compute.. | lia].
    - intros a Ha.
      assert (∃ v, a !! i = Some v) as [v Hv].
      { apply lookup_lt_is_Some.
        repeat (apply elem_of_cons in Ha as [-> | Ha]; [cbn; lia|]).
        by apply elem_of_nil in Ha. }
      rewrite (arrangement_of_lookup _ _ i c v Hnd Hi Hv), Hv.
      apply bool_decide_ext. naive_solver. }
  unfold marginal. rewrite Hmine, Hsol. cbn [length Z.of_nat Z.eqb].
  apply one_third.
Qed.

End OneOfThree.

(** C2.  [_calculate_probabilities] returns one entry for each cell of the
    region, in the order the set is iterated.  With [solutions] the complete
    0/1 assignments over the sorted cell list that pass the exact check: if
    there is at least one, the entry of a cell is the number of solutions
    with a mine on it divided by the number of solutions; if there is none,
    it is 1/2.  An assignment passes the check exactly when every
    constraint holds in the arrangement it stands for.  A region made of one
    constraint over three cells with count 1 gives 1/3 to each. *)
Theorem calculate_probabilities_exact `{SetOrder}
    (constraints : list constraint) (cells : gset coord) :
  let cells_list := sorted_cells cells in
  let total := length (solutions cells_list constraints) in
  _calculate_probabilities constraints cells
  = (λ c, (c, if bool_decide (total = 0%nat) then Q2Qc (1 # 2)
              else (Q2Qc (inject_Z (Z.of_nat
                      (length (mine_solutions cells_list constraints c))))
                    / Q2Qc (inject_Z (Z.of_nat total)))%Qc))
      <$> set_iter cells
  ∧ NoDup (set_iter cells)
  ∧ (∀ c, c ∈ set_iter cells ↔ c ∈ cells)
  ∧ (∀ a, a ∈ all_assignments (length cells_list) →
       (a ∈ solutions cells_list constraints
        ↔ ∀ c, c ∈ constraints →
            mines_in (arrangement_of cells_list a) c.1 = c.2))
  ∧ (∀ a c, a ∈ mine_solutions cells_list constraints c
            ↔ a ∈ solutions cells_list constraints
              ∧ (c, 1) ∈ zip cells_list a)
  ∧ (size cells = 3%nat →
     _calculate_probabilities [(cells, 1)] cells
     = (λ c, (c, Q2Qc (1 # 3))) <$> set_iter cells).
Proof.
  intros cells_list total. split_and!.
  - rewrite calculate_probabilities_spec. apply list_fmap_ext.
    intros i c _. f_equal. unfold marginal. fold cells_list. fold total.
    destruct (Z.eqb_spec (Z.of_nat total) 0) as [E|E].
    + rewrite bool_decide_eq_true_2; [done | lia].
    + rewrite bool_decide_eq_false_2; [done | lia].
  - apply NoDup_set_iter.
  - apply elem_of_set_iter.
  - intros a Ha. unfold solutions, cells_list in *.
    rewrite list_elem_of_filter, Is_true_true.
    apply all_assignments_binary in Ha as Hb. destruct Hb as [Hb _].
    rewrite (check_constraints_spec _ _ _ (NoDup_sorted_cells cells) Hb).
    unfold constraint_sound. tauto.
  - intros a c. unfold mine_solutions, arrangement_of.
    rewrite list_elem_of_filter, bool_decide_spec. tauto.
  - intros Hsz. rewrite calculate_probabilities_spec. apply list_fmap_ext.
    intros i c Hc. f_equal. apply one_of_three_marginal; [done|].
    apply elem_of_set_iter. by eapply list_elem_of_lookup_2.
Qed.

(** * The disjoint-set partitioner *)

(** ** Parent chains *)

(** [reaches parent x r d]: following [parent] from [x] ends, after [d]
    steps, at the root [r], an item that is its own parent. *)
Inductive reaches (parent : gmap coord coord) : coord → coord → nat → Prop :=
| reaches_root x :
    parent !! x = Some x → reaches parent x x 0
| reaches_step x p r d :
    parent !! x = Some p → p ≠ x → reaches parent p r d →
    reaches parent x r (S d).

Lemma reaches_functional parent x r d r' d' :
  reaches parent x r d → reaches parent x r' d' → r = r' ∧ d = d'.
Proof.
  intros Hr. revert r' d'.
  induction Hr as [x Hx | x p r d Hx Hne Hr IH]; intros r' d' Hr'.
  - inversion Hr' as [y Hy | y q s e Hy Hq Hs]; subst; [done | congruence].
  - inversion Hr' as [y Hy | y q s e Hy Hq Hs]; subst; [congruence|].
    assert (q = p) as -> by congruence.
    destruct (IH _ _ Hs) as [-> ->]. done.
Qed.

Lemma reaches_is_root parent x r d :
  reaches parent x r d → parent !! r = Some r.
Proof. induction 1; done. Qed.

Lemma reaches_in_dom parent x r d : reaches parent x r d → x ∈ dom parent.
Proof. intros Hr. apply elem_of_dom. inversion Hr; subst; eauto. Qed.

(** Pointing [x] straight at its root keeps every root and lengthens no
    chain: this is the assignment [self.parent[item] = root] of [find]. *)
Lemma compress_reaches parent x r dx y ry dy :
  reaches parent x r dx → x ≠ r →
  reaches parent y ry dy →
  ∃ d', (d' ≤ dy)%nat ∧ reaches (<[x := r]> parent) y ry d'.
Proof.
  intros Hx Hxr Hy.
  assert (Hroot : parent !! r = Some r) by by eapply reaches_is_root.
  induction Hy as [y Hy | y q ry dy Hy Hq Hqr IH].
  - exists 0%nat. split; [done|]. apply reaches_root.
    destruct (decide (x = y)) as [->|Hne]; [|by rewrite lookup_insert_ne].
    exfalso. apply Hxr.
    by destruct (reaches_functional _ _ _ _ _ _ Hx (reaches_root _ _ Hy)).
  - destruct IH as (d' & Hle & Hr').
    destruct (decide (x = y)) as [->|Hne].
    + destruct (reaches_functional _ _ _ _ _ _ Hx
                  (reaches_step _ _ _ _ _ Hy Hq Hqr)) as [-> _].
      exists 1%nat. split; [lia|].
      apply (reaches_step _ y ry ry 0); [by rewrite lookup_insert_eq | done |].
      apply reaches_root. by rewrite lookup_insert_ne.
    + exists (S d'). split; [lia|].
      apply (reaches_step _ y q ry d'); [by rewrite lookup_insert_ne | done..].
Qed.

(** ** [find] *)

(** [uf'] has the same items, ranks and key order as [uf], the same roots,
    and no longer chains. *)
Definition compresses (uf uf' : UnionFind) : Prop :=
  dom (parent uf') = dom (parent uf)
  ∧ rank uf' = rank uf
  ∧ uf_keys uf' = uf_keys uf
  ∧ ∀ y r d, reaches (parent uf) y r d →
      ∃ d', (d' ≤ d)%nat ∧ reaches (parent uf') y r d'.

Lemma compresses_refl uf : compresses uf uf.
Proof. split_and!; try done. intros y r d Hr. by exists d. Qed.

Lemma compresses_trans uf1 uf2 uf3 :
  compresses uf1 uf2 → compresses uf2 uf3 → compresses uf1 uf3.
Proof.
  intros (Hd1 & Hr1 & Hk1 & H1) (Hd2 & Hr2 & Hk2 & H2).
  split_and!; try congruence.
  intros y r d Hr. destruct (H1 _ _ _ Hr) as (d1 & Hle1 & Hr1').
  destruct (H2 _ _ _ Hr1') as (d2 & Hle2 & Hr2'). exists d2. split; [lia|done].
Qed.

Lemma uf_find_spec (fuel : nat) (uf : UnionFind) (x r : coord) (d : nat) :
  reaches (parent uf) x r d → (d < fuel)%nat →
  ∃ uf', uf_find fuel uf x = Some (uf', r) ∧ compresses uf uf'.
Proof.
  revert uf x r d. induction fuel as [|fuel IH]; intros uf x r d Hr Hlt; [lia|].
  cbn [uf_find].
  rewrite (bool_decide_eq_true_2 _ (reaches_in_dom _ _ _ _ Hr)).
  inversion Hr as [y Hy | y p s e Hy Hp Hs]; subst.
  - rewrite Hy. cbn. rewrite (bool_decide_eq_true_2 (r = r)) by done. cbn.
    exists uf. split; [done | apply compresses_refl].
  - rewrite Hy. cbn. rewrite (bool_decide_eq_false_2 (p = x)) by done. cbn.
    destruct (IH uf p r e Hs ltac:(lia)) as (uf2 & Hfind & Hc).
    rewrite Hfind. cbn. rewrite lookup_insert_eq. cbn.
    eexists. split; [done|].
    destruct Hc as (Hd & Hrk & Hk & Hroots).
    destruct (Hroots _ _ _ Hr) as (dx & _ & Hx2).
    assert (Hxr : x ≠ r).
    { intros ->. pose proof (reaches_is_root _ _ _ _ Hs). congruence. }
    split_and!; cbn; try done.
    + rewrite dom_insert_L, Hd.
      pose proof (reaches_in_dom _ _ _ _ Hr). set_solver.
    + intros y ry dy Hyr. destruct (Hroots _ _ _ Hyr) as (d1 & Hle1 & Hy2).
      destruct (compress_reaches _ _ _ _ _ _ _ Hx2 Hxr Hy2) as (d2 & Hle2 & Hy3).
      exists d2. split; [lia | done].
Qed.

(** ** [union] *)

(** Two items with the same root. *)
Definition same_root (parent : gmap coord coord) (y z : coord) : Prop :=
  ∃ r dy dz, reaches parent y r dy ∧ reaches parent z r dz.

(** Every item has a root at most [D] steps away, and a rank. *)
Definition uf_wf (D : nat) (uf : UnionFind) : Prop :=
  (dom (rank uf) = dom (parent uf)
   ∧ ∀ x, x ∈ uf_keys uf → x ∈ dom (parent uf))
  ∧ ∀ x, x ∈ dom (parent uf) →
      ∃ r d, (d ≤ D)%nat ∧ reaches (parent uf) x r d.

(** [uf'] has the items and key order of [uf] and keeps together what [uf]
    has together. *)
Definition coarsens (uf uf' : UnionFind) : Prop :=
  dom (parent uf') = dom (parent uf)
  ∧ uf_keys uf' = uf_keys uf
  ∧ ∀ y z, same_root (parent uf) y z → same_root (parent uf') y z.

Lemma coarsens_refl uf : coarsens uf uf.
Proof. by split_and!. Qed.

Lemma coarsens_trans uf1 uf2 uf3 :
  coarsens uf1 uf2 → coarsens uf2 uf3 → coarsens uf1 uf3.
Proof.
  intros (Hd1 & Hk1 & H1) (Hd2 & Hk2 & H2).
  split_and!; try congruence. intros y z Hyz. by apply H2, H1.
Qed.

Lemma compresses_coarsens uf uf' : compresses uf uf' → coarsens uf uf'.
Proof.
  intros (Hd & _ & Hk & Hroots). split_and!; try done.
  intros y z (r & dy & dz & Hy & Hz).
  destruct (Hroots _ _ _ Hy) as (dy' & _ & Hy').
  destruct (Hroots _ _ _ Hz) as (dz' & _ & Hz').
  by exists r, dy', dz'.
Qed.

Lemma compresses_wf D uf uf' : uf_wf D uf → compresses uf uf' → uf_wf D uf'.
Proof.
  intros [[Hrk Hkeys] Hall] (Hd & Hr & Hk & Hroots).
  split; [split; [congruence | by rewrite Hk, Hd]|].
  intros x Hx. rewrite Hd in Hx. destruct (Hall x Hx) as (r & d & Hle & Hreach).
  destruct (Hroots _ _ _ Hreach) as (d' & Hle' & Hreach').
  exists r, d'. split; [lia | done].
Qed.

Lemma uf_wf_mono D D' uf : (D ≤ D')%nat → uf_wf D uf → uf_wf D' uf.
Proof.
  intros Hle [Hrk Hall]. split; [done|].
  intros x Hx. destruct (Hall x Hx) as (r & d & Hd & Hr).
  exists r, d. split; [lia | done].
Qed.

(** Hanging the root [l] below the root [w]. *)
Lemma link_reaches parent w l y ry dy :
  parent !! w = Some w → parent !! l = Some l → w ≠ l →
  reaches parent y ry dy →
  reaches (<[l := w]> parent) y
          (if bool_decide (ry = l) then w else ry)
          (if bool_decide (ry = l) then S dy else dy).
Proof.
  intros Hw Hl Hwl Hy.
  induction Hy as [y Hy | y q ry dy Hy Hq Hqr IH].
  - case_bool_decide as Hyl.
    + subst y. apply (reaches_step _ l w w 0);
        [by rewrite lookup_insert_eq | done |].
      apply reaches_root. by rewrite lookup_insert_ne.
    + apply reaches_root. by rewrite lookup_insert_ne.
  - assert (y ≠ l) by congruence.
    case_bool_decide as Hrl.
    + apply (reaches_step _ y q w (S dy));
        [by rewrite lookup_insert_ne | done | done].
    + apply (reaches_step _ y q ry dy);
        [by rewrite lookup_insert_ne | done | done].
Qed.

Lemma link_spec D uf uf' w l :
  uf_wf D uf →
  parent uf !! w = Some w → parent uf !! l = Some l → w ≠ l →
  parent uf' = <[l := w]> (parent uf) →
  dom (rank uf') = dom (rank uf) →
  uf_keys uf' = uf_keys uf →
  uf_wf (S D) uf' ∧ coarsens uf uf'
  ∧ (∀ y z dy dz, reaches (parent uf) y w dy → reaches (parent uf) z l dz →
       same_root (parent uf') y z).
Proof.
  intros [[Hrk Hkeys] Hall] Hw Hl Hwl Hp Hrk' Hk.
  assert (Hdom : dom (parent uf') = dom (parent uf)).
  { rewrite Hp, dom_insert_L.
    assert (l ∈ dom (parent uf)) by (apply elem_of_dom; eauto). set_solver. }
  split_and!.
  - split; [split; [congruence | by rewrite Hk, Hdom]|].
    intros x Hx. rewrite Hdom in Hx.
    destruct (Hall x Hx) as (r & d & Hd & Hr).
    pose proof (link_reaches _ w l x r d Hw Hl Hwl Hr) as Hr'.
    rewrite <- Hp in Hr'. eexists _, _. split; [|exact Hr'].
    case_bool_decide; lia.
  - split_and!; try done. intros y z (r & dy & dz & Hy & Hz).
    pose proof (link_reaches _ w l y r dy Hw Hl Hwl Hy) as Hy'.
    pose proof (link_reaches _ w l z r dz Hw Hl Hwl Hz) as Hz'.
    rewrite <- Hp in Hy', Hz'. by eexists _, _, _.
  - intros y z dy dz Hy Hz.
    pose proof (link_reaches _ w l y w dy Hw Hl Hwl Hy) as Hy'.
    pose proof (link_reaches _ w l z l dz Hw Hl Hwl Hz) as Hz'.
    rewrite <- Hp in Hy', Hz'.
    rewrite (bool_decide_eq_false_2 (w = l)) in Hy' by done.
    rewrite (bool_decide_eq_true_2 (l = l)) in Hz' by done.
    by eexists _, _, _.
Qed.

Lemma same_root_sym parent y z : same_root parent y z → same_root parent z y.
Proof. intros (r & dy & dz & Hy & Hz). by exists r, dz, dy. Qed.

Lemma same_root_trans parent x y z :
  same_root parent x y → same_root parent y z → same_root parent x z.
Proof.
  intros (r & dx & dy & Hx & Hy) (r' & dy' & dz & Hy' & Hz).
  destruct (reaches_functional _ _ _ _ _ _ Hy Hy') as [-> _].
  by exists r', dx, dz.
Qed.

Lemma uf_union_spec (fuel D : nat) (uf : UnionFind) (a b : coord) :
  uf_wf D uf → a ∈ dom (parent uf) → b ∈ dom (parent uf) → (D < fuel)%nat →
  ∃ uf', uf_union fuel uf a b = Some uf'
         ∧ uf_wf (S D) uf' ∧ coarsens uf uf'
         ∧ same_root (parent uf') a b.
Proof.
  intros Hwf Ha Hb Hfuel. unfold uf_union.
  destruct (proj2 Hwf a Ha) as (ra & da & Hda & Hra).
  destruct (uf_find_spec fuel uf a ra da Hra ltac:(lia)) as (uf1 & Hf1 & Hc1).
  rewrite Hf1. cbn.
  pose proof (compresses_wf _ _ _ Hwf Hc1) as Hwf1.
  assert (Hb1 : b ∈ dom (parent uf1)) by (by rewrite (proj1 Hc1)).
  destruct (proj2 Hwf1 b Hb1) as (rb & db & Hdb & Hrb).
  destruct (uf_find_spec fuel uf1 b rb db Hrb ltac:(lia)) as (uf2 & Hf2 & Hc2).
  rewrite Hf2. cbn.
  pose proof (compresses_wf _ _ _ Hwf1 Hc2) as Hwf2.
  pose proof (coarsens_trans _ _ _ (compresses_coarsens _ _ Hc1)
                (compresses_coarsens _ _ Hc2)) as Hco.
  destruct (proj2 (proj2 (proj2 Hc1)) _ _ _ Hra) as (da1 & _ & Hra1).
  destruct (proj2 (proj2 (proj2 Hc2)) _ _ _ Hra1) as (da2 & _ & Hra2).
  destruct (proj2 (proj2 (proj2 Hc2)) _ _ _ Hrb) as (db2 & _ & Hrb2).
  case_bool_decide as Heq.
  { subst rb. exists uf2. split_and!; try done.
    - apply (uf_wf_mono D); [lia | done].
    - by exists ra, da2, db2. }
  pose proof (reaches_is_root _ _ _ _ Hra2) as Hroota.
  pose proof (reaches_is_root _ _ _ _ Hrb2) as Hrootb.
  assert (is_Some (rank uf2 !! ra)) as [rank1 Hrank1].
  { apply elem_of_dom. rewrite (proj1 (proj1 Hwf2)). apply elem_of_dom. eauto. }
  assert (is_Some (rank uf2 !! rb)) as [rank2 Hrank2].
  { apply elem_of_dom. rewrite (proj1 (proj1 Hwf2)). apply elem_of_dom. eauto. }
  rewrite Hrank1, Hrank2. cbn.
  destruct (rank1 <? rank2).
  - eexists. split; [done|].
    destruct (link_spec D uf2
                (mkUF (<[ra := rb]> (parent uf2)) (rank uf2) (uf_keys uf2))
                rb ra Hwf2 Hrootb Hroota ltac:(done)
                eq_refl eq_refl eq_refl) as (Hwf' & Hco' & Hsame).
    split_and!; [done | by eapply coarsens_trans |].
    apply same_root_sym. by eapply Hsame.
  - destruct (rank2 <? rank1).
    + eexists. split; [done|].
      destruct (link_spec D uf2
                  (mkUF (<[rb := ra]> (parent uf2)) (rank uf2) (uf_keys uf2))
                  ra rb Hwf2 Hroota Hrootb ltac:(done)
                  eq_refl eq_refl eq_refl) as (Hwf' & Hco' & Hsame).
      split_and!; [done | by eapply coarsens_trans |]. by eapply Hsame.
    + eexists. split; [done|].
      destruct (link_spec D uf2
                  (mkUF (<[rb := ra]> (parent uf2))
                        (<[ra := rank1 + 1]> (rank uf2)) (uf_keys uf2))
                  ra rb Hwf2 Hroota Hrootb ltac:(done) eq_refl)
        as (Hwf' & Hco' & Hsame); [|done|].
      { cbn. rewrite dom_insert_L.
        assert (ra ∈ dom (rank uf2)) by (apply elem_of_dom; eauto).
        set_solver. }
      split_and!; [done | by eapply coarsens_trans |]. by eapply Hsame.
Qed.

(** ** The three loops of [_find_independent_regions] *)

Lemma reaches_insert_fresh parent i x r d :
  i ∉ dom parent → reaches parent x r d → reaches (<[i := i]> parent) x r d.
Proof.
  intros Hi. induction 1 as [x Hx | x p r d Hx Hp Hr IH].
  - apply reaches_root. rewrite lookup_insert_ne; [done|].
    intros ->. apply Hi, elem_of_dom. eauto.
  - apply (reaches_step _ x p r d); [|done..].
    rewrite lookup_insert_ne; [done|].
    intros ->. apply Hi, elem_of_dom. eauto.
Qed.

Lemma uf_add_spec D uf item :
  uf_wf D uf →
  uf_wf D (uf_add uf item)
  ∧ dom (parent (uf_add uf item)) = dom (parent uf) ∪ {[ item ]}.
Proof.
  intros [[Hrk Hkeys] Hall]. unfold uf_add. case_bool_decide as Hin.
  - split; [done | set_solver].
  - unfold uf_wf. cbn [parent rank uf_keys]. split; [split; [split|]|].
    + rewrite !dom_insert_L. congruence.
    + intros x Hx. rewrite dom_insert_L.
      apply elem_of_app in Hx as [Hx|Hx]; [|set_solver].
      specialize (Hkeys x Hx). set_solver.
    + intros x Hx. rewrite dom_insert_L in Hx.
      destruct (decide (x = item)) as [->|Hne].
      * exists item, 0%nat. split; [lia|].
        apply reaches_root. by rewrite lookup_insert_eq.
      * destruct (Hall x ltac:(set_solver)) as (r & d & Hd & Hr).
        exists r, d. split; [done|]. by apply reaches_insert_fresh.
    + rewrite dom_insert_L. set_solver.
Qed.

Lemma uf_new_wf : uf_wf 0 uf_new.
Proof.
  split; [split; [done|]|].
  - intros x Hx. by apply elem_of_nil in Hx.
  - intros x Hx. cbn in Hx. by rewrite dom_empty_L in Hx.
Qed.

Lemma foldl_uf_add_spec D (l : list coord) uf :
  uf_wf D uf →
  uf_wf D (foldl uf_add uf l)
  ∧ dom (parent (foldl uf_add uf l)) = dom (parent uf) ∪ list_to_set l.
Proof.
  revert uf. induction l as [|x l IH]; intros uf Hwf.
  - cbn. split; [done | set_solver].
  - cbn [foldl]. destruct (uf_add_spec D uf x Hwf) as [Hwf1 Hd1].
    destruct (IH _ Hwf1) as [Hwf2 Hd2]. split; [done|].
    rewrite Hd2, Hd1. set_solver.
Qed.

(** The number of cells of all constraints: a bound on the number of calls
    of [union], hence on the length of any parent chain. *)
Definition total_cells (constraints : list constraint) : nat :=
  sum_list ((λ c : constraint, size c.1) <$> constraints).

Lemma total_cells_cons (c : constraint) (cs : list constraint) :
  total_cells (c :: cs) = (size c.1 + total_cells cs)%nat.
Proof. reflexivity. Qed.

Section RegionLoops.
Context `{SetOrder}.

Lemma length_set_iter (s : gset coord) : length (set_iter s) = size s.
Proof. by rewrite (Permutation_length (set_iter_perm s)). Qed.

Lemma regions_add_all_spec D (cs : list constraint) uf :
  uf_wf D uf →
  uf_wf D (regions_add_all cs uf)
  ∧ dom (parent uf) ⊆ dom (parent (regions_add_all cs uf))
  ∧ ∀ c : constraint, c ∈ cs → c.1 ⊆ dom (parent (regions_add_all cs uf)).
Proof.
  unfold regions_add_all. revert uf.
  induction cs as [|c cs IH]; intros uf Hwf.
  - cbn. split_and!; [done | done |]. intros c Hc. by apply elem_of_nil in Hc.
  - cbn [foldl].
    destruct (foldl_uf_add_spec D (set_iter c.1) uf Hwf) as [Hwf1 Hd1].
    destruct (IH _ Hwf1) as (Hwf2 & Hsub & Hcs). split_and!; [done | |].
    + rewrite Hd1 in Hsub. set_solver.
    + intros c' Hc'. apply elem_of_cons in Hc' as [->|Hc']; [|by apply Hcs].
      intros x Hx. apply Hsub. rewrite Hd1.
      apply elem_of_union_r, elem_of_list_to_set. by apply elem_of_set_iter.
Qed.

Lemma union_chain_spec (fuel : nat) (l : list coord) :
  ∀ D uf,
    uf_wf D uf → (∀ x, x ∈ l → x ∈ dom (parent uf)) →
    (D + length l ≤ fuel)%nat →
    ∃ uf', union_chain fuel uf l = Some uf'
           ∧ uf_wf (D + length l) uf' ∧ coarsens uf uf'
           ∧ ∀ x y, x ∈ l → y ∈ l → same_root (parent uf') x y.
Proof.
  induction l as [|a l IH]; intros D uf Hwf Hdom Hfuel.
  { exists uf. split_and!; [done | | apply coarsens_refl |].
    - apply (uf_wf_mono D); [lia | done].
    - intros x y Hx. by apply elem_of_nil in Hx. }
  destruct l as [|b l].
  { exists uf. split_and!; [done | | apply coarsens_refl |].
    - apply (uf_wf_mono D); [lia | done].
    - intros x y ->%list_elem_of_singleton ->%list_elem_of_singleton.
      destruct (proj2 Hwf a (Hdom a ltac:(left))) as (r & d & _ & Hr).
      by exists r, d, d. }
  cbn [union_chain]. cbn [length] in Hfuel.
  destruct (uf_union_spec fuel D uf a b Hwf (Hdom a ltac:(left))
              (Hdom b ltac:(right; left)) ltac:(lia))
    as (uf1 & Hu & Hwf1 & Hco1 & Hab).
  rewrite Hu. cbn.
  destruct (IH (S D) uf1 Hwf1) as (uf' & Hch & Hwf' & Hco' & Hsame).
  { intros x Hx. rewrite (proj1 Hco1). apply Hdom. by right. }
  { cbn [length]. lia. }
  exists uf'. split_and!; [done | | by eapply coarsens_trans |].
  - apply (uf_wf_mono (S D + length (b :: l))); [cbn [length]; lia | done].
  - assert (Hab' : same_root (parent uf') a b) by by apply Hco'.
    assert (Hall : ∀ x, x ∈ a :: b :: l → same_root (parent uf') x b).
    { intros x [->|Hx]%elem_of_cons; [done|]. apply Hsame; [done | left]. }
    intros x y Hx Hy. eapply same_root_trans; [by apply Hall|].
    apply same_root_sym. by apply Hall.
Qed.

Lemma regions_union_all_spec (fuel : nat) (cs : list constraint) :
  ∀ D uf,
    uf_wf D uf →
    (∀ c : constraint, c ∈ cs → c.1 ⊆ dom (parent uf)) →
    (D + total_cells cs ≤ fuel)%nat →
    ∃ uf', regions_union_all fuel cs uf = Some uf'
           ∧ uf_wf (D + total_cells cs) uf' ∧ coarsens uf uf'
           ∧ ∀ (c : constraint) x y, c ∈ cs → x ∈ c.1 → y ∈ c.1 →
               same_root (parent uf') x y.
Proof.
  unfold regions_union_all.
  induction cs as [|c cs IH]; intros D uf Hwf Hdom Hfuel.
  { exists uf. split_and!; [done | | apply coarsens_refl |].
    - apply (uf_wf_mono D); [lia | done].
    - intros c x y Hc. by apply elem_of_nil in Hc. }
  cbn [foldl]. cbn [mbind option_bind].
  rewrite total_cells_cons in *.
  destruct (union_chain_spec fuel (set_iter c.1) D uf Hwf)
    as (uf1 & Hch & Hwf1 & Hco1 & Hsame1).
  { intros x Hx. apply (Hdom c); [left | by apply elem_of_set_iter]. }
  { rewrite length_set_iter. lia. }
  rewrite Hch. rewrite length_set_iter in Hwf1.
  destruct (IH _ uf1 Hwf1) as (uf' & Hall & Hwf' & Hco' & Hsame').
  { intros c' Hc'. rewrite (proj1 Hco1). apply Hdom. by right. }
  { lia. }
  exists uf'. split_and!; [done | | by eapply coarsens_trans |].
  - by rewrite Nat.add_assoc.
  - intros c' x y [->|Hc']%elem_of_cons Hx Hy; [|by eapply Hsame'].
    apply Hco'. apply Hsame1; by apply elem_of_set_iter.
Qed.

End RegionLoops.

(** [get_groups] only calls [find]: it may shorten chains, nothing else. *)
Lemma uf_get_groups_spec (fuel D : nat) (uf : UnionFind) :
  uf_wf D uf → (D < fuel)%nat →
  ∃ uf' groups, uf_get_groups fuel uf = Some (uf', groups)
                ∧ compresses uf uf'.
Proof.
  intros Hwf Hfuel. unfold uf_get_groups.
  enough (Hgen : ∀ (l : list coord) uf1 (groups : gmap coord (gset coord)),
            compresses uf uf1 →
            (∀ x, x ∈ l → x ∈ dom (parent uf)) →
            ∃ uf' groups',
              foldl
                (λ acc item,
                   '(uf1, groups) ← acc;
                   '(uf2, root) ← uf_find fuel uf1 item;
                   let groups1 := if bool_decide (root ∈ dom groups) then groups
                                  else <[root := ∅]> groups in
                   Some (uf2, <[root := default ∅ (groups1 !! root) ∪ {[ item ]}]>
                                groups1))
                (Some (uf1, groups)) l = Some (uf', groups')
              ∧ compresses uf uf').
  { apply Hgen; [apply compresses_refl | apply (proj2 (proj1 Hwf))]. }
  induction l as [|x l IH]; intros uf1 groups Hc Hl.
  - exists uf1, groups. by split.
  - cbn [foldl]. cbn [mbind option_bind].
    pose proof (compresses_wf _ _ _ Hwf Hc) as Hwf1.
    assert (Hx : x ∈ dom (parent uf1))
      by (rewrite (proj1 Hc); apply Hl; left).
    destruct (proj2 Hwf1 x Hx) as (r & d & Hd & Hr).
    destruct (uf_find_spec fuel uf1 x r d Hr ltac:(lia)) as (uf2 & Hf & Hc2).
    rewrite Hf. cbn [mbind option_bind].
    apply IH; [by eapply compresses_trans|].
    intros y Hy. apply Hl. by right.
Qed.

(** The root [find] would return, as a function. *)
Definition root_in (fuel : nat) (uf : UnionFind) (x : coord) : coord :=
  match uf_find fuel uf x with Some (_, r) => r | None => x end.

Lemma root_in_reaches fuel uf x r d :
  reaches (parent uf) x r d → (d < fuel)%nat → root_in fuel uf x = r.
Proof.
  intros Hr Hd. unfold root_in.
  destruct (uf_find_spec fuel uf x r d Hr Hd) as (uf' & -> & _). done.
Qed.

Section Grouping.
Context `{SetOrder}.

(** The key under which the third loop files a constraint. *)
Definition region_key (fuel : nat) (uf : UnionFind) (c : constraint) : coord :=
  root_in fuel uf (default (0, 0) (head (set_iter c.1))).

Lemma head_set_iter (s : gset coord) :
  s ≠ ∅ → ∃ x, head (set_iter s) = Some x ∧ x ∈ s.
Proof.
  intros Hne. destruct (set_iter s) as [|x l] eqn:Hl.
  - exfalso. apply Hne. apply set_eq. intros y.
    rewrite <- elem_of_set_iter, Hl. set_solver.
  - exists x. split; [done|]. apply elem_of_set_iter. rewrite Hl. left.
Qed.

Lemma regions_group_spec (fuel D : nat) (uf : UnionFind) (cs : list constraint) :
  uf_wf D uf → (D < fuel)%nat →
  (∀ c : constraint, c ∈ cs → c.1 ≠ ∅ ∧ c.1 ⊆ dom (parent uf)) →
  ∃ uf', regions_group fuel cs uf
         = Some (uf', foldl (λ d c, dict_append d (region_key fuel uf c) c)
                            [] cs).
Proof.
  intros Hwf Hfuel Hcs. unfold regions_group.
  enough (Hgen : ∀ (l : list constraint) uf1 d0,
            compresses uf uf1 →
            (∀ c : constraint, c ∈ l → c.1 ≠ ∅ ∧ c.1 ⊆ dom (parent uf)) →
            ∃ uf',
              foldl (λ acc (c : constraint),
                       '(uf, region_to_constraints) ← acc;
                       first ← head (set_iter c.1);
                       '(uf1, representative) ← uf_find fuel uf first;
                       Some (uf1, dict_append region_to_constraints
                                              representative c))
                    (Some (uf1, d0)) l
              = Some (uf', foldl (λ d c, dict_append d (region_key fuel uf c) c)
                                 d0 l)).
  { apply Hgen; [apply compresses_refl | done]. }
  induction l as [|c l IH]; intros uf1 d0 Hc Hl.
  - by exists uf1.
  - cbn [foldl]. cbn [mbind option_bind].
    destruct (Hl c ltac:(left)) as [Hne Hsub].
    destruct (head_set_iter c.1 Hne) as (x & Hhead & Hx).
    rewrite Hhead. cbn [mbind option_bind].
    destruct (proj2 Hwf x (Hsub x Hx)) as (r & d & Hd & Hr).
    destruct (proj2 (proj2 (proj2 Hc)) _ _ _ Hr) as (d1 & Hd1 & Hr1).
    destruct (uf_find_spec fuel uf1 x r d1 Hr1 ltac:(lia)) as (uf2 & Hf & Hc2).
    rewrite Hf. cbn [mbind option_bind].
    assert (Hkey : region_key fuel uf c = r).
    { unfold region_key. rewrite Hhead. cbn.
      apply (root_in_reaches fuel uf x r d); [done | lia]. }
    rewrite Hkey. apply IH; [by eapply compresses_trans|].
    intros c' Hc'. apply Hl. by right.
Qed.

End Grouping.

(** ** Filing by key *)

(** The invariant of the dictionary [region_to_constraints]: distinct keys,
    no empty list, and every constraint filed under its own key. *)
Definition filed {V : Type} (key : V → coord) (d : list (coord * list V)) : Prop :=
  NoDup d.*1
  ∧ ∀ k g, (k, g) ∈ d → g ≠ [] ∧ ∀ x, x ∈ g → key x = k.

Lemma dict_append_keys {V : Type} (d : list (coord * list V)) k (x : V) (k' : coord) :
  k' ∈ (dict_append d k x).*1 ↔ k' ∈ d.*1 ∨ k' = k.
Proof.
  induction d as [|[k0 g0] d IH]; cbn.
  - rewrite list_elem_of_singleton, elem_of_nil. tauto.
  - case_bool_decide as Hk; cbn; rewrite !elem_of_cons.
    + subst. tauto.
    + rewrite IH. tauto.
Qed.

Lemma dict_append_filed {V : Type} (key : V → coord) (d : list (coord * list V))
    (x : V) :
  filed key d → filed key (dict_append d (key x) x).
Proof.
  intros [Hnd Hall]. induction d as [|[k0 g0] d IH].
  - split; cbn.
    + apply NoDup_singleton.
    + intros k g Hin. apply list_elem_of_singleton in Hin.
      injection Hin as -> ->. split; [done|].
      by intros y ->%list_elem_of_singleton.
  - cbn in Hnd. apply NoDup_cons in Hnd as [Hk0 Hnd].
    assert (Hd : filed key (dict_append d (key x) x)).
    { apply IH; [done|]. intros k g Hin. apply Hall. by right. }
    cbn [dict_append]. case_bool_decide as Hk.
    + split; cbn.
      * by apply NoDup_cons.
      * intros k g [[= -> ->]|Hin]%elem_of_cons; [|apply Hall; by right].
        destruct (Hall k0 g0 ltac:(left)) as [_ Hkeys].
        split; [by destruct g0|].
        intros y [Hy| ->%list_elem_of_singleton]%elem_of_app; [by apply Hkeys|done].
    + split; cbn.
      * apply NoDup_cons. split; [|apply Hd].
        rewrite dict_append_keys. intros [?|?]; done.
      * intros k g [[= -> ->]|Hin]%elem_of_cons; [apply Hall; by left|].
        by apply (proj2 Hd).
Qed.

Lemma dict_append_concat {V : Type} (d : list (coord * list V)) k (x : V) :
  concat (dict_append d k x).*2 ≡ₚ concat d.*2 ++ [x].
Proof.
  induction d as [|[k0 g0] d IH]; cbn; [done|].
  case_bool_decide; cbn.
  - rewrite <- !app_assoc. apply Permutation_app_head, Permutation_app_comm.
  - by rewrite IH, app_assoc.
Qed.

Lemma group_by_spec {V : Type} (key : V → coord) (l : list V)
    (d0 : list (coord * list V)) :
  filed key d0 →
  filed key (foldl (λ d x, dict_append d (key x) x) d0 l)
  ∧ concat (foldl (λ d x, dict_append d (key x) x) d0 l).*2
    ≡ₚ concat d0.*2 ++ l.
Proof.
  revert d0. induction l as [|x l IH]; intros d0 Hd0.
  - cbn. by rewrite app_nil_r.
  - cbn [foldl].
    destruct (IH _ (dict_append_filed key d0 x Hd0)) as [Hf Hp].
    split; [done|]. rewrite Hp, dict_append_concat, <- app_assoc. done.
Qed.

(** ** The regions *)

Lemma elem_of_concat {A : Type} (x : A) (ls : list (list A)) :
  x ∈ concat ls ↔ ∃ l, l ∈ ls ∧ x ∈ l.
Proof.
  rewrite list_elem_of_In, in_concat. split; intros (l & Hl & Hx); exists l.
  - by rewrite !list_elem_of_In.
  - by rewrite <- !list_elem_of_In.
Qed.

Section Regions_correct.
Context `{SetOrder}.

Lemma region_key_shared (fuel D : nat) (uf : UnionFind) (c : constraint)
    (x r : coord) (d : nat) :
  uf_wf D uf → (D < fuel)%nat → c.1 ≠ ∅ →
  (∀ y z, y ∈ c.1 → z ∈ c.1 → same_root (parent uf) y z) →
  x ∈ c.1 → reaches (parent uf) x r d →
  region_key fuel uf c = r.
Proof.
  intros Hwf Hfuel Hne Hsame Hx Hr.
  destruct (head_set_iter c.1 Hne) as (f & Hhead & Hf).
  unfold region_key. rewrite Hhead. cbn.
  destruct (Hsame f x Hf Hx) as (r' & df & dx & Hfr & Hxr).
  destruct (reaches_functional _ _ _ _ _ _ Hr Hxr) as [<- _].
  destruct (proj2 Hwf f (reaches_in_dom _ _ _ _ Hfr)) as (r2 & d2 & Hd2 & Hf2).
  destruct (reaches_functional _ _ _ _ _ _ Hfr Hf2) as [<- <-].
  apply (root_in_reaches fuel uf f r df); [done | lia].
Qed.

Lemma find_independent_regions_spec (fuel : nat) (cs : list constraint) :
  cs ≠ [] → (∀ c : constraint, c ∈ cs → c.1 ≠ ∅) →
  (total_cells cs < fuel)%nat →
  ∃ (key : constraint → coord) (d : list (coord * list constraint)),
    _find_independent_regions fuel cs = Some d.*2
    ∧ filed key d
    ∧ concat d.*2 ≡ₚ cs
    ∧ ∀ c1 c2 : constraint, c1 ∈ cs → c2 ∈ cs →
        (∃ x, x ∈ c1.1 ∧ x ∈ c2.1) → key c1 = key c2.
Proof.
  intros Hne Hcells Hfuel. unfold _find_independent_regions.
  rewrite bool_decide_eq_false_2 by done.
  destruct (regions_add_all_spec 0 cs uf_new uf_new_wf) as (Hwf0 & _ & Hdom0).
  destruct (regions_union_all_spec fuel cs 0 _ Hwf0 Hdom0 ltac:(lia))
    as (uf1 & Hu & Hwf1 & Hco1 & Hsame1).
  rewrite Hu. cbn [mbind option_bind]. rewrite Nat.add_0_l in Hwf1.
  destruct (uf_get_groups_spec fuel _ uf1 Hwf1 Hfuel)
    as (uf2 & groups & Hg & Hc2).
  rewrite Hg. cbn [mbind option_bind].
  pose proof (compresses_wf _ _ _ Hwf1 Hc2) as Hwf2.
  pose proof (compresses_coarsens _ _ Hc2) as Hco2.
  assert (Hdom2 : ∀ c : constraint, c ∈ cs →
            c.1 ≠ ∅ ∧ c.1 ⊆ dom (parent uf2)).
  { intros c Hc. split; [by apply Hcells|].
    rewrite (proj1 Hc2), (proj1 Hco1). by apply Hdom0. }
  destruct (regions_group_spec fuel _ uf2 cs Hwf2 Hfuel Hdom2) as (uf3 & Hr).
  rewrite Hr. cbn [mbind option_bind].
  destruct (group_by_spec (region_key fuel uf2) cs []) as [Hfiled Hperm].
  { split; cbn; [constructor|]. intros k g Hin. by apply elem_of_nil in Hin. }
  exists (region_key fuel uf2), (foldl (λ d c, dict_append d (region_key fuel uf2 c) c) [] cs).
  split_and!; [done | done | done |].
  intros c1 c2 Hc1 Hc2' (x & Hx1 & Hx2).
  assert (Hsame2 : ∀ (c : constraint) y z, c ∈ cs → y ∈ c.1 → z ∈ c.1 →
            same_root (parent uf2) y z).
  { intros c y z Hc Hy Hz. apply (proj2 (proj2 Hco2)). by eapply Hsame1. }
  destruct (proj2 Hwf2 x (proj2 (Hdom2 c1 Hc1) x Hx1)) as (r & dx & _ & Hxr).
  rewrite (region_key_shared fuel _ uf2 c1 x r dx Hwf2 Hfuel
             (Hcells c1 Hc1) (λ y z, Hsame2 c1 y z Hc1) Hx1 Hxr).
  rewrite (region_key_shared fuel _ uf2 c2 x r dx Hwf2 Hfuel
             (Hcells c2 Hc2') (λ y z, Hsame2 c2 y z Hc2') Hx2 Hxr).
  done.
Qed.

End Regions_correct.

(** C9.  For a list of constraints that is not empty and whose cell sets
    are not empty, [_find_independent_regions] returns, given fuel beyond
    the number of cells, a list of groups such that: the groups together
    hold exactly the constraints of the input, each as often as it occurs
    there; no group is empty; two constraints that share a cell lie in the
    same group; and two constraints of different groups share no cell. *)
Theorem find_independent_regions_partition `{SetOrder}
    (constraints : list constraint) (fuel : nat) :
  constraints ≠ [] →
  (∀ c : constraint, c ∈ constraints → c.1 ≠ ∅) →
  (total_cells constraints < fuel)%nat →
  ∃ regions,
    _find_independent_regions fuel constraints = Some regions
    ∧ concat regions ≡ₚ constraints
    ∧ (∀ g, g ∈ regions → g ≠ [])
    ∧ (∀ i j g1 g2 (c1 c2 : constraint),
         regions !! i = Some g1 → regions !! j = Some g2 →
         c1 ∈ g1 → c2 ∈ g2 → (∃ x, x ∈ c1.1 ∧ x ∈ c2.1) → i = j)
    ∧ (∀ i j g1 g2 (c1 c2 : constraint),
         regions !! i = Some g1 → regions !! j = Some g2 → i ≠ j →
         c1 ∈ g1 → c2 ∈ g2 → c1.1 ## c2.1).
Proof.
  intros Hne Hcells Hfuel.
  destruct (find_independent_regions_spec fuel constraints Hne Hcells Hfuel)
    as (key & d & Hres & [Hnd Hfiled] & Hperm & Hshare).
  exists d.*2.
  assert (Hin : ∀ i g (c : constraint),
            d.*2 !! i = Some g → c ∈ g →
            c ∈ constraints ∧ ∃ k, d.*1 !! i = Some k ∧ key c = k).
  { intros i g c Hi Hc. rewrite list_lookup_fmap in Hi.
    destruct (d !! i) as [[k g']|] eqn:Hdi; [|done]. injection Hi as ->.
    split.
    - rewrite <- Hperm. apply elem_of_concat. exists g. split; [|done].
      apply list_elem_of_fmap. exists (k, g). split; [done|].
      by eapply list_elem_of_lookup_2.
    - exists k. rewrite list_lookup_fmap, Hdi. split; [done|].
      apply (proj2 (Hfiled k g (list_elem_of_lookup_2 _ _ _ Hdi))). done. }
  assert (Hsame : ∀ i j g1 g2 (c1 c2 : constraint),
            d.*2 !! i = Some g1 → d.*2 !! j = Some g2 →
            c1 ∈ g1 → c2 ∈ g2 → (∃ x, x ∈ c1.1 ∧ x ∈ c2.1) → i = j).
  { intros i j g1 g2 c1 c2 Hi Hj Hc1 Hc2 Hx.
    destruct (Hin i g1 c1 Hi Hc1) as (Hcs1 & k1 & Hk1 & Hkey1).
    destruct (Hin j g2 c2 Hj Hc2) as (Hcs2 & k2 & Hk2 & Hkey2).
    pose proof (Hshare c1 c2 Hcs1 Hcs2 Hx) as Heq.
    apply (NoDup_lookup _ i j k1 Hnd); congruence. }
  split_and!; [done | done | | done |].
  - intros g Hg. apply list_elem_of_fmap in Hg as ([k g'] & -> & Hin').
    apply (Hfiled k g' Hin').
  - intros i j g1 g2 c1 c2 Hi Hj Hij Hc1 Hc2.
    apply elem_of_disjoint. intros x Hx1 Hx2. apply Hij.
    apply (Hsame i j g1 g2 c1 c2); eauto.
Qed.

(** * The move selector *)

(** ** Dictionaries in insertion order *)

Lemma dict_set_keys {V : Type} (d : list (coord * V)) k (v : V) (k' : coord) :
  k' ∈ (dict_set d k v).*1 ↔ k' ∈ d.*1 ∨ k' = k.
Proof.
  induction d as [|[k0 w] d IH]; cbn.
  - rewrite list_elem_of_singleton, elem_of_nil. tauto.
  - case_bool_decide as Hk; cbn; rewrite !elem_of_cons.
    + subst. tauto.
    + rewrite IH. tauto.
Qed.

Lemma dict_get_set {V : Type} (d : list (coord * V)) k (v dflt : V) (k' : coord) :
  dict_get (dict_set d k v) k' dflt
  = if bool_decide (k = k') then v else dict_get d k' dflt.
Proof.
  induction d as [|[k0 w] d IH]; cbn.
  - by case_bool_decide.
  - destruct (decide (k0 = k)) as [->|Hne].
    + rewrite (bool_decide_eq_true_2 (k = k)) by done. cbn.
      by case_bool_decide.
    + rewrite (bool_decide_eq_false_2 (k0 = k)) by done. cbn.
      rewrite IH. repeat case_bool_decide; congruence.
Qed.

Lemma dict_update_keys {V : Type} (d other : list (coord * V)) (k : coord) :
  k ∈ (dict_update d other).*1 ↔ k ∈ d.*1 ∨ k ∈ other.*1.
Proof.
  unfold dict_update. revert d.
  induction other as [|[k0 v] other IH]; intros d; cbn [foldl].
  - cbn. rewrite elem_of_nil. tauto.
  - rewrite IH, dict_set_keys. cbn. rewrite elem_of_cons. tauto.
Qed.

Lemma foldl_dict_set_keys {V : Type} (d : list (coord * V)) (l : list coord)
    (p : V) (k : coord) :
  k ∈ (foldl (λ d cell, dict_set d cell p) d l).*1 ↔ k ∈ d.*1 ∨ k ∈ l.
Proof.
  revert d. induction l as [|x l IH]; intros d; cbn [foldl].
  - rewrite elem_of_nil. tauto.
  - rewrite IH, dict_set_keys, elem_of_cons. tauto.
Qed.

Lemma foldl_dict_set_get {V : Type} (d : list (coord * V)) (l : list coord)
    (p dflt : V) (k : coord) :
  k ∈ l → dict_get (foldl (λ d cell, dict_set d cell p) d l) k dflt = p.
Proof.
  revert d. induction l as [|x l IH]; intros d Hk; [by apply elem_of_nil in Hk|].
  cbn [foldl]. destruct (decide (k ∈ l)) as [Hin|Hni]; [by apply IH|].
  apply elem_of_cons in Hk as [->|]; [|done].
  enough (Hkeep : ∀ d0, dict_get (foldl (λ d cell, dict_set d cell p) d0 l)
                                 x dflt = dict_get d0 x dflt).
  { rewrite Hkeep, dict_get_set. by rewrite bool_decide_eq_true_2. }
  clear IH d. induction l as [|y l IH]; intros d0; cbn [foldl]; [done|].
  apply not_elem_of_cons in Hni as [Hne Hni].
  rewrite IH by done. rewrite dict_get_set.
  by rewrite bool_decide_eq_false_2.
Qed.

Lemma dict_argmin_key (d : list (coord * Qc)) :
  d ≠ [] → ∃ k, dict_argmin d = Some k ∧ k ∈ d.*1.
Proof.
  destruct d as [|kv d]; [done|]. intros _. cbn [dict_argmin].
  eexists. split; [done|].
  enough (Hgen : ∀ (l : list (coord * Qc)) best,
            (foldl (λ best (kv : coord * Qc),
                      if Qclt_le_dec kv.2 best.2 then kv else best) best l)
            ∈ best :: l).
  { apply list_elem_of_fmap. eexists. split; [done | apply Hgen]. }
  induction l as [|x l IH]; intros best; cbn [foldl]; [left|].
  destruct (Qclt_le_dec x.2 best.2).
  - right. apply IH.
  - specialize (IH best). apply elem_of_cons in IH as [->|?];
      [left | right; by right].
Qed.

Lemma random_choice_elem {A : Type} (rnd : nat) (l : list A) :
  l ≠ [] → ∃ x, random_choice rnd l = Some x ∧ x ∈ l.
Proof.
  intros Hne. unfold random_choice.
  assert (Hlt : (rnd mod length l < length l)%nat).
  { apply Nat.mod_upper_bound. by destruct l. }
  apply lookup_lt_is_Some in Hlt as [x Hx].
  exists x. split; [done|]. by eapply list_elem_of_lookup_2.
Qed.

(** ** The sets of the move selector *)

Lemma foldl_fold_left {A B : Type} (f : A → B → A) (l : list B) (a : A) :
  foldl f a l = fold_left f l a.
Proof. revert a. induction l as [|x l IH]; intros a; [done|]. apply IH. Qed.

Lemma foldl_nested {S : Type} (F : S → Z → Z → S) (rs cs : list Z) (s : S) :
  foldl (λ st row, foldl (λ st col, F st row col) st cs) s rs
  = fold_left (λ st rc, F st rc.1 rc.2) (r ← rs; pair r <$> cs) s.
Proof.
  rewrite <- fold_left_nested, foldl_fold_left.
  revert s. induction rs as [|r rs IH]; intros s; [done|].
  cbn [fold_left]. by rewrite IH, foldl_fold_left.
Qed.

Lemma unrevealed_cells_frontier board rows cols :
  unrevealed_cells board rows cols = frontier board rows cols ∅ ∅.
Proof.
  unfold unrevealed_cells.
  rewrite (foldl_nested
             (λ acc row col,
                if negb (is_revealed (cell_at board row col))
                   && negb (is_flagged (cell_at board row col))
                then acc ∪ {[ (row, col) ]} else acc)).
  fold (row_major rows cols). unfold frontier.
  enough (Hgen : ∀ l (acc : gset coord),
            fold_left
              (λ (st : gset coord) (rc : coord),
                 if negb (is_revealed (cell_at board rc.1 rc.2))
                    && negb (is_flagged (cell_at board rc.1 rc.2))
                 then st ∪ {[ (rc.1, rc.2) ]} else st) l acc
            = acc ∪ list_to_set (filter (λ n, is_unknown board ∅ ∅ n) l)).
  { rewrite Hgen. by rewrite (left_id_L ∅ (∪)). }
  induction l as [|[r c] l IH]; intros acc.
  - cbn. by rewrite (right_id_L ∅ (∪)).
  - cbn [fold_left fst snd]. rewrite IH.
    rewrite (filter_cons_bool (is_unknown board ∅ ∅)).
    assert (Hu : is_unknown board ∅ ∅ (r, c)
                 = negb (is_revealed (cell_at board r c))
                   && negb (is_flagged (cell_at board r c))).
    { unfold is_unknown. cbn [fst snd].
      rewrite !(bool_decide_eq_false_2 (_ ∈ ∅)) by apply not_elem_of_empty.
      cbn [negb]. by rewrite !andb_true_r. }
    rewrite Hu.
    destruct (negb (is_revealed (cell_at board r c))
              && negb (is_flagged (cell_at board r c))); [|done].
    rewrite list_to_set_cons. by rewrite (assoc_L (∪)).
Qed.

Lemma elem_of_union_limits (cs : list constraint) (x : coord) :
  x ∈ union_limits cs ↔ ∃ c : constraint, c ∈ cs ∧ x ∈ c.1.
Proof.
  unfold union_limits.
  enough (Hgen : ∀ (l : list constraint) (acc : gset coord),
            x ∈ foldl (λ acc (c : constraint), acc ∪ c.1) acc l
            ↔ x ∈ acc ∨ ∃ c : constraint, c ∈ l ∧ x ∈ c.1).
  { rewrite Hgen. split; [intros [Hx|Hx]; [by apply not_elem_of_empty in Hx|done]
                         | by right]. }
  induction l as [|c l IH]; intros acc; cbn [foldl].
  - split; [by left|]. intros [?|(c & Hc & _)]; [done|by apply elem_of_nil in Hc].
  - rewrite IH, elem_of_union. split.
    + intros [[?|?]|(c' & Hc' & Hx)]; [by left | right; exists c; split; [left|done]
                                       | right; exists c'; split; [by right|done]].
    + intros [?|(c' & [->|Hc']%elem_of_cons & Hx)];
        [by left; left | by left; right | right; by exists c'].
Qed.

(** ** Rational arithmetic of the interior estimate *)

Lemma max0_nonneg (x : Qc) : (Q2Qc 0 <= max0 x)%Qc.
Proof.
  unfold max0. destruct (Qclt_le_dec (Q2Qc 0) x) as [Hlt|Hle].
  - by apply Qclt_le_weak.
  - apply Qcle_refl.
Qed.

Lemma Qcdiv_pos_iff (x n : Qc) :
  (Q2Qc 0 < n)%Qc → (Q2Qc 0 < x / n)%Qc ↔ (Q2Qc 0 < x)%Qc.
Proof.
  intros Hn. unfold Qcdiv.
  rewrite (Qcmult_lt_mono_pos_r (Q2Qc 0) x (/ n) (Qcinv_pos n Hn)).
  by rewrite Qcmult_0_l.
Qed.

Lemma Qcdiv_le_one_iff (x n : Qc) :
  (Q2Qc 0 < n)%Qc → (x / n <= 1)%Qc ↔ (x <= n)%Qc.
Proof.
  intros Hn.
  assert (Hne : n ≠ Q2Qc 0).
  { intros ->. by apply Qclt_not_eq in Hn. }
  rewrite (Qcmult_le_mono_pos_r (x / n) 1 n Hn).
  rewrite Qcmult_1_l. unfold Qcdiv.
  rewrite <- Qcmult_assoc, (Qcmult_comm (/ n) n), Qcmult_inv_r by done.
  by rewrite Qcmult_1_r.
Qed.

Lemma max0_div (x n : Qc) :
  (Q2Qc 0 < n)%Qc → max0 (x / n) = (max0 x / n)%Qc.
Proof.
  intros Hn. unfold max0.
  destruct (Qclt_le_dec (Q2Qc 0) (x / n)) as [H1|H1];
    destruct (Qclt_le_dec (Q2Qc 0) x) as [H2|H2]; try done.
  - apply Qcdiv_pos_iff in H1; [|done]. by apply Qclt_not_le in H1.
  - apply (Qcdiv_pos_iff x n Hn) in H2. by apply Qclt_not_le in H2.
  - unfold Qcdiv. by rewrite Qcmult_0_l.
Qed.

Lemma Qc_of_nat_pos (k : nat) :
  k ≠ 0%nat → (Q2Qc 0 < Q2Qc (inject_Z (Z.of_nat k)))%Qc.
Proof.
  intros Hk. unfold Qclt. cbn [this Q2Qc]. rewrite !Qred_correct.
  unfold Qlt. cbn. lia.
Qed.

Lemma max0_le_iff (x b : Qc) :
  (Q2Qc 0 <= b)%Qc → (max0 x <= b)%Qc ↔ (x <= b)%Qc.
Proof.
  intros Hb. unfold max0. destruct (Qclt_le_dec (Q2Qc 0) x) as [Hlt|Hle]; [done|].
  split; intros _; [by eapply Qcle_trans | done].
Qed.

(** ** The probability map *)

Section Selector.
Context `{SetOrder}.

Lemma calculate_probabilities_keys (cs : list constraint) (cells : gset coord)
    (k : coord) :
  k ∈ (_calculate_probabilities cs cells).*1 ↔ k ∈ cells.
Proof.
  rewrite calculate_probabilities_spec, <- list_fmap_compose.
  rewrite (list_fmap_ext _ id (set_iter cells)) by done.
  rewrite list_fmap_id. apply elem_of_set_iter.
Qed.

Lemma region_probabilities_keys (regions : list (list constraint)) (k : coord) :
  k ∈ (region_probabilities regions).*1
  ↔ ∃ (g : list constraint) (c : constraint), g ∈ regions ∧ c ∈ g ∧ k ∈ c.1.
Proof.
  unfold region_probabilities.
  enough (Hgen : ∀ (l : list (list constraint)) (d0 : list (coord * Qc)),
            k ∈ (foldl
                   (λ cell_probabilities region_constraints,
                      let region_cells := union_limits region_constraints in
                      if negb (nonempty_set region_cells) then cell_probabilities
                      else dict_update cell_probabilities
                             (_calculate_probabilities region_constraints
                                                       region_cells))
                   d0 l).*1
            ↔ k ∈ d0.*1
              ∨ ∃ (g : list constraint) (c : constraint),
                  g ∈ l ∧ c ∈ g ∧ k ∈ c.1).
  { rewrite Hgen. cbn. rewrite elem_of_nil. tauto. }
  induction l as [|g l IH]; intros d0; cbn [foldl].
  - split; [by left|]. intros [?|(g & c & Hg & _)]; [done|].
    by apply elem_of_nil in Hg.
  - rewrite IH. cbn zeta.
    assert (Hstep : k ∈ (if negb (nonempty_set (union_limits g)) then d0
                         else dict_update d0
                                (_calculate_probabilities g (union_limits g))).*1
                    ↔ k ∈ d0.*1 ∨ ∃ c : constraint, c ∈ g ∧ k ∈ c.1).
    { destruct (nonempty_set (union_limits g)) eqn:Hne; cbn [negb].
      - rewrite dict_update_keys, calculate_probabilities_keys,
          elem_of_union_limits. done.
      - apply nonempty_set_false in Hne. split; [by left|].
        intros [?|Hc]; [done|]. apply elem_of_union_limits in Hc.
        rewrite Hne in Hc. by apply not_elem_of_empty in Hc. }
    rewrite Hstep. split.
    + intros [[?|(c & Hc & Hk)]|(g' & c & Hg' & Hc & Hk)].
      * by left.
      * right. exists g, c. split_and!; [left | done | done].
      * right. exists g', c. split_and!; [by right | done | done].
    + intros [?|(g' & c & [->|Hg']%elem_of_cons & Hc & Hk)].
      * by left; left.
      * left; right. by exists c.
      * right. by exists g', c.
Qed.

Lemma find_regions_total (fuel : nat) (cs : list constraint) :
  (∀ c : constraint, c ∈ cs → c.1 ≠ ∅) → (total_cells cs < fuel)%nat →
  ∃ regions, _find_independent_regions fuel cs = Some regions
             ∧ concat regions ≡ₚ cs.
Proof.
  intros Hcells Hfuel. destruct cs as [|c cs].
  - exists []. by split.
  - destruct (find_independent_regions_spec fuel (c :: cs) ltac:(done)
                Hcells Hfuel) as (key & d & Hres & _ & Hperm & _).
    by exists d.*2.
Qed.

(** The cells of the border and of the interior, as the selector builds
    them. *)
Definition border_of (board : Board) : gset coord :=
  union_limits (_generate_constraints board (board_rows board)
                                      (board_cols board) ∅ ∅).

Definition interior_of (board : Board) : gset coord :=
  unrevealed_cells board (board_rows board) (board_cols board)
  ∖ border_of board.

Lemma border_unrevealed board :
  border_of board
  ⊆ unrevealed_cells board (board_rows board) (board_cols board).
Proof.
  intros x Hx. apply elem_of_union_limits in Hx as (c & Hc & Hx).
  rewrite unrevealed_cells_frontier.
  by apply (generate_constraints_frontier _ _ _ _ _ c Hc).
Qed.

Lemma cell_probability_map_spec (total_mines : Z) (fuel : nat) (board : Board) :
  (total_cells (_generate_constraints board (board_rows board)
                                      (board_cols board) ∅ ∅) < fuel)%nat →
  ∃ regions probs,
    _find_independent_regions fuel
      (_generate_constraints board (board_rows board) (board_cols board) ∅ ∅)
    = Some regions
    ∧ cell_probability_map total_mines fuel board = Some probs
    ∧ (∀ k, k ∈ probs.*1 ↔ k ∈ border_of board ∨ k ∈ interior_of board)
    ∧ (∀ k dflt, k ∈ interior_of board →
         dict_get probs k dflt
         = interior_probability total_mines board (board_rows board)
             (board_cols board) (border_of board) (interior_of board)
             (region_probabilities regions)).
Proof.
  intros Hfuel.
  destruct (find_regions_total fuel _
              (λ c, generate_constraints_nonempty board _ _ ∅ ∅ c) Hfuel)
    as (regions & Hfind & Hperm).
  assert (Hkeys : ∀ k, k ∈ (region_probabilities regions).*1
                       ↔ k ∈ border_of board).
  { intros k. rewrite region_probabilities_keys. unfold border_of.
    rewrite elem_of_union_limits. split.
    - intros (g & c & Hg & Hc & Hk). exists c. split; [|done].
      rewrite <- Hperm. apply elem_of_concat. by exists g.
    - intros (c & Hc & Hk). rewrite <- Hperm in Hc.
      apply elem_of_concat in Hc as (g & Hg & Hc). by exists g, c. }
  unfold cell_probability_map. rewrite Hfind. cbn [mbind option_bind].
  fold (border_of board). fold (interior_of board).
  exists regions. destruct (nonempty_set (interior_of board)) eqn:Hint.
  - eexists. split_and!; [done | done | |].
    + intros k. rewrite foldl_dict_set_keys, Hkeys, elem_of_set_iter. done.
    + intros k dflt Hk. apply foldl_dict_set_get. by apply elem_of_set_iter.
  - apply nonempty_set_false in Hint. eexists. split_and!; [done | done | |].
    + intros k. rewrite Hkeys, Hint. set_solver.
    + intros k dflt Hk. rewrite Hint in Hk. by apply not_elem_of_empty in Hk.
Qed.

End Selector.

Lemma flagged_count_spec board rows cols :
  flagged_count board rows cols
  = Z.of_nat (length (filter (λ rc : coord, is_flagged (cell_at board rc.1 rc.2))
                             (row_major rows cols))).
Proof.
  unfold flagged_count.
  rewrite (foldl_nested
             (λ acc row col,
                if is_flagged (cell_at board row col) then acc + 1 else acc)).
  fold (row_major rows cols).
  enough (Hgen : ∀ (l : list coord) (acc : Z),
            fold_left (λ (st : Z) (rc : coord),
                         if is_flagged (cell_at board rc.1 rc.2)
                         then st + 1 else st) l acc
            = acc + Z.of_nat
                      (length (filter (λ rc : coord,
                                         is_flagged (cell_at board rc.1 rc.2)) l)))
    by (rewrite Hgen; lia).
  induction l as [|rc l IH]; intros acc; [cbn; lia|].
  cbn [fold_left]. rewrite IH.
  rewrite (filter_cons_bool (λ rc : coord, is_flagged (cell_at board rc.1 rc.2))).
  destruct (is_flagged (cell_at board rc.1 rc.2)); cbn [length]; lia.
Qed.

(** ** The claims about the move selector *)

(** Fuel that is enough for the partitioner on this board. *)
Definition enough_region_fuel (board : Board) (fuel : nat) : Prop :=
  (total_cells (_generate_constraints board (board_rows board)
                                      (board_cols board) ∅ ∅) < fuel)%nat.

(** A position with two overlapping constraints and one interior cell.  Its
    three mines agree with both revealed counts. *)
Definition board_two_constraints : Board :=
  [[hidden_mine; shown 1; hidden; shown 1; hidden_mine; hidden_mine]].

(** C6, as stated, does not hold.  On [board_two_constraints], with the
    solver told the true number of mines, 3, the interior cell [(0, 5)] is
    given the value 3/2: the border cells carry 1/2 each, so
    [3 - 0 - 3/2] is left for a single interior cell. *)
Lemma interior_probability_exceeds_one :
  no_short_row board_two_constraints
  ∧ consistent board_two_constraints (mines_of board_two_constraints)
  ∧ (0, 5) ∈ interior_of board_two_constraints
  ∧ ∃ probs,
      cell_probability_map 3 8 board_two_constraints = Some probs
      ∧ dict_get probs (0, 5) (Q2Qc 0) = Q2Qc (3 # 2)
      ∧ (1 < dict_get probs (0%Z, 5%Z) (Q2Qc 0))%Qc.
Proof.
  split_and!.
  - by apply (bool_decide_unpack _); vm_compute.
  - apply consistentb_correct. by vm_compute.
  - by apply (bool_decide_unpack _); vm_compute.
  - exists (default [] (cell_probability_map 3 8 board_two_constraints)).
    split_and!.
    + by vm_compute.
    + apply Qc_is_canon. by vm_compute.
    + by vm_compute.
Qed.

(** C6, amended.  Every interior cell, that is every in-bounds cell that is
    hidden, unflagged and in no constraint, is given the value
    [max(0, total mines - flagged count - sum of the border values)]
    divided by the number of interior cells.  This value is never negative;
    it is at most 1 exactly when the remaining count does not exceed the
    number of interior cells. *)
Theorem interior_probability_value `{SetOrder}
    (total_mines : Z) (fuel : nat) (board : Board) :
  no_short_row board →
  enough_region_fuel board fuel →
  let rows := board_rows board in
  let cols := board_cols board in
  let constraints := _generate_constraints board rows cols ∅ ∅ in
  ∃ regions probs,
    _find_independent_regions fuel constraints = Some regions
    ∧ cell_probability_map total_mines fuel board = Some probs
    ∧ (∀ k : coord,
         k ∈ interior_of board
         ↔ (in_bounds rows cols k = true
            ∧ is_revealed (cell_at board k.1 k.2) = false
            ∧ is_flagged (cell_at board k.1 k.2) = false)
           ∧ ∀ c : constraint, c ∈ constraints → k ∉ c.1)
    ∧ flagged_count board rows cols
      = Z.of_nat (length (filter (λ rc : coord,
                                    is_flagged (cell_at board rc.1 rc.2))
                                 (row_major rows cols)))
    ∧ let remaining :=
        (Q2Qc (inject_Z total_mines)
         - Q2Qc (inject_Z (flagged_count board rows cols))
         - sumQc ((λ cell, dict_get (region_probabilities regions) cell
                                    (Q2Qc (1 # 2)))
                    <$> set_iter (border_of board)))%Qc in
      let n := Q2Qc (inject_Z (Z.of_nat (size (interior_of board)))) in
      ∀ k : coord, k ∈ interior_of board →
        (∀ dflt, dict_get probs k dflt = (max0 remaining / n)%Qc)
        ∧ (Q2Qc 0 <= max0 remaining / n)%Qc
        ∧ ((max0 remaining / n <= 1)%Qc ↔ (remaining <= n)%Qc).
Proof.
  intros _ Hfuel rows cols constraints.
  destruct (cell_probability_map_spec total_mines fuel board Hfuel)
    as (regions & probs & Hfind & Hmap & _ & Hget).
  exists regions, probs. split_and!; [done | done | | apply flagged_count_spec |].
  - intros k. unfold interior_of, border_of.
    rewrite elem_of_difference, unrevealed_cells_frontier, elem_of_frontier,
      is_unknown_spec, elem_of_union_limits.
    fold rows cols constraints. split.
    + intros [(Hb & Hr & Hf & _) Hno]. split; [done|].
      intros c Hc Hk. apply Hno. by exists c.
    + intros [(Hb & Hr & Hf) Hno]. split.
      * split_and!; try done; apply not_elem_of_empty.
      * intros (c & Hc & Hk). by apply (Hno c).
  - intros remaining n k Hk.
    assert (Hn : (Q2Qc 0 < n)%Qc).
    { unfold n. apply Qc_of_nat_pos.
      intros Hz. apply size_empty_inv in Hz.
      apply (not_elem_of_empty (C := gset coord) k). by rewrite <- Hz. }
    split_and!.
    + intros dflt. rewrite (Hget k dflt Hk).
      unfold interior_probability. fold rows cols. by apply max0_div.
    + rewrite <- max0_div by done. apply max0_nonneg.
    + rewrite <- max0_div by done.
      rewrite max0_le_iff by done. by apply Qcdiv_le_one_iff.
Qed.

Lemma board_two_constraints_no_short_row : no_short_row board_two_constraints.
Proof. by apply (bool_decide_unpack _); vm_compute. Defined.

Lemma board_two_constraints_fuel : enough_region_fuel board_two_constraints 8.
Proof. apply Nat.ltb_lt. by vm_compute. Defined.

Lemma interior_probability_value_witness :
  ∃ regions probs,
    _find_independent_regions 8
      (_generate_constraints board_two_constraints
         (board_rows board_two_constraints)
         (board_cols board_two_constraints) ∅ ∅) = Some regions
    ∧ cell_probability_map 3 8 board_two_constraints = Some probs.
Proof.
  destruct (interior_probability_value 3 8 board_two_constraints
              board_two_constraints_no_short_row board_two_constraints_fuel)
    as (regions & probs & Hfind & Hmap & _).
  exists regions, probs. split; [exact Hfind | exact Hmap].
Defined.

(** A position with nothing left to choose: its only cell is revealed. *)
Definition board_all_revealed : Board := [[shown 0]].

(** C7, as stated, does not hold.  On [board_all_revealed] no cell is
    unrevealed and unflagged, and the selector returns [(0, 0)], the
    coordinate of a revealed cell. *)
Lemma move_on_resolved_board :
  no_short_row board_all_revealed
  ∧ unrevealed_cells board_all_revealed 1 1 = ∅
  ∧ make_probabilistic_move 0 1 0 board_all_revealed = Some (0, 0)
  ∧ is_revealed (cell_at board_all_revealed 0 0) = true.
Proof.
  split_and!.
  - by apply (bool_decide_unpack _); vm_compute.
  - by vm_compute.
  - by vm_compute.
  - done.
Qed.

(** C7, amended.  With [unrevealed] the set of in-bounds cells that are
    neither revealed nor flagged: if it is empty the selector returns
    [(0, 0)]; if it is not, the selector returns one of its cells; and when
    moreover no constraint exists, the returned cell is the one the random
    draw picks from the list of these cells. *)
Theorem move_is_unresolved `{SetOrder}
    (total_mines : Z) (fuel rnd : nat) (board : Board) :
  no_short_row board →
  enough_region_fuel board fuel →
  let rows := board_rows board in
  let cols := board_cols board in
  let unrevealed := unrevealed_cells board rows cols in
  (∀ k : coord,
     k ∈ unrevealed
     ↔ in_bounds rows cols k = true
       ∧ is_revealed (cell_at board k.1 k.2) = false
       ∧ is_flagged (cell_at board k.1 k.2) = false)
  ∧ (unrevealed = ∅ →
     make_probabilistic_move total_mines fuel rnd board = Some (0, 0))
  ∧ (unrevealed ≠ ∅ →
     ∃ k, make_probabilistic_move total_mines fuel rnd board = Some k
          ∧ k ∈ unrevealed)
  ∧ (unrevealed ≠ ∅ →
     _generate_constraints board rows cols ∅ ∅ = [] →
     make_probabilistic_move total_mines fuel rnd board
     = random_choice rnd (set_iter unrevealed)).
Proof.
  intros _ Hfuel rows cols unrevealed.
  assert (Hchoice : unrevealed ≠ ∅ →
            ∃ k, random_choice rnd (set_iter unrevealed) = Some k
                 ∧ k ∈ unrevealed).
  { intros Hne. destruct (random_choice_elem rnd (set_iter unrevealed))
      as (k & Hk & Hin).
    - intros Hnil. apply Hne. apply set_eq. intros x.
      rewrite <- elem_of_set_iter, Hnil. set_solver.
    - exists k. split; [done|]. by apply elem_of_set_iter. }
  split_and!.
  - intros k. unfold unrevealed.
    rewrite unrevealed_cells_frontier, elem_of_frontier, is_unknown_spec.
    split; [tauto|]. intros (? & ? & ?).
    split_and!; try done; apply not_elem_of_empty.
  - intros He. unfold make_probabilistic_move. fold rows cols unrevealed.
    by rewrite (proj2 (nonempty_set_false unrevealed) He).
  - intros Hne. unfold make_probabilistic_move. fold rows cols unrevealed.
    assert (Hnes : nonempty_set unrevealed = true).
    { destruct (nonempty_set unrevealed) eqn:E; [done|].
      by apply nonempty_set_false in E. }
    rewrite Hnes. cbn [negb].
    case_bool_decide as Hcs; [by apply Hchoice|].
    destruct (cell_probability_map_spec total_mines fuel board Hfuel)
      as (regions & probs & _ & Hmap & Hkeys & _).
    rewrite Hmap. cbn [mbind option_bind].
    assert (Hprobs : probs ≠ []).
    { intros ->. fold rows cols in Hcs.
      destruct (_generate_constraints board rows cols ∅ ∅) as [|c cs] eqn:Hgen;
        [done|].
      assert (Hc : c ∈ _generate_constraints board rows cols ∅ ∅)
        by (rewrite Hgen; left).
      pose proof (generate_constraints_nonempty _ _ _ _ _ c Hc) as Hcne.
      apply set_choose_L in Hcne as [x Hx].
      assert (Hb : x ∈ border_of board).
      { apply elem_of_union_limits. by exists c. }
      pose proof (proj2 (Hkeys x) (or_introl Hb)) as Hin.
      by apply elem_of_nil in Hin. }
    rewrite (bool_decide_eq_false_2 (probs = [])) by done. cbn [negb].
    destruct (dict_argmin_key probs Hprobs) as (k & Hk & Hin).
    exists k. split; [done|].
    apply Hkeys in Hin as [Hb|Hi].
    + by apply border_unrevealed.
    + unfold interior_of in Hi. set_solver.
  - intros Hne Hcs. unfold make_probabilistic_move. fold rows cols unrevealed.
    assert (Hnes : nonempty_set unrevealed = true).
    { destruct (nonempty_set unrevealed) eqn:E; [done|].
      by apply nonempty_set_false in E. }
    rewrite Hnes, Hcs. done.
Qed.

Lemma move_is_unresolved_witness :
  ∃ k, make_probabilistic_move 3 8 0 board_two_constraints = Some k
       ∧ k ∈ unrevealed_cells board_two_constraints
               (board_rows board_two_constraints)
               (board_cols board_two_constraints).
Proof.
  refine (proj1 (proj2 (proj2
            (move_is_unresolved 3 8 0 board_two_constraints
               board_two_constraints_no_short_row
               board_two_constraints_fuel))) _).
  apply (bool_decide_unpack _). by vm_compute.
Defined.

(** Three constraints, the first two sharing a cell. *)
Definition three_constraints : list constraint :=
  [({[ (0, 0); (0, 2) ]}, 1); ({[ (0, 2); (0, 4) ]}, 1); ({[ (3, 3) ]}, 1)].

Lemma find_independent_regions_partition_witness :
  ∃ regions,
    _find_independent_regions 8 three_constraints = Some regions
    ∧ concat regions ≡ₚ three_constraints
    ∧ (∀ g, g ∈ regions → g ≠ [])
    ∧ (∀ i j g1 g2 (c1 c2 : constraint),
         regions !! i = Some g1 → regions !! j = Some g2 →
         c1 ∈ g1 → c2 ∈ g2 → (∃ x, x ∈ c1.1 ∧ x ∈ c2.1) → i = j)
    ∧ (∀ i j g1 g2 (c1 c2 : constraint),
         regions !! i = Some g1 → regions !! j = Some g2 → i ≠ j →
         c1 ∈ g1 → c2 ∈ g2 → c1.1 ## c2.1).
Proof.
  apply (find_independent_regions_partition three_constraints 8).
  - discriminate.
  - apply Forall_forall. apply (bool_decide_unpack _). by vm_compute.
  - apply Nat.ltb_lt. by vm_compute.
Defined.

(** * Further properties of the solver *)

(** ** Reading a cell of a well-shaped board *)

Lemma board_cols_le_row (board : Board) (row : Z) :
  no_short_row board → 0 <= row < board_rows board →
  board_cols board <= Z.of_nat (length (nth (Z.to_nat row) board [])).
Proof.
  intros Hs Hr. unfold board_rows in Hr.
  eapply (proj1 (Forall_forall _ _) Hs).
  apply list_elem_of_In, nth_In. lia.
Qed.

Lemma cell_at_Forall (P : Cell → Prop) (board : Board) (row col : Z) :
  no_short_row board →
  Forall (Forall P) board →
  in_bounds (board_rows board) (board_cols board) (row, col) = true →
  P (cell_at board row col).
Proof.
  intros Hs HP Hb. unfold in_bounds in Hb. cbn [fst snd] in Hb.
  rewrite !andb_true_iff in Hb. destruct Hb as (((Hr0 & Hr1) & Hc0) & Hc1).
  apply Z.leb_le in Hr0, Hc0. apply Z.ltb_lt in Hr1, Hc1.
  pose proof (board_cols_le_row board row Hs ltac:(lia)) as Hlen.
  unfold cell_at.
  assert (Hrow : nth (Z.to_nat row) board [] ∈ board).
  { apply list_elem_of_In, nth_In. unfold board_rows in Hr1. lia. }
  eapply (proj1 (Forall_forall _ _)
            (proj1 (Forall_forall _ _) HP _ Hrow)).
  apply list_elem_of_In, nth_In. lia.
Qed.

(** ** Boards with nothing left to decide *)

(** X1.  On a board all of whose cells are revealed or flagged, the empty
    board included, [solve_step] returns two empty sets. *)
Theorem solve_step_resolved_board (board : Board) (fuel : nat) :
  no_short_row board →
  Forall (Forall (λ c, is_revealed c = true ∨ is_flagged c = true)) board →
  enough_fuel board fuel →
  solve_step fuel board = Some (∅, ∅).
Proof.
  intros Hs Hall Hfuel.
  destruct (solve_step_terminates board) as [[safe mines] Hr].
  rewrite (Hr fuel Hfuel).
  pose proof (solve_step_frontier _ _ _ (Hr fuel Hfuel)) as Hfr.
  cbn [fst snd] in Hfr.
  assert (He : frontier board (board_rows board) (board_cols board) ∅ ∅ = ∅).
  { apply set_eq. intros n. split; [|set_solver].
    intros Hn. apply elem_of_frontier in Hn as [Hb Hu].
    apply is_unknown_spec in Hu as (Hrev & Hfl & _).
    destruct n as [row col]. cbn [fst snd] in *.
    destruct (cell_at_Forall _ board row col Hs Hall Hb); congruence. }
  rewrite He in Hfr.
  assert (safe = ∅) as -> by set_solver.
  assert (mines = ∅) as -> by set_solver.
  done.
Qed.

Lemma board_all_revealed_no_short_row : no_short_row board_all_revealed.
Proof. by apply (bool_decide_unpack _); vm_compute. Defined.

Lemma board_all_revealed_resolved :
  Forall (Forall (λ c, is_revealed c = true ∨ is_flagged c = true))
         board_all_revealed.
Proof. by apply (bool_decide_unpack _); vm_compute. Defined.

Lemma board_all_revealed_fuel : enough_fuel board_all_revealed 2.
Proof. apply Nat.ltb_lt. by vm_compute. Defined.

Lemma solve_step_resolved_board_witness :
  solve_step 2 board_all_revealed = Some (∅, ∅).
Proof.
  exact (solve_step_resolved_board board_all_revealed 2
           board_all_revealed_no_short_row board_all_revealed_resolved
           board_all_revealed_fuel).
Defined.


(** ** The basic rules, exactly *)

Lemma basic_fold_elem board rows cols ks km (l : list coord) (n : coord) :
  ∀ st : gset coord * gset coord,
    let r := fold_left
               (λ st (rc : coord),
                  basic_cell board rows cols ks km st rc.1 rc.2) l st in
    (n ∈ r.1 ↔ n ∈ st.1
               ∨ ∃ rc, rc ∈ l
                       ∧ rule_all_mines board rows cols ks km rc = false
                       ∧ rule_all_safe board rows cols ks km rc = true
                       ∧ n ∈ unknown_of board rows cols ks km rc)
    ∧ (n ∈ r.2 ↔ n ∈ st.2
                 ∨ ∃ rc, rc ∈ l
                         ∧ rule_all_mines board rows cols ks km rc = true
                         ∧ n ∈ unknown_of board rows cols ks km rc).
Proof.
  induction l as [|[row col] l IH]; intros [safe mine].
  - cbn. split; (split; [by left|]); intros [?|(rc & Hrc & _)]; try done;
      by apply elem_of_nil in Hrc.
  - cbn [fold_left fst snd]. rewrite basic_cell_spec.
    destruct (rule_all_mines board rows cols ks km (row, col)) eqn:R1;
      [|destruct (rule_all_safe board rows cols ks km (row, col)) eqn:R2].
    + destruct (IH (safe, mine ∪ unknown_of board rows cols ks km (row, col)))
        as [Hs Hm]. cbn zeta in *. cbn [fst snd] in *. rewrite Hs, Hm. split.
      * split; (intros [?|(rc & Hrc & ? & ? & ?)]; [by left|right]).
        -- exists rc. split_and!; try done. by right.
        -- apply elem_of_cons in Hrc as [->|Hrc]; [congruence|]. by exists rc.
      * rewrite elem_of_union. split.
        -- intros [[?|?]|(rc & Hrc & ? & ?)]; [by left | right | right].
           ++ exists (row, col). split_and!; [left | done | done].
           ++ exists rc. split_and!; [by right | done | done].
        -- intros [?|(rc & Hrc & ? & ?)]; [by left; left|].
           apply elem_of_cons in Hrc as [->|Hrc]; [by left; right|].
           right. by exists rc.
    + destruct (IH (safe ∪ unknown_of board rows cols ks km (row, col), mine))
        as [Hs Hm]. cbn zeta in *. cbn [fst snd] in *. rewrite Hs, Hm. split.
      * rewrite elem_of_union. split.
        -- intros [[?|?]|(rc & Hrc & ? & ? & ?)]; [by left | right | right].
           ++ exists (row, col). split_and!; [left | done | done | done].
           ++ exists rc. split_and!; [by right | done | done | done].
        -- intros [?|(rc & Hrc & ? & ? & ?)]; [by left; left|].
           apply elem_of_cons in Hrc as [->|Hrc]; [by left; right|].
           right. by exists rc.
      * split; (intros [?|(rc & Hrc & ? & ?)]; [by left|right]).
        -- exists rc. split_and!; try done. by right.
        -- apply elem_of_cons in Hrc as [->|Hrc]; [congruence|]. by exists rc.
    + destruct (IH (safe, mine)) as [Hs Hm]. cbn zeta in *. cbn [fst snd] in *.
      rewrite Hs, Hm. split.
      * split; (intros [?|(rc & Hrc & ? & ? & ?)]; [by left|right]).
        -- exists rc. split_and!; try done. by right.
        -- apply elem_of_cons in Hrc as [->|Hrc]; [congruence|]. by exists rc.
      * split; (intros [?|(rc & Hrc & ? & ?)]; [by left|right]).
        -- exists rc. split_and!; try done. by right.
        -- apply elem_of_cons in Hrc as [->|Hrc]; [congruence|]. by exists rc.
Qed.

Lemma apply_basic_rules_iff board rows cols ks km (n : coord) :
  (n ∈ (_apply_basic_rules board rows cols ks km).2
   ↔ ∃ rc, in_bounds rows cols rc = true
           ∧ rule_all_mines board rows cols ks km rc = true
           ∧ n ∈ unknown_of board rows cols ks km rc)
  ∧ (n ∈ (_apply_basic_rules board rows cols ks km).1
     ↔ ∃ rc, in_bounds rows cols rc = true
             ∧ rule_all_mines board rows cols ks km rc = false
             ∧ rule_all_safe board rows cols ks km rc = true
             ∧ n ∈ unknown_of board rows cols ks km rc).
Proof.
  unfold _apply_basic_rules.
  rewrite (fold_left_nested
             (λ st row col, basic_cell board rows cols ks km st row col)).
  fold (row_major rows cols).
  destruct (basic_fold_elem board rows cols ks km (row_major rows cols) n (∅, ∅))
    as [Hs Hm].
  cbn zeta in Hs, Hm. cbn [fst snd] in Hs, Hm. rewrite Hs, Hm. split.
  - split.
    + intros [Hn|(rc & Hrc & ? & ?)]; [by apply not_elem_of_empty in Hn|].
      exists rc. by rewrite <- elem_of_row_major.
    + intros (rc & Hrc & ? & ?). right. exists rc.
      by rewrite elem_of_row_major.
  - split.
    + intros [Hn|(rc & Hrc & ? & ? & ?)]; [by apply not_elem_of_empty in Hn|].
      exists rc. by rewrite <- elem_of_row_major.
    + intros (rc & Hrc & ? & ? & ?). right. exists rc.
      by rewrite elem_of_row_major.
Qed.

(** X2.  What a scan with the basic rules returns, exactly.  A cell [rc]
    fires when it is in bounds, revealed, not a mine and has an unknown
    neighbour.  The mines are the unknown neighbours of the cells whose
    count equals the hidden neighbours already taken for mines plus the
    unknown ones; the safe cells are the unknown neighbours of the cells to
    which that rule does not apply and whose count equals the hidden
    neighbours already taken for mines. *)
Theorem apply_basic_rules_exact (board : Board) (ks km : gset coord) (n : coord) :
  no_short_row board →
  let rows := board_rows board in
  let cols := board_cols board in
  (n ∈ (_apply_basic_rules board rows cols ks km).2
   ↔ ∃ rc, in_bounds rows cols rc = true
           ∧ rule_all_mines board rows cols ks km rc = true
           ∧ n ∈ unknown_of board rows cols ks km rc)
  ∧ (n ∈ (_apply_basic_rules board rows cols ks km).1
     ↔ ∃ rc, in_bounds rows cols rc = true
             ∧ rule_all_mines board rows cols ks km rc = false
             ∧ rule_all_safe board rows cols ks km rc = true
             ∧ n ∈ unknown_of board rows cols ks km rc).
Proof. intros _ rows cols. apply apply_basic_rules_iff. Qed.

Lemma apply_basic_rules_exact_witness :
  ((1, 1) ∈ (_apply_basic_rules board_121 (board_rows board_121)
                                (board_cols board_121) ∅ {[ (1, 0); (1, 2) ]}).1
   ↔ ∃ rc, in_bounds (board_rows board_121) (board_cols board_121) rc = true
           ∧ rule_all_mines board_121 (board_rows board_121)
               (board_cols board_121) ∅ {[ (1, 0); (1, 2) ]} rc = false
           ∧ rule_all_safe board_121 (board_rows board_121)
               (board_cols board_121) ∅ {[ (1, 0); (1, 2) ]} rc = true
           ∧ (1, 1) ∈ unknown_of board_121 (board_rows board_121)
               (board_cols board_121) ∅ {[ (1, 0); (1, 2) ]} rc).
Proof.
  exact (proj2 (apply_basic_rules_exact board_121 ∅ {[ (1, 0); (1, 2) ]} (1, 1)
                  board_121_no_short_row)).
Defined.

(** ** The first loop of [solve_step] ends on a fixpoint *)

Lemma basic_loop_exit board rows cols (fuel : nat) :
  ∀ s0 m0 safe mine,
    basic_loop fuel board rows cols s0 m0 = Some (safe, mine) →
    _apply_basic_rules board rows cols safe mine = (∅, ∅).
Proof.
  induction fuel as [|fuel IH]; intros s0 m0 safe mine; [done|].
  cbn [basic_loop].
  destruct (_apply_basic_rules board rows cols s0 m0) as [ns nm] eqn:Hr.
  destruct (nonempty_set ns || nonempty_set nm) eqn:Hne; [apply IH|].
  intros [= <- <-]. apply orb_false_elim in Hne as [H1 H2].
  apply nonempty_set_false in H1, H2. by rewrite Hr, H1, H2.
Qed.

(** X3.  When the loop over the basic rules ends, one more scan with the
    sets it has gathered proves nothing: no revealed cell satisfies either
    rule any more. *)
Theorem basic_loop_fixpoint (board : Board) (fuel : nat) (safe mine : gset coord) :
  no_short_row board →
  basic_loop fuel board (board_rows board) (board_cols board) ∅ ∅
  = Some (safe, mine) →
  _apply_basic_rules board (board_rows board) (board_cols board) safe mine
  = (∅, ∅)
  ∧ ∀ rc, in_bounds (board_rows board) (board_cols board) rc = true →
      rule_all_mines board (board_rows board) (board_cols board) safe mine rc
      = false
      ∧ rule_all_safe board (board_rows board) (board_cols board) safe mine rc
        = false.
Proof.
  intros Hs Hloop.
  pose proof (basic_loop_exit _ _ _ _ _ _ _ _ Hloop) as Hfix.
  split; [done|]. intros rc Hb.
  destruct (rule_all_mines board (board_rows board) (board_cols board)
              safe mine rc) eqn:R1.
  { exfalso. pose proof R1 as R1'. unfold rule_all_mines in R1'.
    rewrite !andb_true_iff in R1'.
    destruct R1' as ((_ & Hne) & _). apply nonempty_set_true in Hne as [n Hn].
    assert (Hin : n ∈ (_apply_basic_rules board (board_rows board)
                         (board_cols board) safe mine).2).
    { apply apply_basic_rules_iff. by exists rc. }
    rewrite Hfix in Hin. by apply not_elem_of_empty in Hin. }
  split; [done|].
  destruct (rule_all_safe board (board_rows board) (board_cols board)
              safe mine rc) eqn:R2; [|done].
  exfalso. pose proof R2 as R2'. unfold rule_all_safe in R2'.
  rewrite !andb_true_iff in R2'.
  destruct R2' as ((_ & Hne) & _). apply nonempty_set_true in Hne as [n Hn].
  assert (Hin : n ∈ (_apply_basic_rules board (board_rows board)
                       (board_cols board) safe mine).1).
  { apply apply_basic_rules_iff. by exists rc. }
  rewrite Hfix in Hin. by apply not_elem_of_empty in Hin.
Qed.

Lemma basic_loop_fixpoint_witness :
  _apply_basic_rules board_wrong_flag (board_rows board_wrong_flag)
    (board_cols board_wrong_flag) {[ (0, 2) ]} ∅ = (∅, ∅).
Proof.
  refine (proj1 (basic_loop_fixpoint board_wrong_flag 4 {[ (0, 2) ]} ∅ _ _)).
  - by apply (bool_decide_unpack _); vm_compute.
  - by vm_compute.
Defined.

(** ** The two verdicts never collide on a consistent board *)

(** X4.  If some arrangement agrees with the revealed cells and has a mine
    under every flag, no cell is returned by [solve_step] both as safe and
    as a mine. *)
Theorem solve_step_disjoint (board : Board) (m : arrangement) (fuel : nat)
    (safe mines : gset coord) :
  no_short_row board →
  consistent board m → flags_are_mines board m →
  solve_step fuel board = Some (safe, mines) →
  safe ## mines.
Proof.
  intros _ Hc Hf Hr.
  destruct (solve_step_sets_sound fuel board m (safe, mines) Hc Hf Hr)
    as [Hs Hm]. cbn [fst snd] in *.
  apply elem_of_disjoint. intros n H1 H2.
  specialize (Hs n H1). specialize (Hm n H2). congruence.
Qed.

Lemma board_121_consistent : consistent board_121 (mines_of board_121).
Proof. apply consistentb_correct. by vm_compute. Defined.

Lemma board_121_flags : flags_are_mines board_121 (mines_of board_121).
Proof. apply flags_are_minesb_correct. by vm_compute. Defined.

Lemma solve_step_disjoint_witness :
  ({[ (1, 1) ]} : gset coord) ## {[ (1, 0); (1, 2) ]}.
Proof.
  refine (solve_step_disjoint board_121 (mines_of board_121) 7 _ _
            board_121_no_short_row board_121_consistent board_121_flags _).
  by vm_compute.
Defined.

(** ** The values of the calculator are probabilities *)

Lemma Qc_ratio_bounds (a b : nat) :
  (a ≤ b)%nat → b ≠ 0%nat →
  (Q2Qc 0 <= Q2Qc (inject_Z (Z.of_nat a)) / Q2Qc (inject_Z (Z.of_nat b)))%Qc
  ∧ (Q2Qc (inject_Z (Z.of_nat a)) / Q2Qc (inject_Z (Z.of_nat b)) <= 1)%Qc.
Proof.
  intros Hab Hb. pose proof (Qc_of_nat_pos b Hb) as Hpos.
  assert (Hle : ∀ x y : nat, (x ≤ y)%nat →
            (Q2Qc (inject_Z (Z.of_nat x)) <= Q2Qc (inject_Z (Z.of_nat y)))%Qc).
  { intros x y Hxy. unfold Qcle. cbn [this Q2Qc]. rewrite !Qred_correct.
    unfold Qle. cbn. lia. }
  split.
  - unfold Qcdiv. apply Qcmult_nonneg_nonneg.
    + apply (Hle 0%nat a). lia.
    + apply Qclt_le_weak. by apply Qcinv_pos.
  - apply Qcdiv_le_one_iff; [done|]. by apply Hle.
Qed.

(** X5.  Every value [_calculate_probabilities] returns lies between 0 and
    1, for every region and every list of constraints. *)
Theorem calculate_probabilities_bounds `{SetOrder}
    (constraints : list constraint) (cells : gset coord) (c : coord) (p : Qc) :
  (c, p) ∈ _calculate_probabilities constraints cells →
  (Q2Qc 0 <= p)%Qc ∧ (p <= 1)%Qc.
Proof.
  rewrite calculate_probabilities_spec.
  intros Hin. apply list_elem_of_fmap in Hin as (c' & [= -> ->] & _).
  unfold marginal.
  destruct (Z.eqb_spec (Z.of_nat (length (solutions (sorted_cells cells)
                                            constraints))) 0) as [E|E].
  - split; by vm_compute.
  - apply Qc_ratio_bounds; [|lia].
    unfold mine_solutions. apply length_filter.
Qed.

Lemma calculate_probabilities_bounds_witness :
  (Q2Qc 0 <= Q2Qc (1 # 3))%Qc ∧ (Q2Qc (1 # 3) <= 1)%Qc.
Proof.
  refine (calculate_probabilities_bounds
            [({[ (0, 0); (0, 1); (0, 2) ]}, 1)] {[ (0, 0); (0, 1); (0, 2) ]}
            (0, 0) (Q2Qc (1 # 3)) _).
  apply (bool_decide_unpack _). by vm_compute.
Defined.

(** ** Conservation: the counters of the search add up to the mines found *)

(** Counting the pairs (cell, solution) with a mine, by cell or by
    solution. *)
Lemma count_pairs_swap {A B : Type} (P : A → B → bool) (xs : list A) (ys : list B) :
  sumZ ((λ x, Z.of_nat (length (filter (λ y, P x y) ys))) <$> xs)
  = sumZ ((λ y, Z.of_nat (length (filter (λ x, P x y) xs))) <$> ys).
Proof.
  induction ys as [|y ys IH].
  - cbn. induction xs as [|x xs IHx]; [done|].
    rewrite fmap_cons, sumZ_cons, IHx. done.
  - rewrite fmap_cons, sumZ_cons, <- IH. clear IH.
    induction xs as [|x xs IHx]; [done|].
    rewrite !fmap_cons, !sumZ_cons, IHx.
    rewrite (filter_cons_bool (P x)), (filter_cons_bool (λ x, P x y)).
    destruct (P x y); cbn [length]; lia.
Qed.

Section Conservation.
Context `{SetOrder}.

Lemma mine_counts_total (cs : list constraint) (cells : gset coord) :
  sumZ ((λ c, Z.of_nat (length (mine_solutions (sorted_cells cells) cs c)))
          <$> set_iter cells)
  = sumZ (sumZ <$> solutions (sorted_cells cells) cs).
Proof.
  assert (Hperm : set_iter cells ≡ₚ sorted_cells cells).
  { rewrite sorted_cells_perm. apply set_iter_perm. }
  rewrite (sumZ_perm _ _ (fmap_Permutation _ _ _ Hperm)).
  unfold mine_solutions.
  rewrite (count_pairs_swap (λ c a, arrangement_of (sorted_cells cells) a c)).
  f_equal. apply list_fmap_ext. intros i a Ha.
  apply list_elem_of_lookup_2 in Ha. unfold solutions in Ha.
  apply list_elem_of_filter in Ha as [_ Ha].
  apply all_assignments_binary in Ha as [Hbin Hlen].
  apply (count_true_arrangement (sorted_cells cells) a
           (NoDup_sorted_cells cells) Hlen Hbin).
Qed.

End Conservation.

(** X6.  The integer counters the search of [_calculate_probabilities]
    ends with, on a region that is not empty: [total_solutions] is the
    number of assignments that pass the exact check, and the entries of
    [mine_counts], added up over the cells of the region, give the number
    of mines of all those assignments taken together. *)
Theorem backtrack_counts_conservation `{SetOrder}
    (constraints : list constraint) (cells : gset coord) :
  cells ≠ ∅ →
  let cells_list := sorted_cells cells in
  let mine_counts : gmap coord Z :=
    foldl (λ m cell, <[cell := 0]> m) ∅ (set_iter cells) in
  let '(total_solutions, mine_counts1) :=
    backtrack cells_list constraints (length cells_list) [] (0, mine_counts) in
  total_solutions = Z.of_nat (length (solutions cells_list constraints))
  ∧ sumZ ((λ cell, default 0 (mine_counts1 !! cell)) <$> set_iter cells)
    = sumZ (sumZ <$> solutions cells_list constraints).
Proof.
  intros _. cbn zeta.
  rewrite backtrack_naive_below by (apply NoDup_sorted_cells || constructor).
  rewrite naive_below_nil. unfold naive_search.
  fold (solutions (sorted_cells cells) constraints).
  set (mc0 := foldl (λ m cell, <[cell := 0]> m) ∅ (set_iter cells)).
  pose proof (count_solutions_total (sorted_cells cells)
                (solutions (sorted_cells cells) constraints) (0, mc0)) as Htot.
  pose proof (λ c v, count_solutions_tally (sorted_cells cells)
                (solutions (sorted_cells cells) constraints) (0, mc0) c v
                (NoDup_sorted_cells cells)) as Htal.
  destruct (foldl (count_solution (sorted_cells cells)) (0, mc0)
                  (solutions (sorted_cells cells) constraints))
    as [total mc1].
  cbn [fst snd] in Htot, Htal. split; [lia|].
  rewrite <- mine_counts_total. f_equal.
  apply list_fmap_ext. intros i c Hc.
  rewrite (Htal c 0).
  - cbn. unfold mine_solutions. by rewrite Z.add_0_l.
  - apply zero_counts_lookup. by eapply list_elem_of_lookup_2.
Qed.

(** A region of three cells under one constraint of count 1. *)
Definition region_three : gset coord := {[ (0, 0); (0, 1); (0, 2) ]}.
Definition one_in_three : list constraint := [(region_three, 1)].

Lemma region_three_nonempty : region_three ≠ ∅.
Proof. apply (bool_decide_unpack _). by vm_compute. Defined.

Lemma backtrack_counts_conservation_witness :
  let cells_list := sorted_cells region_three in
  let mine_counts : gmap coord Z :=
    foldl (λ m cell, <[cell := 0]> m) ∅ (set_iter region_three) in
  let '(total_solutions, mine_counts1) :=
    backtrack cells_list one_in_three (length cells_list) []
              (0, mine_counts) in
  total_solutions = Z.of_nat (length (solutions cells_list one_in_three))
  ∧ sumZ ((λ cell, default 0 (mine_counts1 !! cell)) <$> set_iter region_three)
    = sumZ (sumZ <$> solutions cells_list one_in_three).
Proof.
  exact (backtrack_counts_conservation one_in_three region_three
           region_three_nonempty).
Defined.

(** ** The probability map and the choice made from it *)

Lemma dict_set_NoDup {V : Type} (d : list (coord * V)) k (v : V) :
  NoDup d.*1 → NoDup (dict_set d k v).*1.
Proof.
  induction d as [|[k0 w] d IH]; intros Hnd; cbn.
  - apply NoDup_singleton.
  - cbn in Hnd. apply NoDup_cons in Hnd as [Hk0 Hnd].
    case_bool_decide as Hk; cbn.
    + by apply NoDup_cons.
    + apply NoDup_cons. split; [|by apply IH].
      rewrite dict_set_keys. intros [?|?]; done.
Qed.

Lemma dict_update_NoDup {V : Type} (d other : list (coord * V)) :
  NoDup d.*1 → NoDup (dict_update d other).*1.
Proof.
  unfold dict_update. revert d.
  induction other as [|[k v] other IH]; intros d Hnd; [done|].
  cbn [foldl]. by apply IH, dict_set_NoDup.
Qed.

Lemma foldl_dict_set_NoDup {V : Type} (d : list (coord * V)) (l : list coord)
    (p : V) :
  NoDup d.*1 → NoDup (foldl (λ d cell, dict_set d cell p) d l).*1.
Proof.
  revert d. induction l as [|x l IH]; intros d Hnd; [done|].
  cbn [foldl]. by apply IH, dict_set_NoDup.
Qed.

Lemma region_probabilities_NoDup `{SetOrder} (regions : list (list constraint)) :
  NoDup (region_probabilities regions).*1.
Proof.
  unfold region_probabilities.
  enough (Hgen : ∀ (l : list (list constraint)) (d0 : list (coord * Qc)),
            NoDup d0.*1 →
            NoDup (foldl
                     (λ cell_probabilities region_constraints,
                        let region_cells := union_limits region_constraints in
                        if negb (nonempty_set region_cells)
                        then cell_probabilities
                        else dict_update cell_probabilities
                               (_calculate_probabilities region_constraints
                                                         region_cells))
                     d0 l).*1).
  { apply Hgen. constructor. }
  induction l as [|g l IH]; intros d0 Hnd; [done|].
  cbn [foldl]. apply IH. cbn zeta.
  destruct (negb (nonempty_set (union_limits g))); [done|].
  by apply dict_update_NoDup.
Qed.

Lemma cell_probability_map_NoDup `{SetOrder} (total_mines : Z) (fuel : nat)
    (board : Board) (probs : list (coord * Qc)) :
  cell_probability_map total_mines fuel board = Some probs → NoDup probs.*1.
Proof.
  unfold cell_probability_map.
  destruct (_find_independent_regions fuel _) as [regions|]; [|done].
  cbn [mbind option_bind].
  destruct (nonempty_set _); intros [= <-].
  - apply foldl_dict_set_NoDup, region_probabilities_NoDup.
  - apply region_probabilities_NoDup.
Qed.

(** X7.  When constraints exist, the dictionary of probabilities the
    selector builds has exactly one entry for every cell that is in bounds,
    hidden and unflagged, and no other entry. *)
Theorem probability_map_covers `{SetOrder}
    (total_mines : Z) (fuel : nat) (board : Board) :
  no_short_row board →
  enough_region_fuel board fuel →
  _generate_constraints board (board_rows board) (board_cols board) ∅ ∅ ≠ [] →
  ∃ probs,
    cell_probability_map total_mines fuel board = Some probs
    ∧ NoDup probs.*1
    ∧ ∀ k : coord,
        k ∈ probs.*1
        ↔ in_bounds (board_rows board) (board_cols board) k = true
          ∧ is_revealed (cell_at board k.1 k.2) = false
          ∧ is_flagged (cell_at board k.1 k.2) = false.
Proof.
  intros _ Hfuel _.
  destruct (cell_probability_map_spec total_mines fuel board Hfuel)
    as (regions & probs & _ & Hmap & Hkeys & _).
  exists probs. split_and!; [done | by eapply cell_probability_map_NoDup |].
  intros k. rewrite Hkeys.
  pose proof (border_unrevealed board) as Hb.
  assert (Hu : k ∈ border_of board ∨ k ∈ interior_of board
               ↔ k ∈ unrevealed_cells board (board_rows board)
                       (board_cols board)).
  { unfold interior_of. rewrite elem_of_difference.
    destruct (decide (k ∈ border_of board)); set_solver. }
  rewrite Hu, unrevealed_cells_frontier, elem_of_frontier, is_unknown_spec.
  split; [tauto|]. intros (? & ? & ?).
  split_and!; try done; apply not_elem_of_empty.
Qed.

Lemma board_two_constraints_has_constraints :
  _generate_constraints board_two_constraints
    (board_rows board_two_constraints) (board_cols board_two_constraints) ∅ ∅
  ≠ [].
Proof. apply (bool_decide_unpack _). by vm_compute. Defined.

Lemma probability_map_covers_witness :
  ∃ probs,
    cell_probability_map 3 8 board_two_constraints = Some probs
    ∧ NoDup probs.*1
    ∧ ∀ k : coord,
        k ∈ probs.*1
        ↔ in_bounds (board_rows board_two_constraints)
                    (board_cols board_two_constraints) k = true
          ∧ is_revealed (cell_at board_two_constraints k.1 k.2) = false
          ∧ is_flagged (cell_at board_two_constraints k.1 k.2) = false.
Proof.
  exact (probability_map_covers 3 8 board_two_constraints
           board_two_constraints_no_short_row board_two_constraints_fuel
           board_two_constraints_has_constraints).
Defined.

(** The entry [min] returns: the first one whose value no other undercuts. *)
Lemma argmin_fold_split (l : list (coord * Qc)) :
  ∀ best : coord * Qc,
    let b := foldl (λ best (kv : coord * Qc),
                      if Qclt_le_dec kv.2 best.2 then kv else best) best l in
    (b.2 <= best.2)%Qc
    ∧ ∃ l1 l2, best :: l = l1 ++ b :: l2
               ∧ (∀ x, x ∈ l1 → (b.2 < x.2)%Qc)
               ∧ (∀ x, x ∈ l2 → (b.2 <= x.2)%Qc).
Proof.
  induction l as [|x l IH]; intros best; cbn zeta; cbn [foldl].
  - split; [apply Qcle_refl|]. exists [], []. split_and!; [done | |];
      intros y Hy; by apply elem_of_nil in Hy.
  - destruct (Qclt_le_dec x.2 best.2) as [Hlt|Hle].
    + destruct (IH x) as (Hb & l1 & l2 & Heq & H1 & H2). cbn zeta in *.
      split; [apply Qclt_le_weak; by eapply Qcle_lt_trans|].
      exists (best :: l1), l2. split_and!; [by rewrite Heq | | done].
      intros y [->|Hy]%elem_of_cons; [by eapply Qcle_lt_trans | by apply H1].
    + destruct (IH best) as (Hb & l1 & l2 & Heq & H1 & H2). cbn zeta in *.
      split; [done|].
      destruct l1 as [|y l1].
      * injection Heq as Hbest Hl. exists [], (x :: l2).
        split_and!; [by rewrite <- Hbest, Hl | |].
        -- intros y Hy. by apply elem_of_nil in Hy.
        -- intros y [->|Hy]%elem_of_cons; [by rewrite <- Hbest | by apply H2].
      * injection Heq as <- Hl. exists (best :: x :: l1), l2.
        split_and!; [cbn; by rewrite <- Hl | | done].
        intros y [->|[->|Hy]%elem_of_cons]%elem_of_cons.
        -- apply H1. left.
        -- eapply Qclt_le_trans; [apply H1; left | done].
        -- apply H1. by right.
Qed.

Lemma dict_argmin_spec (d : list (coord * Qc)) (k : coord) :
  dict_argmin d = Some k →
  ∃ v l1 l2, d = l1 ++ (k, v) :: l2
             ∧ (∀ x, x ∈ l1 → (v < x.2)%Qc)
             ∧ (∀ x, x ∈ l2 → (v <= x.2)%Qc).
Proof.
  destruct d as [|kv d]; [done|]. cbn [dict_argmin]. intros [= <-].
  destruct (argmin_fold_split d kv) as (_ & l1 & l2 & Heq & H1 & H2).
  cbn zeta in *.
  set (b := foldl _ kv d) in *. exists b.2, l1, l2.
  split_and!; [|done..]. rewrite Heq. by destruct b.
Qed.

(** X8.  When the board has an unresolved cell and constraints exist, the
    cell the selector returns carries a least value of the probability map,
    and it is the first such entry of the map: every entry before it has a
    strictly greater value, every entry after it a value at least as
    great. *)
Theorem move_has_least_probability `{SetOrder}
    (total_mines : Z) (fuel rnd : nat) (board : Board) :
  no_short_row board →
  enough_region_fuel board fuel →
  unrevealed_cells board (board_rows board) (board_cols board) ≠ ∅ →
  _generate_constraints board (board_rows board) (board_cols board) ∅ ∅ ≠ [] →
  ∃ probs k v before after,
    cell_probability_map total_mines fuel board = Some probs
    ∧ make_probabilistic_move total_mines fuel rnd board = Some k
    ∧ probs = before ++ (k, v) :: after
    ∧ (∀ x, x ∈ before → (v < x.2)%Qc)
    ∧ (∀ x, x ∈ after → (v <= x.2)%Qc).
Proof.
  intros _ Hfuel Hne Hcs.
  destruct (cell_probability_map_spec total_mines fuel board Hfuel)
    as (regions & probs & _ & Hmap & Hkeys & _).
  assert (Hmove : make_probabilistic_move total_mines fuel rnd board
                  = if negb (bool_decide (probs = [])) then dict_argmin probs
                    else random_choice rnd
                           (set_iter (unrevealed_cells board (board_rows board)
                                        (board_cols board)))).
  { unfold make_probabilistic_move.
    destruct (nonempty_set (unrevealed_cells board (board_rows board)
                              (board_cols board))) eqn:E.
    2:{ by apply nonempty_set_false in E. }
    cbn [negb]. rewrite (bool_decide_eq_false_2 _ Hcs).
    by rewrite Hmap. }
  assert (Hprobs : probs ≠ []).
  { intros ->.
    destruct (_generate_constraints board (board_rows board) (board_cols board)
                ∅ ∅) as [|c cs] eqn:Hgen; [done|].
    assert (Hc : c ∈ _generate_constraints board (board_rows board)
                       (board_cols board) ∅ ∅) by (rewrite Hgen; left).
    pose proof (generate_constraints_nonempty _ _ _ _ _ c Hc) as Hcne.
    apply set_choose_L in Hcne as [x Hx].
    assert (Hb : x ∈ border_of board).
    { apply elem_of_union_limits. exists c. split; [exact Hc | exact Hx]. }
    pose proof (proj2 (Hkeys x) (or_introl Hb)) as Hin.
    by apply elem_of_nil in Hin. }
  rewrite (bool_decide_eq_false_2 _ Hprobs) in Hmove. cbn [negb] in Hmove.
  destruct (dict_argmin_key probs Hprobs) as (k & Hk & _).
  destruct (dict_argmin_spec probs k Hk) as (v & l1 & l2 & Heq & H1 & H2).
  exists probs, k, v, l1, l2. split_and!; try done. by rewrite Hmove.
Qed.

Lemma board_two_constraints_unresolved :
  unrevealed_cells board_two_constraints (board_rows board_two_constraints)
                   (board_cols board_two_constraints) ≠ ∅.
Proof. apply (bool_decide_unpack _). by vm_compute. Defined.

Lemma move_has_least_probability_witness :
  ∃ probs k v before after,
    cell_probability_map 3 8 board_two_constraints = Some probs
    ∧ make_probabilistic_move 3 8 0 board_two_constraints = Some k
    ∧ probs = before ++ (k, v) :: after
    ∧ (∀ x, x ∈ before → (v < x.2)%Qc)
    ∧ (∀ x, x ∈ after → (v <= x.2)%Qc).
Proof.
  exact (move_has_least_probability 3 8 0 board_two_constraints
           board_two_constraints_no_short_row board_two_constraints_fuel
           board_two_constraints_unresolved
           board_two_constraints_has_constraints).
Defined.

(** * The game engine ([minesweeper_engine.py]) *)

(** ** The model *)

(** How a call of the engine ends: it returns, it raises, or the model's
    fuel for a [while] loop ran out. *)
Inductive exn : Type := TypeError | ValueError.

Inductive outcome (A : Type) : Type :=
| Returns (a : A)
| Raises (e : exn)
| OutOfFuel.
Arguments Returns {A} a.
Arguments Raises {A} e.
Arguments OutOfFuel {A}.

(** [board[row][col].field = v].  The engine builds every cell with its own
    [Cell()], so an assignment changes the cell at that position only; a
    board is therefore modelled by its value, and the assignment by an
    update at [row], [col].  Every subscript of the engine is guarded by a
    bounds check or ranges over the grid. *)
Definition set_cell (board : Board) (row col : Z) (f : Cell → Cell) : Board :=
  alter (M := list (list Cell)) (alter f (Z.to_nat col)) (Z.to_nat row) board.

Definition set_mine (c : Cell) : Cell :=
  mkCell true (is_revealed c) (is_flagged c) (adjacent_mines c).

Definition set_revealed (c : Cell) : Cell :=
  mkCell (is_mine c) true (is_flagged c) (adjacent_mines c).

Definition set_flagged (v : bool) (c : Cell) : Cell :=
  mkCell (is_mine c) (is_revealed c) v (adjacent_mines c).

Definition set_adjacent (k : Z) (c : Cell) : Cell :=
  mkCell (is_mine c) (is_revealed c) (is_flagged c) k.

(** *** [_calculate_adjacent_mines] *)

(** One turn of [for d_row, d_col in DIRECTIONS], acting on [mine_count]. *)
Definition count_direction (board : Board) (rows cols row col : Z)
    (mine_count : Z) (d : Z * Z) : Z :=
  let n_row := row + d.1 in
  let n_col := col + d.2 in
  if in_bounds rows cols (n_row, n_col)
     && is_mine (cell_at board n_row n_col)
  then mine_count + 1
  else mine_count.

(** The body of the two nested [for] loops, acting on the board. *)
Definition adjacent_cell (rows cols : Z) (board : Board) (row col : Z)
    : Board :=
  if negb (is_mine (cell_at board row col)) then
    let mine_count :=
      fold_left (count_direction board rows cols row col) DIRECTIONS 0 in
    set_cell board row col (set_adjacent mine_count)
  else board.

Definition _calculate_adjacent_mines (board : Board) (rows cols : Z) : Board :=
  fold_left
    (λ board row,
       fold_left (λ board col, adjacent_cell rows cols board row col)
                 (seqZ 0 cols) board)
    (seqZ 0 rows) board.

(** *** [generate_board] *)

(** [random.sample(population, k)] for [0 <= k <= len(population)]: [k]
    elements taken from [k] different positions of the population, in some
    order.  Which ones is left open. *)
Class Sampler := {
  sample : list coord → nat → list coord;
  sample_length : ∀ l k, (k ≤ length l)%nat → length (sample l k) = k;
  sample_from : ∀ l k, (k ≤ length l)%nat → sample l k ⊆+ l
}.

(** [list.remove(x)]: drops the first occurrence; [None] stands for the
    [ValueError] raised when there is none. *)
Fixpoint list_remove (x : coord) (l : list coord) : option (list coord) :=
  match l with
  | [] => None
  | y :: l =>
      if bool_decide (y = x) then Some l else (y ::.) <$> list_remove x l
  end.

Definition generate_board `{Sampler} (rows cols num_mines : Z)
    (first_click_coords : coord) : outcome Board :=
  let board :=
    replicate (Z.to_nat rows) (replicate (Z.to_nat cols) default_cell) in
  let all_positions := row_major rows cols in
  let '(first_row, first_col) := first_click_coords in
  match list_remove (first_row, first_col) all_positions with
  | None => Raises ValueError
  | Some all_positions =>
      let max_mines := Z.of_nat (length all_positions) in
      let actual_mines := Z.min num_mines max_mines in
      if actual_mines <? 0 then Raises ValueError
      else
        let mine_positions := sample all_positions (Z.to_nat actual_mines) in
        let board :=
          fold_left (λ board rc, set_cell board rc.1 rc.2 set_mine)
                    mine_positions board in
        Returns (_calculate_adjacent_mines board rows cols)
  end.

(** *** [_cascade_reveal] and [reveal_cell] *)

(** The state of the search: the board, the queue and the visited set. *)
Definition cascade_state : Type := Board * list coord * gset coord.

(** One turn of [for d_row, d_col in DIRECTIONS]. *)
Definition cascade_direction (rows cols row col : Z) (st : cascade_state)
    (d : Z * Z) : cascade_state :=
  let '(board, queue, visited) := st in
  let n_row := row + d.1 in
  let n_col := col + d.2 in
  if negb (in_bounds rows cols (n_row, n_col))
     || bool_decide ((n_row, n_col) ∈ visited)
  then st
  else
    let visited := visited ∪ {[ (n_row, n_col) ]} in
    let cell := cell_at board n_row n_col in
    if is_mine cell || is_flagged cell then (board, queue, visited)
    else
      let board := set_cell board n_row n_col set_revealed in
      if adjacent_mines cell =? 0
      then (board, queue ++ [(n_row, n_col)], visited)
      else (board, queue, visited).

(** [while queue:], one turn of the loop per unit of fuel. *)
Fixpoint cascade_loop (fuel : nat) (rows cols : Z) (st : cascade_state)
    : option Board :=
  match fuel with
  | O => None
  | S fuel =>
      let '(board, queue, visited) := st in
      match queue with
      | [] => Some board
      | (row, col) :: queue =>
          cascade_loop fuel rows cols
            (fold_left (cascade_direction rows cols row col) DIRECTIONS
                       (board, queue, visited))
      end
  end.

Definition _cascade_reveal (fuel : nat) (board : Board)
    (start_row start_col rows cols : Z) : option Board :=
  cascade_loop fuel rows cols
    (board, [(start_row, start_col)], {[ (start_row, start_col) ]}).

(** [cols = len(board[0] if rows > 0 else 0)]: on an empty board the
    argument of [len] is the integer [0], and [len] raises [TypeError]. *)
Definition reveal_cell (fuel : nat) (board : Board) (row col : Z)
    : outcome (Board * bool) :=
  let rows := board_rows board in
  if negb (0 <? rows) then Raises TypeError
  else
    let cols := Z.of_nat (length (nth 0%nat board [])) in
    if negb (in_bounds rows cols (row, col)) then Returns (board, true)
    else
      let cell := cell_at board row col in
      if is_revealed cell || is_flagged cell then Returns (board, true)
      else
        let board := set_cell board row col set_revealed in
        if is_mine cell then Returns (board, false)
        else if adjacent_mines cell =? 0 then
          match _cascade_reveal fuel board row col rows cols with
          | Some board => Returns (board, true)
          | None => OutOfFuel
          end
        else Returns (board, true).

(** *** [toggle_flag], [check_win], [reveal_all_mines] *)

Definition toggle_flag (board : Board) (row col : Z) : Board * bool :=
  let rows := board_rows board in
  let cols := board_cols board in
  if negb (in_bounds rows cols (row, col)) then (board, false)
  else
    let cell := cell_at board row col in
    if is_revealed cell then (board, false)
    else (set_cell board row col (set_flagged (negb (is_flagged cell))), true).

Definition check_win (board : Board) : bool :=
  forallb (forallb (λ cell, negb (negb (is_mine cell)
                                  && negb (is_revealed cell)))) board.

Definition reveal_all_mines (board : Board) : Board :=
  map (map (λ cell, if is_mine cell then set_revealed cell else cell)) board.

(** The simplest sampler: the first [k] elements. *)
Lemma take_sample_length (l : list coord) (k : nat) :
  (k ≤ length l)%nat → length (take k l) = k.
Proof. intros Hk. rewrite length_take_le; [done | lia]. Qed.

Lemma take_sample_from (l : list coord) (k : nat) :
  (k ≤ length l)%nat → take k l ⊆+ l.
Proof. intros _. apply sublist_submseteq, sublist_take. Qed.

#[global] Instance take_sampler : Sampler := {|
  sample l k := take k l;
  sample_length := take_sample_length;
  sample_from := take_sample_from
|}.

(** ** Reading a board after an assignment *)

(** The lengths of the rows of a board. *)
Definition shape (board : Board) : list nat := length <$> board.

(** A position at which the board has a cell. *)
Definition inside (board : Board) (n : coord) : Prop :=
  0 <= n.1 ∧ 0 <= n.2
  ∧ ∃ k, shape board !! Z.to_nat n.1 = Some k ∧ (Z.to_nat n.2 < k)%nat.

Lemma shape_set_cell board row col f :
  shape (set_cell board row col f) = shape board.
Proof.
  unfold shape, set_cell. apply list_eq. intros i.
  rewrite !list_lookup_fmap.
  destruct (decide (i = Z.to_nat row)) as [->|Hne].
  - rewrite list_lookup_alter_eq. destruct (_ !! _); cbn; [|done].
    by rewrite length_alter.
  - by rewrite list_lookup_alter_ne.
Qed.

Lemma board_rows_shape b b' : shape b = shape b' → board_rows b = board_rows b'.
Proof.
  intros Hs. unfold board_rows, shape in *.
  by rewrite <- (length_fmap length b), <- (length_fmap length b'), Hs.
Qed.

Lemma board_cols_shape b b' : shape b = shape b' → board_cols b = board_cols b'.
Proof.
  intros Hs. unfold board_cols. rewrite (board_rows_shape b b' Hs).
  destruct (0 <? board_rows b'); [|done]. f_equal. unfold shape in Hs.
  rewrite <- (map_nth length b [] 0), <- (map_nth length b' [] 0).
  f_equal. exact Hs.
Qed.

Lemma no_short_row_shape b b' :
  shape b = shape b' → no_short_row b → no_short_row b'.
Proof.
  intros Hs Hb. unfold no_short_row.
  rewrite <- (board_cols_shape b b' Hs). unfold shape in Hs.
  apply (Forall_fmap length (λ k : nat, board_cols b <= Z.of_nat k) b').
  rewrite <- Hs.
  apply (Forall_fmap length (λ k : nat, board_cols b <= Z.of_nat k) b).
  exact Hb.
Qed.

Lemma inside_shape b b' n : shape b = shape b' → inside b n → inside b' n.
Proof. unfold inside. by intros ->. Qed.

Lemma cell_at_lookup board row col :
  cell_at board row col
  = default default_cell
      (default [] (board !! Z.to_nat row) !! Z.to_nat col).
Proof. unfold cell_at. by rewrite !nth_lookup. Qed.

Lemma cell_at_set_cell board row col f r c :
  inside board (row, col) → 0 <= r → 0 <= c →
  cell_at (set_cell board row col f) r c
  = if bool_decide ((r, c) = (row, col)) then f (cell_at board r c)
    else cell_at board r c.
Proof.
  intros (Hr0 & Hc0 & k & Hk & Hlt) Hr Hc. cbn [fst snd] in *.
  rewrite !cell_at_lookup. unfold set_cell, shape, Board in *.
  rewrite list_lookup_fmap in Hk.
  destruct (board !! Z.to_nat row) as [line|] eqn:Hline; [|done].
  injection Hk as <-.
  case_bool_decide as Heq.
  - injection Heq as -> ->.
    rewrite list_lookup_alter_eq, Hline. cbn.
    rewrite list_lookup_alter_eq.
    destruct (lookup_lt_is_Some_2 line (Z.to_nat col) Hlt) as [x Hx].
    by rewrite Hx.
  - destruct (decide (Z.to_nat r = Z.to_nat row)) as [Er|Er].
    + rewrite Er, list_lookup_alter_eq, Hline.
      cbn.
      rewrite list_lookup_alter_ne; [done|].
      intros Ec. apply Heq. f_equal; lia.
    + by rewrite list_lookup_alter_ne.
Qed.

(** A board at least [rows] by [cols]: every subscript [board[r][c]] with
    [(r, c)] in the grid finds a cell. *)
Definition fits (rows cols : Z) (board : Board) : Prop :=
  rows <= board_rows board
  ∧ Forall (λ line, cols <= Z.of_nat (length line)) board.

Lemma fits_inside rows cols board n :
  fits rows cols board → in_bounds rows cols n = true → inside board n.
Proof.
  intros [Hrows Hcols] Hb. unfold in_bounds in Hb.
  rewrite !andb_true_iff in Hb. destruct Hb as (((Hr0 & Hr1) & Hc0) & Hc1).
  apply Z.leb_le in Hr0, Hc0. apply Z.ltb_lt in Hr1, Hc1.
  split_and!; [done..|]. unfold board_rows in Hrows. unfold Board in *.
  destruct (lookup_lt_is_Some_2 board (Z.to_nat n.1)) as [line Hline]; [lia|].
  exists (length line). split.
  - unfold shape. by rewrite list_lookup_fmap, Hline.
  - pose proof (proj1 (Forall_forall _ _) Hcols line
                  (list_elem_of_lookup_2 _ _ _ Hline)) as Hl.
    cbn beta in Hl. lia.
Qed.

Lemma fits_shape rows cols b b' :
  shape b = shape b' → fits rows cols b → fits rows cols b'.
Proof.
  intros Hs [Hr Hc]. split; [by rewrite <- (board_rows_shape b b' Hs)|].
  unfold shape in Hs.
  apply (Forall_fmap length (λ k : nat, cols <= Z.of_nat k) b').
  rewrite <- Hs.
  apply (Forall_fmap length (λ k : nat, cols <= Z.of_nat k) b).
  exact Hc.
Qed.

Lemma no_short_row_fits board :
  no_short_row board → fits (board_rows board) (board_cols board) board.
Proof. intros Hs. split; [lia | exact Hs]. Qed.

Lemma in_bounds_nonneg rows cols (n : coord) :
  in_bounds rows cols n = true → 0 <= n.1 ∧ 0 <= n.2.
Proof.
  unfold in_bounds. rewrite !andb_true_iff.
  intros (((Hr0 & _) & Hc0) & _). apply Z.leb_le in Hr0, Hc0. done.
Qed.

(** ** [_calculate_adjacent_mines] writes the true counts *)

Lemma count_direction_fold board rows cols row col ds k :
  fold_left (count_direction board rows cols row col) ds k
  = k + count_true (mines_of board)
          (filter (λ n, in_bounds rows cols n) (shifted row col ds)).
Proof.
  revert k. induction ds as [|d ds IH]; intros k.
  - cbn. rewrite count_true_nil. lia.
  - cbn [fold_left]. unfold shifted. rewrite fmap_cons.
    change (fmap ?f ds) with (shifted row col ds).
    rewrite (filter_cons_bool (in_bounds rows cols)), IH.
    unfold count_direction.
    destruct (in_bounds rows cols (row + d.1, col + d.2)); cbn [andb]; [|done].
    rewrite count_true_cons. unfold mines_of at 2. cbn [fst snd].
    destruct (is_mine (cell_at board (row + d.1) (col + d.2))); lia.
Qed.

Lemma adjacent_cell_count board rows cols row col :
  fold_left (count_direction board rows cols row col) DIRECTIONS 0
  = mines_around (mines_of board) rows cols row col.
Proof. by rewrite count_direction_fold. Qed.

(** What the loops leave in a cell, for the cells visited so far. *)
Definition counted (rows cols : Z) (board : Board) (n : coord) : Cell :=
  let cell := cell_at board n.1 n.2 in
  if is_mine cell then cell
  else set_adjacent (mines_around (mines_of board) rows cols n.1 n.2) cell.

Lemma mines_around_ext m m' rows cols row col :
  (∀ n, in_bounds rows cols n = true → m n = m' n) →
  mines_around m rows cols row col = mines_around m' rows cols row col.
Proof.
  intros Hm. apply count_true_ext. intros n Hn.
  apply elem_of_neighbors in Hn as [_ Hn]. by apply Hm.
Qed.

Lemma adjacent_cells_fold rows cols (l : list coord) :
  NoDup l → (∀ n, n ∈ l → in_bounds rows cols n = true) →
  ∀ board,
    fits rows cols board →
    let board' :=
      fold_left (λ b rc, adjacent_cell rows cols b rc.1 rc.2) l board in
    shape board' = shape board
    ∧ ∀ r c, 0 <= r → 0 <= c →
        cell_at board' r c
        = if bool_decide ((r, c) ∈ l) then counted rows cols board (r, c)
          else cell_at board r c.
Proof.
  induction l as [|[row col] l IH]; intros Hnd Hin board Hfit; cbn zeta.
  - split; [done|]. intros r c _ _. by rewrite bool_decide_eq_false_2
      by apply not_elem_of_nil.
  - apply NoDup_cons in Hnd as [Hnotin Hnd]. cbn [fold_left fst snd].
    assert (Hb : in_bounds rows cols (row, col) = true) by (apply Hin; left).
    pose proof (fits_inside _ _ _ _ Hfit Hb) as Hins.
    destruct (in_bounds_nonneg _ _ _ Hb) as [Hrow Hcol]. cbn [fst snd] in *.
    set (b1 := adjacent_cell rows cols board row col).
    assert (Hshape1 : shape b1 = shape board).
    { unfold b1, adjacent_cell. destruct (negb _); [|done].
      apply shape_set_cell. }
    assert (Hcell1 : ∀ r c, 0 <= r → 0 <= c →
              cell_at b1 r c
              = if bool_decide ((r, c) = (row, col))
                then counted rows cols board (r, c) else cell_at board r c).
    { intros r c Hr Hc. unfold b1, adjacent_cell, counted. cbn [fst snd].
      destruct (is_mine (cell_at board row col)) eqn:Hm; cbn [negb].
      - case_bool_decide as Heq; [|done]. injection Heq as -> ->.
        by rewrite Hm.
      - rewrite (cell_at_set_cell _ _ _ _ _ _ Hins Hr Hc).
        case_bool_decide as Heq; [|done]. injection Heq as -> ->.
        by rewrite Hm, adjacent_cell_count. }
    assert (Hmines : ∀ n, in_bounds rows cols n = true →
              mines_of b1 n = mines_of board n).
    { intros [r c] Hn. destruct (in_bounds_nonneg _ _ _ Hn) as [Hr Hc].
      unfold mines_of. cbn [fst snd] in *. rewrite (Hcell1 r c Hr Hc).
      case_bool_decide; [|done]. unfold counted. cbn [fst snd].
      by destruct (is_mine (cell_at board r c)) eqn:Hm. }
    destruct (IH Hnd (λ n Hn, Hin n (list_elem_of_further _ _ _ Hn)) b1
                (fits_shape _ _ _ _ (eq_sym Hshape1) Hfit)) as [Hshape Hcell].
    cbn zeta in Hshape, Hcell.
    split; [by rewrite Hshape|].
    intros r c Hr Hc. rewrite (Hcell r c Hr Hc).
    destruct (decide ((r, c) = (row, col))) as [Heq|Hne].
    + injection Heq as -> ->.
      rewrite (bool_decide_eq_false_2 _ Hnotin).
      rewrite (bool_decide_eq_true_2 ((row, col) ∈ (row, col) :: l))
        by left.
      rewrite (Hcell1 row col Hr Hc). by rewrite bool_decide_eq_true_2.
    + case_bool_decide as Hl.
      * rewrite (bool_decide_eq_true_2 ((r, c) ∈ (row, col) :: l))
          by (by right).
        unfold counted. cbn [fst snd]. rewrite (Hcell1 r c Hr Hc).
        rewrite (bool_decide_eq_false_2 _ Hne).
        destruct (is_mine (cell_at board r c)); [done|]. f_equal.
        by apply mines_around_ext.
      * rewrite (bool_decide_eq_false_2 ((r, c) ∈ (row, col) :: l)).
        2:{ intros [?|?]%elem_of_cons; done. }
        rewrite (Hcell1 r c Hr Hc). by rewrite (bool_decide_eq_false_2 _ Hne).
Qed.

Lemma calculate_adjacent_mines_fold board rows cols :
  _calculate_adjacent_mines board rows cols
  = fold_left (λ b rc, adjacent_cell rows cols b rc.1 rc.2)
              (row_major rows cols) board.
Proof.
  unfold _calculate_adjacent_mines, row_major.
  apply (fold_left_nested (λ b row col, adjacent_cell rows cols b row col)).
Qed.

Lemma calculate_adjacent_mines_cells (board : Board) (rows cols : Z) :
  fits rows cols board →
  shape (_calculate_adjacent_mines board rows cols) = shape board
  ∧ ∀ row col,
      in_bounds rows cols (row, col) = true →
      cell_at (_calculate_adjacent_mines board rows cols) row col
      = counted rows cols board (row, col).
Proof.
  intros Hfit. rewrite calculate_adjacent_mines_fold.
  destruct (adjacent_cells_fold rows cols (row_major rows cols)
              (NoDup_row_major rows cols)
              (λ n Hn, proj1 (elem_of_row_major rows cols n) Hn)
              board Hfit) as [Hshape Hcell].
  cbn zeta in Hshape, Hcell. split; [done|].
  intros row col Hb. destruct (in_bounds_nonneg _ _ _ Hb) as [Hr Hc].
  rewrite (Hcell row col Hr Hc).
  by rewrite bool_decide_eq_true_2 by (by apply elem_of_row_major).
Qed.

(** X9.  On a board that has a cell at every position of the [rows] by
    [cols] grid, [_calculate_adjacent_mines] keeps the shape of the board
    and changes nothing but the stored counts: afterwards every cell of the
    grid that is not a mine stores the number of mines among its in-bounds
    neighbours, and every mine keeps the count it had. *)
Theorem calculate_adjacent_mines_counts (board : Board) (rows cols : Z) :
  fits rows cols board →
  let board' := _calculate_adjacent_mines board rows cols in
  shape board' = shape board
  ∧ ∀ row col,
      in_bounds rows cols (row, col) = true →
      let cell := cell_at board row col in
      let cell' := cell_at board' row col in
      is_mine cell' = is_mine cell
      ∧ is_revealed cell' = is_revealed cell
      ∧ is_flagged cell' = is_flagged cell
      ∧ adjacent_mines cell'
        = if is_mine cell then adjacent_mines cell
          else mines_around (mines_of board) rows cols row col.
Proof.
  intros Hfit. cbn zeta.
  destruct (calculate_adjacent_mines_cells board rows cols Hfit)
    as [Hshape Hcell].
  split; [done|]. intros row col Hb. rewrite (Hcell row col Hb).
  unfold counted. cbn [fst snd].
  by destruct (is_mine (cell_at board row col)) eqn:Hm; rewrite ?Hm.
Qed.

Lemma board_121_fits : fits 2 3 board_121.
Proof. split; [by vm_compute | repeat constructor; cbn; lia]. Defined.

Lemma calculate_adjacent_mines_counts_witness :
  let board' := _calculate_adjacent_mines board_121 2 3 in
  shape board' = shape board_121
  ∧ ∀ row col,
      in_bounds 2 3 (row, col) = true →
      let cell := cell_at board_121 row col in
      let cell' := cell_at board' row col in
      is_mine cell' = is_mine cell
      ∧ is_revealed cell' = is_revealed cell
      ∧ is_flagged cell' = is_flagged cell
      ∧ adjacent_mines cell'
        = if is_mine cell then adjacent_mines cell
          else mines_around (mines_of board_121) 2 3 row col.
Proof.
  exact (calculate_adjacent_mines_counts board_121 2 3 board_121_fits).
Defined.

(** ** [generate_board] *)

Lemma list_remove_None (x : coord) (l : list coord) :
  list_remove x l = None ↔ x ∉ l.
Proof.
  induction l as [|y l IH]; cbn.
  - split; [intros _; apply not_elem_of_nil | done].
  - rewrite not_elem_of_cons. case_bool_decide as Hy.
    + split; [done | intros [Hne _]; by subst].
    + destruct (list_remove x l); cbn.
      * split; [done|]. intros [_ Hn]. by apply IH in Hn.
      * split; [|done]. intros _. split; [done | by apply IH].
Qed.

Lemma list_remove_Some (x : coord) (l l' : list coord) :
  list_remove x l = Some l' → l ≡ₚ x :: l'.
Proof.
  revert l'. induction l as [|y l IH]; intros l'; cbn; [done|].
  case_bool_decide as Hy.
  - intros [= <-]. by subst.
  - destruct (list_remove x l) as [l0|]; cbn; [|done].
    intros [= <-]. rewrite (IH l0 eq_refl). apply Permutation_swap.
Qed.

Lemma length_row_major (rows cols : Z) :
  length (row_major rows cols) = (Z.to_nat rows * Z.to_nat cols)%nat.
Proof.
  unfold row_major. rewrite <- (length_seqZ 0 rows).
  induction (seqZ 0 rows) as [|r rs IH]; [done|].
  cbn [mbind list_bind]. change (mbind ?f rs) with (rs ≫= f).
  rewrite length_app, length_fmap, length_seqZ, IH. cbn [length]. lia.
Qed.

(** The board before any mine is laid. *)
Definition blank_board (rows cols : Z) : Board :=
  replicate (Z.to_nat rows) (replicate (Z.to_nat cols) default_cell).

Lemma shape_blank_board rows cols :
  shape (blank_board rows cols)
  = replicate (Z.to_nat rows) (Z.to_nat cols).
Proof.
  unfold shape, blank_board. by rewrite fmap_replicate, length_replicate.
Qed.

Lemma cell_at_blank_board rows cols r c :
  cell_at (blank_board rows cols) r c = default_cell.
Proof.
  rewrite cell_at_lookup. unfold blank_board, Board.
  destruct (replicate (Z.to_nat rows) (replicate (Z.to_nat cols) default_cell)
              !! Z.to_nat r) as [line|] eqn:Hline; cbn; [|done].
  apply lookup_replicate_1 in Hline as [-> _].
  destruct (replicate (Z.to_nat cols) default_cell !! Z.to_nat c)
    as [x|] eqn:Hx; cbn; [|done].
  by apply lookup_replicate_1 in Hx as [-> _].
Qed.

Lemma fits_replicate rows cols (board : Board) :
  shape board = replicate (Z.to_nat rows) (Z.to_nat cols) →
  fits rows cols board.
Proof.
  intros Hs. split.
  - unfold board_rows. rewrite <- (length_fmap length board).
    fold (shape board). rewrite Hs, length_replicate. lia.
  - apply (Forall_fmap length (λ k : nat, cols <= Z.of_nat k) board).
    fold (shape board). rewrite Hs. apply Forall_replicate. lia.
Qed.

Lemma set_mines_fold (l : list coord) :
  ∀ board,
    (∀ n, n ∈ l → inside board n) →
    let board' :=
      fold_left (λ b rc, set_cell b rc.1 rc.2 set_mine) l board in
    shape board' = shape board
    ∧ ∀ r c, 0 <= r → 0 <= c →
        cell_at board' r c
        = if bool_decide ((r, c) ∈ l) then set_mine (cell_at board r c)
          else cell_at board r c.
Proof.
  induction l as [|[row col] l IH]; intros board Hin; cbn zeta.
  - split; [done|]. intros r c _ _.
    by rewrite bool_decide_eq_false_2 by apply not_elem_of_nil.
  - cbn [fold_left fst snd].
    assert (Hins : inside board (row, col)) by (apply Hin; left).
    pose proof (shape_set_cell board row col set_mine) as Hshape1.
    destruct (IH (set_cell board row col set_mine)) as [Hshape Hcell].
    { intros n Hn. apply (inside_shape board); [done|].
      apply Hin. by right. }
    cbn zeta in Hshape, Hcell. split; [by rewrite Hshape|].
    intros r c Hr Hc. rewrite (Hcell r c Hr Hc).
    rewrite (cell_at_set_cell _ _ _ _ _ _ Hins Hr Hc).
    destruct (decide ((r, c) = (row, col))) as [Heq|Hne].
    + rewrite (bool_decide_eq_true_2 _ Heq).
      rewrite (bool_decide_eq_true_2 ((r, c) ∈ (row, col) :: l))
        by (rewrite Heq; left).
      by destruct (bool_decide ((r, c) ∈ l)).
    + rewrite (bool_decide_eq_false_2 _ Hne).
      case_bool_decide as Hl.
      * by rewrite (bool_decide_eq_true_2 ((r, c) ∈ (row, col) :: l))
          by (by right).
      * rewrite (bool_decide_eq_false_2 ((r, c) ∈ (row, col) :: l)); [done|].
        intros [?|?]%elem_of_cons; done.
Qed.

Lemma submseteq_NoDup (l k : list coord) : l ⊆+ k → NoDup k → NoDup l.
Proof.
  intros [k' Hk]%submseteq_Permutation Hnd. rewrite Hk in Hnd.
  by apply NoDup_app in Hnd as [? _].
Qed.

Lemma count_true_member (s l : list coord) :
  NoDup l → NoDup s → s ⊆ l →
  count_true (λ n, bool_decide (n ∈ s)) l = Z.of_nat (length s).
Proof.
  intros Hl Hs Hsub. unfold count_true. f_equal. apply Permutation_length.
  apply NoDup_Permutation; [by apply NoDup_filter | done |].
  intros x. rewrite list_elem_of_filter, bool_decide_spec.
  split; [tauto|]. intros Hx. split; [done | by apply Hsub].
Qed.

(** What [generate_board] does once the first click has been taken out of
    the positions and the number of mines is known not to be negative. *)
Lemma generate_board_unfold `{Sampler} rows cols num_mines (first : coord)
    (board : Board) :
  generate_board rows cols num_mines first = Returns board →
  ∃ positions,
    row_major rows cols ≡ₚ first :: positions
    ∧ 0 <= num_mines
    ∧ let mine_positions :=
        sample positions
          (Z.to_nat (Z.min num_mines (Z.of_nat (length positions)))) in
      board
      = _calculate_adjacent_mines
          (fold_left (λ b rc, set_cell b rc.1 rc.2 set_mine) mine_positions
                     (blank_board rows cols))
          rows cols.
Proof.
  unfold generate_board. destruct first as [first_row first_col].
  destruct (list_remove (first_row, first_col) (row_major rows cols))
    as [positions|] eqn:Hrem; [|done].
  destruct (Z.min num_mines (Z.of_nat (length positions)) <? 0) eqn:Hneg;
    [done|].
  intros [= <-]. exists positions. apply Z.ltb_ge in Hneg.
  split_and!; [by apply list_remove_Some | lia | done].
Qed.

(** The cells of a generated board. *)
Lemma generate_board_cells `{Sampler} rows cols num_mines (first : coord)
    (board : Board) :
  generate_board rows cols num_mines first = Returns board →
  ∃ positions mine_positions,
    row_major rows cols ≡ₚ first :: positions
    ∧ 0 <= num_mines
    ∧ mine_positions ⊆+ positions
    ∧ length mine_positions
      = Z.to_nat (Z.min num_mines (Z.of_nat (length positions)))
    ∧ shape board = replicate (Z.to_nat rows) (Z.to_nat cols)
    ∧ ∀ row col,
        in_bounds rows cols (row, col) = true →
        let mine := bool_decide ((row, col) ∈ mine_positions) in
        cell_at board row col
        = mkCell mine false false
            (if mine then 0
             else mines_around (λ n, bool_decide (n ∈ mine_positions))
                               rows cols row col).
Proof.
  intros Hgen.
  destruct (generate_board_unfold _ _ _ _ _ Hgen)
    as (positions & Hperm & Hnum & ->).
  cbn zeta.
  set (k := Z.to_nat (Z.min num_mines (Z.of_nat (length positions)))).
  assert (Hk : (k ≤ length positions)%nat) by (unfold k; lia).
  pose proof (sample_from positions k Hk) as Hsub.
  pose proof (sample_length positions k Hk) as Hlen.
  set (mine_positions := sample positions k) in *.
  exists positions, mine_positions. split_and!; [done..| |].
  all: assert (Hgrid : ∀ n, n ∈ mine_positions →
                 in_bounds rows cols n = true)
         by (intros n Hn; apply elem_of_row_major; rewrite Hperm; right;
             by eapply elem_of_submseteq).
  all: pose proof (fits_replicate rows cols (blank_board rows cols)
                     (shape_blank_board rows cols)) as Hfit0.
  all: destruct (set_mines_fold mine_positions (blank_board rows cols))
         as [Hshape1 Hcell1];
       [intros n Hn; apply (fits_inside rows cols); [done | by apply Hgrid]|].
  all: cbn zeta in Hshape1, Hcell1.
  all: set (b1 := fold_left (λ b rc, set_cell b rc.1 rc.2 set_mine)
                    mine_positions (blank_board rows cols)) in *.
  all: assert (Hfit1 : fits rows cols b1)
         by (apply fits_replicate; by rewrite Hshape1, shape_blank_board).
  all: destruct (calculate_adjacent_mines_cells b1 rows cols Hfit1)
         as [Hshape2 Hcell2].
  - by rewrite Hshape2, Hshape1, shape_blank_board.
  - intros row col Hb. cbn zeta. rewrite (Hcell2 row col Hb).
    destruct (in_bounds_nonneg _ _ _ Hb) as [Hr Hc]. cbn [fst snd] in *.
    unfold counted. cbn [fst snd]. rewrite (Hcell1 row col Hr Hc).
    rewrite cell_at_blank_board.
    assert (Hm : mines_around (mines_of b1) rows cols row col
                 = mines_around (λ n, bool_decide (n ∈ mine_positions))
                                rows cols row col).
    { apply mines_around_ext. intros [r c] Hn.
      destruct (in_bounds_nonneg _ _ _ Hn) as [Hr' Hc'].
      unfold mines_of. cbn [fst snd] in *. rewrite (Hcell1 r c Hr' Hc').
      rewrite cell_at_blank_board. by case_bool_decide. }
    case_bool_decide; cbn; [done|]. unfold set_adjacent. cbn. by rewrite Hm.
Qed.

(** X10.  [generate_board] returns a board exactly when the first click is
    a position of the grid and [num_mines] is not negative; in every other
    case it raises [ValueError] (from [list.remove] or [random.sample]). *)
Theorem generate_board_outcome `{Sampler} (rows cols num_mines : Z)
    (first_click_coords : coord) :
  if in_bounds rows cols first_click_coords && (0 <=? num_mines)
  then ∃ board,
         generate_board rows cols num_mines first_click_coords = Returns board
  else generate_board rows cols num_mines first_click_coords
       = Raises ValueError.
Proof.
  unfold generate_board. destruct first_click_coords as [first_row first_col].
  destruct (list_remove (first_row, first_col) (row_major rows cols))
    as [positions|] eqn:Hrem.
  - assert (Hin : in_bounds rows cols (first_row, first_col) = true).
    { apply elem_of_row_major. rewrite (list_remove_Some _ _ _ Hrem). left. }
    rewrite Hin. cbn [andb].
    destruct (0 <=? num_mines) eqn:Hnum.
    + apply Z.leb_le in Hnum.
      rewrite (proj2 (Z.ltb_ge _ _)) by lia. by eexists.
    + apply Z.leb_gt in Hnum. by rewrite (proj2 (Z.ltb_lt _ _)) by lia.
  - apply list_remove_None in Hrem.
    destruct (in_bounds rows cols (first_row, first_col)) eqn:Hin; [|done].
    by apply elem_of_row_major in Hin.
Qed.

(** X11.  On a generated board the cell of the first click holds no mine,
    and the number of mines on the grid is [num_mines], capped at the number
    of cells other than the first click. *)
Theorem generate_board_mines `{Sampler} (rows cols num_mines : Z)
    (first_click_coords : coord) (board : Board) :
  generate_board rows cols num_mines first_click_coords = Returns board →
  is_mine (cell_at board first_click_coords.1 first_click_coords.2) = false
  ∧ count_true (mines_of board) (row_major rows cols)
    = Z.min num_mines (rows * cols - 1).
Proof.
  intros Hgen.
  destruct (generate_board_cells _ _ _ _ _ Hgen)
    as (positions & mine_positions & Hperm & Hnum & Hsub & Hlen & _ & Hcell).
  pose proof (NoDup_row_major rows cols) as Hnd. rewrite Hperm in Hnd.
  apply NoDup_cons in Hnd as [Hfirst Hnd].
  assert (Hin : in_bounds rows cols first_click_coords = true).
  { apply elem_of_row_major. rewrite Hperm. left. }
  split.
  - destruct first_click_coords as [r c]. cbn [fst snd].
    rewrite (Hcell r c Hin). cbn. apply bool_decide_eq_false_2.
    intros Hm. apply Hfirst. by eapply elem_of_submseteq.
  - rewrite (count_true_ext _ (λ n, bool_decide (n ∈ mine_positions))).
    2:{ intros [r c] Hn. apply elem_of_row_major in Hn.
        unfold mines_of. cbn [fst snd]. by rewrite (Hcell r c Hn). }
    rewrite count_true_member.
    + pose proof (length_row_major rows cols) as Hlr.
      rewrite Hperm in Hlr. cbn [length] in Hlr.
      unfold in_bounds in Hin. rewrite !andb_true_iff in Hin.
      destruct Hin as (((Hr0 & Hr1) & Hc0) & Hc1).
      apply Z.leb_le in Hr0, Hc0. apply Z.ltb_lt in Hr1, Hc1.
      assert (Z.of_nat (length positions) = rows * cols - 1) by nia.
      lia.
    + apply NoDup_row_major.
    + by eapply submseteq_NoDup.
    + intros n Hn. rewrite Hperm. right. by eapply elem_of_submseteq.
Qed.

Lemma generate_board_mines_witness :
  is_mine (cell_at [[mkCell false false false 1; mkCell true false false 0;
                     mkCell true false false 0];
                    [mkCell false false false 1; mkCell false false false 2;
                     mkCell false false false 2]] 0 0) = false
  ∧ count_true
      (mines_of [[mkCell false false false 1; mkCell true false false 0;
                  mkCell true false false 0];
                 [mkCell false false false 1; mkCell false false false 2;
                  mkCell false false false 2]])
      (row_major 2 3)
    = Z.min 2 (2 * 3 - 1).
Proof.
  apply (generate_board_mines (H := take_sampler) 2 3 2 (0, 0)).
  by vm_compute.
Defined.

(** X12.  A generated board is [rows] by [cols]; every cell is hidden and
    unflagged; every cell without a mine stores the number of mines among
    its in-bounds neighbours, and every mine stores 0. *)
Theorem generate_board_fresh `{Sampler} (rows cols num_mines : Z)
    (first_click_coords : coord) (board : Board) :
  generate_board rows cols num_mines first_click_coords = Returns board →
  shape board = replicate (Z.to_nat rows) (Z.to_nat cols)
  ∧ ∀ row col,
      in_bounds rows cols (row, col) = true →
      let cell := cell_at board row col in
      is_revealed cell = false
      ∧ is_flagged cell = false
      ∧ adjacent_mines cell
        = if is_mine cell then 0
          else mines_around (mines_of board) rows cols row col.
Proof.
  intros Hgen.
  destruct (generate_board_cells _ _ _ _ _ Hgen)
    as (positions & mine_positions & _ & _ & _ & _ & Hshape & Hcell).
  split; [done|]. intros row col Hb. cbn zeta. rewrite (Hcell row col Hb).
  cbn. split_and!; [done..|].
  case_bool_decide; [done|]. apply mines_around_ext.
  intros [r c] Hn. unfold mines_of. cbn [fst snd]. by rewrite (Hcell r c Hn).
Qed.

Lemma generate_board_fresh_witness :
  let board := [[mkCell false false false 1; mkCell true false false 0;
                 mkCell true false false 0];
                [mkCell false false false 1; mkCell false false false 2;
                 mkCell false false false 2]] in
  shape board = replicate (Z.to_nat 2) (Z.to_nat 3)
  ∧ ∀ row col,
      in_bounds 2 3 (row, col) = true →
      let cell := cell_at board row col in
      is_revealed cell = false
      ∧ is_flagged cell = false
      ∧ adjacent_mines cell
        = if is_mine cell then 0
          else mines_around (mines_of board) 2 3 row col.
Proof.
  apply (generate_board_fresh (H := take_sampler) 2 3 2 (0, 0)).
  by vm_compute.
Defined.

(** ** Revealing cells *)

(** [b] is [b0] with some more cells revealed, none of them a mine or a
    flagged cell; nothing else differs. *)
Definition opened (b0 b : Board) : Prop :=
  shape b = shape b0
  ∧ ∀ r c, 0 <= r → 0 <= c →
      cell_at b r c = cell_at b0 r c
      ∨ (cell_at b r c = set_revealed (cell_at b0 r c)
         ∧ is_mine (cell_at b0 r c) = false
         ∧ is_flagged (cell_at b0 r c) = false).

Lemma opened_refl b : opened b b.
Proof. split; [done|]. intros r c _ _. by left. Qed.

Lemma opened_trans b0 b1 b2 : opened b0 b1 → opened b1 b2 → opened b0 b2.
Proof.
  intros [Hs1 H1] [Hs2 H2]. split; [by rewrite Hs2|].
  intros r c Hr Hc.
  destruct (H1 r c Hr Hc) as [E1|(E1 & Hm1 & Hf1)],
           (H2 r c Hr Hc) as [E2|(E2 & Hm2 & Hf2)];
    rewrite E2, ?E1 in *; cbn in *; auto.
Qed.

Lemma opened_fields b0 b r c :
  opened b0 b → 0 <= r → 0 <= c →
  is_mine (cell_at b r c) = is_mine (cell_at b0 r c)
  ∧ is_flagged (cell_at b r c) = is_flagged (cell_at b0 r c)
  ∧ adjacent_mines (cell_at b r c) = adjacent_mines (cell_at b0 r c)
  ∧ (is_revealed (cell_at b0 r c) = true → is_revealed (cell_at b r c) = true).
Proof.
  intros [_ H] Hr Hc. destruct (H r c Hr Hc) as [->|(-> & _ & _)]; by cbn.
Qed.

Lemma opened_set_cell b r c :
  inside b (r, c) →
  is_mine (cell_at b r c) = false → is_flagged (cell_at b r c) = false →
  opened b (set_cell b r c set_revealed).
Proof.
  intros Hins Hm Hf. split; [apply shape_set_cell|].
  intros r' c' Hr Hc. rewrite (cell_at_set_cell _ _ _ _ _ _ Hins Hr Hc).
  case_bool_decide as Heq; [|by left]. injection Heq as -> ->. by right.
Qed.

Lemma cascade_loop_S (fuel : nat) (rows cols : Z) (b : Board) (q : list coord)
    (v : gset coord) :
  cascade_loop (S fuel) rows cols (b, q, v)
  = match q with
    | [] => Some b
    | (row, col) :: q =>
        cascade_loop fuel rows cols
          (fold_left (cascade_direction rows cols row col) DIRECTIONS
                     (b, q, v))
    end.
Proof. done. Qed.

Section Cascade.

Variables (rows cols : Z) (b0 : Board) (start : coord).
Hypothesis Hfit : fits rows cols b0.

(** The state of the search between two turns of the inner loop; [pending]
    holds the cell taken from the queue whose neighbours are being
    visited. *)
Definition cascade_inv (pending : list coord) (st : cascade_state) : Prop :=
  let '(b, q, v) := st in
  opened b0 b
  ∧ start ∈ v
  ∧ (∀ n, n ∈ v →
       in_bounds rows cols n = true
       ∧ (is_mine (cell_at b0 n.1 n.2) = true
          ∨ is_flagged (cell_at b0 n.1 n.2) = true
          ∨ is_revealed (cell_at b n.1 n.2) = true))
  ∧ (∀ n, n ∈ v →
       is_mine (cell_at b0 n.1 n.2) = false →
       is_flagged (cell_at b0 n.1 n.2) = false →
       adjacent_mines (cell_at b0 n.1 n.2) = 0 →
       n ∈ q ∨ n ∈ pending
       ∨ ∀ p, p ∈ neighbors rows cols n.1 n.2 → p ∈ v)
  ∧ (∀ r c, 0 <= r → 0 <= c →
       is_revealed (cell_at b r c) = true →
       is_revealed (cell_at b0 r c) = true ∨ (r, c) ∈ v).

Definition visited_of (st : cascade_state) : gset coord := st.2.

Lemma cascade_direction_inv pending row col (st : cascade_state) (d : Z * Z) :
  cascade_inv pending st →
  let st' := cascade_direction rows cols row col st d in
  cascade_inv pending st'
  ∧ visited_of st ⊆ visited_of st'
  ∧ (in_bounds rows cols (row + d.1, col + d.2) = true →
     (row + d.1, col + d.2) ∈ visited_of st').
Proof.
  destruct st as [[b q] v]. intros (Hop & Hstart & Hv & Hq & Hrev). cbn zeta.
  unfold cascade_direction, visited_of.
  set (nr := row + d.1). set (nc := col + d.2).
  destruct (in_bounds rows cols (nr, nc)) eqn:Hb; cbn [negb orb].
  2:{ split_and!; [by split_and! | done | done]. }
  case_bool_decide as Hvis.
  { split_and!; [by split_and! | done | done]. }
  destruct (in_bounds_nonneg _ _ _ Hb) as [Hr Hc]. cbn [fst snd] in Hr, Hc.
  destruct (opened_fields b0 b nr nc Hop Hr Hc) as (Em & Ef & Ea & _).
  assert (Hins : inside b (nr, nc)).
  { apply (fits_inside rows cols); [|done].
    apply (fits_shape rows cols b0); [|done]. symmetry. apply Hop. }
  destruct (is_mine (cell_at b nr nc) || is_flagged (cell_at b nr nc))
    eqn:Hskip.
  { cbn [snd]. split_and!; [split_and!| set_solver | set_solver].
    - done.
    - set_solver.
    - intros m [Hm| ->%elem_of_singleton]%elem_of_union.
      + by apply Hv.
      + split; [done|]. cbn [fst snd]. rewrite <- Em, <- Ef.
        apply orb_true_iff in Hskip. tauto.
    - intros m [Hm| ->%elem_of_singleton]%elem_of_union Hm1 Hm2 Hm3.
      + destruct (Hq m Hm Hm1 Hm2 Hm3) as [?|[?|Hn]];
          [by left | by right; left|].
        right; right. intros p Hp. apply elem_of_union. left. by apply Hn.
      + cbn [fst snd] in Hm1, Hm2. rewrite <- Em in Hm1. rewrite <- Ef in Hm2.
        by rewrite Hm1, Hm2 in Hskip.
    - intros r c Hr' Hc' Hrc. destruct (Hrev r c Hr' Hc' Hrc); [by left|].
      right. set_solver. }
  apply orb_false_iff in Hskip as [Hm Hf].
  pose proof (opened_set_cell b _ _ Hins Hm Hf) as Hop1.
  pose proof (opened_trans _ _ _ Hop Hop1) as Hop'.
  set (b' := set_cell b nr nc set_revealed) in *.
  assert (Hcell' : ∀ r c, 0 <= r → 0 <= c →
            cell_at b' r c
            = if bool_decide ((r, c) = (nr, nc))
              then set_revealed (cell_at b r c) else cell_at b r c).
  { intros r c Hr' Hc'. unfold b'. by apply cell_at_set_cell. }
  assert (Hvis' : ∀ m, m ∈ v ∪ {[(nr, nc)]} →
            in_bounds rows cols m = true
            ∧ (is_mine (cell_at b0 m.1 m.2) = true
               ∨ is_flagged (cell_at b0 m.1 m.2) = true
               ∨ is_revealed (cell_at b' m.1 m.2) = true)).
  { intros m [Hmv| ->%elem_of_singleton]%elem_of_union.
    - destruct (Hv m Hmv) as [Hmb Hcases]. split; [done|].
      destruct Hcases as [?|[?|Hr']]; [by left | by right; left|].
      right; right. destruct (in_bounds_nonneg _ _ _ Hmb) as [? ?].
      by apply (opened_fields b b' m.1 m.2 Hop1).
    - split; [done|]. right; right. cbn [fst snd].
      rewrite (Hcell' _ _ Hr Hc). by rewrite bool_decide_eq_true_2. }
  assert (Hrev' : ∀ r c, 0 <= r → 0 <= c →
            is_revealed (cell_at b' r c) = true →
            is_revealed (cell_at b0 r c) = true ∨ (r, c) ∈ v ∪ {[(nr, nc)]}).
  { intros r c Hr' Hc'. rewrite (Hcell' r c Hr' Hc').
    case_bool_decide as Heq.
    - intros _. right. rewrite Heq. set_solver.
    - intros Hrc. destruct (Hrev r c Hr' Hc' Hrc); [by left|].
      right. set_solver. }
  assert (Hstart' : start ∈ v ∪ {[(nr, nc)]}) by set_solver.
  assert (Hsub' : v ⊆ v ∪ {[(nr, nc)]}) by set_solver.
  assert (Hnew' : (nr, nc) ∈ v ∪ {[(nr, nc)]}) by set_solver.
  destruct (adjacent_mines (cell_at b nr nc) =? 0) eqn:Hz;
    cbn [snd]; (split_and!; [split_and!| done | done]); try done.
  - intros m [Hmv| ->%elem_of_singleton]%elem_of_union Hm1 Hm2 Hm3.
    + destruct (Hq m Hmv Hm1 Hm2 Hm3) as [?|[?|Hn]].
      * left. apply elem_of_app. by left.
      * by right; left.
      * right; right. intros p Hp. apply elem_of_union. left. by apply Hn.
    + left. apply elem_of_app. right. by apply list_elem_of_singleton.
  - intros m [Hmv| ->%elem_of_singleton]%elem_of_union Hm1 Hm2 Hm3.
    + destruct (Hq m Hmv Hm1 Hm2 Hm3) as [?|[?|Hn]];
        [by left | by right; left|].
      right; right. intros p Hp. apply elem_of_union. left. by apply Hn.
    + cbn [fst snd] in Hm3. rewrite <- Ea in Hm3. apply Z.eqb_neq in Hz. done.
Qed.

Lemma cascade_directions_inv pending row col (ds : list (Z * Z)) :
  ∀ st : cascade_state,
    cascade_inv pending st →
    let st' := fold_left (cascade_direction rows cols row col) ds st in
    cascade_inv pending st'
    ∧ visited_of st ⊆ visited_of st'
    ∧ ∀ d, d ∈ ds →
        in_bounds rows cols (row + d.1, col + d.2) = true →
        (row + d.1, col + d.2) ∈ visited_of st'.
Proof.
  induction ds as [|d ds IH]; intros st Hinv; cbn zeta.
  - split_and!; [done | done |]. intros d Hd. by apply elem_of_nil in Hd.
  - cbn [fold_left].
    destruct (cascade_direction_inv pending row col st d Hinv)
      as (Hinv1 & Hsub1 & Hd1). cbn zeta in *.
    destruct (IH _ Hinv1) as (Hinv2 & Hsub2 & Hd2). cbn zeta in *.
    split_and!; [done | set_solver |].
    intros d' [->|Hd']%elem_of_cons Hb; [|by apply Hd2].
    apply Hsub2. by apply Hd1.
Qed.

Lemma cascade_loop_inv (fuel : nat) :
  ∀ (st : cascade_state) (b' : Board),
    cascade_inv [] st →
    cascade_loop fuel rows cols st = Some b' →
    ∃ v, cascade_inv [] (b', [], v).
Proof.
  induction fuel as [|fuel IH]; intros [[b q] v] b' Hinv; [done|].
  rewrite cascade_loop_S. destruct q as [|[row col] q].
  - intros [= <-]. by exists v.
  - intros Hloop.
    assert (Hinv1 : cascade_inv [(row, col)] (b, q, v)).
    { destruct Hinv as (Hop & Hstart & Hv & Hq & Hrev). split_and!; try done.
      intros n Hn H1 H2 H3.
      destruct (Hq n Hn H1 H2 H3) as [[->|?]%elem_of_cons|[?|?]].
      - right; left. by apply list_elem_of_singleton.
      - by left.
      - by apply elem_of_nil in H.
      - by right; right. }
    destruct (cascade_directions_inv [(row, col)] row col DIRECTIONS _ Hinv1)
      as (Hinv2 & Hsub & Hds). cbn zeta in *.
    eapply IH; [|exact Hloop].
    destruct (fold_left (cascade_direction rows cols row col) DIRECTIONS
                        (b, q, v)) as [[b2 q2] v2].
    destruct Hinv2 as (Hop & Hstart & Hv & Hq & Hrev). split_and!; try done.
    intros n Hn H1 H2 H3.
    destruct (Hq n Hn H1 H2 H3) as [?|[->%list_elem_of_singleton|?]];
      [by left | | by right; right].
    right; right. intros p Hp. cbn [fst snd] in Hp.
    unfold neighbors in Hp. apply list_elem_of_filter in Hp as [Hpb Hp].
    unfold shifted in Hp. apply list_elem_of_fmap in Hp as (d & -> & Hd).
    apply (Hds d Hd). by apply Is_true_true.
Qed.

End Cascade.

(** *** The search ends *)

Definition grid (rows cols : Z) : gset coord := list_to_set (row_major rows cols).

(** Cells of the grid not yet visited, plus cells waiting in the queue. *)
Definition cascade_measure (rows cols : Z) (st : cascade_state) : nat :=
  (size (grid rows cols ∖ st.2) + length st.1.2)%nat.

Lemma elem_of_grid rows cols (n : coord) :
  n ∈ grid rows cols ↔ in_bounds rows cols n = true.
Proof. unfold grid. by rewrite elem_of_list_to_set, elem_of_row_major. Qed.

Lemma size_grid rows cols :
  size (grid rows cols) = (Z.to_nat rows * Z.to_nat cols)%nat.
Proof.
  unfold grid. rewrite size_list_to_set by apply NoDup_row_major.
  apply length_row_major.
Qed.

Lemma size_difference_singleton (X : gset coord) (n : coord) :
  n ∈ X → (size (X ∖ {[n]}) + 1 = size X)%nat.
Proof.
  intros Hn. assert (Hsub : ({[n]} : gset coord) ⊆ X) by set_solver.
  rewrite (size_difference X {[n]} Hsub), size_singleton.
  pose proof (subseteq_size _ _ Hsub) as Hle. rewrite size_singleton in Hle.
  lia.
Qed.

Lemma cascade_direction_measure rows cols row col (st : cascade_state)
    (d : Z * Z) :
  (cascade_measure rows cols (cascade_direction rows cols row col st d)
   ≤ cascade_measure rows cols st)%nat.
Proof.
  destruct st as [[b q] v]. unfold cascade_direction, cascade_measure.
  set (nr := row + d.1). set (nc := col + d.2).
  destruct (in_bounds rows cols (nr, nc)) eqn:Hb; cbn [negb orb]; [|done].
  case_bool_decide as Hvis; [done|].
  assert (Hsize : (size (grid rows cols ∖ (v ∪ {[(nr, nc)]})) + 1
                   = size (grid rows cols ∖ v))%nat).
  { replace (grid rows cols ∖ (v ∪ {[(nr, nc)]}))
      with ((grid rows cols ∖ v) ∖ {[(nr, nc)]}) by set_solver.
    apply size_difference_singleton. apply elem_of_difference.
    split; [by apply elem_of_grid | done]. }
  destruct (is_mine (cell_at b nr nc) || is_flagged (cell_at b nr nc));
    [cbn [fst snd]; lia|].
  destruct (adjacent_mines (cell_at b nr nc) =? 0); cbn [fst snd];
    rewrite ?length_app; cbn [length]; lia.
Qed.

Lemma cascade_directions_measure rows cols row col (ds : list (Z * Z)) :
  ∀ st : cascade_state,
    (cascade_measure rows cols
       (fold_left (cascade_direction rows cols row col) ds st)
     ≤ cascade_measure rows cols st)%nat.
Proof.
  induction ds as [|d ds IH]; intros st; [done|]. cbn [fold_left].
  etrans; [apply IH | apply cascade_direction_measure].
Qed.

Lemma cascade_loop_terminates rows cols (fuel : nat) :
  ∀ st : cascade_state,
    (cascade_measure rows cols st < fuel)%nat →
    ∃ b', cascade_loop fuel rows cols st = Some b'.
Proof.
  induction fuel as [|fuel IH]; intros [[b q] v] Hlt; [lia|].
  rewrite cascade_loop_S. destruct q as [|[row col] q]; [by eexists|].
  apply IH.
  pose proof (cascade_directions_measure rows cols row col DIRECTIONS
                (b, q, v)) as Hle.
  unfold cascade_measure in Hlt, Hle |- *. cbn [fst snd length] in *. lia.
Qed.

(** *** [reveal_cell] *)

Lemma board_rows_pos (board : Board) : board ≠ [] ↔ 0 < board_rows board.
Proof. unfold board_rows. destruct board; cbn [length]; split; (done || lia). Qed.

Lemma board_cols_pos (board : Board) :
  0 < board_rows board →
  Z.of_nat (length (nth 0%nat board [])) = board_cols board.
Proof. intros Hr. unfold board_cols. by rewrite (proj2 (Z.ltb_lt _ _) Hr). Qed.

(** The clicked cell after [cell.is_revealed = True]. *)
Definition clicked (board : Board) (row col : Z) : Board :=
  set_cell board row col set_revealed.

(** [reveal_cell] on a board that is not empty, with the column count
    written as the solver reads it. *)
Lemma reveal_cell_unfold fuel (board : Board) (row col : Z) :
  board ≠ [] →
  reveal_cell fuel board row col
  = let rows := board_rows board in
    let cols := board_cols board in
    if negb (in_bounds rows cols (row, col)) then Returns (board, true)
    else
      let cell := cell_at board row col in
      if is_revealed cell || is_flagged cell then Returns (board, true)
      else if is_mine cell then Returns (clicked board row col, false)
      else if adjacent_mines cell =? 0 then
        match cascade_loop fuel rows cols
                (clicked board row col, [(row, col)], {[ (row, col) ]}) with
        | Some board => Returns (board, true)
        | None => OutOfFuel
        end
      else Returns (clicked board row col, true).
Proof.
  intros Hne%board_rows_pos. unfold reveal_cell, _cascade_reveal, clicked.
  rewrite (proj2 (Z.ltb_lt _ _) Hne). cbn [negb].
  by rewrite (board_cols_pos board Hne).
Qed.

Lemma cascade_start_inv (board : Board) (row col : Z) :
  no_short_row board →
  in_bounds (board_rows board) (board_cols board) (row, col) = true →
  is_mine (cell_at board row col) = false →
  is_flagged (cell_at board row col) = false →
  opened board (clicked board row col)
  ∧ fits (board_rows board) (board_cols board) (clicked board row col)
  ∧ cascade_inv (board_rows board) (board_cols board) (clicked board row col)
      (row, col) []
      (clicked board row col, [(row, col)], {[ (row, col) ]}).
Proof.
  intros Hs Hb Hm Hf.
  pose proof (no_short_row_fits board Hs) as Hfit.
  pose proof (fits_inside _ _ _ _ Hfit Hb) as Hins.
  destruct (in_bounds_nonneg _ _ _ Hb) as [Hr Hc]. cbn [fst snd] in Hr, Hc.
  pose proof (opened_set_cell board row col Hins Hm Hf) as Hop.
  fold (clicked board row col) in Hop.
  split_and!; [done | |].
  { eapply fits_shape; [|exact Hfit]. symmetry. apply Hop. }
  split_and!.
  - apply opened_refl.
  - set_solver.
  - intros n ->%elem_of_singleton. split; [done|]. right; right.
    cbn [fst snd]. unfold clicked.
    rewrite (cell_at_set_cell _ _ _ _ _ _ Hins Hr Hc).
    by rewrite bool_decide_eq_true_2.
  - intros n ->%elem_of_singleton _ _ _. left. by apply list_elem_of_singleton.
  - intros r c _ _ Hrev. by left.
Qed.

(** X13.  On an empty board [reveal_cell] raises [TypeError]; on any other
    board with no short row it returns, given fuel above the number of
    cells: the search of [_cascade_reveal] always ends. *)
Theorem reveal_cell_returns (fuel : nat) (board : Board) (row col : Z) :
  no_short_row board →
  enough_fuel board fuel →
  if bool_decide (board = [])
  then reveal_cell fuel board row col = Raises TypeError
  else ∃ board' ok, reveal_cell fuel board row col = Returns (board', ok).
Proof.
  intros Hs Hfuel. case_bool_decide as Hempty; [by subst|].
  rewrite (reveal_cell_unfold fuel board row col Hempty). cbn zeta.
  destruct (in_bounds _ _ (row, col)) eqn:Hb; cbn [negb]; [|by eexists _, _].
  destruct (is_revealed _ || is_flagged _); [by eexists _, _|].
  destruct (is_mine _); [by eexists _, _|].
  destruct (adjacent_mines _ =? 0); [|by eexists _, _].
  destruct (cascade_loop_terminates (board_rows board) (board_cols board) fuel
              (clicked board row col, [(row, col)], {[ (row, col) ]}))
    as [b' ->]; [|by eexists _, _].
  unfold cascade_measure. cbn [fst snd length].
  rewrite size_difference_singleton by (by apply elem_of_grid).
  rewrite size_grid. exact Hfuel.
Qed.

Lemma board_121_fuel : enough_fuel board_121 7.
Proof. apply Nat.ltb_lt. by vm_compute. Defined.

Lemma reveal_cell_returns_witness :
  ∃ board' ok, reveal_cell 7 board_121 1 1 = Returns (board', ok).
Proof.
  exact (reveal_cell_returns 7 board_121 1 1 board_121_no_short_row
           board_121_fuel).
Defined.

Lemma reveal_cell_result fuel (board board' : Board) (row col : Z) (ok : bool) :
  no_short_row board →
  reveal_cell fuel board row col = Returns (board', ok) →
  let rows := board_rows board in
  let cols := board_cols board in
  let cell := cell_at board row col in
  (board' = board ∧ ok = true
   ∧ (in_bounds rows cols (row, col) = false
      ∨ is_revealed cell = true ∨ is_flagged cell = true))
  ∨ (in_bounds rows cols (row, col) = true
     ∧ is_revealed cell = false ∧ is_flagged cell = false
     ∧ ((is_mine cell = true ∧ ok = false ∧ board' = clicked board row col)
        ∨ (is_mine cell = false ∧ adjacent_mines cell ≠ 0 ∧ ok = true
           ∧ board' = clicked board row col)
        ∨ (is_mine cell = false ∧ adjacent_mines cell = 0 ∧ ok = true
           ∧ ∃ v, cascade_inv rows cols (clicked board row col) (row, col) []
                    (board', [], v)))).
Proof.
  intros Hs. destruct (decide (board = [])) as [->|Hne]; [done|].
  rewrite (reveal_cell_unfold fuel board row col Hne). cbn zeta.
  destruct (in_bounds _ _ (row, col)) eqn:Hb; cbn [negb].
  2:{ intros [= <- <-]. left. auto. }
  destruct (is_revealed (cell_at board row col)) eqn:Hrev; cbn [orb].
  { intros [= <- <-]. left. auto. }
  destruct (is_flagged (cell_at board row col)) eqn:Hfl.
  { intros [= <- <-]. left. auto. }
  intros Hret. right. split_and!; [done..|]. revert Hret.
  destruct (is_mine (cell_at board row col)) eqn:Hm.
  { intros [= <- <-]. left. auto. }
  destruct (adjacent_mines (cell_at board row col) =? 0) eqn:Hz.
  2:{ intros [= <- <-]. right; left. apply Z.eqb_neq in Hz. auto. }
  destruct (cascade_loop _ _ _ _) as [b'|] eqn:Hloop; [|done].
  intros [= <- <-]. right; right. apply Z.eqb_eq in Hz.
  split_and!; [done..|].
  destruct (cascade_start_inv board row col Hs Hb Hm Hfl)
    as (_ & Hfit & Hinv).
  by eapply cascade_loop_inv.
Qed.

(** X14.  [reveal_cell] returns [False] exactly when the clicked cell is in
    bounds, hidden, unflagged and a mine; the board then differs from the
    one before only in that this cell is revealed. *)
Theorem reveal_cell_loses (fuel : nat) (board board' : Board) (row col : Z)
    (ok : bool) :
  no_short_row board →
  reveal_cell fuel board row col = Returns (board', ok) →
  (ok = false
   ↔ in_bounds (board_rows board) (board_cols board) (row, col) = true
     ∧ is_revealed (cell_at board row col) = false
     ∧ is_flagged (cell_at board row col) = false
     ∧ is_mine (cell_at board row col) = true)
  ∧ (ok = false → board' = set_cell board row col set_revealed).
Proof.
  intros Hs Hret.
  destruct (reveal_cell_result fuel board board' row col ok Hs Hret)
    as [(-> & -> & Hcase)
       |(Hb & Hrev & Hfl & [(Hm & -> & ->)
                            |[(Hm & Hz & -> & ->)|(Hm & Hz & -> & _)]])];
    cbn zeta in *.
  - split; [|done]. split; [done|]. intros (? & ? & ? & ?).
    destruct Hcase as [?|[?|?]]; congruence.
  - done.
  - split; [|done]. split; [done|]. intros (? & ? & ? & ?). congruence.
  - split; [|done]. split; [done|]. intros (? & ? & ? & ?). congruence.
Qed.

Lemma reveal_cell_loses_witness :
  (false = false
   ↔ in_bounds (board_rows board_121) (board_cols board_121) (1, 0) = true
     ∧ is_revealed (cell_at board_121 1 0) = false
     ∧ is_flagged (cell_at board_121 1 0) = false
     ∧ is_mine (cell_at board_121 1 0) = true)
  ∧ (false = false
     → [[shown 1; shown 2; shown 1];
        [mkCell true true false 0; hidden; hidden_mine]]
       = set_cell board_121 1 0 set_revealed).
Proof.
  apply (reveal_cell_loses 7 board_121 _ 1 0 false board_121_no_short_row).
  by vm_compute.
Defined.

(** X15.  When [reveal_cell] returns [True], the board keeps its shape and
    every cell is as before or newly revealed; no newly revealed cell is a
    mine or carries a flag, and no mine, flag or stored count changes. *)
Theorem reveal_cell_opens (fuel : nat) (board board' : Board) (row col : Z) :
  no_short_row board →
  reveal_cell fuel board row col = Returns (board', true) →
  shape board' = shape board
  ∧ ∀ r c, 0 <= r → 0 <= c →
      cell_at board' r c = cell_at board r c
      ∨ (cell_at board' r c = set_revealed (cell_at board r c)
         ∧ is_mine (cell_at board r c) = false
         ∧ is_flagged (cell_at board r c) = false).
Proof.
  intros Hs Hret. change (opened board board').
  destruct (reveal_cell_result fuel board board' row col true Hs Hret)
    as [(-> & _ & _)
       |(Hb & Hrev & Hfl & [(Hm & ? & _)
                            |[(Hm & Hz & _ & ->)|(Hm & Hz & _ & v & Hinv)]])];
    cbn zeta in *.
  - apply opened_refl.
  - done.
  - by apply cascade_start_inv.
  - destruct (cascade_start_inv board row col Hs Hb Hm Hfl) as (Hop & _ & _).
    eapply opened_trans; [exact Hop|]. apply Hinv.
Qed.

Lemma reveal_cell_opens_witness :
  let board' := [[shown 1; shown 2; shown 1];
                 [hidden_mine; shown 0; hidden_mine]] in
  shape board' = shape board_121
  ∧ ∀ r c, 0 <= r → 0 <= c →
      cell_at board' r c = cell_at board_121 r c
      ∨ (cell_at board' r c = set_revealed (cell_at board_121 r c)
         ∧ is_mine (cell_at board_121 r c) = false
         ∧ is_flagged (cell_at board_121 r c) = false).
Proof.
  apply (reveal_cell_opens 7 board_121 _ 1 1 board_121_no_short_row).
  by vm_compute.
Defined.

(** X16.  Flood fill is complete: when [reveal_cell] returns [True], every
    cell it has newly revealed that stores the count 0 has all its in-bounds
    neighbours revealed, except those that are mines or carry a flag. *)
Theorem reveal_cell_flood (fuel : nat) (board board' : Board) (row col : Z)
    (n p : coord) :
  no_short_row board →
  reveal_cell fuel board row col = Returns (board', true) →
  in_bounds (board_rows board) (board_cols board) n = true →
  is_revealed (cell_at board n.1 n.2) = false →
  is_revealed (cell_at board' n.1 n.2) = true →
  adjacent_mines (cell_at board n.1 n.2) = 0 →
  p ∈ neighbors (board_rows board) (board_cols board) n.1 n.2 →
  is_mine (cell_at board p.1 p.2) = false →
  is_flagged (cell_at board p.1 p.2) = false →
  is_revealed (cell_at board' p.1 p.2) = true.
Proof.
  intros Hs Hret Hn Hhid Hrev' Hzero Hp Hpm Hpf.
  destruct (in_bounds_nonneg _ _ _ Hn) as [Hnr Hnc].
  pose proof (no_short_row_fits board Hs) as Hfit.
  destruct (reveal_cell_result fuel board board' row col true Hs Hret)
    as [(-> & _ & _)
       |(Hb & Hrev & Hfl & [(Hm & ? & _)
                            |[(Hm & Hz & _ & ->)|(Hm & Hz & _ & v & Hinv)]])];
    cbn zeta in *.
  - congruence.
  - done.
  - unfold clicked in Hrev'.
    rewrite (cell_at_set_cell _ _ _ _ _ _ (fits_inside _ _ _ _ Hfit Hb)
               Hnr Hnc) in Hrev'.
    case_bool_decide as Heq; [|congruence].
    destruct n as [nr nc]. injection Heq as -> ->. done.
  - destruct (cascade_start_inv board row col Hs Hb Hm Hfl) as (Hop0 & _ & _).
    destruct Hinv as (Hop & Hstart & Hv & Hq & Hvis).
    pose proof (opened_trans _ _ _ Hop0 Hop) as Hop'.
    assert (Hnv : n ∈ v).
    { destruct (Hvis n.1 n.2 Hnr Hnc Hrev') as [H0|H0].
      - unfold clicked in H0.
        rewrite (cell_at_set_cell _ _ _ _ _ _ (fits_inside _ _ _ _ Hfit Hb)
                   Hnr Hnc) in H0.
        case_bool_decide as Heq; [|congruence].
        destruct n as [nr nc]. cbn [fst snd] in Heq. by rewrite Heq.
      - by destruct n. }
    destruct (opened_fields _ _ n.1 n.2 Hop0 Hnr Hnc) as (Em & Ef & Ea & _).
    assert (Hnm : is_mine (cell_at board n.1 n.2) = false
                  ∧ is_flagged (cell_at board n.1 n.2) = false).
    { destruct Hop' as [_ Hcells].
      destruct (Hcells n.1 n.2 Hnr Hnc) as [E|(_ & ? & ?)]; [|done].
      rewrite E in Hrev'. congruence. }
    destruct Hnm as [Hnm Hnf].
    destruct (Hq n Hnv) as [Hin|[Hin|Hnb]];
      [congruence.. | by apply elem_of_nil in Hin
       | by apply elem_of_nil in Hin |].
    destruct (Hv p (Hnb p Hp)) as [Hpb Hcases].
    destruct (in_bounds_nonneg _ _ _ Hpb) as [Hpr Hpc].
    destruct (opened_fields _ _ p.1 p.2 Hop0 Hpr Hpc) as (Epm & Epf & _ & _).
    destruct Hcases as [?|[?|?]]; [congruence | congruence | done].
Qed.

(** A row of cleared cells next to a flagged mine: clicking the third cell
    opens the fourth as well. *)
Definition board_safe_move : Board :=
  [[flagged_mine; shown 1; hidden; hidden]].

Lemma board_safe_move_no_short_row : no_short_row board_safe_move.
Proof. by apply (bool_decide_unpack _); vm_compute. Defined.

Lemma board_safe_move_neighbor :
  (0, 3) ∈ neighbors (board_rows board_safe_move) (board_cols board_safe_move)
             (0, 2).1 (0, 2).2.
Proof. by apply (bool_decide_unpack _); vm_compute. Defined.

Lemma reveal_cell_flood_witness :
  is_revealed
    (cell_at [[flagged_mine; shown 1; shown 0; shown 0]] (0, 3).1 (0, 3).2)
  = true.
Proof.
  apply (reveal_cell_flood 5 board_safe_move _ 0 2 (0, 2) (0, 3)
           board_safe_move_no_short_row);
    [by vm_compute | done | done | done | done
     | exact board_safe_move_neighbor | done | done].
Defined.

(** ** [toggle_flag] *)

Lemma set_cell_set_cell (board : Board) row col (f g : Cell → Cell) :
  set_cell (set_cell board row col f) row col g
  = set_cell board row col (g ∘ f).
Proof.
  unfold set_cell, Board. rewrite list_alter_alter_eq.
  apply list_alter_ext; [|done]. intros line _. cbn.
  apply list_alter_alter_eq.
Qed.

Lemma set_cell_fix (board : Board) row col (f : Cell → Cell) :
  f (cell_at board row col) = cell_at board row col →
  set_cell board row col f = board.
Proof.
  intros Hf. rewrite cell_at_lookup in Hf. unfold set_cell, Board in *.
  rewrite <- (list_alter_id id board (Z.to_nat row)) at 2 by done.
  apply list_alter_ext; [|done]. intros line Hline. rewrite Hline in Hf.
  cbn in Hf. unfold id.
  rewrite <- (list_alter_id id line (Z.to_nat col)) at 2 by done.
  apply list_alter_ext; [|done]. intros x Hx. rewrite Hx in Hf. by cbn in Hf.
Qed.

Lemma toggle_flag_result (board board' : Board) (row col : Z) (ok : bool) :
  toggle_flag board row col = (board', ok) →
  (ok = false ∧ board' = board
   ∧ (in_bounds (board_rows board) (board_cols board) (row, col) = false
      ∨ is_revealed (cell_at board row col) = true))
  ∨ (ok = true
     ∧ in_bounds (board_rows board) (board_cols board) (row, col) = true
     ∧ is_revealed (cell_at board row col) = false
     ∧ board'
       = set_cell board row col
           (set_flagged (negb (is_flagged (cell_at board row col))))).
Proof.
  unfold toggle_flag.
  destruct (in_bounds _ _ (row, col)) eqn:Hb; cbn [negb].
  2:{ intros [= <- <-]. left. auto. }
  destruct (is_revealed (cell_at board row col)) eqn:Hrev.
  { intros [= <- <-]. left. auto. }
  intros [= <- <-]. right. auto.
Qed.

(** X17.  A successful [toggle_flag] is undone by a second one at the same
    cell: the second call succeeds too and gives back the first board. *)
Theorem toggle_flag_involution (board board' : Board) (row col : Z) :
  no_short_row board →
  toggle_flag board row col = (board', true) →
  toggle_flag board' row col = (board, true).
Proof.
  intros Hs Htog.
  destruct (toggle_flag_result _ _ _ _ _ Htog)
    as [(? & _)|(_ & Hb & Hrev & ->)]; [done|].
  pose proof (fits_inside _ _ _ _ (no_short_row_fits board Hs) Hb) as Hins.
  destruct (in_bounds_nonneg _ _ _ Hb) as [Hr Hc]. cbn [fst snd] in Hr, Hc.
  set (cell := cell_at board row col) in *.
  pose proof (shape_set_cell board row col
                (set_flagged (negb (is_flagged cell)))) as Hshape.
  unfold toggle_flag.
  rewrite (board_rows_shape _ _ Hshape), (board_cols_shape _ _ Hshape), Hb.
  cbn [negb].
  rewrite (cell_at_set_cell _ _ _ _ _ _ Hins Hr Hc).
  rewrite bool_decide_eq_true_2 by done. fold cell. cbn.
  rewrite Hrev. f_equal. rewrite set_cell_set_cell.
  apply set_cell_fix. fold cell. unfold compose. destruct cell as [m r f a].
  cbn. by rewrite negb_involutive.
Qed.

Lemma toggle_flag_involution_witness :
  toggle_flag [[flagged_mine; shown 1; flagged_clear 0; hidden]] 0 2
  = (board_safe_move, true).
Proof.
  apply (toggle_flag_involution board_safe_move _ 0 2
           board_safe_move_no_short_row).
  by vm_compute.
Defined.

(** X18.  [toggle_flag] refuses, returning [False] and the board as it was,
    exactly when the position is out of bounds or the cell is revealed.
    Otherwise it keeps the shape of the board, flips the flag of that one
    cell, and changes nothing else. *)
Theorem toggle_flag_frame (board board' : Board) (row col : Z) (ok : bool) :
  no_short_row board →
  toggle_flag board row col = (board', ok) →
  (ok = false
   ↔ in_bounds (board_rows board) (board_cols board) (row, col) = false
     ∨ is_revealed (cell_at board row col) = true)
  ∧ shape board' = shape board
  ∧ ∀ r c, 0 <= r → 0 <= c →
      cell_at board' r c
      = if ok && bool_decide ((r, c) = (row, col))
        then set_flagged (negb (is_flagged (cell_at board r c)))
                         (cell_at board r c)
        else cell_at board r c.
Proof.
  intros Hs Htog.
  destruct (toggle_flag_result _ _ _ _ _ Htog)
    as [(-> & -> & Hcase)|(-> & Hb & Hrev & ->)].
  - split_and!; [done | done |]. intros r c _ _. done.
  - pose proof (fits_inside _ _ _ _ (no_short_row_fits board Hs) Hb) as Hins.
    split_and!.
    + split; [done|]. intros [?|?]; congruence.
    + apply shape_set_cell.
    + intros r c Hr Hc. rewrite (cell_at_set_cell _ _ _ _ _ _ Hins Hr Hc).
      cbn [andb]. case_bool_decide as Heq; [|done]. by injection Heq as -> ->.
Qed.

Lemma toggle_flag_frame_witness :
  (true = false
   ↔ in_bounds (board_rows board_safe_move) (board_cols board_safe_move)
               (0, 2) = false
     ∨ is_revealed (cell_at board_safe_move 0 2) = true)
  ∧ shape [[flagged_mine; shown 1; flagged_clear 0; hidden]]
    = shape board_safe_move
  ∧ ∀ r c, 0 <= r → 0 <= c →
      cell_at [[flagged_mine; shown 1; flagged_clear 0; hidden]] r c
      = if true && bool_decide ((r, c) = (0, 2))
        then set_flagged (negb (is_flagged (cell_at board_safe_move r c)))
                         (cell_at board_safe_move r c)
        else cell_at board_safe_move r c.
Proof.
  apply (toggle_flag_frame board_safe_move _ 0 2 true
           board_safe_move_no_short_row).
  by vm_compute.
Defined.

(** ** [check_win] and [reveal_all_mines] *)

Lemma check_win_spec (board : Board) :
  check_win board = true
  ↔ Forall (Forall (λ cell, is_mine cell = true ∨ is_revealed cell = true))
           board.
Proof.
  unfold check_win. rewrite forallb_forall, Forall_forall.
  split.
  - intros Hall line Hline. apply Forall_forall. intros cell Hcell.
    specialize (Hall line (proj1 (list_elem_of_In _ _) Hline)).
    rewrite forallb_forall in Hall.
    specialize (Hall cell (proj1 (list_elem_of_In _ _) Hcell)).
    destruct (is_mine cell), (is_revealed cell); cbn in Hall; auto.
  - intros Hall line Hline. apply forallb_forall. intros cell Hcell.
    apply list_elem_of_In in Hline, Hcell.
    pose proof (proj1 (Forall_forall _ _) (Hall line Hline) cell Hcell)
      as [->| ->]; [done|]. by destruct (is_mine cell).
Qed.

(** X19.  [reveal_all_mines] leaves every mine revealed, changes no cell
    that is not a mine, does not change the verdict of [check_win], and a
    second call changes nothing. *)
Theorem reveal_all_mines_spec (board : Board) :
  Forall (Forall (λ cell, is_mine cell = true → is_revealed cell = true))
         (reveal_all_mines board)
  ∧ Forall2 (Forall2 (λ cell cell',
                        if is_mine cell then cell' = set_revealed cell
                        else cell' = cell))
            board (reveal_all_mines board)
  ∧ check_win (reveal_all_mines board) = check_win board
  ∧ reveal_all_mines (reveal_all_mines board) = reveal_all_mines board.
Proof.
  unfold reveal_all_mines, check_win. split_and!.
  - apply Forall_forall. intros line' Hline'.
    apply list_elem_of_In, in_map_iff in Hline' as (line & <- & _).
    apply Forall_forall. intros cell' Hcell'.
    apply list_elem_of_In, in_map_iff in Hcell' as (cell & <- & _).
    destruct (is_mine cell) eqn:Hm; cbn; [done | congruence].
  - induction board as [|line board IH]; cbn [map]; constructor; [|done].
    clear IH. induction line as [|cell line IH]; cbn [map]; constructor;
      [|done].
    by destruct (is_mine cell).
  - induction board as [|line board IH]; [done|]. cbn [map forallb].
    rewrite IH. f_equal. clear IH.
    induction line as [|cell line IH]; [done|]. cbn [map forallb].
    rewrite IH. f_equal. by destruct (is_mine cell) eqn:Hm; cbn; rewrite ?Hm.
  - rewrite map_map. apply map_ext. intros line. rewrite map_map.
    apply map_ext. intros cell. by destruct (is_mine cell) eqn:Hm; cbn;
      rewrite ?Hm.
Qed.

(** ** Playing: the solver on positions of the engine *)

(** Every cell without a mine stores the number of mines around it. *)
Definition well_counted (board : Board) : Prop :=
  ∀ row col,
    in_bounds (board_rows board) (board_cols board) (row, col) = true →
    is_mine (cell_at board row col) = false →
    adjacent_mines (cell_at board row col)
    = mines_around (mines_of board) (board_rows board) (board_cols board)
                   row col.

(** A position of a game in progress: the counts are right, no mine has
    been revealed, and every flag sits on a mine. *)
Definition playable (board : Board) : Prop :=
  no_short_row board
  ∧ well_counted board
  ∧ (∀ row col,
       in_bounds (board_rows board) (board_cols board) (row, col) = true →
       is_revealed (cell_at board row col) = true →
       is_mine (cell_at board row col) = false)
  ∧ (∀ row col,
       in_bounds (board_rows board) (board_cols board) (row, col) = true →
       is_flagged (cell_at board row col) = true →
       is_mine (cell_at board row col) = true).

Definition playable_cell (board : Board) (rc : coord) : bool :=
  let cell := cell_at board rc.1 rc.2 in
  (is_mine cell
   || (adjacent_mines cell
       =? mines_around (mines_of board) (board_rows board) (board_cols board)
                       rc.1 rc.2))
  && (negb (is_revealed cell) || negb (is_mine cell))
  && (negb (is_flagged cell) || is_mine cell).

Definition playableb (board : Board) : bool :=
  forallb (playable_cell board)
          (row_major (board_rows board) (board_cols board)).

Lemma playableb_correct (board : Board) :
  no_short_row board → playableb board = true → playable board.
Proof.
  intros Hs Hall. unfold playableb in Hall. rewrite forallb_forall in Hall.
  assert (Hcell : ∀ row col,
            in_bounds (board_rows board) (board_cols board) (row, col) = true →
            playable_cell board (row, col) = true).
  { intros row col Hb. apply Hall, list_elem_of_In.
    by apply elem_of_row_major. }
  split_and!; [done | | |]; intros row col Hb; specialize (Hcell row col Hb);
    unfold playable_cell in Hcell; cbn [fst snd] in Hcell;
    rewrite !andb_true_iff, !orb_true_iff, !negb_true_iff in Hcell;
    destruct Hcell as [[Hcount Hrev] Hflag].
  - intros Hm. destruct Hcount as [?|?%Z.eqb_eq]; congruence.
  - intros Hr. destruct Hrev; congruence.
  - intros Hf. destruct Hflag; congruence.
Qed.

Lemma playable_consistent (board : Board) :
  playable board →
  consistent board (mines_of board) ∧ flags_are_mines board (mines_of board).
Proof.
  intros (_ & Hcount & Hrev & Hflag). split.
  - intros row col Hb Hr. split; [by apply Hrev|]. intros Hm.
    symmetry. by apply Hcount.
  - intros row col Hb Hf. by apply Hflag.
Qed.

Lemma playable_opened (board board' : Board) :
  playable board → opened board board' → playable board'.
Proof.
  intros (Hs & Hcount & Hrev & Hflag) Hop.
  pose proof (proj1 Hop) as Hshape.
  unfold playable, well_counted.
  rewrite (board_rows_shape _ _ Hshape), (board_cols_shape _ _ Hshape).
  assert (Hmines : ∀ n,
            in_bounds (board_rows board) (board_cols board) n = true →
            mines_of board' n = mines_of board n).
  { intros n Hn. destruct (in_bounds_nonneg _ _ _ Hn) as [? ?].
    unfold mines_of. by apply (opened_fields board board'). }
  split_and!.
  - eapply no_short_row_shape; [|exact Hs]. done.
  - intros row col Hb Hm.
    destruct (in_bounds_nonneg _ _ _ Hb) as [Hr Hc]. cbn [fst snd] in Hr, Hc.
    destruct (opened_fields board board' row col Hop Hr Hc)
      as (Em & _ & Ea & _).
    rewrite Ea, (mines_around_ext _ (mines_of board)) by done.
    apply Hcount; [done | congruence].
  - intros row col Hb Hr'.
    destruct (in_bounds_nonneg _ _ _ Hb) as [Hr Hc]. cbn [fst snd] in Hr, Hc.
    destruct Hop as [_ Hcells].
    destruct (Hcells row col Hr Hc) as [E|(E & Hm & _)]; rewrite E in *.
    + by apply Hrev.
    + done.
  - intros row col Hb Hf.
    destruct (in_bounds_nonneg _ _ _ Hb) as [Hr Hc]. cbn [fst snd] in Hr, Hc.
    destruct (opened_fields board board' row col Hop Hr Hc)
      as (Em & Ef & _ & _).
    rewrite Em. apply Hflag; [done | congruence].
Qed.

Lemma shape_replicate_dims (rows cols : Z) (board : Board) :
  0 < rows → 0 <= cols →
  shape board = replicate (Z.to_nat rows) (Z.to_nat cols) →
  board_rows board = rows ∧ board_cols board = cols ∧ no_short_row board.
Proof.
  intros Hr Hc Hshape.
  assert (Hrows : board_rows board = rows).
  { unfold board_rows. rewrite <- (length_fmap length board).
    fold (shape board). rewrite Hshape, length_replicate. lia. }
  assert (Hcols : board_cols board = cols).
  { unfold board_cols. rewrite Hrows, (proj2 (Z.ltb_lt _ _) Hr).
    rewrite <- (map_nth length board [] 0). cbn [length].
    change (map length board) with (shape board). rewrite Hshape.
    destruct (Z.to_nat rows) as [|k] eqn:Hk; [lia|]. cbn. lia. }
  split_and!; [done..|]. unfold no_short_row. rewrite Hcols.
  apply (Forall_fmap length (λ k : nat, cols <= Z.of_nat k) board).
  fold (shape board). rewrite Hshape. apply Forall_replicate. lia.
Qed.

(** X20.  A generated board is a playable position of the size asked
    for: it has [rows] rows of [cols] cells, the stored counts are the true
    counts, nothing is revealed and nothing is flagged. *)
Theorem generate_board_playable `{Sampler} (rows cols num_mines : Z)
    (first_click_coords : coord) (board : Board) :
  generate_board rows cols num_mines first_click_coords = Returns board →
  board_rows board = rows ∧ board_cols board = cols ∧ playable board.
Proof.
  intros Hgen.
  destruct (generate_board_cells _ _ _ _ _ Hgen)
    as (positions & mine_positions & Hperm & _ & _ & _ & Hshape & Hcell).
  assert (Hin : in_bounds rows cols first_click_coords = true).
  { apply elem_of_row_major. rewrite Hperm. left. }
  unfold in_bounds in Hin. rewrite !andb_true_iff in Hin.
  destruct Hin as (((Hr0 & Hr1) & Hc0) & Hc1).
  apply Z.leb_le in Hr0, Hc0. apply Z.ltb_lt in Hr1, Hc1.
  destruct (shape_replicate_dims rows cols board ltac:(lia) ltac:(lia) Hshape)
    as (Hrows & Hcols & Hs).
  split_and!; [done..|]. unfold playable, well_counted.
  rewrite Hrows, Hcols. split_and!; [done | | |]; intros row col Hb;
    rewrite (Hcell row col Hb); cbn; [|done..].
  intros ->. apply mines_around_ext.
  intros [r c] Hn. unfold mines_of. cbn [fst snd]. by rewrite (Hcell r c Hn).
Qed.

Lemma generate_board_playable_witness :
  let board := [[mkCell false false false 1; mkCell true false false 0;
                 mkCell true false false 0];
                [mkCell false false false 1; mkCell false false false 2;
                 mkCell false false false 2]] in
  board_rows board = 2 ∧ board_cols board = 3 ∧ playable board.
Proof.
  apply (generate_board_playable (H := take_sampler) 2 3 2 (0, 0)).
  by vm_compute.
Defined.

(** X21.  On a playable position the solver tells the truth about the
    board: every cell [solve_step] returns as safe holds no mine, and every
    cell it returns as a mine holds one. *)
Theorem solve_step_truthful (board : Board) (fuel : nat)
    (safe mines : gset coord) :
  playable board →
  solve_step fuel board = Some (safe, mines) →
  (∀ n, n ∈ safe → is_mine (cell_at board n.1 n.2) = false)
  ∧ (∀ n, n ∈ mines → is_mine (cell_at board n.1 n.2) = true).
Proof.
  intros Hplay Hstep.
  destruct (playable_consistent board Hplay) as [Hc Hf].
  exact (solve_step_sets_sound fuel board (mines_of board) (safe, mines)
           Hc Hf Hstep).
Qed.

Lemma board_safe_move_playable : playable board_safe_move.
Proof.
  apply playableb_correct; [exact board_safe_move_no_short_row|].
  by vm_compute.
Defined.

Lemma solve_step_truthful_witness :
  (∀ n, n ∈ ({[ (0, 2) ]} : gset coord) →
        is_mine (cell_at board_safe_move n.1 n.2) = false)
  ∧ (∀ n, n ∈ (∅ : gset coord) →
          is_mine (cell_at board_safe_move n.1 n.2) = true).
Proof.
  apply (solve_step_truthful board_safe_move 5 _ _ board_safe_move_playable).
  by vm_compute.
Defined.

(** A click on a hidden, unflagged cell without a mine. *)
Lemma reveal_cell_safe_click (fuel : nat) (board : Board) (row col : Z) :
  no_short_row board →
  enough_fuel board fuel →
  in_bounds (board_rows board) (board_cols board) (row, col) = true →
  is_revealed (cell_at board row col) = false →
  is_flagged (cell_at board row col) = false →
  is_mine (cell_at board row col) = false →
  ∃ board',
    reveal_cell fuel board row col = Returns (board', true)
    ∧ opened board board'
    ∧ is_revealed (cell_at board' row col) = true.
Proof.
  intros Hs Hfuel Hb Hrev Hfl Hm.
  assert (Hne : board ≠ []).
  { apply board_rows_pos. unfold in_bounds in Hb.
    rewrite !andb_true_iff in Hb. destruct Hb as (((Hr0 & Hr1) & _) & _).
    apply Z.leb_le in Hr0. apply Z.ltb_lt in Hr1. cbn [fst] in *. lia. }
  destruct (cascade_start_inv board row col Hs Hb Hm Hfl)
    as (Hop0 & Hfit & Hinv).
  destruct (in_bounds_nonneg _ _ _ Hb) as [Hr Hc]. cbn [fst snd] in Hr, Hc.
  assert (Hclicked : is_revealed (cell_at (clicked board row col) row col)
                     = true).
  { unfold clicked.
    rewrite (cell_at_set_cell _ _ _ _ _ _
               (fits_inside _ _ _ _ (no_short_row_fits board Hs) Hb) Hr Hc).
    by rewrite bool_decide_eq_true_2. }
  rewrite (reveal_cell_unfold fuel board row col Hne). cbn zeta.
  rewrite Hb, Hrev, Hfl, Hm. cbn [negb orb].
  destruct (adjacent_mines (cell_at board row col) =? 0); [|by eexists].
  destruct (cascade_loop_terminates (board_rows board) (board_cols board) fuel
              (clicked board row col, [(row, col)], {[ (row, col) ]}))
    as [b' Hloop].
  { unfold cascade_measure. cbn [fst snd length].
    rewrite size_difference_singleton by (by apply elem_of_grid).
    rewrite size_grid. exact Hfuel. }
  rewrite Hloop. exists b'.
  destruct (cascade_loop_inv _ _ _ (row, col) Hfit fuel _ b' Hinv Hloop)
    as (v & Hop & _).
  split_and!; [done | by eapply opened_trans |].
  by apply (opened_fields _ _ row col Hop Hr Hc).
Qed.

(** X22.  Acting on the solver's advice never loses: on a playable
    position, revealing a cell that [solve_step] returned as safe makes
    [reveal_cell] return [True], reveals that cell, and leaves a playable
    position. *)
Theorem safe_move_never_loses (board : Board) (fuel : nat)
    (safe mines : gset coord) (row col : Z) :
  playable board →
  enough_fuel board fuel →
  solve_step fuel board = Some (safe, mines) →
  (row, col) ∈ safe →
  ∃ board',
    reveal_cell fuel board row col = Returns (board', true)
    ∧ is_revealed (cell_at board' row col) = true
    ∧ playable board'.
Proof.
  intros Hplay Hfuel Hstep Hin.
  destruct (playable_consistent board Hplay) as [Hc Hf].
  pose proof (solve_step_sets_sound fuel board (mines_of board) (safe, mines)
                Hc Hf Hstep) as [Hsafe _].
  pose proof (solve_step_frontier fuel board (safe, mines) Hstep) as Hfr.
  assert (Hcell : (row, col) ∈ frontier board (board_rows board)
                                 (board_cols board) ∅ ∅).
  { apply Hfr. cbn [fst snd]. set_solver. }
  apply elem_of_frontier in Hcell as [Hb Hunk].
  apply is_unknown_spec in Hunk as (Hrev & Hfl & _). cbn [fst snd] in *.
  destruct (reveal_cell_safe_click fuel board row col (proj1 Hplay) Hfuel Hb
              Hrev Hfl (Hsafe (row, col) Hin)) as (b' & Hret & Hop & Hr').
  exists b'. split_and!; [done | done | by eapply playable_opened].
Qed.

Lemma board_safe_move_fuel : enough_fuel board_safe_move 5.
Proof. apply Nat.ltb_lt. by vm_compute. Defined.

Lemma board_safe_move_advice : (0, 2) ∈ ({[ (0, 2) ]} : gset coord).
Proof. by apply elem_of_singleton. Defined.

Lemma safe_move_never_loses_witness :
  ∃ board',
    reveal_cell 5 board_safe_move 0 2 = Returns (board', true)
    ∧ is_revealed (cell_at board' 0 2) = true
    ∧ playable board'.
Proof.
  refine (safe_move_never_loses board_safe_move 5 {[ (0, 2) ]} ∅ 0 2
            board_safe_move_playable board_safe_move_fuel _
            board_safe_move_advice).
  by vm_compute.
Defined.

(** A position where the solver finds a mine. *)
Definition board_corner : Board := [[shown 0; shown 1; hidden_mine]].

Lemma board_corner_playable : playable board_corner.
Proof.
  apply playableb_correct; [|by vm_compute].
  by apply (bool_decide_unpack _); vm_compute.
Defined.

Lemma board_corner_advice : (0, 2) ∈ ({[ (0, 2) ]} : gset coord).
Proof. by apply elem_of_singleton. Defined.

(** X23.  Flagging on the solver's advice succeeds and is right: on a
    playable position, [toggle_flag] at a cell that [solve_step] returned
    as a mine returns [True], leaves that cell flagged, and leaves a
    playable position. *)
Theorem mine_move_flags (board : Board) (fuel : nat)
    (safe mines : gset coord) (row col : Z) :
  playable board →
  solve_step fuel board = Some (safe, mines) →
  (row, col) ∈ mines →
  ∃ board',
    toggle_flag board row col = (board', true)
    ∧ is_flagged (cell_at board' row col) = true
    ∧ playable board'.
Proof.
  intros Hplay Hstep Hin.
  destruct (playable_consistent board Hplay) as [Hc Hf].
  pose proof (solve_step_sets_sound fuel board (mines_of board) (safe, mines)
                Hc Hf Hstep) as [_ Hmines].
  pose proof (solve_step_frontier fuel board (safe, mines) Hstep) as Hfr.
  assert (Hcell : (row, col) ∈ frontier board (board_rows board)
                                 (board_cols board) ∅ ∅).
  { apply Hfr. cbn [fst snd]. set_solver. }
  apply elem_of_frontier in Hcell as [Hb Hunk].
  apply is_unknown_spec in Hunk as (Hrev & Hfl & _). cbn [fst snd] in *.
  specialize (Hmines (row, col) Hin). unfold mines_of in Hmines.
  cbn [fst snd] in Hmines.
  destruct Hplay as (Hs & Hcount & Hrevealed & Hflags).
  pose proof (fits_inside _ _ _ _ (no_short_row_fits board Hs) Hb) as Hins.
  destruct (in_bounds_nonneg _ _ _ Hb) as [Hr Hc']. cbn [fst snd] in Hr, Hc'.
  unfold toggle_flag. rewrite Hb, Hrev, Hfl. cbn [negb].
  set (b' := set_cell board row col (set_flagged true)).
  assert (Hshape : shape b' = shape board) by apply shape_set_cell.
  assert (Hcells : ∀ r c, 0 <= r → 0 <= c →
            cell_at b' r c
            = if bool_decide ((r, c) = (row, col))
              then set_flagged true (cell_at board r c)
              else cell_at board r c).
  { intros r c Hr0 Hc0. unfold b'. by apply cell_at_set_cell. }
  assert (Hfields : ∀ r c, 0 <= r → 0 <= c →
            is_mine (cell_at b' r c) = is_mine (cell_at board r c)
            ∧ is_revealed (cell_at b' r c) = is_revealed (cell_at board r c)
            ∧ adjacent_mines (cell_at b' r c)
              = adjacent_mines (cell_at board r c)).
  { intros r c Hr0 Hc0. rewrite (Hcells r c Hr0 Hc0).
    by case_bool_decide. }
  exists b'. split_and!; [done | |].
  { rewrite (Hcells row col Hr Hc'). by rewrite bool_decide_eq_true_2. }
  unfold playable, well_counted.
  rewrite (board_rows_shape _ _ Hshape), (board_cols_shape _ _ Hshape).
  split_and!.
  - eapply no_short_row_shape; [|exact Hs]. done.
  - intros r c Hrc Hm. destruct (in_bounds_nonneg _ _ _ Hrc) as [Hr0 Hc0].
    cbn [fst snd] in Hr0, Hc0.
    destruct (Hfields r c Hr0 Hc0) as (Em & _ & Ea).
    rewrite Ea, (mines_around_ext _ (mines_of board)).
    + apply Hcount; [done | congruence].
    + intros [r' c'] Hn. destruct (in_bounds_nonneg _ _ _ Hn) as [? ?].
      unfold mines_of. by apply Hfields.
  - intros r c Hrc Hr'. destruct (in_bounds_nonneg _ _ _ Hrc) as [Hr0 Hc0].
    cbn [fst snd] in Hr0, Hc0.
    destruct (Hfields r c Hr0 Hc0) as (Em & Er & _).
    rewrite Em. apply Hrevealed; [done | congruence].
  - intros r c Hrc Hf'. destruct (in_bounds_nonneg _ _ _ Hrc) as [Hr0 Hc0].
    cbn [fst snd] in Hr0, Hc0.
    destruct (Hfields r c Hr0 Hc0) as (Em & _ & _). rewrite Em.
    rewrite (Hcells r c Hr0 Hc0) in Hf'.
    case_bool_decide as Heq.
    + by injection Heq as -> ->.
    + by apply Hflags.
Qed.

Lemma mine_move_flags_witness :
  ∃ board',
    toggle_flag board_corner 0 2 = (board', true)
    ∧ is_flagged (cell_at board' 0 2) = true
    ∧ playable board'.
Proof.
  refine (mine_move_flags board_corner 4 ∅ {[ (0, 2) ]} 0 2
            board_corner_playable _ board_corner_advice).
  by vm_compute.
Defined.

(** X24.  Any click that does not lose keeps the position playable:
    whenever [reveal_cell] returns [True] on a playable position, the new
    position is playable and has the same size. *)
Theorem reveal_cell_keeps_playable (fuel : nat) (board board' : Board)
    (row col : Z) :
  playable board →
  reveal_cell fuel board row col = Returns (board', true) →
  playable board'
  ∧ board_rows board' = board_rows board
  ∧ board_cols board' = board_cols board.
Proof.
  intros Hplay Hret.
  assert (Hop : opened board board').
  { destruct (reveal_cell_result fuel board board' row col true
                (proj1 Hplay) Hret)
      as [(-> & _ & _)
         |(Hb & Hrev & Hfl & [(Hm & ? & _)
                              |[(Hm & Hz & _ & ->)|(Hm & Hz & _ & v & Hinv)]])];
      cbn zeta in *.
    - apply opened_refl.
    - done.
    - by apply (cascade_start_inv board row col (proj1 Hplay)).
    - destruct (cascade_start_inv board row col (proj1 Hplay) Hb Hm Hfl)
        as (Hop & _ & _).
      eapply opened_trans; [exact Hop|]. apply Hinv. }
  split_and!.
  - by eapply playable_opened.
  - apply board_rows_shape, Hop.
  - apply board_cols_shape, Hop.
Qed.

Lemma reveal_cell_keeps_playable_witness :
  let board' := [[flagged_mine; shown 1; shown 0; shown 0]] in
  playable board'
  ∧ board_rows board' = board_rows board_safe_move
  ∧ board_cols board' = board_cols board_safe_move.
Proof.
  apply (reveal_cell_keeps_playable 5 board_safe_move _ 0 2
           board_safe_move_playable).
  by vm_compute.
Defined.

(** X25.  The first click never loses: revealing the first-click cell of a
    generated board makes [reveal_cell] return [True] and leaves a playable
    position, given fuel above the number of cells. *)
Theorem first_click_never_loses `{Sampler} (rows cols num_mines : Z)
    (first_click_coords : coord) (board : Board) (fuel : nat) :
  generate_board rows cols num_mines first_click_coords = Returns board →
  (Z.to_nat rows * Z.to_nat cols < fuel)%nat →
  ∃ board',
    reveal_cell fuel board first_click_coords.1 first_click_coords.2
    = Returns (board', true)
    ∧ is_revealed
        (cell_at board' first_click_coords.1 first_click_coords.2) = true
    ∧ playable board'.
Proof.
  intros Hgen Hfuel.
  destruct (generate_board_cells _ _ _ _ _ Hgen)
    as (positions & mine_positions & Hperm & _ & Hsub & _ & Hshape & Hcell).
  assert (Hin : in_bounds rows cols first_click_coords = true).
  { apply elem_of_row_major. rewrite Hperm. left. }
  pose proof (NoDup_row_major rows cols) as Hnd. rewrite Hperm in Hnd.
  apply NoDup_cons in Hnd as [Hfirst _].
  assert (Hdims : 0 < rows ∧ 0 <= cols).
  { unfold in_bounds in Hin. rewrite !andb_true_iff in Hin.
    destruct Hin as (((Hr0 & Hr1) & Hc0) & Hc1).
    apply Z.leb_le in Hr0, Hc0. apply Z.ltb_lt in Hr1, Hc1. lia. }
  destruct (shape_replicate_dims rows cols board (proj1 Hdims) (proj2 Hdims)
              Hshape) as (Hrows & Hcols & Hs).
  assert (Hplay : playable board).
  { unfold playable, well_counted. rewrite Hrows, Hcols.
    split_and!; [done | | |]; intros row col Hb;
      rewrite (Hcell row col Hb); cbn; [|done..].
    intros ->. apply mines_around_ext.
    intros [r c] Hn. unfold mines_of. cbn [fst snd].
    by rewrite (Hcell r c Hn). }
  destruct first_click_coords as [fr fc]. cbn [fst snd].
  pose proof (Hcell fr fc Hin) as Hc. cbn zeta in Hc.
  rewrite (bool_decide_eq_false_2 ((fr, fc) ∈ mine_positions)) in Hc.
  2:{ intros Hm. apply Hfirst. by eapply elem_of_submseteq. }
  destruct (reveal_cell_safe_click fuel board fr fc Hs)
    as (b' & Hret & Hop & Hr').
  - unfold enough_fuel. by rewrite Hrows, Hcols.
  - by rewrite Hrows, Hcols.
  - by rewrite Hc.
  - by rewrite Hc.
  - by rewrite Hc.
  - exists b'. split_and!; [done | done | by eapply playable_opened].
Qed.

Lemma first_click_fuel : (Z.to_nat 2 * Z.to_nat 3 < 7)%nat.
Proof. apply Nat.ltb_lt. by vm_compute. Defined.

Lemma first_click_never_loses_witness :
  ∃ board',
    reveal_cell 7
      [[mkCell false false false 1; mkCell true false false 0;
        mkCell true false false 0];
       [mkCell false false false 1; mkCell false false false 2;
        mkCell false false false 2]] (0, 0).1 (0, 0).2
    = Returns (board', true)
    ∧ is_revealed (cell_at board' (0, 0).1 (0, 0).2) = true
    ∧ playable board'.
Proof.
  refine (first_click_never_loses (H := take_sampler) 2 3 2 (0, 0) _ 7 _
            first_click_fuel).
  by vm_compute.
Defined.

(** X26.  On a won playable position — [check_win] returns [True] — the
    solver has no safe cell left to offer. *)
Theorem won_board_no_safe_cell (board : Board) (fuel : nat)
    (safe mines : gset coord) :
  playable board →
  check_win board = true →
  solve_step fuel board = Some (safe, mines) →
  safe = ∅.
Proof.
  intros Hplay Hwin Hstep.
  destruct (playable_consistent board Hplay) as [Hc Hf].
  pose proof (solve_step_sets_sound fuel board (mines_of board) (safe, mines)
                Hc Hf Hstep) as [Hsafe _].
  pose proof (solve_step_frontier fuel board (safe, mines) Hstep) as Hfr.
  apply check_win_spec in Hwin.
  apply set_eq. intros [row col]. split; [|by intros ?%not_elem_of_empty].
  intros Hin. exfalso.
  assert (Hcell : (row, col) ∈ frontier board (board_rows board)
                                 (board_cols board) ∅ ∅).
  { apply Hfr. cbn [fst snd]. set_solver. }
  apply elem_of_frontier in Hcell as [Hb Hunk].
  apply is_unknown_spec in Hunk as (Hrev & _). cbn [fst snd] in *.
  specialize (Hsafe (row, col) Hin). unfold mines_of in Hsafe.
  cbn [fst snd] in Hsafe.
  pose proof (cell_at_Forall _ board row col (proj1 Hplay) Hwin Hb) as Hw.
  cbn beta in Hw. destruct Hw; congruence.
Qed.

Lemma won_board_no_safe_cell_witness : (∅ : gset coord) = ∅.
Proof.
  refine (won_board_no_safe_cell board_corner 4 ∅ {[ (0, 2) ]}
            board_corner_playable _ _); by vm_compute.
Defined.

(** * Playing a game to the end ([test_solver.py]) *)

(** ** The model *)

(** [for r, c in safe_cells: reveal_cell(board, r, c)]: one turn of the
    loop; the value [reveal_cell] returns is dropped. *)
Definition reveal_each (fuel : nat) (board : outcome Board) (rc : coord)
    : outcome Board :=
  match board with
  | Returns board =>
      match reveal_cell fuel board rc.1 rc.2 with
      | Returns (board, _) => Returns board
      | Raises e => Raises e
      | OutOfFuel => OutOfFuel
      end
  | Raises e => Raises e
  | OutOfFuel => OutOfFuel
  end.

(** [for r, c in mine_cells: toggle_flag(board, r, c)]: one turn. *)
Definition flag_each (board : Board) (rc : coord) : Board :=
  (toggle_flag board rc.1 rc.2).1.

(** The two [for] loops that act on the solver's answer. *)
Definition apply_moves `{SetOrder} (fuel : nat) (board : Board)
    (safe_cells mine_cells : gset coord) : outcome Board :=
  match fold_left (reveal_each fuel) (set_iter safe_cells) (Returns board) with
  | Returns board => Returns (fold_left flag_each (set_iter mine_cells) board)
  | Raises e => Raises e
  | OutOfFuel => OutOfFuel
  end.

(** [run_deterministic_until_stuck]: [rounds] is the fuel of its
    [while True] loop, [fuel] that of the loops inside the solver and the
    engine.  The board is changed in place, so the model returns it beside
    the tuple of the source. *)
Fixpoint run_deterministic_until_stuck `{SetOrder} (rounds fuel : nat)
    (board : Board) (iters total_safes total_mines : Z)
    : outcome (Board * (Z * Z * Z * bool)) :=
  match rounds with
  | O => OutOfFuel
  | S rounds =>
      match solve_step fuel board with
      | None => OutOfFuel
      | Some (safe_cells, mine_cells) =>
          if negb (nonempty_set safe_cells) && negb (nonempty_set mine_cells)
          then Returns (board,
                        (iters, total_safes, total_mines, check_win board))
          else
            match apply_moves fuel board safe_cells mine_cells with
            | Returns board =>
                let total_safes :=
                  total_safes + Z.of_nat (size safe_cells) in
                let total_mines :=
                  total_mines + Z.of_nat (size mine_cells) in
                let iters := iters + 1 in
                if check_win board
                then Returns (board, (iters, total_safes, total_mines, true))
                else run_deterministic_until_stuck rounds fuel board iters
                       total_safes total_mines
            | Raises e => Raises e
            | OutOfFuel => OutOfFuel
            end
      end
  end.

(** ** One round *)

Lemma enough_fuel_shape (b b' : Board) (fuel : nat) :
  shape b = shape b' → enough_fuel b fuel → enough_fuel b' fuel.
Proof.
  intros Hs. unfold enough_fuel.
  by rewrite (board_rows_shape _ _ Hs), (board_cols_shape _ _ Hs).
Qed.

Lemma reveal_cells_fold (fuel : nat) (board : Board) (l : list coord) :
  no_short_row board →
  enough_fuel board fuel →
  (∀ n, n ∈ l →
        in_bounds (board_rows board) (board_cols board) n = true
        ∧ is_mine (cell_at board n.1 n.2) = false
        ∧ is_flagged (cell_at board n.1 n.2) = false) →
  ∀ b, opened board b →
       ∃ b', fold_left (reveal_each fuel) l (Returns b) = Returns b'
             ∧ opened b b'
             ∧ ∀ n, n ∈ l → is_revealed (cell_at b' n.1 n.2) = true.
Proof.
  intros Hs Hfuel. induction l as [|[row col] l IH]; intros Hl b Hop.
  - exists b. split_and!; [done | apply opened_refl |].
    intros n Hn. by apply elem_of_nil in Hn.
  - destruct (Hl (row, col) ltac:(left)) as (Hb & Hm & Hf).
    cbn [fst snd] in Hm, Hf.
    destruct (in_bounds_nonneg _ _ _ Hb) as [Hr Hc]. cbn [fst snd] in Hr, Hc.
    pose proof (proj1 Hop) as Hshape.
    destruct (opened_fields board b row col Hop Hr Hc) as (Em & Ef & _ & _).
    assert (Hsb : no_short_row b)
      by (eapply no_short_row_shape; [|exact Hs]; done).
    assert (Hbb : in_bounds (board_rows b) (board_cols b) (row, col) = true)
      by (by rewrite (board_rows_shape _ _ Hshape),
                     (board_cols_shape _ _ Hshape)).
    assert (Hstep : ∃ b1, reveal_each fuel (Returns b) (row, col) = Returns b1
                          ∧ opened b b1
                          ∧ is_revealed (cell_at b1 row col) = true).
    { unfold reveal_each. cbn [fst snd].
      destruct (is_revealed (cell_at b row col)) eqn:Hrev.
      - exists b. rewrite reveal_cell_unfold.
        + cbn zeta. rewrite Hbb, Hrev. cbn [negb orb].
          split_and!; [done | apply opened_refl | done].
        + apply board_rows_pos. unfold in_bounds in Hbb.
          rewrite !andb_true_iff in Hbb.
          destruct Hbb as (((H0 & H1) & _) & _).
          apply Z.leb_le in H0. apply Z.ltb_lt in H1. cbn [fst] in *. lia.
      - destruct (reveal_cell_safe_click fuel b row col Hsb)
          as (b1 & -> & Hop1 & Hr1); try done; try congruence.
        + eapply enough_fuel_shape; [|exact Hfuel]. done.
        + by exists b1. }
    destruct Hstep as (b1 & Hstep & Hop1 & Hr1).
    destruct (IH (λ n Hn, Hl n (list_elem_of_further _ _ _ Hn)) b1
                (opened_trans _ _ _ Hop Hop1)) as (b' & Hfold & Hop' & Hall).
    exists b'. cbn [fold_left]. rewrite Hstep.
    split_and!; [done | by eapply opened_trans |].
    intros n [->|Hn]%elem_of_cons; [|by apply Hall]. cbn [fst snd].
    by apply (opened_fields b1 b' row col Hop' Hr Hc).
Qed.

Lemma flag_cells_fold (l : list coord) :
  NoDup l →
  ∀ b, no_short_row b →
       (∀ n, n ∈ l →
             in_bounds (board_rows b) (board_cols b) n = true
             ∧ is_revealed (cell_at b n.1 n.2) = false
             ∧ is_flagged (cell_at b n.1 n.2) = false) →
       shape (fold_left flag_each l b) = shape b
       ∧ ∀ r c, 0 <= r → 0 <= c →
           cell_at (fold_left flag_each l b) r c
           = if bool_decide ((r, c) ∈ l)
             then set_flagged true (cell_at b r c) else cell_at b r c.
Proof.
  induction l as [|[row col] l IH]; intros Hnd b Hs Hl.
  - split; [done|]. intros r c _ _.
    by rewrite bool_decide_eq_false_2 by apply not_elem_of_nil.
  - apply NoDup_cons in Hnd as [Hnotin Hnd].
    destruct (Hl (row, col) ltac:(left)) as (Hb & Hrev & Hfl).
    cbn [fst snd] in Hrev, Hfl.
    destruct (in_bounds_nonneg _ _ _ Hb) as [Hr Hc]. cbn [fst snd] in Hr, Hc.
    pose proof (fits_inside _ _ _ _ (no_short_row_fits b Hs) Hb) as Hins.
    set (b1 := set_cell b row col (set_flagged true)).
    assert (Hstep : flag_each b (row, col) = b1).
    { unfold flag_each, toggle_flag. cbn [fst snd].
      by rewrite Hb, Hrev, Hfl. }
    cbn [fold_left]. rewrite Hstep.
    assert (Hshape1 : shape b1 = shape b) by apply shape_set_cell.
    assert (Hcell1 : ∀ r c, 0 <= r → 0 <= c →
              cell_at b1 r c
              = if bool_decide ((r, c) = (row, col))
                then set_flagged true (cell_at b r c) else cell_at b r c).
    { intros r c Hr0 Hc0. unfold b1. by apply cell_at_set_cell. }
    destruct (IH Hnd b1) as [Hshape Hcell].
    { eapply no_short_row_shape; [|exact Hs]. done. }
    { intros n Hn. destruct (Hl n (list_elem_of_further _ _ _ Hn))
        as (Hnb & Hnr & Hnf).
      rewrite (board_rows_shape _ _ Hshape1), (board_cols_shape _ _ Hshape1).
      destruct (in_bounds_nonneg _ _ _ Hnb) as [? ?].
      rewrite (Hcell1 n.1 n.2) by done.
      rewrite bool_decide_eq_false_2; [done|].
      intros Heq. apply Hnotin. destruct n. cbn [fst snd] in Heq.
      by rewrite <- Heq. }
    split; [by rewrite Hshape|].
    intros r c Hr0 Hc0. rewrite (Hcell r c Hr0 Hc0), (Hcell1 r c Hr0 Hc0).
    destruct (decide ((r, c) = (row, col))) as [Heq|Hne].
    + rewrite (bool_decide_eq_true_2 _ Heq).
      rewrite (bool_decide_eq_true_2 ((r, c) ∈ (row, col) :: l))
        by (rewrite Heq; left).
      by destruct (bool_decide ((r, c) ∈ l)).
    + rewrite (bool_decide_eq_false_2 _ Hne).
      case_bool_decide as Hin.
      * by rewrite (bool_decide_eq_true_2 ((r, c) ∈ (row, col) :: l))
          by (by right).
      * rewrite (bool_decide_eq_false_2 ((r, c) ∈ (row, col) :: l)); [done|].
        intros [?|?]%elem_of_cons; done.
Qed.

Lemma playable_flagged (b b' : Board) (flags : gset coord) :
  playable b →
  shape b' = shape b →
  (∀ r c, 0 <= r → 0 <= c →
          cell_at b' r c
          = if bool_decide ((r, c) ∈ flags)
            then set_flagged true (cell_at b r c) else cell_at b r c) →
  (∀ n, n ∈ flags → is_mine (cell_at b n.1 n.2) = true) →
  playable b'.
Proof.
  intros (Hs & Hcount & Hrevealed & Hflags) Hshape Hcells Hmines.
  assert (Hfields : ∀ r c, 0 <= r → 0 <= c →
            is_mine (cell_at b' r c) = is_mine (cell_at b r c)
            ∧ is_revealed (cell_at b' r c) = is_revealed (cell_at b r c)
            ∧ adjacent_mines (cell_at b' r c)
              = adjacent_mines (cell_at b r c)).
  { intros r c Hr0 Hc0. rewrite (Hcells r c Hr0 Hc0).
    by case_bool_decide. }
  unfold playable, well_counted.
  rewrite (board_rows_shape _ _ Hshape), (board_cols_shape _ _ Hshape).
  split_and!.
  - eapply no_short_row_shape; [|exact Hs]. done.
  - intros r c Hrc Hm. destruct (in_bounds_nonneg _ _ _ Hrc) as [Hr0 Hc0].
    cbn [fst snd] in Hr0, Hc0.
    destruct (Hfields r c Hr0 Hc0) as (Em & _ & Ea).
    rewrite Ea, (mines_around_ext _ (mines_of b)).
    + apply Hcount; [done | congruence].
    + intros [r' c'] Hn. destruct (in_bounds_nonneg _ _ _ Hn) as [? ?].
      unfold mines_of. by apply Hfields.
  - intros r c Hrc Hr'. destruct (in_bounds_nonneg _ _ _ Hrc) as [Hr0 Hc0].
    cbn [fst snd] in Hr0, Hc0.
    destruct (Hfields r c Hr0 Hc0) as (Em & Er & _).
    rewrite Em. apply Hrevealed; [done | congruence].
  - intros r c Hrc Hf'. destruct (in_bounds_nonneg _ _ _ Hrc) as [Hr0 Hc0].
    cbn [fst snd] in Hr0, Hc0.
    destruct (Hfields r c Hr0 Hc0) as (Em & _ & _). rewrite Em.
    rewrite (Hcells r c Hr0 Hc0) in Hf'.
    case_bool_decide as Hin.
    + by apply (Hmines (r, c)).
    + by apply Hflags.
Qed.

(** What one round of the loop does to a playable position. *)
Lemma apply_moves_result `{SetOrder} (fuel : nat) (board : Board)
    (safe mines : gset coord) :
  playable board →
  enough_fuel board fuel →
  solve_step fuel board = Some (safe, mines) →
  ∃ b1 b',
    apply_moves fuel board safe mines = Returns b'
    ∧ opened board b1
    ∧ (∀ n, n ∈ safe → is_revealed (cell_at b1 n.1 n.2) = true)
    ∧ shape b' = shape b1
    ∧ (∀ r c, 0 <= r → 0 <= c →
         cell_at b' r c
         = if bool_decide ((r, c) ∈ mines)
           then set_flagged true (cell_at b1 r c) else cell_at b1 r c)
    ∧ (∀ n, n ∈ mines →
         in_bounds (board_rows board) (board_cols board) n = true
         ∧ is_mine (cell_at b1 n.1 n.2) = true).
Proof.
  intros Hplay Hfuel Hstep.
  destruct (playable_consistent board Hplay) as [Hc Hf].
  pose proof (solve_step_sets_sound fuel board (mines_of board) (safe, mines)
                Hc Hf Hstep) as [Hsafe Hmines].
  pose proof (solve_step_frontier fuel board (safe, mines) Hstep) as Hfr.
  cbn [fst snd] in *.
  assert (Hcell : ∀ n, n ∈ safe ∪ mines →
            in_bounds (board_rows board) (board_cols board) n = true
            ∧ is_revealed (cell_at board n.1 n.2) = false
            ∧ is_flagged (cell_at board n.1 n.2) = false).
  { intros n Hn. apply Hfr, elem_of_frontier in Hn as [Hb Hunk].
    apply is_unknown_spec in Hunk as (? & ? & _). done. }
  destruct (reveal_cells_fold fuel board (set_iter safe) (proj1 Hplay) Hfuel)
    with (b := board) as (b1 & Hfold & Hop & Hrev).
  { intros n Hn%elem_of_set_iter.
    destruct (Hcell n ltac:(set_solver)) as (? & ? & ?).
    split_and!; [done | by apply Hsafe | done]. }
  { apply opened_refl. }
  pose proof (proj1 Hop) as Hshape1.
  assert (Hmine1 : ∀ n, n ∈ mines →
            in_bounds (board_rows board) (board_cols board) n = true
            ∧ cell_at b1 n.1 n.2 = cell_at board n.1 n.2
            ∧ is_mine (cell_at board n.1 n.2) = true).
  { intros n Hn. destruct (Hcell n ltac:(set_solver)) as (Hb & _ & _).
    destruct (in_bounds_nonneg _ _ _ Hb) as [Hr0 Hc0].
    pose proof (Hmines n Hn) as Hm. unfold mines_of in Hm.
    split_and!; [done | | done].
    destruct Hop as [_ Hcells].
    destruct (Hcells n.1 n.2 Hr0 Hc0) as [E|(_ & ? & _)]; [done|congruence]. }
  destruct (flag_cells_fold (set_iter mines) (NoDup_set_iter mines) b1)
    as [Hshape' Hcells'].
  { eapply no_short_row_shape; [|exact (proj1 Hplay)]. done. }
  { intros n Hn%elem_of_set_iter.
    destruct (Hmine1 n Hn) as (Hb & E & _).
    destruct (Hcell n ltac:(set_solver)) as (_ & ? & ?).
    rewrite (board_rows_shape _ _ Hshape1), (board_cols_shape _ _ Hshape1), E.
    done. }
  exists b1, (fold_left flag_each (set_iter mines) b1).
  unfold apply_moves. rewrite Hfold.
  split_and!; [done | done | | done | |].
  - intros n Hn. apply Hrev. by apply elem_of_set_iter.
  - intros r c Hr0 Hc0. rewrite (Hcells' r c Hr0 Hc0).
    destruct (decide ((r, c) ∈ mines)) as [Hin|Hnin].
    + rewrite !bool_decide_eq_true_2; [done | done |].
      by apply elem_of_set_iter.
    + rewrite !bool_decide_eq_false_2; [done | done |].
      by rewrite elem_of_set_iter.
  - intros n Hn. destruct (Hmine1 n Hn) as (Hb & E & Hm).
    split; [done|]. by rewrite E.
Qed.

(** X27.  One round of play on the solver's answer: on a playable
    position, revealing every cell [solve_step] returned as safe and then
    flagging every cell it returned as a mine ends without error, leaves
    every such safe cell revealed and every such mine flagged, and leaves a
    playable position of the same shape; no mine is ever revealed. *)
Theorem apply_moves_sound `{SetOrder} (fuel : nat) (board : Board)
    (safe mines : gset coord) :
  playable board →
  enough_fuel board fuel →
  solve_step fuel board = Some (safe, mines) →
  ∃ board',
    apply_moves fuel board safe mines = Returns board'
    ∧ playable board'
    ∧ shape board' = shape board
    ∧ (∀ n, n ∈ safe → is_revealed (cell_at board' n.1 n.2) = true)
    ∧ (∀ n, n ∈ mines → is_flagged (cell_at board' n.1 n.2) = true).
Proof.
  intros Hplay Hfuel Hstep.
  destruct (apply_moves_result fuel board safe mines Hplay Hfuel Hstep)
    as (b1 & b' & Hret & Hop & Hrev & Hshape & Hcells & Hmines).
  pose proof (playable_opened _ _ Hplay Hop) as Hplay1.
  pose proof (solve_step_frontier fuel board (safe, mines) Hstep) as Hfr.
  cbn [fst snd] in Hfr.
  assert (Hnn : ∀ n, n ∈ safe ∪ mines → 0 <= n.1 ∧ 0 <= n.2).
  { intros n Hn. apply Hfr, elem_of_frontier in Hn as [Hb _].
    by apply in_bounds_nonneg in Hb. }
  exists b'. split_and!; [done | | | |].
  - apply (playable_flagged b1 b' mines Hplay1 Hshape Hcells).
    intros n Hn. by apply Hmines.
  - rewrite Hshape. apply Hop.
  - intros n Hn. destruct (Hnn n ltac:(set_solver)) as [? ?].
    rewrite (Hcells n.1 n.2) by done.
    case_bool_decide; cbn; by apply Hrev.
  - intros n Hn. destruct (Hnn n ltac:(set_solver)) as [? ?].
    rewrite (Hcells n.1 n.2) by done.
    rewrite bool_decide_eq_true_2; [done|]. by destruct n.
Qed.

Lemma apply_moves_sound_witness :
  ∃ board',
    apply_moves 5 board_safe_move {[ (0, 2) ]} ∅ = Returns board'
    ∧ playable board'
    ∧ shape board' = shape board_safe_move
    ∧ (∀ n, n ∈ ({[ (0, 2) ]} : gset coord) →
            is_revealed (cell_at board' n.1 n.2) = true)
    ∧ (∀ n, n ∈ (∅ : gset coord) →
            is_flagged (cell_at board' n.1 n.2) = true).
Proof.
  refine (apply_moves_sound 5 board_safe_move {[ (0, 2) ]} ∅
            board_safe_move_playable board_safe_move_fuel _).
  by vm_compute.
Defined.

(** ** The whole loop *)

Lemma apply_moves_frontier `{SetOrder} (fuel : nat) (board board' : Board)
    (safe mines : gset coord) :
  playable board →
  enough_fuel board fuel →
  solve_step fuel board = Some (safe, mines) →
  apply_moves fuel board safe mines = Returns board' →
  frontier board' (board_rows board') (board_cols board') ∅ ∅
  ⊆ frontier board (board_rows board) (board_cols board) ∅ ∅ ∖ (safe ∪ mines).
Proof.
  intros Hplay Hfuel Hstep Hret.
  destruct (apply_moves_result fuel board safe mines Hplay Hfuel Hstep)
    as (b1 & b' & Hret' & Hop & Hrev & Hshape & Hcells & Hmines).
  rewrite Hret in Hret'. injection Hret' as <-.
  assert (Hshape' : shape board' = shape board)
    by (rewrite Hshape; apply Hop).
  rewrite (board_rows_shape _ _ Hshape'), (board_cols_shape _ _ Hshape').
  intros n Hn. apply elem_of_frontier in Hn as [Hb Hunk].
  apply is_unknown_spec in Hunk as (Hr & Hf & _).
  destruct (in_bounds_nonneg _ _ _ Hb) as [Hr0 Hc0].
  rewrite (Hcells n.1 n.2 Hr0 Hc0) in Hr, Hf.
  destruct (opened_fields board b1 n.1 n.2 Hop Hr0 Hc0) as (_ & Ef & _ & Er).
  apply elem_of_difference. split.
  - apply elem_of_frontier. split; [done|]. apply is_unknown_spec.
    split_and!; [| | apply not_elem_of_empty..].
    + destruct (is_revealed (cell_at board n.1 n.2)) eqn:E; [|done].
      specialize (Er eq_refl). case_bool_decide; cbn in Hr; congruence.
    + rewrite <- Ef. case_bool_decide; cbn in Hf; congruence.
  - intros [Hs|Hm]%elem_of_union.
    + specialize (Hrev n Hs). case_bool_decide; cbn in Hr; congruence.
    + rewrite bool_decide_eq_true_2 in Hf by (by destruct n). done.
Qed.

Lemma run_deterministic_until_stuck_total `{SetOrder} (fuel : nat)
    (rounds : nat) :
  ∀ (board : Board) (iters total_safes total_mines : Z),
    playable board →
    enough_fuel board fuel →
    (size (frontier board (board_rows board) (board_cols board) ∅ ∅)
     < rounds)%nat →
    ∃ board' iters' safes' mines' won,
      run_deterministic_until_stuck rounds fuel board iters total_safes
        total_mines
      = Returns (board', (iters', safes', mines', won))
      ∧ playable board'
      ∧ shape board' = shape board
      ∧ won = check_win board'
      ∧ (won = false → solve_step fuel board' = Some (∅, ∅)).
Proof.
  induction rounds as [|rounds IH];
    intros board iters total_safes total_mines Hplay Hfuel Hsize; [lia|].
  cbn [run_deterministic_until_stuck].
  destruct (solve_step_terminates board) as [[safe mines] Hstep].
  specialize (Hstep fuel Hfuel). rewrite Hstep.
  destruct (negb (nonempty_set safe) && negb (nonempty_set mines)) eqn:Hstuck.
  - apply andb_true_iff in Hstuck as [Hs Hm].
    apply negb_true_iff, nonempty_set_false in Hs, Hm. subst.
    exists board, iters, total_safes, total_mines, (check_win board).
    split_and!; done.
  - destruct (apply_moves_sound fuel board safe mines Hplay Hfuel Hstep)
      as (b' & Hret & Hplay' & Hshape & _).
    pose proof (apply_moves_frontier fuel board b' safe mines Hplay Hfuel
                  Hstep Hret) as Hfr.
    rewrite Hret. cbn zeta.
    destruct (check_win b') eqn:Hwin.
    { eexists b', _, _, _, true. split_and!; done. }
    destruct (IH b' (iters + 1) (total_safes + Z.of_nat (size safe))
                (total_mines + Z.of_nat (size mines)) Hplay')
      as (b'' & i & s & m & won & Hrun & Hplay'' & Hshape'' & Hwon & Hst).
    + eapply enough_fuel_shape; [|exact Hfuel]. done.
    + assert (Hne : ∃ n, n ∈ safe ∪ mines).
      { apply andb_false_iff in Hstuck as [Hs|Hm];
          apply negb_false_iff, nonempty_set_true in Hs || 
          apply negb_false_iff, nonempty_set_true in Hm.
        - destruct Hs as [n ?]. exists n. set_solver.
        - destruct Hm as [n ?]. exists n. set_solver. }
      destruct Hne as [n Hn].
      pose proof (solve_step_frontier fuel board (safe, mines) Hstep) as Hin.
      cbn [fst snd] in Hin.
      assert (Hlt : (size (frontier b' (board_rows b') (board_cols b') ∅ ∅)
                     < size (frontier board (board_rows board)
                                      (board_cols board) ∅ ∅))%nat).
      { apply subset_size. split; [set_solver|].
        intros Hsub. specialize (Hsub n (Hin n Hn)). apply Hfr in Hsub.
        set_solver. }
      lia.
    + exists b'', i, s, m, won. split_and!; try done. by rewrite Hshape''.
Qed.

(** X28.  [run_deterministic_until_stuck] on a playable position ends —
    with a number of rounds above the number of cells — without ever
    revealing a mine: the final position is playable and of the same shape,
    the flag it returns is the verdict of [check_win] on that position, and
    when that flag is [False] the solver has nothing more to say there. *)
Theorem run_deterministic_until_stuck_sound `{SetOrder} (rounds fuel : nat)
    (board : Board) :
  playable board →
  enough_fuel board fuel →
  enough_fuel board rounds →
  ∃ board' iters safes mines won,
    run_deterministic_until_stuck rounds fuel board 0 0 0
    = Returns (board', (iters, safes, mines, won))
    ∧ playable board'
    ∧ shape board' = shape board
    ∧ won = check_win board'
    ∧ (won = false → solve_step fuel board' = Some (∅, ∅)).
Proof.
  intros Hplay Hfuel Hrounds.
  apply run_deterministic_until_stuck_total; [done | done |].
  pose proof (frontier_size board (board_rows board) (board_cols board) ∅ ∅).
  unfold enough_fuel in Hrounds. lia.
Qed.

Lemma run_deterministic_until_stuck_sound_witness :
  ∃ board' iters safes mines won,
    run_deterministic_until_stuck 5 5 board_safe_move 0 0 0
    = Returns (board', (iters, safes, mines, won))
    ∧ playable board'
    ∧ shape board' = shape board_safe_move
    ∧ won = check_win board'
    ∧ (won = false → solve_step 5 board' = Some (∅, ∅)).
Proof.
  exact (run_deterministic_until_stuck_sound 5 5 board_safe_move
           board_safe_move_playable board_safe_move_fuel
           board_safe_move_fuel).
Defined.

(** * More on the disjoint-set structure *)

(** ** [find] compresses the path, and a second [find] changes nothing *)

Lemma compresses_root (uf uf' : UnionFind) (x r : coord) (d : nat) :
  compresses uf uf' → reaches (parent uf) x r d → parent uf' !! r = Some r.
Proof.
  intros (_ & _ & _ & Hroots) Hr.
  destruct (Hroots _ _ _ Hr) as (d' & _ & Hr').
  by eapply reaches_is_root.
Qed.

(** X29.  [find] on an item whose parent chain ends at a root returns that
    root and leaves the item pointing straight at it; a second [find] of
    the same item returns the same root and changes nothing. *)
Theorem uf_find_idempotent (fuel : nat) (uf : UnionFind) (x r : coord)
    (d : nat) :
  reaches (parent uf) x r d → (d < fuel)%nat →
  ∃ uf', uf_find fuel uf x = Some (uf', r)
         ∧ parent uf' !! x = Some r
         ∧ ∀ fuel', (1 < fuel')%nat → uf_find fuel' uf' x = Some (uf', r).
Proof.
  intros Hr Hlt. destruct fuel as [|fuel]; [lia|].
  cbn [uf_find].
  rewrite (bool_decide_eq_true_2 _ (reaches_in_dom _ _ _ _ Hr)).
  inversion Hr as [y Hy | y p s e Hy Hp Hs]; subst.
  - rewrite Hy. cbn. rewrite (bool_decide_eq_true_2 (r = r)) by done. cbn.
    exists uf. split_and!; [done..|].
    intros [|fuel'] Hf; [lia|]. cbn [uf_find].
    rewrite (bool_decide_eq_true_2 _ (reaches_in_dom _ _ _ _ Hr)), Hy. cbn.
    by rewrite (bool_decide_eq_true_2 (r = r)) by done.
  - rewrite Hy. cbn. rewrite (bool_decide_eq_false_2 (p = x)) by done. cbn.
    destruct (uf_find_spec fuel uf p r e Hs ltac:(lia)) as (uf2 & Hfind & Hc).
    rewrite Hfind. cbn. rewrite lookup_insert_eq. cbn.
    assert (Hxr : x ≠ r).
    { intros ->. pose proof (reaches_is_root _ _ _ _ Hs). congruence. }
    pose proof (compresses_root _ _ _ _ _ Hc Hs) as Hroot.
    set (uf3 := mkUF (<[x := r]> (parent uf2)) (rank uf2) (uf_keys uf2)).
    exists uf3. split_and!; [done | by cbn; rewrite lookup_insert_eq |].
    intros [|[|fuel']] Hf; [lia..|]. cbn [uf_find].
    assert (Hx3 : parent uf3 !! x = Some r) by (cbn; by rewrite lookup_insert_eq).
    assert (Hr3 : parent uf3 !! r = Some r)
      by (cbn; by rewrite lookup_insert_ne).
    rewrite (bool_decide_eq_true_2 (x ∈ dom (parent uf3)))
      by (apply elem_of_dom; eauto).
    rewrite Hx3. cbn. rewrite (bool_decide_eq_false_2 (r = x)) by done. cbn.
    rewrite (bool_decide_eq_true_2 (r ∈ dom (parent uf3)))
      by (apply elem_of_dom; eauto).
    rewrite Hr3. cbn. rewrite (bool_decide_eq_true_2 (r = r)) by done. cbn.
    rewrite insert_insert_eq, lookup_insert_eq. done.
Qed.

(** A chain of three items: [(0, 0)] points at [(0, 1)], which points at
    the root [(0, 2)]. *)
Definition uf_chain : UnionFind :=
  mkUF {[ (0, 0) := (0, 1); (0, 1) := (0, 2); (0, 2) := (0, 2) ]}
       {[ (0, 0) := 0; (0, 1) := 0; (0, 2) := 0 ]}
       [(0, 0); (0, 1); (0, 2)].

Lemma uf_chain_reaches : reaches (parent uf_chain) (0, 0) (0, 2) 2.
Proof.
  apply (reaches_step _ (0, 0) (0, 1) (0, 2) 1); [by vm_compute | done |].
  apply (reaches_step _ (0, 1) (0, 2) (0, 2) 0); [by vm_compute | done |].
  apply reaches_root. by vm_compute.
Defined.

Lemma uf_chain_fuel : (2 < 3)%nat.
Proof. lia. Defined.

Lemma uf_find_idempotent_witness :
  ∃ uf', uf_find 3 uf_chain (0, 0) = Some (uf', (0, 2))
         ∧ parent uf' !! (0, 0) = Some (0, 2)
         ∧ ∀ fuel', (1 < fuel')%nat →
                    uf_find fuel' uf' (0, 0) = Some (uf', (0, 2)).
Proof.
  exact (uf_find_idempotent 3 uf_chain (0, 0) (0, 2) 2 uf_chain_reaches
           uf_chain_fuel).
Defined.

(** ** [union] merges two classes and nothing else *)

Lemma compresses_same_root (D : nat) (uf uf' : UnionFind) (y r : coord) :
  uf_wf D uf → compresses uf uf' →
  (∃ d, reaches (parent uf') y r d) ↔ (∃ d, reaches (parent uf) y r d).
Proof.
  intros [_ Hall] (Hd & _ & _ & Hroots). split.
  - intros [d Hr'].
    assert (Hy : y ∈ dom (parent uf))
      by (rewrite <- Hd; by eapply reaches_in_dom).
    destruct (Hall y Hy) as (r0 & d0 & _ & Hr0).
    destruct (Hroots _ _ _ Hr0) as (d1 & _ & Hr1).
    destruct (reaches_functional _ _ _ _ _ _ Hr' Hr1) as [-> _]. by exists d0.
  - intros [d Hr]. destruct (Hroots _ _ _ Hr) as (d' & _ & Hr'). by exists d'.
Qed.

Lemma link_same_root (D : nat) (uf : UnionFind) (w l y r : coord) :
  uf_wf D uf →
  parent uf !! w = Some w → parent uf !! l = Some l → w ≠ l →
  (∃ d, reaches (<[l := w]> (parent uf)) y r d)
  ↔ ∃ r0 d, reaches (parent uf) y r0 d
            ∧ r = if bool_decide (r0 = l) then w else r0.
Proof.
  intros [_ Hall] Hw Hl Hwl. split.
  - intros [d Hr'].
    assert (Hy : y ∈ dom (parent uf)).
    { apply reaches_in_dom in Hr'. rewrite dom_insert_L in Hr'.
      assert (l ∈ dom (parent uf)) by (apply elem_of_dom; eauto).
      set_solver. }
    destruct (Hall y Hy) as (r0 & d0 & _ & Hr0).
    pose proof (link_reaches _ w l y r0 d0 Hw Hl Hwl Hr0) as Hr1.
    destruct (reaches_functional _ _ _ _ _ _ Hr' Hr1) as [-> _].
    by exists r0, d0.
  - intros (r0 & d0 & Hr0 & ->). eexists.
    by apply (link_reaches _ w l y r0 d0 Hw Hl Hwl).
Qed.

(** What [union] leaves behind: the structure after the two [find]s, with
    one of the two roots hung below the other unless they were equal. *)
Lemma uf_union_result (fuel D : nat) (uf uf' : UnionFind) (a b : coord) :
  uf_wf D uf → a ∈ dom (parent uf) → b ∈ dom (parent uf) → (D < fuel)%nat →
  uf_union fuel uf a b = Some uf' →
  ∃ uf2 ra rb da db,
    compresses uf uf2
    ∧ reaches (parent uf) a ra da
    ∧ reaches (parent uf) b rb db
    ∧ parent uf2 !! ra = Some ra
    ∧ parent uf2 !! rb = Some rb
    ∧ ((ra = rb ∧ uf' = uf2)
       ∨ (ra ≠ rb
          ∧ (parent uf' = <[ra := rb]> (parent uf2)
             ∨ parent uf' = <[rb := ra]> (parent uf2)))).
Proof.
  intros Hwf Ha Hb Hfuel. unfold uf_union.
  destruct (proj2 Hwf a Ha) as (ra & da & Hda & Hra).
  destruct (uf_find_spec fuel uf a ra da Hra ltac:(lia)) as (uf1 & Hf1 & Hc1).
  rewrite Hf1. cbn.
  pose proof (compresses_wf _ _ _ Hwf Hc1) as Hwf1.
  destruct (proj2 Hwf b Hb) as (rb & db & Hdb & Hrb).
  destruct (proj2 (proj2 (proj2 Hc1)) _ _ _ Hrb) as (db1 & Hdb1 & Hrb1).
  destruct (uf_find_spec fuel uf1 b rb db1 Hrb1 ltac:(lia))
    as (uf2 & Hf2 & Hc2).
  rewrite Hf2. cbn.
  pose proof (compresses_wf _ _ _ Hwf1 Hc2) as Hwf2.
  pose proof (compresses_trans _ _ _ Hc1 Hc2) as Hc.
  pose proof (compresses_root _ _ _ _ _ Hc Hra) as Hroota.
  pose proof (compresses_root _ _ _ _ _ Hc Hrb) as Hrootb.
  case_bool_decide as Heq.
  { intros [= <-]. exists uf2, ra, rb, da, db. split_and!; try done.
    by left. }
  assert (is_Some (rank uf2 !! ra)) as [rank1 Hrank1].
  { apply elem_of_dom. rewrite (proj1 (proj1 Hwf2)). apply elem_of_dom. eauto. }
  assert (is_Some (rank uf2 !! rb)) as [rank2 Hrank2].
  { apply elem_of_dom. rewrite (proj1 (proj1 Hwf2)). apply elem_of_dom. eauto. }
  rewrite Hrank1, Hrank2. cbn.
  destruct (rank1 <? rank2); [|destruct (rank2 <? rank1)];
    intros [= <-]; exists uf2, ra, rb, da, db;
    (split_and!; try done); right; (split; [done|]); cbn; auto.
Qed.

(** X30.  [union] is exact: afterwards two items have the same root
    exactly when they had the same root before, or one was in the class of
    the first argument and the other in the class of the second. *)
Theorem uf_union_exact (fuel D : nat) (uf uf' : UnionFind) (a b y z : coord) :
  uf_wf D uf → a ∈ dom (parent uf) → b ∈ dom (parent uf) → (D < fuel)%nat →
  uf_union fuel uf a b = Some uf' →
  same_root (parent uf') y z
  ↔ same_root (parent uf) y z
    ∨ (same_root (parent uf) y a ∧ same_root (parent uf) z b)
    ∨ (same_root (parent uf) y b ∧ same_root (parent uf) z a).
Proof.
  intros Hwf Ha Hb Hfuel Hunion.
  destruct (uf_union_result fuel D uf uf' a b Hwf Ha Hb Hfuel Hunion)
    as (uf2 & ra & rb & da & db & Hc & Hra & Hrb & Hroota & Hrootb & Hcase).
  pose proof (compresses_wf _ _ _ Hwf Hc) as Hwf2.
  assert (Hclass : ∀ (x c rc : coord) (dc : nat),
            reaches (parent uf) c rc dc →
            same_root (parent uf) x c ↔ ∃ d, reaches (parent uf) x rc d).
  { intros x c rc dc Hrc. split.
    - intros (r & dx & dc' & Hx & Hc').
      destruct (reaches_functional _ _ _ _ _ _ Hrc Hc') as [-> _]. by exists dx.
    - intros [d Hx]. by exists rc, d, dc. }
  assert (Hlinked : ∀ w l,
            parent uf2 !! w = Some w → parent uf2 !! l = Some l → w ≠ l →
            parent uf' = <[l := w]> (parent uf2) →
            same_root (parent uf') y z
            ↔ ∃ ry rz dy dz,
                reaches (parent uf) y ry dy ∧ reaches (parent uf) z rz dz
                ∧ (if bool_decide (ry = l) then w else ry)
                  = (if bool_decide (rz = l) then w else rz)).
  { intros w l Hw Hl Hwl Hp. unfold same_root. rewrite Hp. split.
    - intros (r & dy & dz & Hy & Hz).
      destruct (proj1 (link_same_root D uf2 w l y r Hwf2 Hw Hl Hwl)
                  (ex_intro _ dy Hy)) as (ry & dy2 & Hy2 & Ey).
      destruct (proj1 (link_same_root D uf2 w l z r Hwf2 Hw Hl Hwl)
                  (ex_intro _ dz Hz)) as (rz & dz2 & Hz2 & Ez).
      destruct (proj1 (compresses_same_root D uf uf2 y ry Hwf Hc)
                  (ex_intro _ dy2 Hy2)) as [dy0 Hy0].
      destruct (proj1 (compresses_same_root D uf uf2 z rz Hwf Hc)
                  (ex_intro _ dz2 Hz2)) as [dz0 Hz0].
      exists ry, rz, dy0, dz0. split_and!; [done | done | congruence].
    - intros (ry & rz & dy & dz & Hy & Hz & E).
      destruct (proj2 (compresses_same_root D uf uf2 y ry Hwf Hc)
                  (ex_intro _ dy Hy)) as [dy2 Hy2].
      destruct (proj2 (compresses_same_root D uf uf2 z rz Hwf Hc)
                  (ex_intro _ dz Hz)) as [dz2 Hz2].
      destruct (proj2 (link_same_root D uf2 w l y _ Hwf2 Hw Hl Hwl)
                  (ex_intro _ ry (ex_intro _ dy2 (conj Hy2 eq_refl))))
        as [dy' Hy'].
      destruct (proj2 (link_same_root D uf2 w l z _ Hwf2 Hw Hl Hwl)
                  (ex_intro _ rz (ex_intro _ dz2 (conj Hz2 eq_refl))))
        as [dz' Hz'].
      rewrite <- E in Hz'. by eexists _, _, _. }
  rewrite !(Hclass _ a ra da Hra), !(Hclass _ b rb db Hrb).
  destruct Hcase as [[<- ->]|[Hne [Hp|Hp]]].
  - split.
    + intros (r & dy & dz & Hy & Hz).
      destruct (proj1 (compresses_same_root D uf uf2 y r Hwf Hc)
                  (ex_intro _ dy Hy)) as [dy0 Hy0].
      destruct (proj1 (compresses_same_root D uf uf2 z r Hwf Hc)
                  (ex_intro _ dz Hz)) as [dz0 Hz0].
      left. by exists r, dy0, dz0.
    + intros Hcases.
      assert (Hyz : same_root (parent uf) y z).
      { destruct Hcases as [?|[[[dy Hy] [dz Hz]]|[[dy Hy] [dz Hz]]]];
          [done | by exists ra, dy, dz | by exists ra, dy, dz]. }
      by apply (proj2 (proj2 (compresses_coarsens _ _ Hc))).
  - rewrite (Hlinked rb ra Hrootb Hroota ltac:(done) Hp). split.
    + intros (ry & rz & dy & dz & Hy & Hz & E).
      repeat case_bool_decide; subst.
      * left. by exists ra, dy, dz.
      * right; left. split; by eexists.
      * right; right. split; by eexists.
      * left. by exists rz, dy, dz.
    + intros [(r & dy & dz & Hy & Hz)|[[[dy Hy] [dz Hz]]|[[dy Hy] [dz Hz]]]].
      * by exists r, r, dy, dz.
      * exists ra, rb, dy, dz. split_and!; [done..|].
        rewrite bool_decide_eq_true_2 by done.
        by rewrite bool_decide_eq_false_2 by done.
      * exists rb, ra, dy, dz. split_and!; [done..|].
        rewrite (bool_decide_eq_false_2 (rb = ra)) by done.
        by rewrite bool_decide_eq_true_2 by done.
  - rewrite (Hlinked ra rb Hroota Hrootb ltac:(done) Hp). split.
    + intros (ry & rz & dy & dz & Hy & Hz & E).
      repeat case_bool_decide; subst.
      * left. by exists rb, dy, dz.
      * right; right. split; by eexists.
      * right; left. split; by eexists.
      * left. by exists rz, dy, dz.
    + intros [(r & dy & dz & Hy & Hz)|[[[dy Hy] [dz Hz]]|[[dy Hy] [dz Hz]]]].
      * by exists r, r, dy, dz.
      * exists ra, rb, dy, dz. split_and!; [done..|].
        rewrite (bool_decide_eq_false_2 (ra = rb)) by done.
        by rewrite bool_decide_eq_true_2 by done.
      * exists rb, ra, dy, dz. split_and!; [done..|].
        rewrite bool_decide_eq_true_2 by done.
        by rewrite (bool_decide_eq_false_2 (ra = rb)) by done.
Qed.

(** Two items, each in a class of its own. *)
Definition uf_pair : UnionFind := foldl uf_add uf_new [(0, 0); (0, 1)].

Lemma uf_pair_wf : uf_wf 0 uf_pair.
Proof. apply foldl_uf_add_spec, uf_new_wf. Defined.

Lemma uf_pair_first : (0, 0) ∈ dom (parent uf_pair).
Proof. by apply (bool_decide_unpack _); vm_compute. Defined.

Lemma uf_pair_second : (0, 1) ∈ dom (parent uf_pair).
Proof. by apply (bool_decide_unpack _); vm_compute. Defined.

Lemma uf_pair_fuel : (0 < 1)%nat.
Proof. lia. Defined.

Lemma uf_union_exact_witness :
  same_root
    (parent (mkUF {[ (0, 0) := (0, 0); (0, 1) := (0, 0) ]}
                  {[ (0, 0) := 1; (0, 1) := 0 ]} [(0, 0); (0, 1)]))
    (0, 0) (0, 1)
  ↔ same_root (parent uf_pair) (0, 0) (0, 1)
    ∨ (same_root (parent uf_pair) (0, 0) (0, 0)
       ∧ same_root (parent uf_pair) (0, 1) (0, 1))
    ∨ (same_root (parent uf_pair) (0, 0) (0, 1)
       ∧ same_root (parent uf_pair) (0, 1) (0, 0)).
Proof.
  apply (uf_union_exact 1 0 uf_pair _ (0, 0) (0, 1) (0, 0) (0, 1) uf_pair_wf
           uf_pair_first uf_pair_second uf_pair_fuel).
  by vm_compute.
Defined.

(** * The solver as a program on the caller's board *)

(** ** Programs that run on a board *)

(** The board is an object the solver shares with its caller: a program
    that is handed the board can read its cells and can assign to their
    fields, and the caller sees every assignment.  A program is therefore a
    function from the board as it finds it to its result and the board as
    it leaves it. *)
Definition Run (A : Type) : Type := Board → A * Board.

#[global] Instance run_ret : MRet Run := λ A a board, (a, board).

#[global] Instance run_bind : MBind Run :=
  λ A B k m board, let '(a, board1) := m board in k a board1.

(** [len(board)] *)
Definition load_rows : Run Z := λ board, (board_rows board, board).

(** [len(board[0]) if rows > 0 else 0] *)
Definition load_cols : Run Z := λ board, (board_cols board, board).

(** [board[row][col]], read. *)
Definition load (row col : Z) : Run Cell :=
  λ board, (cell_at board row col, board).

(** [board[row][col].field = v], the assignment the engine makes in
    [reveal_cell] and [toggle_flag]. *)
Definition store (row col : Z) (f : Cell → Cell) : Run unit :=
  λ board, (tt, set_cell board row col f).

(** [for x in l: body], acting on the local variables [s]. *)
Fixpoint for_each {S X : Type} (body : S → X → Run S) (l : list X) (s : S)
    : Run S :=
  match l with
  | [] => mret s
  | x :: l => s1 ← body s x; for_each body l s1
  end.

(** ** The solver, statement by statement *)

Module OnBoard.

(** One turn of [for d_row, d_col in DIRECTIONS] in
    [_generate_constraints]. *)
Definition gen_direction (rows cols : Z)
    (known_safe known_mines : gset coord) (row col : Z)
    (st : gset coord * Z) (d : Z * Z) : Run (gset coord * Z) :=
  let '(unknown_neighbors, known_mine_count) := st in
  let n_row := row + d.1 in
  let n_col := col + d.2 in
  if in_bounds rows cols (n_row, n_col) then
    n_cell ← load n_row n_col;
    mret (if bool_decide ((n_row, n_col) ∈ known_mines) || is_flagged n_cell
          then (unknown_neighbors, known_mine_count + 1)
          else if negb (is_revealed n_cell)
                  && negb (bool_decide ((n_row, n_col) ∈ known_safe))
          then (unknown_neighbors ∪ {[ (n_row, n_col) ]}, known_mine_count)
          else st)
  else mret st.

Definition gen_cell (rows cols : Z) (known_safe known_mines : gset coord)
    (constraints : list constraint) (row col : Z) : Run (list constraint) :=
  cell ← load row col;
  if negb (is_revealed cell) || is_mine cell || (adjacent_mines cell =? 0)
  then mret constraints
  else
    '(unknown_neighbors, known_mine_count) ←
      for_each (gen_direction rows cols known_safe known_mines row col)
               DIRECTIONS (∅, 0);
    mret (if nonempty_set unknown_neighbors then
            let remaining_mines := adjacent_mines cell - known_mine_count in
            constraints ++ [(unknown_neighbors, remaining_mines)]
          else constraints).

Definition _generate_constraints (rows cols : Z)
    (known_safe known_mines : gset coord) : Run (list constraint) :=
  for_each
    (λ constraints row,
       for_each
         (λ constraints col,
            gen_cell rows cols known_safe known_mines constraints row col)
         (seqZ 0 cols) constraints)
    (seqZ 0 rows) [].

(** One turn of [for d_row, d_col in DIRECTIONS] in [_apply_basic_rules]. *)
Definition basic_direction (rows cols : Z)
    (known_safe known_mines : gset coord) (row col : Z)
    (st : list coord * Z) (d : Z * Z) : Run (list coord * Z) :=
  let '(unrevealed_n_cells, flagged_cell_count) := st in
  let n_row := row + d.1 in
  let n_col := col + d.2 in
  if in_bounds rows cols (n_row, n_col) then
    n_cell ← load n_row n_col;
    mret (if negb (is_revealed n_cell) then
            if is_flagged n_cell || bool_decide ((n_row, n_col) ∈ known_mines)
            then (unrevealed_n_cells, flagged_cell_count + 1)
            else if negb (bool_decide ((n_row, n_col) ∈ known_safe))
                    && negb (bool_decide ((n_row, n_col) ∈ known_mines))
            then (unrevealed_n_cells ++ [(n_row, n_col)], flagged_cell_count)
            else st
          else st)
  else mret st.

Definition basic_cell (rows cols : Z) (known_safe known_mines : gset coord)
    (st : gset coord * gset coord) (row col : Z)
    : Run (gset coord * gset coord) :=
  let '(safe_cells, mine_cells) := st in
  cell ← load row col;
  if negb (is_revealed cell) || is_mine cell then mret st
  else
    '(unrevealed_n_cells, flagged_cell_count) ←
      for_each (basic_direction rows cols known_safe known_mines row col)
               DIRECTIONS ([], 0);
    mret (if negb (bool_decide (unrevealed_n_cells = []))
             && (adjacent_mines cell
                   =? flagged_cell_count
                      + Z.of_nat (length unrevealed_n_cells))
          then (safe_cells,
                add_unless_known known_mines unrevealed_n_cells mine_cells)
          else if negb (bool_decide (unrevealed_n_cells = []))
                  && (adjacent_mines cell =? flagged_cell_count)
          then (add_unless_known known_safe unrevealed_n_cells safe_cells,
                mine_cells)
          else st).

Definition _apply_basic_rules (rows cols : Z)
    (known_safe known_mines : gset coord) : Run (gset coord * gset coord) :=
  for_each
    (λ st row,
       for_each
         (λ st col, basic_cell rows cols known_safe known_mines st row col)
         (seqZ 0 cols) st)
    (seqZ 0 rows) (∅, ∅).

(** The [while flag:] loop of [_apply_csp_solver].  One pass works on the
    local lists and sets only ([csp_pass]); the board is touched where the
    constraints are generated again. *)
Fixpoint csp_loop (fuel : nat) (rows cols : Z)
    (known_safe known_mines : gset coord) (constraints : list constraint)
    (safe_cells mine_cells : gset coord)
    : Run (option (gset coord * gset coord)) :=
  match fuel with
  | O => mret None
  | S fuel' =>
      let st := csp_pass constraints safe_cells mine_cells in
      constraints1 ←
        (if ps_flag st
            && (nonempty_set (ps_safe st) || nonempty_set (ps_mine st))
         then _generate_constraints rows cols
                (known_safe ∪ ps_safe st) (known_mines ∪ ps_mine st)
         else mret (ps_new st));
      if ps_flag st then
        csp_loop fuel' rows cols known_safe known_mines constraints1
                 (ps_safe st) (ps_mine st)
      else mret (Some (ps_safe st, ps_mine st))
  end.

Definition _apply_csp_solver (fuel : nat) (rows cols : Z)
    (known_safe known_mines : gset coord)
    : Run (option (gset coord * gset coord)) :=
  constraints ← _generate_constraints rows cols known_safe known_mines;
  if bool_decide (constraints = []) then mret (Some (∅, ∅))
  else csp_loop fuel rows cols known_safe known_mines constraints ∅ ∅.

(** The first [while flag:] loop of [solve_step]. *)
Fixpoint basic_loop (fuel : nat) (rows cols : Z)
    (safe_cells mine_cells : gset coord)
    : Run (option (gset coord * gset coord)) :=
  match fuel with
  | O => mret None
  | S fuel' =>
      '(new_safe, new_mines) ←
        _apply_basic_rules rows cols safe_cells mine_cells;
      if nonempty_set new_safe || nonempty_set new_mines then
        basic_loop fuel' rows cols
                   (safe_cells ∪ new_safe) (mine_cells ∪ new_mines)
      else mret (Some (safe_cells, mine_cells))
  end.

Definition solve_step (fuel : nat)
    : Run (option (gset coord * gset coord)) :=
  rows ← load_rows;
  cols ← load_cols;
  r ← basic_loop fuel rows cols ∅ ∅;
  match r with
  | None => mret None
  | Some (safe_cells, mine_cells) =>
      r ← _apply_csp_solver fuel rows cols safe_cells mine_cells;
      match r with
      | None => mret None
      | Some (csp_safe, csp_mines) =>
          mret (Some (safe_cells ∪ csp_safe, mine_cells ∪ csp_mines))
      end
  end.

End OnBoard.

(** ** Programs that only read *)

(** [m] leaves the board as it found it and returns [f] of it. *)
Definition reads_as {A : Type} (m : Run A) (f : Board → A) : Prop :=
  ∀ board, m board = (f board, board).

Lemma reads_ret {A : Type} (a : A) : reads_as (mret a) (λ _, a).
Proof. done. Qed.

Lemma reads_bind {A B : Type} (m : Run A) (k : A → Run B)
    (f : Board → A) (g : A → Board → B) :
  reads_as m f → (∀ a, reads_as (k a) (g a)) →
  reads_as (m ≫= k) (λ board, g (f board) board).
Proof.
  intros Hm Hk board. unfold mbind, run_bind. rewrite (Hm board).
  apply Hk.
Qed.

Lemma reads_load (row col : Z) :
  reads_as (load row col) (λ board, cell_at board row col).
Proof. done. Qed.

Lemma reads_for_each {S X : Type} (body : S → X → Run S)
    (step : Board → S → X → S) (l : list X) :
  (∀ s x, reads_as (body s x) (λ board, step board s x)) →
  ∀ s, reads_as (for_each body l s) (λ board, fold_left (step board) l s).
Proof.
  intros Hbody. induction l as [|x l IH]; intros s board; [done|].
  cbn [for_each fold_left]. unfold mbind, run_bind.
  rewrite (Hbody s x board). apply IH.
Qed.

(** An assignment is seen by the caller: [store] is not a program that only
    reads. *)
Lemma store_is_seen :
  ¬ ∃ f, reads_as (store 0 0 set_revealed) f.
Proof.
  intros [f Hf]. specialize (Hf [[hidden]]). by vm_compute in Hf.
Qed.

(** ** Every statement of the solver only reads *)

Lemma gen_direction_reads rows cols ks km row col st d :
  reads_as (OnBoard.gen_direction rows cols ks km row col st d)
           (λ board, gen_direction board rows cols ks km row col st d).
Proof.
  intros board. unfold OnBoard.gen_direction, gen_direction.
  destruct st as [U k].
  destruct (in_bounds rows cols (row + d.1, col + d.2)); done.
Qed.

Lemma gen_cell_reads rows cols ks km constraints row col :
  reads_as (OnBoard.gen_cell rows cols ks km constraints row col)
           (λ board, gen_cell board rows cols ks km constraints row col).
Proof.
  intros board. unfold OnBoard.gen_cell, gen_cell, mbind, run_bind, load.
  destruct (negb (is_revealed (cell_at board row col))
            || is_mine (cell_at board row col)
            || (adjacent_mines (cell_at board row col) =? 0)); [done|].
  rewrite (reads_for_each _ _ DIRECTIONS
             (gen_direction_reads rows cols ks km row col) (∅, 0) board).
  by destruct (fold_left _ DIRECTIONS (∅, 0)).
Qed.

Lemma generate_constraints_reads rows cols ks km :
  reads_as (OnBoard._generate_constraints rows cols ks km)
           (λ board, _generate_constraints board rows cols ks km).
Proof.
  unfold OnBoard._generate_constraints, _generate_constraints.
  apply (reads_for_each _
           (λ board constraints row,
              fold_left
                (λ constraints col,
                   gen_cell board rows cols ks km constraints row col)
                (seqZ 0 cols) constraints)).
  intros constraints row.
  apply (reads_for_each _
           (λ board constraints col,
              gen_cell board rows cols ks km constraints row col)).
  intros constraints' col. apply gen_cell_reads.
Qed.

Lemma basic_direction_reads rows cols ks km row col st d :
  reads_as (OnBoard.basic_direction rows cols ks km row col st d)
           (λ board, basic_direction board rows cols ks km row col st d).
Proof.
  intros board. unfold OnBoard.basic_direction, basic_direction.
  destruct st as [U k].
  destruct (in_bounds rows cols (row + d.1, col + d.2)); done.
Qed.

Lemma basic_cell_reads rows cols ks km st row col :
  reads_as (OnBoard.basic_cell rows cols ks km st row col)
           (λ board, basic_cell board rows cols ks km st row col).
Proof.
  intros board. unfold OnBoard.basic_cell, basic_cell, mbind, run_bind, load.
  destruct st as [safe mine].
  destruct (negb (is_revealed (cell_at board row col))
            || is_mine (cell_at board row col)); [done|].
  rewrite (reads_for_each _ _ DIRECTIONS
             (basic_direction_reads rows cols ks km row col) ([], 0) board).
  by destruct (fold_left _ DIRECTIONS ([], 0)).
Qed.

Lemma apply_basic_rules_reads rows cols ks km :
  reads_as (OnBoard._apply_basic_rules rows cols ks km)
           (λ board, _apply_basic_rules board rows cols ks km).
Proof.
  unfold OnBoard._apply_basic_rules, _apply_basic_rules.
  apply (reads_for_each _
           (λ board st row,
              fold_left
                (λ st col, basic_cell board rows cols ks km st row col)
                (seqZ 0 cols) st)).
  intros st row.
  apply (reads_for_each _
           (λ board st col, basic_cell board rows cols ks km st row col)).
  intros st' col. apply basic_cell_reads.
Qed.

Lemma csp_loop_reads fuel rows cols ks km :
  ∀ constraints safe mine,
    reads_as (OnBoard.csp_loop fuel rows cols ks km constraints safe mine)
             (λ board,
                csp_loop fuel board rows cols ks km constraints safe mine).
Proof.
  induction fuel as [|fuel IH]; intros constraints safe mine board; [done|].
  cbn [OnBoard.csp_loop csp_loop]. unfold mbind, run_bind.
  set (st := csp_pass constraints safe mine).
  destruct (ps_flag st) eqn:Hflag; cbn [andb].
  - destruct (nonempty_set (ps_safe st) || nonempty_set (ps_mine st)).
    + rewrite (generate_constraints_reads rows cols _ _ board). apply IH.
    + apply IH.
  - done.
Qed.

Lemma apply_csp_solver_reads fuel rows cols ks km :
  reads_as (OnBoard._apply_csp_solver fuel rows cols ks km)
           (λ board, _apply_csp_solver fuel board rows cols ks km).
Proof.
  intros board. unfold OnBoard._apply_csp_solver, _apply_csp_solver.
  unfold mbind, run_bind.
  rewrite (generate_constraints_reads rows cols ks km board).
  case_bool_decide; [done|]. apply csp_loop_reads.
Qed.

Lemma basic_loop_reads fuel rows cols :
  ∀ safe mine,
    reads_as (OnBoard.basic_loop fuel rows cols safe mine)
             (λ board, basic_loop fuel board rows cols safe mine).
Proof.
  induction fuel as [|fuel IH]; intros safe mine board; [done|].
  cbn [OnBoard.basic_loop basic_loop]. unfold mbind, run_bind.
  rewrite (apply_basic_rules_reads rows cols safe mine board).
  destruct (_apply_basic_rules board rows cols safe mine)
    as [new_safe new_mines].
  destruct (nonempty_set new_safe || nonempty_set new_mines); [apply IH|done].
Qed.

(** The whole of [solve_step] only reads: it hands the board back as it
    found it, and what it returns is a function of the board. *)
Lemma solve_step_reads fuel :
  reads_as (OnBoard.solve_step fuel) (λ board, solve_step fuel board).
Proof.
  intros board. unfold OnBoard.solve_step, solve_step.
  unfold mbind, run_bind, load_rows, load_cols.
  rewrite (basic_loop_reads fuel (board_rows board) (board_cols board) ∅ ∅
             board).
  destruct (basic_loop fuel board (board_rows board) (board_cols board) ∅ ∅)
    as [[safe mine]|]; [|done].
  rewrite (apply_csp_solver_reads fuel (board_rows board) (board_cols board)
             safe mine board).
  by destruct (_apply_csp_solver fuel board (board_rows board)
                 (board_cols board) safe mine) as [[cs cm]|].
Qed.

(** C4.  Two calls of [solve_step] in a row, the second on the board the
    first one leaves behind, without applying what the first returned:
    both calls return, they return the same pair of sets, and after each
    of them every cell of the board is as it was before. *)
Theorem solve_step_twice (board : Board) :
  no_short_row board →
  ∃ r, ∀ fuel1 fuel2,
    enough_fuel board fuel1 → enough_fuel board fuel2 →
    let '(r1, board1) := OnBoard.solve_step fuel1 board in
    let '(r2, board2) := OnBoard.solve_step fuel2 board1 in
    r1 = Some r ∧ r2 = Some r ∧ board1 = board ∧ board2 = board.
Proof.
  intros _. destruct (solve_step_terminates board) as [r Hr].
  exists r. intros fuel1 fuel2 H1 H2.
  rewrite (solve_step_reads fuel1 board), (solve_step_reads fuel2 board).
  by rewrite (Hr fuel1 H1), (Hr fuel2 H2).
Qed.

Lemma solve_step_twice_witness :
  ∃ r, ∀ fuel1 fuel2,
    enough_fuel board_121 fuel1 → enough_fuel board_121 fuel2 →
    let '(r1, board1) := OnBoard.solve_step fuel1 board_121 in
    let '(r2, board2) := OnBoard.solve_step fuel2 board1 in
    r1 = Some r ∧ r2 = Some r ∧ board1 = board_121 ∧ board2 = board_121.
Proof. exact (solve_step_twice board_121 board_121_no_short_row). Defined.
